(** * The networks of [models.py]: a shallow embedding

    The dialogue emotion networks (attention modules, step cell, sequence
    runner, bidirectional model, masked loss) and the view networks of the
    partial multi-view part.

    Tensors are nested lists of real numbers: a vector is [list R], a
    (batch x width) matrix is a list of vectors, and so on.  The arithmetic
    of the networks is read over the reals; the two divisions the source
    writes itself (the renormalisation of the masked attention and the
    normalisation of the masked loss) are partial: a division by zero gives
    no real number, which is how the NaN/Inf of the tensor library shows up
    in this development.  Python exceptions are a result type.

    Limits of the representation.  A nested list with no element along its
    first axis does not record its other extents, so the statements below
    take at least one timestep and one batch item.  Operations check that
    their arguments agree in shape and raise otherwise; the broadcasting of
    singleton axes is not modelled.  Parameter tensors are read by index
    with 0 for a missing entry, so a layer has the declared output width
    whatever the parameter store holds. *)

From Stdlib Require Import Reals Lra Lia String Bool Arith ZArith DecimalString List.
From Stdlib Require DecimalNat DecimalFacts.
Import ListNotations.

(** ** Exceptions *)

Inductive exn : Type :=
| AssertionError
| AttributeError
| IndexError
| RuntimeError
| TypeError
| ValueError
| NotANumber.

Inductive exc (A : Type) : Type :=
| Ok (a : A)
| Raise (e : exn).

Arguments Ok {A} a.
Arguments Raise {A} e.

Definition bind {A B : Type} (m : exc A) (k : A -> exc B) : exc B :=
  match m with
  | Ok a => k a
  | Raise e => Raise e
  end.

Notation "x <- m ;; k" := (bind m (fun x => k))
  (at level 61, m at next level, right associativity).
Notation "' p <- m ;; k" := (bind m (fun x => match x with p => k end))
  (at level 61, p pattern, m at next level, right associativity).

(** [assert] of Python. *)
Definition assert (b : bool) : exc unit :=
  if b then Ok tt else Raise AssertionError.

(** A shape requirement of a tensor operation. *)
Definition check (b : bool) : exc unit :=
  if b then Ok tt else Raise RuntimeError.

Fixpoint mapM {A B : Type} (f : A -> exc B) (l : list A) : exc (list B) :=
  match l with
  | [] => Ok []
  | a :: l' => b <- f a ;; bs <- mapM f l' ;; Ok (b :: bs)
  end.

Definition is_ok {A : Type} (m : exc A) : bool :=
  match m with Ok _ => true | Raise _ => false end.

(** ** Tensors as nested lists *)

Abbreviation vec := (list R).

Definition imap {A B : Type} (f : nat -> A -> B) (l : list A) : list B :=
  map (fun p => f (fst p) (snd p)) (combine (seq 0 (length l)) l).

Definition map2 {A B C : Type} (f : A -> B -> C) (a : list A) (b : list B) : list C :=
  map (fun p => f (fst p) (snd p)) (combine a b).

(** [X.size(1)] and [X.size(2)] of a rectangular tensor. *)
Definition size1 {A : Type} (X : list (list A)) : nat := length (hd [] X).
Definition size2 {A : Type} (X : list (list (list A))) : nat := size1 (hd [] X).

(** [x] is a rectangular tensor of the given extents. *)
Definition has_shape2 {A : Type} (n d : nat) (x : list (list A)) : bool :=
  (length x =? n)%nat && forallb (fun r => (length r =? d)%nat) x.

Definition has_shape3 {A : Type} (n p d : nat) (x : list (list (list A))) : bool :=
  (length x =? n)%nat && forallb (has_shape2 p d) x.

Local Open Scope R_scope.

Definition Rsum (v : vec) : R := fold_right Rplus 0 v.
Definition zeros (n : nat) : vec := repeat 0 n.
Definition ones (n : nat) : vec := repeat 1 n.
Definition vmul (a b : vec) : vec := map2 Rmult a b.
Definition dot (a b : vec) : R := Rsum (vmul a b).

(** The largest entry of a row. *)
Definition Rmax_list (v : vec) : R := fold_right Rmax (hd 0 v) v.

(** Underflow of the exponential.  The tensor library computes [exp] in
    floating point, where it is exactly 0 for an argument far enough below
    zero: from about -104 on for the 32-bit floats of [torch.FloatTensor],
    from about -745 on for 64-bit floats.  This is the one effect of floating
    point this development follows, since it turns a positive weight into
    the weight 0; rounding and overflow are not followed.  The statements
    below do not depend on the exact threshold: where they assume that a
    weight is kept, they take an argument of 0, and where they show one
    lost, an argument of -1000. *)
Definition exp_underflow : R := 104.

Definition fl_exp (x : R) : R :=
  if Rle_dec x (- exp_underflow) then 0 else exp x.

(** [F.softmax] along one axis, computed as the library does: the largest
    entry is subtracted before the exponential is taken. *)
Definition softmax (v : vec) : vec :=
  let e := map (fun s => fl_exp (s - Rmax_list v)) v in
  map (fun x => x / Rsum e) e.

(** [F.log_softmax] along one axis. *)
Definition log_softmax (v : vec) : vec :=
  map (fun s => s - ln (Rsum (map exp v))) v.

Definition relu (x : R) : R := Rmax 0 x.
Definition sigmoid (x : R) : R := 1 / (1 + exp (- x)).

(** [torch.argmax] along one axis: the index of the first maximal entry;
    an empty axis raises. *)
Fixpoint argmax_from (best_i : nat) (best : R) (i : nat) (v : vec) : nat :=
  match v with
  | [] => best_i
  | x :: v' =>
      if Rlt_dec best x then argmax_from i x (S i) v'
      else argmax_from best_i best (S i) v'
  end.

Definition argmax_idx (v : vec) : nat :=
  match v with
  | [] => 0%nat
  | x :: v' => argmax_from 0%nat x 1%nat v'
  end.

Definition argmax (v : vec) : exc nat :=
  match v with
  | [] => Raise IndexError
  | _ => Ok (argmax_idx v)
  end.

(** A value the tensor library may fail to define: [None] stands for the
    NaN or Inf that a division by zero produces. *)
Definition fval := option R.

Definition fdiv (x y : R) : fval :=
  if Req_dec_T y 0 then None else Some (x / y).

(** Sum of products with possibly undefined left factors: undefined as soon
    as one factor is. *)
Fixpoint fdot (a : list fval) (m : vec) : fval :=
  match a, m with
  | x :: a', y :: m' =>
      match x, fdot a' m' with
      | Some x, Some s => Some (x * y + s)
      | _, _ => None
      end
  | _, _ => Some 0
  end.

(** Reading possibly undefined values as reals.  [NotANumber] is not a
    Python exception: it marks that an undefined value reached a computation
    which this development follows over the reals only. *)
Definition finite (v : list fval) : exc vec :=
  mapM (fun x => match x with Some r => Ok r | None => Raise NotANumber end) v.

(** ** Parameters and library layers *)

(** The parameter tensors of a model, by name, as in a state dictionary. *)
Record params : Type := {
  matrix : string -> list vec;
  vector : string -> vec
}.

(** [nn.Linear]. *)
Record Linear : Type := {
  in_features : nat;
  out_features : nat;
  weight : list vec;
  bias : option vec
}.

Definition nn_Linear (th : params) (name : string) (i o : nat) (b : bool) : Linear :=
  {| in_features := i;
     out_features := o;
     weight := matrix th (name ++ ".weight")%string;
     bias := if b then Some (vector th (name ++ ".bias")%string) else None |}.

Definition Linear_out (L : Linear) (x : vec) : vec :=
  map (fun j => dot (nth j (weight L) []) x
                + match bias L with Some b => nth j b 0 | None => 0 end)
      (seq 0 (out_features L)).

Definition Linear_forward (L : Linear) (x : vec) : exc vec :=
  _ <- check (length x =? in_features L)%nat ;;
  Ok (Linear_out L x).

(** [nn.GRUCell]: reset gate, update gate and candidate read rows
    [j], [H + j] and [2H + j] of the stacked parameter tensors. *)
Record GRUCell : Type := {
  input_size : nat;
  hidden_size : nat;
  weight_ih : list vec;
  weight_hh : list vec;
  bias_ih : vec;
  bias_hh : vec
}.

Definition nn_GRUCell (th : params) (name : string) (i h : nat) : GRUCell :=
  {| input_size := i;
     hidden_size := h;
     weight_ih := matrix th (name ++ ".weight_ih")%string;
     weight_hh := matrix th (name ++ ".weight_hh")%string;
     bias_ih := vector th (name ++ ".bias_ih")%string;
     bias_hh := vector th (name ++ ".bias_hh")%string |}.

Definition gru_gate_i (c : GRUCell) (k : nat) (x : vec) : R :=
  dot (nth k (weight_ih c) []) x + nth k (bias_ih c) 0.

Definition gru_gate_h (c : GRUCell) (k : nat) (h : vec) : R :=
  dot (nth k (weight_hh c) []) h + nth k (bias_hh c) 0.

Definition gru_unit (c : GRUCell) (x h : vec) (j : nat) : R :=
  let H := hidden_size c in
  let r := sigmoid (gru_gate_i c j x + gru_gate_h c j h) in
  let z := sigmoid (gru_gate_i c (H + j) x + gru_gate_h c (H + j) h) in
  let n := tanh (gru_gate_i c (2 * H + j) x + r * gru_gate_h c (2 * H + j) h) in
  (1 - z) * n + z * nth j h 0.

Definition GRUCell_out (c : GRUCell) (x h : vec) : vec :=
  map (gru_unit c x h) (seq 0 (hidden_size c)).

Definition GRUCell_step (c : GRUCell) (x h : vec) : exc vec :=
  _ <- check (length x =? input_size c)%nat ;;
  _ <- check (length h =? hidden_size c)%nat ;;
  Ok (GRUCell_out c x h).

(** A cell applied to a batch: as many hidden rows as input rows. *)
Definition GRUCell_forward (c : GRUCell) (x h : list vec) : exc (list vec) :=
  _ <- check (length x =? length h)%nat ;;
  mapM (fun p => GRUCell_step c (fst p) (snd p)) (combine x h).

(** [nn.Dropout] multiplies every entry by the entry of a mask drawn for
    the call: 0 or 1/(1-p) in training, 1 in evaluation. *)
Definition dropout1 (m : nat -> R) (x : vec) : vec :=
  imap (fun d v => v * m d) x.
Definition dropout2 (m : nat -> nat -> R) (x : list vec) : list vec :=
  imap (fun b row => dropout1 (m b) row) x.
Definition dropout3 (m : nat -> nat -> nat -> R) (x : list (list vec)) : list (list vec) :=
  imap (fun b rows => dropout2 (m b) rows) x.

(** ** SimpleAttention *)

Record SimpleAttention : Type := {
  input_dim : nat;
  scalar : Linear
}.

Definition SimpleAttention_init (th : params) (name : string) (input_dim : nat)
  : SimpleAttention :=
  {| input_dim := input_dim;
     scalar := nn_Linear th (name ++ ".scalar")%string input_dim 1 false |}.

(** Row [b] of [M.transpose(0, 1)]. *)
Definition batch_row (M : list (list vec)) (b : nat) : list vec :=
  map (fun Mt => nth b Mt []) M.

(** Column [d] of a (seq_len x width) matrix. *)
Definition column (Mb : list vec) (d : nat) : vec :=
  map (fun m => nth d m 0) Mb.

(** [torch.bmm(alpha, M.transpose(0, 1))[:, 0, :]] for real weights. *)
Definition attn_pool (alpha : list vec) (M : list (list vec)) : list vec :=
  imap (fun b a => map (fun d => dot a (column (batch_row M b) d)) (seq 0 (size2 M)))
       alpha.

Definition SimpleAttention_forward (att : SimpleAttention) (M : list (list vec))
  : exc (list vec * list vec) :=
  scale <- mapM (mapM (Linear_forward (scalar att))) M ;;
  let alpha :=
    map (fun b => softmax (map (fun st => hd 0 (nth b st [])) scale))
        (seq 0 (size1 M)) in
  Ok (attn_pool alpha M, alpha).

(** ** MatchingAttention *)

Record MatchingAttention : Type := {
  mem_dim : nat;
  cand_dim : nat;
  att_type : string;
  transform : option Linear;
  vector_prod : option Linear
}.

Definition is_some {A : Type} (o : option A) : bool :=
  match o with Some _ => true | None => false end.

Definition MatchingAttention_init (th : params) (name : string)
    (mem_dim cand_dim : nat) (alpha_dim : option nat) (att_type : string)
  : exc MatchingAttention :=
  _ <- assert (negb (att_type =? "concat")%string || is_some alpha_dim) ;;
  _ <- assert (negb (att_type =? "dot")%string || (mem_dim =? cand_dim)%nat) ;;
  let tr0 :=
    if (att_type =? "general")%string
    then Some (nn_Linear th (name ++ ".transform")%string cand_dim mem_dim false)
    else None in
  '(tr, vp) <-
    (if (att_type =? "general2")%string
     then Ok (Some (nn_Linear th (name ++ ".transform")%string cand_dim mem_dim true), None)
     else if (att_type =? "concat")%string
     then match alpha_dim with
          | Some a =>
              Ok (Some (nn_Linear th (name ++ ".transform")%string (cand_dim + mem_dim) a false),
                  Some (nn_Linear th (name ++ ".vector_prod")%string a 1 false))
          | None => Raise TypeError
          end
     else Ok (tr0, None)) ;;
  Ok {| mem_dim := mem_dim;
        cand_dim := cand_dim;
        att_type := att_type;
        transform := tr;
        vector_prod := vp |}.

(** Reading an attribute that [__init__] did not set. *)
Definition getattr {A : Type} (o : option A) : exc A :=
  match o with
  | Some a => Ok a
  | None => Raise AttributeError
  end.

(** [torch.bmm(x_, M_)] with [M_ = M.permute(1, 2, 0)]: entry (b, t) is the
    product of row [b] of [x_] with [M[t][b]]. *)
Definition bmm_scores (x_ : list vec) (M : list (list vec)) : exc (list vec) :=
  _ <- check (length x_ =? size1 M)%nat ;;
  _ <- check (size1 x_ =? size2 M)%nat ;;
  Ok (imap (fun b xb => map (fun m => dot xb m) (batch_row M b)) x_).

(** The pooled vectors for weights that may be undefined. *)
Definition fattn_pool (alpha : list (list fval)) (M : list (list vec))
  : list (list fval) :=
  imap (fun b a => map (fun d => fdot a (column (batch_row M b) d)) (seq 0 (size2 M)))
       alpha.

Definition defined (v : vec) : list fval := map Some v.

(** The masked renormalisation of the [general2] variant, for one row. *)
Definition general2_row (scores mask : vec) : list fval :=
  let alpha_ := softmax (vmul scores mask) in
  let alpha_masked := vmul alpha_ mask in
  let alpha_sum := Rsum alpha_masked in
  map (fun a => fdiv a alpha_sum) alpha_masked.

(** The mask [forward] works with: [torch.ones(M.size(1), M.size(0))] when
    none is given. *)
Definition effective_mask (M : list (list vec)) (mask : option (list vec)) : list vec :=
  match mask with
  | None => repeat (ones (length M)) (size1 M)
  | Some m => m
  end.

(** [mask.unsqueeze(1)] against scores of [B] batch items and [T]
    timesteps: a mask of a single row is broadcast over the batch, rows of a
    single entry over the timesteps. *)
Definition broadcast_mask (B T : nat) (mask : list vec) : list vec :=
  map (fun r => if (length r =? 1)%nat then repeat (hd 0 r) T else r)
      (if (length mask =? 1)%nat then repeat (hd [] mask) B else mask).

(** [forward]; the weights are returned as a (batch x seq_len) matrix, the
    singleton middle axis of the source is left out.  The [print] of the
    [general2] branch is not modelled.  A mask that, after broadcasting, has
    more rows or entries than the scores makes the final [torch.bmm]
    raise. *)
Definition MatchingAttention_forward (att : MatchingAttention)
    (M : list (list vec)) (x : list vec) (mask : option (list vec))
  : exc (list (list fval) * list (list fval)) :=
  let mask := effective_mask M mask in
  alpha <-
    (if (att_type att =? "dot")%string then
       s <- bmm_scores x M ;;
       Ok (map (fun r => defined (softmax r)) s)
     else if (att_type att =? "general")%string then
       tr <- getattr (transform att) ;;
       x_ <- mapM (Linear_forward tr) x ;;
       s <- bmm_scores x_ M ;;
       Ok (map (fun r => defined (softmax r)) s)
     else if (att_type att =? "general2")%string then
       tr <- getattr (transform att) ;;
       x_ <- mapM (Linear_forward tr) x ;;
       s <- bmm_scores x_ M ;;
       _ <- check (has_shape2 (length s) (length M)
                              (broadcast_mask (length s) (length M) mask)) ;;
       Ok (map2 general2_row s (broadcast_mask (length s) (length M) mask))
     else
       _ <- check (length x =? size1 M)%nat ;;
       let M_x_ := imap (fun b xb => map (fun m => m ++ xb) (batch_row M b)) x in
       tr <- getattr (transform att) ;;
       mx_a <- mapM (mapM (fun mx => y <- Linear_forward tr mx ;; Ok (map tanh y))) M_x_ ;;
       vp <- getattr (vector_prod att) ;;
       s <- mapM (mapM (Linear_forward vp)) mx_a ;;
       Ok (map (fun r => defined (softmax (map (hd 0) r))) s)) ;;
  Ok (fattn_pool alpha M, alpha).

(** ** Party selector *)

(** [_select_parties]: row [i] of the result is [X[i][indices[i]]];
    [torch.cat] of an empty list raises. *)
Definition _select_parties {A : Type} (X : list (list A)) (indices : list nat)
  : exc (list A) :=
  q0_sel <- mapM (fun p => match nth_error (snd p) (fst p) with
                           | Some r => Ok r
                           | None => Raise IndexError
                           end) (combine indices X) ;;
  match q0_sel with
  | [] => Raise RuntimeError
  | _ => Ok q0_sel
  end.

(** ** Shapes *)

Definition zeros2 (n d : nat) : list vec := repeat (zeros d) n.
Definition zeros3 (n p d : nat) : list (list vec) := repeat (zeros2 p d) n.

(** [torch.cat([a, b], dim=1)] of two matrices. *)
Definition cat_cols (a b : list vec) : exc (list vec) :=
  _ <- check (length a =? length b)%nat ;;
  Ok (map2 (@app R) a b).

(** [torch.cat([a, b], dim=-1)] of two rank-3 tensors. *)
Definition cat_last (a b : list (list vec)) : exc (list (list vec)) :=
  _ <- check ((length a =? length b)%nat && (size1 a =? size1 b)%nat) ;;
  Ok (map2 (map2 (@app R)) a b).

(** ** Dialogue step cell *)

(** The emotion state is a (batch x party x D_e) tensor in party-attention
    mode and a (batch x D_e) tensor otherwise. *)
Inductive estate : Type :=
| E2 (e : list vec)
| E3 (e : list (list vec)).

Definition e_size0 (e : estate) : nat :=
  match e with
  | E2 x => length x
  | E3 x => length x
  end.

(** Truth value of [self.party_attention] in [if self.party_attention:]. *)
Definition truthy (pa : option string) : bool :=
  match pa with
  | Some s => negb (s =? "")%string
  | None => false
  end.

Record DialogueRNNCell : Type := {
  cell_D_m : nat;
  cell_D_g : nat;
  cell_D_p : nat;
  cell_D_e : nat;
  cell_party : nat;
  cell_party_attention : option string;
  g_cell : GRUCell;
  p_cell : GRUCell;
  e_cell : GRUCell;
  attention : option MatchingAttention;
  attention_p1 : option MatchingAttention;
  attention_p2 : option MatchingAttention
}.

Definition DialogueRNNCell_init (th : params) (name : string)
    (D_m D_g D_p D_e party : nat)
    (context_attention party_attention : option string) (D_a : nat)
  : exc DialogueRNNCell :=
  let g := nn_GRUCell th (name ++ ".g_cell")%string (D_m + D_p + D_e) D_g in
  let p := nn_GRUCell th (name ++ ".p_cell")%string (D_m + D_g + D_e) D_p in
  let e :=
    match party_attention with
    | None => nn_GRUCell th (name ++ ".e_cell")%string D_p D_e
    | Some _ => nn_GRUCell th (name ++ ".e_cell")%string (D_p + D_p + D_g) D_e
    end in
  att <-
    match context_attention with
    | Some s =>
        a <- MatchingAttention_init th (name ++ ".attention")%string D_g D_m (Some D_a) s ;;
        Ok (Some a)
    | None => Ok None
    end ;;
  '(p1, p2) <-
    match party_attention with
    | Some s =>
        a1 <- MatchingAttention_init th (name ++ ".attention_p1")%string D_p D_m (Some D_a) s ;;
        a2 <- MatchingAttention_init th (name ++ ".attention_p2")%string D_p D_m (Some D_a) s ;;
        Ok (Some a1, Some a2)
    | None => Ok (None, None)
    end ;;
  Ok {| cell_D_m := D_m; cell_D_g := D_g; cell_D_p := D_p; cell_D_e := D_e;
        cell_party := party; cell_party_attention := party_attention;
        g_cell := g; p_cell := p; e_cell := e;
        attention := att; attention_p1 := p1; attention_p2 := p2 |}.

(** The dropout masks drawn during one call of the cell. *)
Record cell_noise : Type := {
  drop_g : nat -> nat -> R;
  drop_q : nat -> nat -> nat -> R;
  drop_es : nat -> nat -> nat -> R;
  drop_e : nat -> nat -> R
}.

(** [old * (1 - m) + new * m] on one party row. *)
Definition blend (m : R) (old new : vec) : vec :=
  map2 (fun o n => o * (1 - m) + n * m) old new.

(** [ql_ * (1 - qmask_) + qs_ * qmask_] with [qmask_ = qmask.unsqueeze(2)].
    The three tensors must agree in shape; broadcasting of singleton axes
    is not modelled. *)
Definition merge_rows (ql qs : list (list vec)) (qmask : list vec) : list (list vec) :=
  map2 (fun lb mb => map2 (fun on m => blend m (fst on) (snd on))
                          (combine (fst lb) (snd lb)) mb)
       (combine ql qs) qmask.

Definition merge (ql qs : list (list vec)) (qmask : list vec) : exc (list (list vec)) :=
  let n := length ql in
  let p := size1 ql in
  let d := size2 ql in
  _ <- check (has_shape3 n p d ql && has_shape3 n p d qs && has_shape2 n p qmask) ;;
  Ok (merge_rows ql qs qmask).

(** A recurrent cell on the rows of [x.view(-1, _)] and [h.view(-1, _)],
    regrouped by batch item. *)
Definition gru3 (c : GRUCell) (x h : list (list vec)) : exc (list (list vec)) :=
  _ <- check (length x =? length h)%nat ;;
  mapM (fun p => GRUCell_forward c (fst p) (snd p)) (combine x h).

(** Python indexing of an axis of extent [n] by a possibly negative index. *)
Definition py_index (n : nat) (i : Z) : exc nat :=
  if ((0 <=? i) && (i <? Z.of_nat n))%Z then Ok (Z.to_nat i)
  else if ((i <? 0) && (- Z.of_nat n <=? i))%Z then Ok (Z.to_nat (Z.of_nat n + i))
  else Raise IndexError.

(** [att(q_hist[:, :, i, :], U)[0]], stored into [Q[:, p, :]]. *)
Definition party_pool (att : option MatchingAttention) (D_p : nat)
    (q_hist : list (list (list vec))) (U : list vec) (i : Z) : exc (list vec) :=
  a <- getattr att ;;
  k <- py_index (size2 q_hist) i ;;
  r <- MatchingAttention_forward a (map (map (fun ps => nth k ps [])) q_hist) U None ;;
  Q_ <- mapM finite (fst r) ;;
  _ <- check (has_shape2 (length U) D_p Q_) ;;
  Ok Q_.

(** The tensor whose slice [[:, p, :]] is the [p]-th matrix of [Qs]. *)
Definition gather (n : nat) (Qs : list (list vec)) : list (list vec) :=
  map (fun b => map (fun Q_ => nth b Q_ []) Qs) (seq 0 n).

(** Lines 139-144: empty carried-in states are replaced by zeros. *)
Definition init_q0 (cell : DialogueRNNCell) (qmask : list vec) (q0 : list (list vec))
  : list (list vec) :=
  if (length q0 =? 0)%nat
  then zeros3 (length qmask) (cell_party cell) (cell_D_p cell)
  else q0.

Definition init_e0 (cell : DialogueRNNCell) (qmask : list vec) (e0 : estate) : estate :=
  if truthy (cell_party_attention cell)
  then (if (e_size0 e0 =? 0)%nat
        then E3 (zeros3 (length qmask) (cell_party cell) (cell_D_e cell)) else e0)
  else (if (e_size0 e0 =? 0)%nat
        then E2 (zeros2 (length qmask) (cell_D_e cell)) else e0).

(** [forward].  [if self.party_attention:] is [truthy], [is not None] is
    the match on the option.  Tensors of another rank than the branch
    expects raise, as the first [torch.cat] or [view] on them does; the
    kind of exception is not distinguished. *)
Definition DialogueRNNCell_forward (cell : DialogueRNNCell) (nz : cell_noise)
    (U qmask : list vec) (g_hist : list (list vec)) (q0 : list (list vec))
    (q_hist : list (list (list vec))) (e0 : estate)
  : exc (list vec * list (list vec) * estate * estate * option (list (list fval))) :=
  let D_g := cell_D_g cell in
  let D_p := cell_D_p cell in
  let party := cell_party cell in
  let pa := cell_party_attention cell in
  let e0 := init_e0 cell qmask e0 in
  let q0 := init_q0 cell qmask q0 in
  qm_idx <- mapM argmax qmask ;;
  q0_sel <- _select_parties q0 qm_idx ;;
  e0_sel <-
    (if truthy pa
     then match e0 with
          | E3 e => _select_parties e qm_idx
          | E2 e => _ <- _select_parties e qm_idx ;; Raise RuntimeError
          end
     else match e0 with
          | E2 e => Ok e
          | E3 _ => Raise RuntimeError
          end) ;;
  inp <- cat_cols U q0_sel ;;
  inp <- cat_cols inp e0_sel ;;
  g_ <- GRUCell_forward (g_cell cell) inp
          (match g_hist with
           | [] => zeros2 (length U) D_g
           | _ => last g_hist []
           end) ;;
  let g_ := dropout2 (drop_g nz) g_ in
  let g_hist := g_hist ++ [g_] in
  gc_alpha <-
    match g_hist with
    | [] => Ok (zeros2 (length U) D_g, None)
    | _ =>
        att <- getattr (attention cell) ;;
        r <- MatchingAttention_forward att g_hist U None ;;
        gc_ <- mapM finite (fst r) ;;
        Ok (gc_, Some (snd r))
    end ;;
  let gc_ := fst gc_alpha in
  let alpha := snd gc_alpha in
  ugc <- cat_cols U gc_ ;;
  ugc <- cat_cols ugc e0_sel ;;
  let U_gc_ := map (fun r => repeat r (size1 qmask)) ugc in
  qs_ <- gru3 (p_cell cell) U_gc_ q0 ;;
  let qs_ := dropout3 (drop_q nz) qs_ in
  q_ <- merge q0 qs_ qmask ;;
  let q_hist := q_hist ++ [q_] in
  e_ <-
    match pa with
    | Some _ =>
        QQp <-
          match q_hist with
          | [] => Ok (zeros3 (length U) party D_p, zeros3 (length U) party D_p)
          | _ =>
              Qs <- mapM (fun p =>
                            Q1 <- party_pool (attention_p1 cell) D_p q_hist U (1 - Z.of_nat p) ;;
                            Q2 <- party_pool (attention_p2 cell) D_p q_hist U (Z.of_nat p) ;;
                            Ok (Q1, Q2)) (seq 0 party) ;;
              Ok (gather (length U) (map fst Qs), gather (length U) (map snd Qs))
          end ;;
        _ <- check (party =? size1 qmask)%nat ;;
        let U_Q := map2 (fun QQ g => map2 (fun q qp => q ++ qp ++ g) (fst QQ) (snd QQ))
                        (combine (fst QQp) (snd QQp)) g_ in
        match e0 with
        | E3 el_ =>
            es_ <- gru3 (e_cell cell) U_Q el_ ;;
            let es_ := dropout3 (drop_es nz) es_ in
            e_ <- merge el_ es_ qmask ;;
            Ok (E3 e_)
        | E2 _ =>
            (* a rank-2 state here needs the empty string as party
               attention, whose attention modules have raised above *)
            Raise RuntimeError
        end
    | None =>
        sel <- _select_parties q_ qm_idx ;;
        e_ <- GRUCell_forward (e_cell cell) sel e0_sel ;;
        Ok (E2 (dropout2 (drop_e nz) e_))
    end ;;
  e_out <-
    (if truthy pa
     then match e_ with
          | E3 e => s <- _select_parties e qm_idx ;; Ok (E2 s)
          | E2 _ => Raise RuntimeError
          end
     else Ok e_) ;;
  Ok (g_, q_, e_, e_out, alpha).

(** ** Dialogue sequence runner *)

Record DialogueRNN : Type := {
  rnn_D_m : nat;
  rnn_D_g : nat;
  rnn_D_p : nat;
  rnn_D_e : nat;
  rnn_party_attention : option string;
  dialogue_cell : DialogueRNNCell
}.

Definition DialogueRNN_init (th : params) (name : string)
    (D_m D_g D_p D_e party : nat)
    (context_attention party_attention : option string) (D_a : nat)
  : exc DialogueRNN :=
  cell <- DialogueRNNCell_init th (name ++ ".dialogue_cell")%string
            D_m D_g D_p D_e party context_attention party_attention D_a ;;
  Ok {| rnn_D_m := D_m; rnn_D_g := D_g; rnn_D_p := D_p; rnn_D_e := D_e;
        rnn_party_attention := party_attention;
        dialogue_cell := cell |}.

Definition estate_shape (e : estate) : nat * nat * nat * nat :=
  match e with
  | E2 x => (2, length x, size1 x, 0)%nat
  | E3 x => (3, length x, size1 x, size2 x)%nat
  end.

Definition shape_eqb (a b : nat * nat * nat * nat) : bool :=
  let '(a1, a2, a3, a4) := a in
  let '(b1, b2, b3, b4) := b in
  ((a1 =? b1) && (a2 =? b2) && (a3 =? b3) && (a4 =? b4))%nat.

(** [torch.stack]: the list must be non-empty and its tensors of one shape;
    the stacked tensor is the list of its slices. *)
Definition stack (l : list estate) : exc (list estate) :=
  match l with
  | [] => Raise RuntimeError
  | x :: _ =>
      _ <- check (forallb (fun y => shape_eqb (estate_shape x) (estate_shape y)) l) ;;
      Ok l
  end.

(** The loop of [DialogueRNN.forward] from timestep [t] on.  The history
    arguments of the cell are the two empty tensors created before the loop:
    the loop never assigns [g_hist] or [q_hist]. *)
Fixpoint DialogueRNN_loop (rnn : DialogueRNN) (noise : nat -> cell_noise) (t : nat)
    (steps : list (list vec * list vec)) (q_ : list (list vec)) (e_ : estate)
  : exc (list estate * list estate * list (list (list fval))) :=
  match steps with
  | [] => Ok ([], [], [])
  | (u_, qmask_) :: steps' =>
      r <- DialogueRNNCell_forward (dialogue_cell rnn) (noise t) u_ qmask_ [] q_ [] e_ ;;
      let '(g_, q_, e_, c_, alpha_) := r in
      e_t <-
        match rnn_party_attention rnn with
        | Some _ =>
            qm_idx <- mapM argmax qmask_ ;;
            match e_ with
            | E3 e3 => e_party <- _select_parties e3 qm_idx ;; Ok (E2 e_party)
            | E2 e2 => _ <- _select_parties e2 qm_idx ;; Raise RuntimeError
            end
        | None => Ok e_
        end ;;
      rest <- DialogueRNN_loop rnn noise (S t) steps' q_ e_ ;;
      let '(e, c, alpha) := rest in
      Ok (e_t :: e, c_ :: c,
          match alpha_ with
          | Some a => a :: alpha
          | None => alpha
          end)
  end.

Definition DialogueRNN_forward (rnn : DialogueRNN) (noise : nat -> cell_noise)
    (U qmask : list (list vec))
  : exc (list estate * list estate * list (list (list fval))) :=
  r <- DialogueRNN_loop rnn noise 0 (combine U qmask) [] (E2 []) ;;
  let '(e, c, alpha) := r in
  e <- stack e ;;
  c <- stack c ;;
  Ok (e, c, alpha).

(** ** Length-respecting reversal *)

(** [.int()] of a float: rounding towards zero.  The 32-bit range of the
    result is not followed: the sums converted here are counts of
    timesteps. *)
Definition trunc (r : R) : Z :=
  if Rle_dec 0 r then Int_part r else (- Int_part (- r))%Z.

(** [x[:c]]. *)
Definition slice_to {A : Type} (c : Z) (x : list A) : list A :=
  if (0 <=? c)%Z then firstn (Z.to_nat c) x
  else firstn (length x - Z.to_nat (- c)) x.

(** [pad_sequence] of sequences of vectors of width [d]: time-major, padded
    with zeros to the longest sequence. *)
Definition pad_sequence (d : nat) (xfs : list (list vec)) : exc (list (list vec)) :=
  match xfs with
  | [] => Raise RuntimeError
  | _ =>
      let max_len := fold_right Nat.max 0%nat (map (@length vec) xfs) in
      Ok (map (fun t => map (fun xf => nth t xf (zeros d)) xfs) (seq 0 max_len))
  end.

Definition _reverse_seq (X : list (list vec)) (mask : list vec) : exc (list (list vec)) :=
  let X_ := map (batch_row X) (seq 0 (size1 X)) in
  let mask_sum := map (fun r => trunc (Rsum r)) mask in
  let xfs := map (fun p => rev (slice_to (snd p) (fst p))) (combine X_ mask_sum) in
  pad_sequence (size2 X) xfs.

(** ** Bidirectional emotion model *)

Record Model : Type := {
  model_D_e : nat;
  model_party_attention : option string;
  dialog_rnn_f : DialogueRNN;
  dialog_rnn_b : DialogueRNN;
  linear1 : Linear;
  linear2 : Linear;
  smax_fc : Linear;
  matchatt : MatchingAttention
}.

Definition Model_init (th : params) (D_h D_g D_p D_e D_y party n_classes : nat)
    (context_attention party_attention : option string) (D_a : nat)
  : exc Model :=
  f <- DialogueRNN_init th "dialog_rnn_f" D_h D_g D_p D_e party
         context_attention party_attention D_a ;;
  b <- DialogueRNN_init th "dialog_rnn_b" D_h D_g D_p D_e party
         context_attention party_attention D_a ;;
  m <- MatchingAttention_init th "matchatt" D_e D_e None "general2" ;;
  Ok {| model_D_e := D_e;
        model_party_attention := party_attention;
        dialog_rnn_f := f;
        dialog_rnn_b := b;
        linear1 := nn_Linear th "linear1" (2 * D_e) D_y true;
        linear2 := nn_Linear th "linear2" D_y (D_y / 2) true;
        smax_fc := nn_Linear th "smax_fc" (D_y / 2) n_classes true;
        matchatt := m |}.

(** The dropout masks drawn during one call of the model. *)
Record model_noise : Type := {
  noise_f : nat -> cell_noise;
  noise_b : nat -> cell_noise;
  drop_rec_f : nat -> nat -> nat -> R;
  drop_rec_b : nat -> nat -> nat -> R;
  drop_hidden : nat -> nat -> nat -> R
}.

(** A stacked runner output as a rank-3 tensor. *)
Definition rank3 (l : list estate) : exc (list (list vec)) :=
  mapM (fun e => match e with E2 x => Ok x | E3 _ => Raise RuntimeError end) l.

Definition option_string_eqb (a : option string) (s : string) : bool :=
  match a with
  | Some x => (x =? s)%string
  | None => false
  end.

(** Lines 327-334 of [Model.forward]: what is fed to the classification
    head. *)
Definition Model_hidden (m : Model) (emotions : list (list vec))
    (umask : list vec) (att2 : bool) : exc (list (list vec)) :=
  if att2 && option_string_eqb (model_party_attention m) "simple" then
    att_emotions <-
      mapM (fun t =>
              r <- MatchingAttention_forward (matchatt m) emotions t (Some umask) ;;
              mapM finite (fst r)) emotions ;;
    h <- mapM (mapM (Linear_forward (linear1 m))) att_emotions ;;
    Ok (map (map (map relu)) h)
  else
    h <- mapM (mapM (Linear_forward (linear1 m))) emotions ;;
    Ok (map (map (map relu)) h).

Definition Model_forward (m : Model) (nz : model_noise)
    (U qmask : list (list vec)) (umask : option (list vec)) (att2 : bool)
  : exc (list (list vec) * list (list vec)) :=
  rf <- DialogueRNN_forward (dialog_rnn_f m) (noise_f nz) U qmask ;;
  let '(emotions_f, c_f, _) := rf in
  emotions_f <- rank3 emotions_f ;;
  c_f <- rank3 c_f ;;
  let emotions_f := dropout3 (drop_rec_f nz) emotions_f in
  umask <- match umask with Some u => Ok u | None => Raise TypeError end ;;
  rev_U <- _reverse_seq U umask ;;
  rev_qmask <- _reverse_seq qmask umask ;;
  rb <- DialogueRNN_forward (dialog_rnn_b m) (noise_b nz) rev_U rev_qmask ;;
  let '(emotions_b, c_b, _) := rb in
  emotions_b <- rank3 emotions_b ;;
  c_b <- rank3 c_b ;;
  emotions_b <- _reverse_seq emotions_b umask ;;
  let emotions_b := dropout3 (drop_rec_b nz) emotions_b in
  emotions <- cat_last emotions_f emotions_b ;;
  c <- cat_last c_f c_b ;;
  hidden <- Model_hidden m emotions umask att2 ;;
  h2 <- mapM (mapM (Linear_forward (linear2 m))) hidden ;;
  let hidden := dropout3 (drop_hidden nz) (map (map (map relu)) h2) in
  logits <- mapM (mapM (Linear_forward (smax_fc m))) hidden ;;
  Ok (map (map log_softmax) logits, c).

(** ** Masked loss *)

(** [nn.NLLLoss(weight, reduction='sum')] with its default [ignore_index]. *)
Definition nll_term (w : option vec) (row : vec) (t : Z) : exc R :=
  if (t =? -100)%Z then Ok 0
  else if ((0 <=? t) && (t <? Z.of_nat (length row)))%Z then
    Ok (- (match w with Some w => nth (Z.to_nat t) w 0 | None => 1 end
           * nth (Z.to_nat t) row 0))
  else Raise IndexError.

(** A batch of another size than the targets is a [ValueError] of
    [nn.NLLLoss]; class weights of another length than the rows a
    [RuntimeError]. *)
Definition nll_loss_sum (w : option vec) (pred : list vec) (target : list Z) : exc R :=
  _ <- (if (length pred =? length target)%nat then Ok tt else Raise ValueError) ;;
  _ <- check (match w with Some w => (length w =? size1 pred)%nat | None => true end) ;;
  terms <- mapM (fun p => nll_term w (fst p) (snd p)) (combine pred target) ;;
  Ok (Rsum terms).

(** [self.weight[target]] for one target. *)
Definition weight_at (w : vec) (t : Z) : exc R :=
  k <- py_index (length w) t ;;
  Ok (nth k w 0).

(** [pred * mask_] with [mask_ = mask.view(-1, 1)]: row [i] of [pred] times
    entry [i] of the mask.  When the two differ in their number of rows, a
    single mask entry or a single row is broadcast over the other; any other
    mismatch raises. *)
Definition mul_rows (pred : list vec) (mask_ : vec) : exc (list vec) :=
  if (length pred =? length mask_)%nat
  then Ok (map2 (fun row m => map (fun x => x * m) row) pred mask_)
  else if (length mask_ =? 1)%nat
  then Ok (map (fun row => map (fun x => x * hd 0 mask_) row) pred)
  else if (length pred =? 1)%nat
  then Ok (map (fun m => map (fun x => x * m) (hd [] pred)) mask_)
  else Raise RuntimeError.

(** [self.weight[target] * mask_.squeeze()]: entrywise, a single entry
    being broadcast over the other vector. *)
Definition mul_weights (wt mask_ : vec) : exc vec :=
  if (length wt =? length mask_)%nat then Ok (vmul wt mask_)
  else if (length mask_ =? 1)%nat then Ok (map (fun w => w * hd 0 mask_) wt)
  else if (length wt =? 1)%nat then Ok (map (fun m => hd 0 wt * m) mask_)
  else Raise RuntimeError.

Definition MaskedNLLLoss_forward (weight : option vec)
    (pred : list vec) (target : list Z) (mask : list vec) : exc fval :=
  let mask_ := concat mask in
  masked <- mul_rows pred mask_ ;;
  num <- nll_loss_sum weight masked target ;;
  match weight with
  | None => Ok (fdiv num (Rsum mask_))
  | Some w =>
      wt <- mapM (weight_at w) target ;;
      prod <- mul_weights wt mask_ ;;
      Ok (fdiv num (Rsum prod))
  end.

(** ** Concrete instances *)

(** All parameter tensors zero: missing rows and entries read as 0. *)
Definition th0 : params :=
  {| matrix := fun _ => []; vector := fun _ => [] |}.

(** Width 1 everywhere: every weight 1, every bias 0. *)
Definition th1 : params :=
  {| matrix := fun _ => [[1]]; vector := fun _ => [0] |}.

(** Evaluation mode: every dropout mask is 1. *)
Definition eval_noise : cell_noise :=
  {| drop_g := fun _ _ => 1;
     drop_q := fun _ _ _ => 1;
     drop_es := fun _ _ _ => 1;
     drop_e := fun _ _ => 1 |}.

(** The variant names [MatchingAttention.forward] has a branch for. *)
Definition known_att_type (s : string) : Prop :=
  s = "dot"%string \/ s = "general"%string \/ s = "general2"%string \/ s = "concat"%string.

(** A weight row over [T] positions: non-negative entries summing to 1. *)
Definition row_ok (T : nat) (w : vec) : Prop :=
  length w = T /\ Forall (fun x => 0 <= x) w /\ Rsum w = 1.

(** The sum of the entries of [w] at the positions where the mask is not 0. *)
Definition valid_sum (w mask : vec) : R :=
  Rsum (map2 (fun x m => if Req_dec_T m 0 then 0 else x) w mask).

(** A validity mask row: non-negative entries, not all of them zero. *)
Definition valid_mask_row (m : vec) : Prop :=
  Forall (fun x => 0 <= x) m /\ Exists (fun x => x <> 0) m.

(** The scores of the [general2] variant before the mask is applied: entry
    (b, t) is the product of the transformed query of batch item [b] with
    [M[t][b]]. *)
Definition general2_scores (att : MatchingAttention) (M : list (list vec))
    (x : list vec) : list vec :=
  match transform att with
  | Some tr =>
      imap (fun b xb => map (fun m => dot xb m) (batch_row M b)) (map (Linear_out tr) x)
  | None => []
  end.

(** The largest of the masked scores [scores * mask] of a row stands at a
    position that the mask keeps, with an entry of at least 1 (for a mask of
    zeros and ones: at a valid position).  The masked score of a position
    that the mask removes is 0, so unless the mask removes no position this
    asks for a kept position whose masked score is not negative and largest
    among the kept ones. *)
Definition peak_valid (scores mask : vec) : Prop :=
  exists i, (i < length mask)%nat /\ 1 <= nth i mask 0 /\
            nth i (vmul scores mask) 0 = Rmax_list (vmul scores mask).

(** The weights of the masked renormalisation where its divisor is not 0. *)
Definition general2_weights (scores mask : vec) : vec :=
  let alpha_masked := vmul (softmax (vmul scores mask)) mask in
  map (fun a => a / Rsum alpha_masked) alpha_masked.


(** The masked loss as the specification words it: over the valid
    positions only, the summed negative log-likelihood divided by the number
    of valid positions or, with class weights, by the sum of the weights of
    their targets. *)
Definition valid_positions (mask_ : vec) : list nat :=
  filter (fun i => if Req_dec_T (nth i mask_ 0) 1 then true else false)
         (seq 0 (length mask_)).

Definition class_weight (w : option vec) (t : Z) : R :=
  match w with
  | Some w => nth (Z.to_nat t) w 0
  | None => 1
  end.

Definition masked_nll_spec (w : option vec) (pred : list vec) (target : list Z)
    (mask : list vec) : fval :=
  let V := valid_positions (concat mask) in
  fdiv (Rsum (map (fun i => - (class_weight w (nth i target 0%Z)
                               * nth (Z.to_nat (nth i target 0%Z)) (nth i pred []) 0)) V))
       (Rsum (map (fun i => class_weight w (nth i target 0%Z)) V)).

(** The valid length [_reverse_seq] reads off row [b] of the mask. *)
Definition valid_len (mask : list vec) (b : nat) : Z :=
  trunc (Rsum (nth b mask [])).

(** The one-hot speaker mask of speaker [k] among [party] speakers. *)
Definition one_hot (party k : nat) : vec :=
  zeros k ++ 1 :: zeros (party - S k).

(** Every row of a batch of speaker masks is one-hot. *)
Definition one_hot_rows (party : nat) (qmask : list vec) : Prop :=
  Forall (fun r => exists k, (k < party)%nat /\ r = one_hot party k) qmask.

(** Configurations whose attention variants [MatchingAttention] implements
    and whose party count the party-attention indexing supports. *)
Definition valid_config (D_m D_g D_p party : nat) (ca pa : option string) : Prop :=
  (exists s, ca = Some s /\ known_att_type s /\ (s = "dot"%string -> D_g = D_m)) /\
  match pa with
  | None => (1 <= party)%nat
  | Some s => known_att_type s /\ (s = "dot"%string -> D_p = D_m) /\ (2 <= party)%nat
  end.

(** A carried-in emotion state: empty, or of the shape of the mode. *)
Definition e_state_ok (pa : option string) (B party D_e : nat) (e0 : estate) : Prop :=
  e0 = E2 [] \/ e0 = E3 [] \/
  match pa with
  | None => exists e, e0 = E2 e /\ has_shape2 B D_e e = true
  | Some _ => exists e, e0 = E3 e /\ has_shape3 B party D_e e = true
  end.

(** A length mask for a batch padded to [T] steps: one row per batch item,
    valid lengths between 0 and [T], and some row of full length. *)
Definition valid_umask (T B : nat) (um : list vec) : Prop :=
  length um = B /\
  (forall b, (b < B)%nat -> (0 <= valid_len um b <= Z.of_nat T)%Z) /\
  (exists b, (b < B)%nat /\ valid_len um b = Z.of_nat T).

(** The extra attention pass in the words of the specification: the
    concatenated emotion vector of timestep [t] attends over the full
    sequence of concatenated emotion vectors under the length mask. *)
Definition self_attended (m : Model) (emotions : list (list vec)) (umask : list vec)
    (t : nat) : exc (list vec) :=
  r <- MatchingAttention_forward (matchatt m) emotions (nth t emotions []) (Some umask) ;;
  mapM finite (fst r).

(** The first dense layer with its ReLU, on a rank-3 tensor. *)
Definition first_layer (m : Model) (x : list (list vec)) : exc (list (list vec)) :=
  h <- mapM (mapM (Linear_forward (linear1 m))) x ;;
  Ok (map (map (map relu)) h).

(** Evaluation mode for the whole model. *)
Definition eval_model_noise : model_noise :=
  {| noise_f := fun _ => eval_noise;
     noise_b := fun _ => eval_noise;
     drop_rec_f := fun _ _ _ => 1;
     drop_rec_b := fun _ _ _ => 1;
     drop_hidden := fun _ _ _ => 1 |}.

(** ** Partial multi-view networks *)

(** The modules [nn.Sequential] holds in this file. *)
Inductive layer : Type :=
| LLinear (l : Linear)
| LReLU
| LLeakyReLU (slope : R)
| LDropout.

(** [nn.Sequential]: named modules in insertion order. *)
Definition Sequential := list (string * layer).

Definition leaky_relu (slope x : R) : R :=
  if Rle_dec 0 x then x else slope * x.

(** A sequential network on a (batch x width) input; [noise k] is the
    dropout mask drawn by the module at position [k]. *)
Fixpoint Sequential_forward (net : Sequential) (noise : nat -> nat -> nat -> R)
    (k : nat) (x : list vec) : exc (list vec) :=
  match net with
  | [] => Ok x
  | (_, l) :: net' =>
      y <- match l with
           | LLinear lin => mapM (Linear_forward lin) x
           | LReLU => Ok (map (map relu) x)
           | LLeakyReLU s => Ok (map (map (leaky_relu s)) x)
           | LDropout => Ok (dropout2 (noise k) x)
           end ;;
      Sequential_forward net' noise (S k) y
  end.

(** [str(num)]. *)
Definition str (n : nat) : string := NilZero.string_of_uint (Nat.to_uint n).

(** [Module.add_module]: a new name is appended; a name already present
    keeps its position and gets the new module.  The names used in this
    file are non-empty and free of dots, as [add_module] requires. *)
Fixpoint add_module (net : Sequential) (name : string) (l : layer) : Sequential :=
  match net with
  | [] => [(name, l)]
  | (n, l') :: net' =>
      if (n =? name)%string then (n, l) :: net'
      else (n, l') :: add_module net' name l
  end.

(** The loop of [_make_view] from index [num] on: [prev] is
    [dims_net[num - 1]] and [dims] the widths from [dims_net[num]] on. *)
Fixpoint view_loop (th : params) (name : string) (num prev : nat) (dims : list nat)
    (net1 : Sequential) : Sequential :=
  match dims with
  | [] => net1
  | d :: dims' =>
      let w := nn_Linear th (name ++ ".lin" ++ str num)%string prev d true in
      let net1 := add_module net1 ("lin" ++ str num)%string (LLinear w) in
      let net1 := add_module net1 ("drop" ++ str num)%string LDropout in
      view_loop th name (S num) d dims' net1
  end.

(** [CPMNets._make_view]: [layer_size[v]] and [dims_net[0]] raise
    [IndexError] out of range. *)
Definition _make_view (th : params) (name : string) (layer_size : list (list nat))
    (lsd_dim : nat) (v : Z) : exc Sequential :=
  i <- py_index (length layer_size) v ;;
  match nth i layer_size [] with
  | [] => Raise IndexError
  | d0 :: dims =>
      let w := nn_Linear th (name ++ ".lin" ++ str 0)%string lsd_dim d0 true in
      let net1 := add_module [] ("lin" ++ str 0)%string (LLinear w) in
      let net1 := add_module net1 ("act" ++ str 0)%string LReLU in
      Ok (view_loop th name 1 d0 dims net1)
  end.

(** The modules [lin<num>], [drop<num>], ... of the widths [dims], listed
    in order. *)
Fixpoint view_layers (th : params) (name : string) (num prev : nat) (dims : list nat)
  : Sequential :=
  match dims with
  | [] => []
  | d :: dims' =>
      (("lin" ++ str num)%string,
       LLinear (nn_Linear th (name ++ ".lin" ++ str num)%string prev d true))
      :: (("drop" ++ str num)%string, LDropout)
      :: view_layers th name (S num) d dims'
  end.

(** [CPMNets]; the placement on the accelerator ([.cuda()]) is not
    modelled. *)
Record CPMNets : Type := {
  cpm_view_num : nat;
  cpm_layer_size : list (list nat);
  cpm_lsd_dim : nat;
  cpm_trainLen : nat;
  cpm_testLen : nat;
  cpm_lamb : R;
  cpm_net : Sequential
}.

Definition CPMNets_init (th : params) (view_num trainLen testLen : nat)
    (layer_size : list (list nat)) (v : Z) (lsd_dim : nat) (lamb : R) : exc CPMNets :=
  net <- _make_view th "net" layer_size lsd_dim v ;;
  Ok {| cpm_view_num := view_num;
        cpm_layer_size := layer_size;
        cpm_lsd_dim := lsd_dim;
        cpm_trainLen := trainLen;
        cpm_testLen := testLen;
        cpm_lamb := lamb;
        cpm_net := net |}.

Definition CPMNets_forward (c : CPMNets) (noise : nat -> nat -> nat -> R)
    (h : list vec) : exc (list vec) :=
  Sequential_forward (cpm_net c) noise 0 h.

(** [CpmDiscriminator]: [layer_size[1]] raises [IndexError] on a list of
    fewer than two widths. *)
Record CpmDiscriminator : Type := {
  disc_model : Sequential
}.

Definition CpmDiscriminator_init (th : params) (layer_size : list nat)
  : exc CpmDiscriminator :=
  match nth_error layer_size 1 with
  | None => Raise IndexError
  | Some d =>
      Ok {| disc_model :=
              [("0"%string, LLinear (nn_Linear th "model.0" d (d / 2) true));
               ("1"%string, LLeakyReLU (2 / 10));
               ("2"%string, LLinear (nn_Linear th "model.2" (d / 2) 1 true))] |}
  end.

Definition CpmDiscriminator_forward (c : CpmDiscriminator) (x : list vec)
  : exc (list vec) :=
  Sequential_forward (disc_model c) (fun _ _ _ => 1) 0 x.

(** ** Bounded states *)

(** Entries between -1 and 1, the range of a recurrent cell started from
    zero. *)
Definition bounded (v : vec) : Prop := Forall (fun x => -1 <= x <= 1) v.

Definition estate_bounded (e : estate) : Prop :=
  match e with
  | E2 m => Forall bounded m
  | E3 m => Forall (Forall bounded) m
  end.

(** Dropout masks that only keep or drop, as in evaluation mode. *)
Definition unit_mask2 (m : nat -> nat -> R) : Prop := forall b d, 0 <= m b d <= 1.
Definition unit_mask3 (m : nat -> nat -> nat -> R) : Prop :=
  forall b p d, 0 <= m b p d <= 1.

(* ================================================================== *)
(** * Properties *)

(** ** The exception monad and list helpers *)

Lemma mapM_map {A B : Type} (f : A -> exc B) (g : A -> B) (l : list A) :
  (forall x, In x l -> f x = Ok (g x)) -> mapM f l = Ok (map g l).
Proof.
  induction l as [|a l IH]; intros H; simpl.
  - reflexivity.
  - rewrite (H a (or_introl eq_refl)). simpl.
    rewrite IH by (intros x Hx; apply H; right; exact Hx).
    reflexivity.
Qed.

Lemma mapM_Forall2 {A B : Type} (f : A -> exc B) (l : list A) (ys : list B) :
  mapM f l = Ok ys -> Forall2 (fun x y => f x = Ok y) l ys.
Proof.
  revert ys; induction l as [|a l IH]; intros ys H; simpl in H.
  - inversion H; constructor.
  - destruct (f a) as [b|e] eqn:Ea; simpl in H; [|discriminate].
    destruct (mapM f l) as [bs|e] eqn:El; simpl in H; [|discriminate].
    inversion H; subst. constructor; auto.
Qed.

Lemma mapM_length {A B : Type} (f : A -> exc B) (l : list A) (ys : list B) :
  mapM f l = Ok ys -> length ys = length l.
Proof.
  intros H. apply mapM_Forall2 in H.
  symmetry. eapply Forall2_length; eauto.
Qed.

Lemma combine_nth_lt {A B : Type} (a : list A) (b : list B) (i : nat) (da : A) (db : B) :
  (i < length a)%nat -> (i < length b)%nat ->
  nth i (combine a b) (da, db) = (nth i a da, nth i b db).
Proof.
  revert b i; induction a as [|x a IH]; intros [|y b] i Ha Hb; simpl in *; try lia.
  destruct i; [reflexivity|]. apply IH; lia.
Qed.

Lemma map2_length {A B C : Type} (f : A -> B -> C) (a : list A) (b : list B) :
  length (map2 f a b) = Nat.min (length a) (length b).
Proof. unfold map2. rewrite length_map, length_combine. reflexivity. Qed.

Lemma map2_nth {A B C : Type} (f : A -> B -> C) (a : list A) (b : list B)
    (i : nat) (da : A) (db : B) (dc : C) :
  (i < length a)%nat -> (i < length b)%nat ->
  nth i (map2 f a b) dc = f (nth i a da) (nth i b db).
Proof.
  intros Ha Hb. unfold map2.
  rewrite (nth_indep _ dc (f da db)) by (rewrite length_map, length_combine; lia).
  change (f da db) with ((fun p => f (fst p) (snd p)) (da, db)).
  rewrite map_nth, combine_nth_lt by assumption.
  reflexivity.
Qed.

Lemma imap_length {A B : Type} (f : nat -> A -> B) (l : list A) :
  length (imap f l) = length l.
Proof. unfold imap. rewrite length_map, length_combine, length_seq. lia. Qed.

Lemma imap_nth {A B : Type} (f : nat -> A -> B) (l : list A) (i : nat) (da : A) (db : B) :
  (i < length l)%nat -> nth i (imap f l) db = f i (nth i l da).
Proof.
  intros Hi. unfold imap.
  rewrite (nth_indep _ db (f 0%nat da))
    by (rewrite length_map, length_combine, length_seq; lia).
  change (f 0%nat da) with ((fun p => f (fst p) (snd p)) (0%nat, da)).
  rewrite map_nth, combine_nth_lt by (rewrite ?length_seq; lia).
  rewrite seq_nth by lia. reflexivity.
Qed.

(** ** Sums and softmax *)

Lemma Rsum_map_div {A : Type} (f : A -> R) (c : R) (l : list A) :
  Rsum (map (fun s => f s / c) l) = Rsum (map f l) / c.
Proof.
  induction l as [|a l IH]; simpl.
  - unfold Rdiv. ring.
  - rewrite IH. unfold Rdiv. ring.
Qed.

Lemma Rsum_nonneg (v : vec) : Forall (fun x => 0 <= x) v -> 0 <= Rsum v.
Proof.
  induction 1 as [|x v Hx Hv IH]; simpl; lra.
Qed.

Lemma Rsum_repeat0 (n : nat) : Rsum (repeat 0 n) = 0.
Proof. induction n; simpl; lra. Qed.

Lemma Rsum_exp_pos (v : vec) : v <> [] -> 0 < Rsum (map exp v).
Proof.
  intros Hv. destruct v as [|x v]; [congruence|]. simpl.
  assert (0 <= Rsum (map exp v)).
  { apply Rsum_nonneg. apply Forall_forall. intros y Hy.
    apply in_map_iff in Hy. destruct Hy as [s [<- _]]. left. apply exp_pos. }
  pose proof (exp_pos x). lra.
Qed.

Lemma Rsum_In_le (v : vec) (x : R) :
  Forall (fun y => 0 <= y) v -> In x v -> x <= Rsum v.
Proof.
  induction 1 as [|y v Hy Hv IH]; simpl; [contradiction|].
  pose proof (Rsum_nonneg v Hv).
  intros [->|Hx]; [lra|]. specialize (IH Hx). lra.
Qed.

Lemma fold_Rmax_ge (d : R) (v : vec) (x : R) :
  In x v -> x <= fold_right Rmax d v.
Proof.
  induction v as [|y v IH]; simpl; [contradiction|].
  intros [->|Hx].
  - apply Rmax_l.
  - eapply Rle_trans; [apply IH, Hx|apply Rmax_r].
Qed.

Lemma fold_Rmax_In (d : R) (v : vec) :
  fold_right Rmax d v = d \/ In (fold_right Rmax d v) v.
Proof.
  induction v as [|y v IH]; simpl; [now left|].
  destruct (Rle_dec y (fold_right Rmax d v)) as [Hle|Hgt].
  - rewrite Rmax_right by exact Hle.
    destruct IH as [IH|IH]; [left|right; right]; assumption.
  - rewrite Rmax_left by lra. right. now left.
Qed.

Lemma Rmax_list_ge (v : vec) (x : R) : In x v -> x <= Rmax_list v.
Proof. apply fold_Rmax_ge. Qed.

Lemma Rmax_list_In (v : vec) : v <> [] -> In (Rmax_list v) v.
Proof.
  intros Hv. unfold Rmax_list.
  destruct (fold_Rmax_In (hd 0 v) v) as [H|H]; [|exact H].
  rewrite H. destruct v; [congruence|]. now left.
Qed.

Lemma exp_underflow_pos : 0 < exp_underflow.
Proof. unfold exp_underflow. lra. Qed.

Lemma fl_exp_nonneg (x : R) : 0 <= fl_exp x.
Proof.
  unfold fl_exp. destruct (Rle_dec x (- exp_underflow)); [lra|].
  left. apply exp_pos.
Qed.

Lemma fl_exp_0 : fl_exp 0 = 1.
Proof.
  unfold fl_exp. pose proof exp_underflow_pos.
  destruct (Rle_dec 0 (- exp_underflow)); [lra|]. apply exp_0.
Qed.

Lemma fl_exp_underflow (x : R) : x <= - exp_underflow -> fl_exp x = 0.
Proof.
  intros Hx. unfold fl_exp. destruct (Rle_dec x (- exp_underflow)); [reflexivity|lra].
Qed.

(** The divisor of [softmax]: the largest entry contributes [exp 0 = 1]. *)
Lemma softmax_den_ge_1 (v : vec) :
  v <> [] -> 1 <= Rsum (map (fun s => fl_exp (s - Rmax_list v)) v).
Proof.
  intros Hv. apply Rsum_In_le.
  - apply Forall_forall. intros y Hy. apply in_map_iff in Hy.
    destruct Hy as [s [<- _]]. apply fl_exp_nonneg.
  - apply in_map_iff. exists (Rmax_list v). split; [|apply Rmax_list_In, Hv].
    replace (Rmax_list v - Rmax_list v) with 0 by ring. apply fl_exp_0.
Qed.

Lemma softmax_length (v : vec) : length (softmax v) = length v.
Proof. unfold softmax. rewrite !length_map. reflexivity. Qed.

Lemma softmax_nth (v : vec) (i : nat) :
  (i < length v)%nat ->
  nth i (softmax v) 0 =
  fl_exp (nth i v 0 - Rmax_list v) / Rsum (map (fun s => fl_exp (s - Rmax_list v)) v).
Proof.
  intros Hi. unfold softmax. cbv zeta.
  set (e := map (fun s => fl_exp (s - Rmax_list v)) v).
  rewrite (nth_indep _ 0 ((fun x => x / Rsum e) 0))
    by (unfold e; rewrite !length_map; exact Hi).
  rewrite (map_nth (fun x => x / Rsum e)). f_equal. unfold e.
  rewrite (nth_indep _ 0 ((fun s => fl_exp (s - Rmax_list v)) 0))
    by (rewrite length_map; exact Hi).
  rewrite (map_nth (fun s => fl_exp (s - Rmax_list v))). reflexivity.
Qed.

Lemma softmax_nonneg (v : vec) : Forall (fun x => 0 <= x) (softmax v).
Proof.
  apply Forall_forall. intros y Hy. unfold softmax in Hy.
  apply in_map_iff in Hy. destruct Hy as [e [<- He]].
  assert (Hv : v <> []) by (intros ->; contradiction).
  pose proof (softmax_den_ge_1 v Hv) as Hd.
  apply in_map_iff in He. destruct He as [s [<- _]].
  pose proof (fl_exp_nonneg (s - Rmax_list v)).
  apply Rmult_le_pos; [assumption|]. left. apply Rinv_0_lt_compat. lra.
Qed.

Lemma softmax_sum (v : vec) : v <> [] -> Rsum (softmax v) = 1.
Proof.
  intros Hv. unfold softmax. cbv zeta.
  set (e := map (fun s => fl_exp (s - Rmax_list v)) v).
  pose proof (softmax_den_ge_1 v Hv) as Hd. fold e in Hd.
  rewrite <- (map_id e) at 1. rewrite map_map.
  rewrite (Rsum_map_div (fun x => x) (Rsum e) e), map_id.
  field. lra.
Qed.

(** The weight of a largest entry is positive. *)
Lemma softmax_peak_pos (v : vec) (i : nat) :
  (i < length v)%nat -> nth i v 0 = Rmax_list v -> 0 < nth i (softmax v) 0.
Proof.
  intros Hi Hmax. rewrite softmax_nth, Hmax by exact Hi.
  replace (Rmax_list v - Rmax_list v) with 0 by ring. rewrite fl_exp_0.
  assert (Hv : v <> []) by (intros ->; simpl in Hi; lia).
  pose proof (softmax_den_ge_1 v Hv).
  apply Rdiv_lt_0_compat; lra.
Qed.

(** The weight of an entry far enough below the largest one is exactly 0. *)
Lemma softmax_underflow (v : vec) (i : nat) :
  (i < length v)%nat ->
  nth i v 0 - Rmax_list v <= - exp_underflow -> nth i (softmax v) 0 = 0.
Proof.
  intros Hi Hlow. rewrite softmax_nth by exact Hi.
  rewrite fl_exp_underflow by exact Hlow. unfold Rdiv. ring.
Qed.

(** ** Shapes *)

Lemma has_shape2_true {A : Type} (n d : nat) (x : list (list A)) :
  has_shape2 n d x = true <-> length x = n /\ Forall (fun r => length r = d) x.
Proof.
  unfold has_shape2. rewrite andb_true_iff, Nat.eqb_eq, forallb_forall, Forall_forall.
  split; intros [H1 H2]; split; auto; intros r Hr.
  - apply Nat.eqb_eq. auto.
  - apply Nat.eqb_eq. auto.
Qed.

Lemma has_shape3_true {A : Type} (n p d : nat) (x : list (list (list A))) :
  has_shape3 n p d x = true <->
  length x = n /\ Forall (fun r => has_shape2 p d r = true) x.
Proof.
  unfold has_shape3. rewrite andb_true_iff, Nat.eqb_eq, forallb_forall, Forall_forall.
  tauto.
Qed.

Lemma has_shape2_nth {A : Type} (n d : nat) (x : list (list A)) (i : nat) :
  has_shape2 n d x = true -> (i < n)%nat -> length (nth i x []) = d.
Proof.
  intros H Hi. apply has_shape2_true in H. destruct H as [Hl Hf].
  rewrite Forall_forall in Hf. apply Hf. apply nth_In. lia.
Qed.

Lemma has_shape3_nth {A : Type} (n p d : nat) (x : list (list (list A))) (i : nat) :
  has_shape3 n p d x = true -> (i < n)%nat -> has_shape2 p d (nth i x []) = true.
Proof.
  intros H Hi. apply has_shape3_true in H. destruct H as [Hl Hf].
  rewrite Forall_forall in Hf. apply Hf. apply nth_In. lia.
Qed.

Lemma has_shape2_size1 {A : Type} (n d : nat) (x : list (list A)) :
  has_shape2 n d x = true -> (1 <= n)%nat -> size1 x = d.
Proof.
  intros H Hn. unfold size1.
  destruct x as [|r x]; [apply has_shape2_true in H; simpl in H; lia|].
  simpl. apply (has_shape2_nth n d (r :: x) 0%nat H). lia.
Qed.

Lemma has_shape3_size1 {A : Type} (n p d : nat) (x : list (list (list A))) :
  has_shape3 n p d x = true -> (1 <= n)%nat -> size1 x = p.
Proof.
  intros H Hn. unfold size1.
  destruct x as [|r x]; [apply has_shape3_true in H; simpl in H; lia|].
  simpl. pose proof (has_shape3_nth n p d (r :: x) 0%nat H) as H0.
  simpl in H0. specialize (H0 ltac:(lia)).
  apply has_shape2_true in H0. tauto.
Qed.

Lemma has_shape3_size2 {A : Type} (n p d : nat) (x : list (list (list A))) :
  has_shape3 n p d x = true -> (1 <= n)%nat -> (1 <= p)%nat -> size2 x = d.
Proof.
  intros H Hn Hp. unfold size2.
  destruct x as [|r x]; [apply has_shape3_true in H; simpl in H; lia|].
  simpl. pose proof (has_shape3_nth n p d (r :: x) 0%nat H) as H0.
  simpl in H0. specialize (H0 ltac:(lia)).
  eapply has_shape2_size1; eauto.
Qed.

Lemma batch_row_length (M : list (list vec)) (b : nat) :
  length (batch_row M b) = length M.
Proof. unfold batch_row. apply length_map. Qed.

Lemma column_length (Mb : list vec) (d : nat) : length (column Mb d) = length Mb.
Proof. unfold column. apply length_map. Qed.

Lemma batch_row_width (T B D : nat) (M : list (list vec)) (b : nat) :
  has_shape3 T B D M = true -> (b < B)%nat ->
  Forall (fun m => length m = D) (batch_row M b).
Proof.
  intros H Hb. apply has_shape3_true in H. destruct H as [_ Hf].
  unfold batch_row. apply Forall_forall. intros m Hm.
  apply in_map_iff in Hm. destruct Hm as [Mt [<- HMt]].
  rewrite Forall_forall in Hf. eapply has_shape2_nth; eauto.
Qed.

(** ** Library layers *)

Lemma check_true (b : bool) : b = true -> check b = Ok tt.
Proof. intros ->. reflexivity. Qed.

Lemma Linear_forward_ok (L : Linear) (x : vec) :
  length x = in_features L -> Linear_forward L x = Ok (Linear_out L x).
Proof.
  intros H. unfold Linear_forward.
  rewrite check_true by (apply Nat.eqb_eq; exact H). reflexivity.
Qed.

Lemma Linear_out_length (L : Linear) (x : vec) :
  length (Linear_out L x) = out_features L.
Proof. unfold Linear_out. rewrite length_map, length_seq. reflexivity. Qed.

Lemma GRUCell_step_ok (c : GRUCell) (x h : vec) :
  length x = input_size c -> length h = hidden_size c ->
  GRUCell_step c x h = Ok (GRUCell_out c x h).
Proof.
  intros Hx Hh. unfold GRUCell_step.
  rewrite !check_true by (apply Nat.eqb_eq; assumption). reflexivity.
Qed.

Lemma GRUCell_out_length (c : GRUCell) (x h : vec) :
  length (GRUCell_out c x h) = hidden_size c.
Proof. unfold GRUCell_out. rewrite length_map, length_seq. reflexivity. Qed.

Lemma GRUCell_forward_ok (c : GRUCell) (x h : list vec) (n : nat) :
  has_shape2 n (input_size c) x = true ->
  has_shape2 n (hidden_size c) h = true ->
  GRUCell_forward c x h = Ok (map2 (GRUCell_out c) x h).
Proof.
  intros Hx Hh. apply has_shape2_true in Hx. apply has_shape2_true in Hh.
  destruct Hx as [Hxl Hxf], Hh as [Hhl Hhf].
  unfold GRUCell_forward.
  rewrite check_true by (apply Nat.eqb_eq; lia). simpl.
  unfold map2. apply mapM_map. intros [a b] Hin. simpl.
  rewrite Forall_forall in Hxf, Hhf.
  apply GRUCell_step_ok.
  - apply Hxf. eapply in_combine_l; eauto.
  - apply Hhf. eapply in_combine_r; eauto.
Qed.

Lemma map2_shape2 {A B : Type} (f : A -> B -> vec) (a : list A) (b : list B) (n d : nat) :
  length a = n -> length b = n -> (forall x y, length (f x y) = d) ->
  has_shape2 n d (map2 f a b) = true.
Proof.
  intros Ha Hb Hf. apply has_shape2_true. split.
  - rewrite map2_length. lia.
  - apply Forall_forall. intros r Hr. unfold map2 in Hr.
    apply in_map_iff in Hr. destruct Hr as [[x y] [<- _]]. apply Hf.
Qed.

(** ** Attention weights *)

Lemma fdot_defined (a m : vec) : fdot (defined a) m = Some (dot a m).
Proof.
  revert m; induction a as [|x a IH]; intros [|y m]; simpl; try reflexivity.
  rewrite IH. reflexivity.
Qed.

Lemma combine_map_r {A B C : Type} (g : B -> C) (s : list A) (l : list B) :
  combine s (map g l) = map (fun p => (fst p, g (snd p))) (combine s l).
Proof.
  revert l; induction s as [|a s IH]; intros [|b l]; simpl; try reflexivity.
  rewrite IH. reflexivity.
Qed.

Lemma imap_map {A B C : Type} (f : nat -> B -> C) (g : A -> B) (l : list A) :
  imap f (map g l) = imap (fun i x => f i (g x)) l.
Proof.
  unfold imap. rewrite length_map, combine_map_r, map_map. reflexivity.
Qed.

Lemma map_imap {A B C : Type} (g : B -> C) (f : nat -> A -> B) (l : list A) :
  map g (imap f l) = imap (fun i x => g (f i x)) l.
Proof. unfold imap. rewrite map_map. reflexivity. Qed.

Lemma imap_ext {A B : Type} (f g : nat -> A -> B) (l : list A) :
  (forall i x, f i x = g i x) -> imap f l = imap g l.
Proof.
  intros H. unfold imap. apply map_ext. intros [i x]. apply H.
Qed.

Lemma fattn_pool_defined (alpha : list vec) (M : list (list vec)) :
  fattn_pool (map defined alpha) M = map defined (attn_pool alpha M).
Proof.
  unfold fattn_pool, attn_pool.
  rewrite imap_map, map_imap. apply imap_ext. intros b a.
  unfold defined at 2. rewrite map_map.
  apply map_ext. intros d. apply fdot_defined.
Qed.

Lemma finite_defined (v : vec) : finite (defined v) = Ok v.
Proof.
  unfold finite, defined.
  induction v as [|x v IH]; simpl; [reflexivity|].
  rewrite IH. reflexivity.
Qed.

Lemma mapM_finite_defined (p : list vec) : mapM finite (map defined p) = Ok p.
Proof.
  induction p as [|v p IH]; simpl; [reflexivity|].
  rewrite finite_defined, IH. reflexivity.
Qed.

Lemma attn_pool_shape (alpha : list vec) (M : list (list vec)) (B : nat) :
  length alpha = B -> has_shape2 B (size2 M) (attn_pool alpha M) = true.
Proof.
  intros H. apply has_shape2_true. split.
  - unfold attn_pool. rewrite imap_length. exact H.
  - apply Forall_forall. intros r Hr. unfold attn_pool, imap in Hr.
    apply in_map_iff in Hr. destruct Hr as [[b a] [<- _]]. simpl.
    rewrite length_map, length_seq. reflexivity.
Qed.

Lemma size_agree (T B D : nat) (M : list (list vec)) (x : list vec) :
  has_shape3 T B D M = true -> has_shape2 B D x = true -> (1 <= T)%nat ->
  length x = size1 M /\ size1 x = size2 M.
Proof.
  intros HM Hx HT.
  pose proof (has_shape3_size1 T B D M HM HT) as H1.
  split.
  - apply has_shape2_true in Hx. lia.
  - destruct B as [|B].
    + apply has_shape2_true in Hx. destruct Hx as [Hl _].
      destruct x; [|simpl in Hl; lia].
      unfold size2. destruct M as [|M0 M]; [reflexivity|]. simpl.
      unfold size1 in H1. simpl in H1. destruct M0; [reflexivity|simpl in H1; lia].
    + rewrite (has_shape2_size1 (S B) D x Hx) by lia.
      rewrite (has_shape3_size2 T (S B) D M HM) by lia. reflexivity.
Qed.

Lemma bmm_scores_ok (T B D : nat) (M : list (list vec)) (x_ : list vec) :
  has_shape3 T B D M = true -> has_shape2 B D x_ = true -> (1 <= T)%nat ->
  bmm_scores x_ M = Ok (imap (fun b xb => map (fun m => dot xb m) (batch_row M b)) x_).
Proof.
  intros HM Hx HT. destruct (size_agree T B D M x_ HM Hx HT) as [H1 H2].
  unfold bmm_scores.
  rewrite !check_true by (apply Nat.eqb_eq; assumption). reflexivity.
Qed.

Lemma vmul_length (a b : vec) : length (vmul a b) = Nat.min (length a) (length b).
Proof. apply map2_length. Qed.

Lemma vmul_nonneg (a m : vec) :
  Forall (fun x => 0 <= x) a -> Forall (fun x => 0 <= x) m ->
  Forall (fun x => 0 <= x) (vmul a m).
Proof.
  intros Ha; revert m. induction Ha as [|x a Hx Ha IH]; intros m Hm.
  - constructor.
  - destruct Hm as [|y m Hy Hm]; [constructor|].
    unfold vmul, map2. simpl. constructor.
    + apply Rmult_le_pos; assumption.
    + apply IH. exact Hm.
Qed.

Lemma vmul_nth (a m : vec) (i : nat) :
  nth i (vmul a m) 0 = nth i a 0 * nth i m 0.
Proof.
  revert m i; induction a as [|x a IH]; intros m i.
  - unfold vmul, map2. simpl. destruct i; ring.
  - destruct m as [|y m].
    + unfold vmul, map2. simpl. destruct i; ring.
    + destruct i as [|i]; [reflexivity|]. apply (IH m i).
Qed.

Lemma vmul_ones_r (a : vec) (n : nat) : length a = n -> vmul a (ones n) = a.
Proof.
  revert n; induction a as [|x a IH]; intros [|n] Hl; simpl in Hl;
    try discriminate; [reflexivity|].
  unfold vmul, map2, ones in *. simpl. rewrite (IH n) by lia.
  f_equal. ring.
Qed.

Lemma nth_ones (n i : nat) : (i < n)%nat -> nth i (ones n) 0 = 1.
Proof.
  intros Hi. unfold ones. apply (repeat_spec n 1). apply nth_In.
  rewrite repeat_length. exact Hi.
Qed.

(** A mask that removes no position keeps the largest score. *)
Lemma peak_valid_ones (sc : vec) (T : nat) :
  length sc = T -> (1 <= T)%nat -> peak_valid sc (ones T).
Proof.
  intros Hl HT. unfold peak_valid. rewrite (vmul_ones_r sc T Hl).
  assert (Hne : sc <> []) by (intros ->; simpl in Hl; lia).
  destruct (In_nth sc (Rmax_list sc) 0 (Rmax_list_In sc Hne)) as [i [Hi Hmax]].
  exists i. unfold ones at 1. rewrite repeat_length.
  split; [lia|]. split; [|exact Hmax].
  rewrite nth_ones by lia. lra.
Qed.

(** The divisor of the masked renormalisation is positive when the largest
    masked score stands at a kept position. *)
Lemma general2_sum_pos (scores mask : vec) :
  length scores = length mask -> valid_mask_row mask -> peak_valid scores mask ->
  0 < Rsum (vmul (softmax (vmul scores mask)) mask).
Proof.
  intros Hl [Hnn _] [i [Hi [Hmi Hmax]]].
  set (a := softmax (vmul scores mask)).
  assert (Hla : length a = length mask).
  { unfold a. rewrite softmax_length, vmul_length. lia. }
  assert (Hai : 0 < nth i a 0).
  { apply softmax_peak_pos; [rewrite vmul_length; lia|exact Hmax]. }
  assert (Hm0 : 0 < nth i mask 0) by lra.
  assert (Hle : nth i (vmul a mask) 0 <= Rsum (vmul a mask)).
  { apply Rsum_In_le.
    - apply vmul_nonneg; [apply softmax_nonneg|exact Hnn].
    - apply nth_In. rewrite vmul_length. lia. }
  rewrite vmul_nth in Hle.
  pose proof (Rmult_lt_0_compat _ _ Hai Hm0). lra.
Qed.

Lemma general2_row_defined (scores mask : vec) :
  length scores = length mask -> valid_mask_row mask -> peak_valid scores mask ->
  general2_row scores mask = defined (general2_weights scores mask).
Proof.
  intros Hl Hv Hpk. unfold general2_row, general2_weights, defined.
  rewrite map_map. apply map_ext. intros a. unfold fdiv.
  destruct (Req_dec_T (Rsum (vmul (softmax (vmul scores mask)) mask)) 0) as [E|E];
    [|reflexivity].
  exfalso. pose proof (general2_sum_pos scores mask Hl Hv Hpk). lra.
Qed.

Lemma general2_weights_props (scores mask : vec) :
  length scores = length mask -> valid_mask_row mask -> peak_valid scores mask ->
  let w := general2_weights scores mask in
  length w = length mask /\ Forall (fun x => 0 <= x) w /\ Rsum w = 1 /\
  (forall i, nth i mask 0 = 0 -> nth i w 0 = 0).
Proof.
  intros Hl Hv Hpk. pose proof (general2_sum_pos scores mask Hl Hv Hpk) as Hpos.
  destruct Hv as [Hnn Hex]. simpl. unfold general2_weights.
  set (a := softmax (vmul scores mask)) in *.
  assert (Hla : length a = length mask).
  { unfold a. rewrite softmax_length, vmul_length. lia. }
  assert (Hamn : Forall (fun x => 0 <= x) (vmul a mask)).
  { apply vmul_nonneg; auto. apply softmax_nonneg. }
  repeat split.
  - rewrite length_map, vmul_length. lia.
  - apply Forall_forall. intros y Hy. apply in_map_iff in Hy.
    destruct Hy as [s [<- Hs]]. rewrite Forall_forall in Hamn.
    specialize (Hamn s Hs). apply Rmult_le_pos; [exact Hamn|].
    left. apply Rinv_0_lt_compat. exact Hpos.
  - rewrite (Rsum_map_div (fun s => s)), map_id. field. lra.
  - intros i Hi.
    destruct (Nat.lt_ge_cases i (length mask)) as [Hlt|Hge].
    + rewrite (nth_indep _ 0 (0 / Rsum (vmul a mask)))
        by (rewrite length_map, vmul_length; lia).
      rewrite (map_nth (fun s => s / Rsum (vmul a mask))).
      unfold vmul at 1. rewrite (map2_nth Rmult a mask i 0 0 0) by lia.
      rewrite Hi. unfold Rdiv. ring.
    + apply nth_overflow. rewrite length_map, vmul_length. lia.
Qed.

Lemma valid_sum_total (w mask : vec) :
  length w = length mask ->
  (forall i, nth i mask 0 = 0 -> nth i w 0 = 0) ->
  valid_sum w mask = Rsum w.
Proof.
  unfold valid_sum, map2.
  revert mask; induction w as [|x w IH]; intros [|m mask] Hl Hz; simpl in *;
    try discriminate; [reflexivity|].
  rewrite IH; [|lia|intros i Hi; apply (Hz (S i)); exact Hi].
  destruct (Req_dec_T m 0) as [E|E]; [|reflexivity].
  rewrite (Hz 0%nat E). reflexivity.
Qed.

Lemma MatchingAttention_init_inv (th : params) (name : string) (mem cand : nat)
    (adim : option nat) (ty : string) (att : MatchingAttention) :
  MatchingAttention_init th name mem cand adim ty = Ok att ->
  known_att_type ty ->
  att_type att = ty /\
  (ty = "dot"%string -> mem = cand) /\
  (ty = "general"%string ->
   transform att = Some (nn_Linear th (name ++ ".transform")%string cand mem false)) /\
  (ty = "general2"%string ->
   transform att = Some (nn_Linear th (name ++ ".transform")%string cand mem true)) /\
  (ty = "concat"%string ->
   exists a, transform att
             = Some (nn_Linear th (name ++ ".transform")%string (cand + mem) a false)
             /\ vector_prod att
                = Some (nn_Linear th (name ++ ".vector_prod")%string a 1 false)).
Proof.
  intros Hinit Hk. unfold MatchingAttention_init in Hinit.
  destruct Hk as [-> | [-> | [-> | ->]]]; simpl in Hinit.
  - destruct (mem =? cand)%nat eqn:E; simpl in Hinit; [|discriminate].
    apply Nat.eqb_eq in E. inversion Hinit; subst; simpl.
    repeat split; auto; discriminate.
  - inversion Hinit; subst; simpl. repeat split; auto; discriminate.
  - inversion Hinit; subst; simpl. repeat split; auto; discriminate.
  - destruct adim as [a|]; simpl in Hinit; [|discriminate].
    inversion Hinit; subst; simpl. repeat split; try discriminate; auto.
    intros _. exists a. split; reflexivity.
Qed.

Lemma effective_mask_shape (T B D : nat) (M : list (list vec)) :
  has_shape3 T B D M = true -> (1 <= T)%nat ->
  has_shape2 B T (effective_mask M None) = true /\
  Forall valid_mask_row (effective_mask M None).
Proof.
  intros HM HT. simpl.
  rewrite (has_shape3_size1 T B D M HM HT).
  assert (HlM : length M = T) by (apply has_shape3_true in HM; tauto).
  rewrite HlM. split.
  - apply has_shape2_true. split; [apply repeat_length|].
    apply Forall_forall. intros r Hr. apply repeat_spec in Hr. subst r.
    unfold ones. apply repeat_length.
  - apply Forall_forall. intros r Hr. apply repeat_spec in Hr. subst r.
    split.
    + apply Forall_forall. intros y Hy. apply repeat_spec in Hy. lra.
    + destruct T as [|T]; [lia|]. simpl. left. lra.
Qed.

(** A mask of the shape of the scores is not broadcast. *)
Lemma broadcast_mask_id (B T : nat) (mask : list vec) :
  has_shape2 B T mask = true -> broadcast_mask B T mask = mask.
Proof.
  intros H. apply has_shape2_true in H. destruct H as [Hl Hr].
  unfold broadcast_mask.
  assert (Hrows : (if (length mask =? 1)%nat then repeat (hd [] mask) B else mask)
                  = mask).
  { destruct (Nat.eqb_spec (length mask) 1) as [E|_]; [|reflexivity].
    destruct mask as [|r [|r' mask]]; simpl in E; try discriminate.
    simpl in Hl. subst B. reflexivity. }
  rewrite Hrows. rewrite <- (map_id mask) at 2.
  apply map_ext_in. intros r Hin.
  rewrite Forall_forall in Hr. specialize (Hr r Hin).
  destruct (Nat.eqb_spec (length r) 1) as [E|_]; [|reflexivity].
  destruct r as [|y [|y' r]]; simpl in E; try discriminate.
  simpl in Hr. subst T. reflexivity.
Qed.

(** Rows of scores against a history of [T] steps have [T] entries. *)
Lemma scores_rows (T : nat) (M : list (list vec)) (x_ : list vec) :
  length M = T ->
  Forall (fun r => length r = T)
         (imap (fun b xb => map (fun m => dot xb m) (batch_row M b)) x_).
Proof.
  intros HT. apply Forall_forall. intros r Hr. unfold imap in Hr.
  apply in_map_iff in Hr. destruct Hr as [[b xb] [<- _]]. simpl.
  rewrite length_map, batch_row_length. exact HT.
Qed.

(** Without a mask the [general2] variant keeps every position. *)
Lemma effective_mask_peak (T B D : nat) (att : MatchingAttention)
    (M : list (list vec)) (x : list vec) (b : nat) :
  has_shape3 T B D M = true -> (1 <= T)%nat -> (b < B)%nat ->
  peak_valid (nth b (general2_scores att M x) []) (nth b (effective_mask M None) []).
Proof.
  intros HM HT Hb. simpl.
  rewrite (has_shape3_size1 T B D M HM HT).
  assert (HlM : length M = T) by (apply has_shape3_true in HM; tauto).
  rewrite HlM.
  replace (nth b (repeat (ones T) B) []) with (ones T).
  2:{ symmetry. apply (repeat_spec B (ones T)). apply nth_In.
      rewrite repeat_length. exact Hb. }
  set (s := general2_scores att M x).
  destruct (Nat.lt_ge_cases b (length s)) as [Hlt|Hge].
  - apply peak_valid_ones; [|exact HT].
    assert (Hs : Forall (fun r => length r = T) s).
    { unfold s, general2_scores. destruct (transform att); [|constructor].
      apply scores_rows. exact HlM. }
    rewrite Forall_forall in Hs. apply Hs. apply nth_In. exact Hlt.
  - rewrite nth_overflow by exact Hge. exists 0%nat.
    unfold ones at 1. rewrite repeat_length. split; [lia|].
    split; [rewrite nth_ones by lia; lra|]. reflexivity.
Qed.

Lemma softmax_rows (T : nat) (s : list vec) :
  (1 <= T)%nat -> Forall (fun r => length r = T) s ->
  Forall (fun w => length w = T /\ Forall (fun x => 0 <= x) w /\ Rsum w = 1)
         (map softmax s).
Proof.
  intros HT Hs. apply Forall_forall. intros w Hw.
  apply in_map_iff in Hw. destruct Hw as [r [<- Hr]].
  rewrite Forall_forall in Hs. specialize (Hs r Hr).
  repeat split.
  - rewrite softmax_length. exact Hs.
  - apply softmax_nonneg.
  - apply softmax_sum. intros ->. simpl in Hs. lia.
Qed.

Lemma in_imap {A B : Type} (f : nat -> A -> B) (l : list A) (y : B) :
  In y (imap f l) -> exists i x, y = f i x /\ (i < length l)%nat /\ In x l.
Proof.
  unfold imap. intros H. apply in_map_iff in H.
  destruct H as [[i x] [<- Hin]]. exists i, x. simpl. split; [reflexivity|].
  split.
  - apply in_combine_l in Hin. apply in_seq in Hin. lia.
  - apply in_combine_r in Hin. exact Hin.
Qed.

Lemma map2_ext_in {A B C : Type} (f g : A -> B -> C) (a : list A) (b : list B) :
  (forall x y, In (x, y) (combine a b) -> f x y = g x y) ->
  map2 f a b = map2 g a b.
Proof.
  intros H. unfold map2. apply map_ext_in. intros [x y] Hin. simpl. apply H. exact Hin.
Qed.

Lemma map2_map_l {A B C D : Type} (g : C -> D) (f : A -> B -> C) (a : list A) (b : list B) :
  map g (map2 f a b) = map2 (fun x y => g (f x y)) a b.
Proof. unfold map2. rewrite map_map. reflexivity. Qed.

Lemma mapM_mapM_map {A B : Type} (f : A -> exc B) (g : A -> B) (l : list (list A)) :
  (forall r x, In r l -> In x r -> f x = Ok (g x)) ->
  mapM (mapM f) l = Ok (map (map g) l).
Proof.
  intros H. apply mapM_map. intros r Hr. apply mapM_map. intros x Hx. eauto.
Qed.

Lemma MatchingAttention_forward_ok (th : params) (name : string) (mem cand : nat)
    (adim : option nat) (ty : string) (att : MatchingAttention)
    (M : list (list vec)) (x : list vec) (mask : option (list vec)) (T B : nat) :
  MatchingAttention_init th name mem cand adim ty = Ok att ->
  known_att_type ty ->
  has_shape3 T B mem M = true ->
  has_shape2 B cand x = true ->
  (1 <= T)%nat ->
  (ty = "general2"%string ->
   has_shape2 B T (effective_mask M mask) = true /\
   Forall valid_mask_row (effective_mask M mask) /\
   (forall b, (b < B)%nat ->
      peak_valid (nth b (general2_scores att M x) [])
                 (nth b (effective_mask M mask) []))) ->
  exists alpha : list vec,
    MatchingAttention_forward att M x mask
    = Ok (fattn_pool (map defined alpha) M, map defined alpha) /\
    length alpha = B /\
    Forall (row_ok T) alpha /\
    (ty = "general2"%string ->
     forall b i, (b < B)%nat ->
       nth i (nth b (effective_mask M mask) []) 0 = 0 ->
       nth i (nth b alpha []) 0 = 0).
Proof.
  intros Hinit Hk HM Hx HT Hmask.
  destruct (MatchingAttention_init_inv th name mem cand adim ty att Hinit Hk)
    as [Hty [Hdot [Hgen [Hgen2 Hcat]]]].
  assert (HlM : length M = T) by (apply has_shape3_true in HM; tauto).
  assert (Hlx : length x = B) by (apply has_shape2_true in Hx; tauto).
  assert (Hxr : forall r, In r x -> length r = cand).
  { apply has_shape2_true in Hx. destruct Hx as [_ Hf].
    rewrite Forall_forall in Hf. exact Hf. }
  unfold MatchingAttention_forward. rewrite Hty.
  destruct Hk as [-> | [-> | [-> | ->]]]; simpl String.eqb.
  - (* dot *)
    specialize (Hdot eq_refl). subst cand.
    rewrite (bmm_scores_ok T B mem M x HM Hx HT). cbn [bind].
    eexists (map softmax _). rewrite map_map. split; [reflexivity|].
    split; [rewrite length_map, imap_length; exact Hlx|].
    split; [|discriminate].
    apply softmax_rows; [exact HT|]. apply scores_rows. exact HlM.
  - (* general *)
    rewrite (Hgen eq_refl). cbn [getattr]. cbn [bind].
    rewrite (mapM_map _ (Linear_out (nn_Linear th (name ++ ".transform")%string cand mem false)))
      by (intros r Hr; apply Linear_forward_ok; simpl; auto).
    cbn [bind].
    rewrite (bmm_scores_ok T B mem M); [|exact HM| |exact HT].
    2:{ apply has_shape2_true. split; [rewrite length_map; exact Hlx|].
        apply Forall_forall. intros r Hr. apply in_map_iff in Hr.
        destruct Hr as [r0 [<- _]]. apply Linear_out_length. }
    cbn [bind].
    eexists (map softmax _). rewrite map_map. split; [reflexivity|].
    split; [rewrite length_map, imap_length, length_map; exact Hlx|].
    split; [|discriminate].
    apply softmax_rows; [exact HT|]. apply scores_rows. exact HlM.
  - (* general2 *)
    rewrite (Hgen2 eq_refl). cbn [getattr]. cbn [bind].
    rewrite (mapM_map _ (Linear_out (nn_Linear th (name ++ ".transform")%string cand mem true)))
      by (intros r Hr; apply Linear_forward_ok; simpl; auto).
    cbn [bind].
    rewrite (bmm_scores_ok T B mem M); [|exact HM| |exact HT].
    2:{ apply has_shape2_true. split; [rewrite length_map; exact Hlx|].
        apply Forall_forall. intros r Hr. apply in_map_iff in Hr.
        destruct Hr as [r0 [<- _]]. apply Linear_out_length. }
    cbn [bind].
    destruct (Hmask eq_refl) as [Hms [Hmv Hpk]].
    unfold general2_scores in Hpk. rewrite (Hgen2 eq_refl) in Hpk.
    set (s := imap _ (map _ x)) in *.
    assert (Hls : length s = B) by (unfold s; rewrite imap_length, length_map; exact Hlx).
    assert (Hsr : Forall (fun r => length r = T) s) by (apply scores_rows; exact HlM).
    rewrite Hls, HlM, (broadcast_mask_id B T _ Hms), check_true by exact Hms.
    cbn [bind].
    set (m := effective_mask M mask) in *.
    assert (Hlm : length m = B) by (apply has_shape2_true in Hms; tauto).
    assert (Hmr : Forall (fun r => length r = T) m)
      by (apply has_shape2_true in Hms; tauto).
    assert (Hpair : forall sc mk, In (sc, mk) (combine s m) ->
              length sc = length mk /\ valid_mask_row mk /\ peak_valid sc mk).
    { intros sc mk Hin. rewrite Forall_forall in Hsr, Hmr, Hmv.
      pose proof (in_combine_l _ _ _ _ Hin) as H1.
      pose proof (in_combine_r _ _ _ _ Hin) as H2.
      rewrite (Hsr sc H1), (Hmr mk H2). split; [reflexivity|].
      split; [apply Hmv; exact H2|].
      destruct (In_nth _ _ ([], []) Hin) as [b [Hb Hnth]].
      rewrite length_combine in Hb.
      rewrite combine_nth_lt in Hnth by lia. injection Hnth as <- <-.
      apply Hpk. lia. }
    exists (map2 general2_weights s m).
    split.
    { rewrite map2_map_l. f_equal. f_equal.
      - f_equal. apply map2_ext_in. intros sc mk Hin.
        destruct (Hpair sc mk Hin) as [? [? ?]].
        apply general2_row_defined; assumption.
      - apply map2_ext_in. intros sc mk Hin.
        destruct (Hpair sc mk Hin) as [? [? ?]].
        apply general2_row_defined; assumption. }
    split; [rewrite map2_length; lia|].
    split.
    + apply Forall_forall. intros w Hw. unfold map2 in Hw.
      apply in_map_iff in Hw. destruct Hw as [[sc mk] [<- Hin]]. simpl.
      destruct (Hpair sc mk Hin) as [Hl [Hv Hp]].
      destruct (general2_weights_props sc mk Hl Hv Hp) as [H1 [H2 [H3 _]]].
      rewrite Forall_forall in Hmr.
      rewrite (Hmr mk (in_combine_r _ _ _ _ Hin)) in H1.
      repeat split; assumption.
    + intros _ b i Hb Hz.
      rewrite (map2_nth general2_weights s m b [] [] []) by lia.
      assert (Hin : In (nth b s [], nth b m []) (combine s m)).
      { rewrite <- (combine_nth_lt s m b [] []) by lia.
        apply nth_In. rewrite length_combine. lia. }
      destruct (Hpair _ _ Hin) as [Hl [Hv Hp]].
      destruct (general2_weights_props _ _ Hl Hv Hp) as [_ [_ [_ H4]]].
      apply H4. exact Hz.
  - (* concat *)
    destruct (Hcat eq_refl) as [a [Htr Hvp]]. rewrite Htr, Hvp.
    rewrite (has_shape3_size1 T B mem M HM HT).
    rewrite check_true by (apply Nat.eqb_eq; exact Hlx). cbn [bind]. cbn [getattr].
    cbn [bind].
    set (tr := nn_Linear th (name ++ ".transform")%string (cand + mem) a false).
    set (vp := nn_Linear th (name ++ ".vector_prod")%string a 1 false).
    set (M_x_ := imap _ x).
    assert (HMx : forall r mx, In r M_x_ -> In mx r -> length mx = (cand + mem)%nat).
    { intros r mx Hr Hmx. apply in_imap in Hr.
      destruct Hr as [b [xb [-> [Hb Hxb]]]].
      apply in_map_iff in Hmx. destruct Hmx as [m0 [<- Hm0]].
      rewrite length_app, (Hxr xb Hxb).
      pose proof (batch_row_width T B mem M b HM ltac:(lia)) as Hw.
      rewrite Forall_forall in Hw. rewrite (Hw m0 Hm0). lia. }
    rewrite (mapM_mapM_map _ (fun mx => map tanh (Linear_out tr mx))).
    2:{ intros r mx Hr Hmx. rewrite Linear_forward_ok by (simpl; eauto). reflexivity. }
    cbn [bind].
    rewrite (mapM_mapM_map _ (Linear_out vp)).
    2:{ intros r y Hr Hy. apply in_map_iff in Hr. destruct Hr as [r0 [<- Hr0]].
        apply in_map_iff in Hy. destruct Hy as [mx [<- Hmx]].
        apply Linear_forward_ok. rewrite length_map, Linear_out_length. reflexivity. }
    cbn [bind].
    eexists (map (fun r => softmax (map (hd 0) r)) _).
    rewrite (map_map (fun r => softmax (map (hd 0) r)) defined). split; [reflexivity|].
    split; [rewrite !length_map; unfold M_x_; rewrite imap_length; exact Hlx|].
    split; [|discriminate].
    apply Forall_forall. intros w Hw.
    apply in_map_iff in Hw. destruct Hw as [r [<- Hr]].
    apply in_map_iff in Hr. destruct Hr as [r1 [<- Hr1]].
    apply in_map_iff in Hr1. destruct Hr1 as [r2 [<- Hr2]].
    apply in_imap in Hr2. destruct Hr2 as [b [xb [-> _]]].
    assert (Hlen : length (map (hd 0)
              (map (Linear_out vp)
                 (map (fun mx => map tanh (Linear_out tr mx))
                    (map (fun m => m ++ xb) (batch_row M b))))) = T).
    { rewrite !length_map, batch_row_length. exact HlM. }
    repeat split.
    + rewrite softmax_length. exact Hlen.
    + apply softmax_nonneg.
    + apply softmax_sum. intros E. rewrite E in Hlen. simpl in Hlen. lia.
Qed.

Lemma SimpleAttention_forward_ok (th : params) (name : string)
    (M : list (list vec)) (T B D : nat) :
  has_shape3 T B D M = true -> (1 <= T)%nat ->
  exists pool alpha,
    SimpleAttention_forward (SimpleAttention_init th name D) M = Ok (pool, alpha) /\
    length alpha = B /\ Forall (row_ok T) alpha.
Proof.
  intros HM HT.
  assert (HlM : length M = T) by (apply has_shape3_true in HM; tauto).
  unfold SimpleAttention_forward. cbn [scalar SimpleAttention_init].
  set (sc := nn_Linear th (name ++ ".scalar")%string D 1 false).
  rewrite (mapM_mapM_map _ (Linear_out sc)).
  2:{ intros r v Hr Hv. apply Linear_forward_ok. simpl.
      apply has_shape3_true in HM. destruct HM as [_ Hf].
      rewrite Forall_forall in Hf. specialize (Hf r Hr).
      apply has_shape2_true in Hf. destruct Hf as [_ Hf].
      rewrite Forall_forall in Hf. auto. }
  cbn [bind]. eexists _, _. split; [reflexivity|].
  rewrite (has_shape3_size1 T B D M HM HT).
  split; [rewrite length_map, length_seq; reflexivity|].
  apply Forall_forall. intros w Hw. apply in_map_iff in Hw.
  destruct Hw as [b [<- _]].
  assert (Hlen : length (map (fun st : list vec => hd 0 (nth b st []))
                            (map (map (Linear_out sc)) M)) = T)
    by (rewrite !length_map; exact HlM).
  repeat split.
  - rewrite softmax_length. exact Hlen.
  - apply softmax_nonneg.
  - apply softmax_sum. intros E. rewrite E in Hlen. simpl in Hlen. lia.
Qed.

Lemma Rsum_all_zero (v : vec) : (forall i, nth i v 0 = 0) -> Rsum v = 0.
Proof.
  induction v as [|x v IH]; intros H; simpl; [reflexivity|].
  rewrite IH by (intros i; apply (H (S i))).
  rewrite (H 0%nat : x = 0). ring.
Qed.

Lemma map_const_repeat {A B : Type} (c : B) (l : list A) :
  map (fun _ => c) l = repeat c (length l).
Proof. induction l as [|a l IH]; simpl; [reflexivity|]. f_equal. exact IH. Qed.

(** Where the masked score of every kept position lies so far below the
    largest masked score that its exponential is 0, the divisor of the
    masked renormalisation is 0 and every weight of the row is undefined. *)
Lemma general2_row_underflow (scores mask : vec) :
  length scores = length mask ->
  (forall i, (i < length mask)%nat -> nth i mask 0 <> 0 ->
     nth i (vmul scores mask) 0 - Rmax_list (vmul scores mask) <= - exp_underflow) ->
  general2_row scores mask = repeat None (length mask).
Proof.
  intros Hl Hlow. unfold general2_row. cbv zeta.
  set (a := softmax (vmul scores mask)).
  assert (Hla : length a = length mask).
  { unfold a. rewrite softmax_length, vmul_length. lia. }
  assert (Hz : Rsum (vmul a mask) = 0).
  { apply Rsum_all_zero. intros i. rewrite vmul_nth.
    destruct (Nat.lt_ge_cases i (length mask)) as [Hi|Hi].
    - destruct (Req_dec_T (nth i mask 0) 0) as [E|E]; [rewrite E; ring|].
      unfold a. rewrite softmax_underflow; [ring|rewrite vmul_length; lia|].
      apply Hlow; assumption.
    - rewrite (nth_overflow mask) by exact Hi. ring. }
  rewrite Hz.
  replace (length mask) with (length (vmul a mask)) by (rewrite vmul_length; lia).
  rewrite <- map_const_repeat. apply map_ext. intros x.
  unfold fdiv. destruct (Req_dec_T 0 0); [reflexivity|congruence].
Qed.

(** C7.  On a non-empty history, every attention module returns.  Each row
    of the weights of [SimpleAttention] and of the variants of
    [MatchingAttention] that ignore the mask has non-negative entries that
    sum to 1.  So has each row of the masked-general variant, which moreover
    puts weight 0 on the positions its mask marks invalid, when the mask has
    non-negative rows and the largest masked score of each row stands at a
    valid position.  Without the last condition the variant fails: on the
    history [-1000, 0] of one batch item, with the query 1 and the mask
    [1, 0], whose one valid position is the first, the weight of that
    position underflows to 0 before the renormalisation, which then divides
    0 by 0: both weights and the pooled vector are undefined. *)
Theorem attention_weights_normalised :
  (forall (M : list (list vec)) (T B D : nat),
     has_shape3 T B D M = true ->
     (1 <= T)%nat ->
     (forall th name,
        exists pool alpha,
          SimpleAttention_forward (SimpleAttention_init th name D) M = Ok (pool, alpha) /\
          length alpha = B /\ Forall (row_ok T) alpha)
     /\
     (forall th name cand adim ty att x mask,
        MatchingAttention_init th name D cand adim ty = Ok att ->
        known_att_type ty ->
        has_shape2 B cand x = true ->
        (ty = "general2"%string -> forall m, mask = Some m ->
           has_shape2 B T m = true /\ Forall valid_mask_row m /\
           (forall b, (b < B)%nat ->
              peak_valid (nth b (general2_scores att M x) []) (nth b m []))) ->
        exists pool alpha,
          MatchingAttention_forward att M x mask = Ok (pool, alpha) /\
          length alpha = B /\
          forall b, (b < B)%nat ->
            exists w, nth b alpha [] = defined w /\ row_ok T w /\
              (ty = "general2"%string -> forall m, mask = Some m ->
                 (forall i, nth i (nth b m []) 0 = 0 -> nth i w 0 = 0) /\
                 valid_sum w (nth b m []) = 1)))
  /\
  (exists att,
     MatchingAttention_init th1 "att" 1 1 None "general2" = Ok att /\
     has_shape3 2 1 1 [[[-1000]]; [[0]]] = true /\
     has_shape2 1 1 [[1]] = true /\
     has_shape2 1 2 [[1; 0]] = true /\
     Forall valid_mask_row [[1; 0]] /\
     MatchingAttention_forward att [[[-1000]]; [[0]]] [[1]] (Some [[1; 0]])
     = Ok ([[None]], [[None; None]])).
Proof.
  split.
  - intros M T B D HM HT. split.
    + intros th name. apply SimpleAttention_forward_ok; assumption.
    + intros th name cand adim ty att x mask Hinit Hk Hx Hmask.
      assert (Hm : ty = "general2"%string ->
                   has_shape2 B T (effective_mask M mask) = true /\
                   Forall valid_mask_row (effective_mask M mask) /\
                   (forall b, (b < B)%nat ->
                      peak_valid (nth b (general2_scores att M x) [])
                                 (nth b (effective_mask M mask) []))).
      { intros Hty. destruct mask as [m|].
        - simpl. apply (Hmask Hty m eq_refl).
        - destruct (effective_mask_shape T B D M HM HT) as [H1 H2].
          split; [exact H1|]. split; [exact H2|].
          intros b Hb. apply (effective_mask_peak T B D att M x b HM HT Hb). }
      destruct (MatchingAttention_forward_ok th name D cand adim ty att M x mask T B
                  Hinit Hk HM Hx HT Hm) as [alpha [Hf [Hl [Hrows Hzero]]]].
      eexists _, _. split; [exact Hf|].
      split; [rewrite length_map; exact Hl|].
      intros b Hb. exists (nth b alpha []).
      split.
      { rewrite (nth_indep _ [] (defined [])) by (rewrite length_map; lia).
        apply map_nth. }
      assert (Hrow : row_ok T (nth b alpha [])).
      { rewrite Forall_forall in Hrows. apply Hrows. apply nth_In. lia. }
      split; [exact Hrow|].
      intros Hty m ->. simpl in Hzero.
      assert (Hz : forall i, nth i (nth b m []) 0 = 0 -> nth i (nth b alpha []) 0 = 0)
        by (intros i; apply Hzero; assumption).
      split; [exact Hz|].
      destruct Hrow as [Hlw [_ Hsum]].
      rewrite valid_sum_total; [exact Hsum| |exact Hz].
      rewrite Hlw. destruct (Hmask Hty m eq_refl) as [Hms _].
      symmetry. eapply has_shape2_nth; eauto.
  - eexists. split; [reflexivity|].
    split; [reflexivity|]. split; [reflexivity|]. split; [reflexivity|].
    split.
    { constructor; [|constructor]. split.
      - constructor; [lra|]. constructor; [lra|constructor].
      - left. lra. }
    unfold MatchingAttention_forward.
    cbn [att_type transform String.eqb Ascii.eqb Bool.eqb getattr bind effective_mask].
    cbn [mapM Linear_forward nn_Linear in_features length Nat.eqb check bind].
    cbn [bmm_scores length size1 size2 hd Nat.eqb check bind Linear_out out_features
         seq map].
    unfold imap. cbn [seq length combine map fst snd batch_row nth].
    cbn [Linear_out nn_Linear out_features seq map length Nat.eqb check bind
         broadcast_mask repeat hd has_shape2 forallb andb map2 combine fst snd].
    rewrite (general2_row_underflow _ [1; 0]).
    + reflexivity.
    + reflexivity.
    + intros i Hi Hne.
      destruct i as [|[|i]]; [|simpl in Hne; congruence|simpl in Hi; lia].
      set (v := vmul _ _).
      assert (Hin : In (nth 1 v 0) v) by (apply nth_In; simpl; lia).
      pose proof (Rmax_list_ge v _ Hin) as Hge.
      unfold v in *. clear v Hin. unfold exp_underflow.
      cbn [vmul map2 combine map fst snd nth dot Rsum fold_right weight nn_Linear
           matrix vector th1 bias] in *.
      lra.
Qed.

Lemma attention_weights_normalised_witness :
  (exists pool alpha,
     SimpleAttention_forward (SimpleAttention_init th0 "sa" 1) [[[1]]; [[2]]]
     = Ok (pool, alpha) /\
     length alpha = 1%nat /\ Forall (row_ok 2) alpha)
  /\
  (exists att,
     MatchingAttention_init th0 "att" 1 1 None "general2" = Ok att /\
     exists pool alpha,
       MatchingAttention_forward att [[[1]]; [[2]]] [[3]] (Some [[1; 0]])
       = Ok (pool, alpha) /\
       length alpha = 1%nat /\
       forall b, (b < 1)%nat ->
         exists w, nth b alpha [] = defined w /\ row_ok 2 w /\
           ("general2"%string = "general2"%string ->
            forall m, Some [[1; 0]] = Some m ->
              (forall i, nth i (nth b m []) 0 = 0 -> nth i w 0 = 0) /\
              valid_sum w (nth b m []) = 1)).
Proof.
  destruct attention_weights_normalised as [Hpos _].
  destruct (Hpos [[[1]]; [[2]]] 2%nat 1%nat 1%nat eq_refl
              (le_S 1 1 (le_n 1))) as [H1 H2].
  split.
  - apply H1.
  - eexists. split; [reflexivity|].
    apply (H2 th0 "att"%string 1%nat None "general2"%string _ [[3]] (Some [[1; 0]])
              eq_refl).
    + right; right; left; reflexivity.
    + reflexivity.
    + intros _ m Hm. inversion Hm; subst m. split; [reflexivity|].
      split.
      { constructor; [|constructor]. split.
        - constructor; [lra|]. constructor; [lra|constructor].
        - left. lra. }
      intros b Hb. destruct b as [|b]; [|lia].
      exists 0%nat. split; [simpl; lia|]. split; [simpl; lra|].
      unfold general2_scores, Rmax_list, imap.
      cbn [transform nn_Linear map seq length combine fst snd batch_row nth
           Linear_out out_features weight bias matrix vector th0 dot vmul map2
           Rsum fold_right hd].
      unfold Rmax. repeat destruct (Rle_dec _ _); lra.
Defined.

(** ** The unguarded division of the masked variant *)

Lemma vmul_zeros_r (a : vec) (n : nat) :
  length a = n -> vmul a (zeros n) = zeros n.
Proof.
  revert n; induction a as [|x a IH]; intros [|n] H; simpl in H; try discriminate;
    [reflexivity|].
  unfold vmul, map2, zeros in *. simpl. rewrite Rmult_0_r.
  f_equal. apply IH. lia.
Qed.

Lemma general2_row_zero (scores : vec) (T : nat) :
  length scores = T -> general2_row scores (zeros T) = repeat None T.
Proof.
  intros H. unfold general2_row.
  rewrite (vmul_zeros_r scores T H).
  rewrite (vmul_zeros_r (softmax (zeros T)) T)
    by (rewrite softmax_length; apply repeat_length).
  unfold zeros at 2. rewrite Rsum_repeat0.
  unfold fdiv. destruct (Req_dec_T 0 0) as [_|E]; [|congruence].
  unfold zeros. clear H. induction T as [|T IH]; simpl; [reflexivity|].
  f_equal. exact IH.
Qed.

Lemma fdot_None (T : nat) (m : vec) :
  (1 <= T)%nat -> length m = T -> fdot (repeat None T) m = None.
Proof.
  intros HT Hm. destruct T as [|T]; [lia|].
  destruct m as [|y m]; [simpl in Hm; lia|]. reflexivity.
Qed.

(** C6.  In the masked-general variant a batch row whose mask is entirely
    zero makes the divisor of the renormalisation zero: [forward] returns,
    and every weight and every pooled entry of that row is undefined. *)
Theorem general2_zero_mask_row_undefined (th : params) (name : string)
    (mem cand : nat) (adim : option nat) (att : MatchingAttention)
    (M : list (list vec)) (x : list vec) (m : list vec) (T B b : nat) :
  MatchingAttention_init th name mem cand adim "general2" = Ok att ->
  has_shape3 T B mem M = true ->
  has_shape2 B cand x = true ->
  has_shape2 B T m = true ->
  (1 <= T)%nat ->
  (b < B)%nat ->
  nth b m [] = zeros T ->
  exists pool alpha,
    MatchingAttention_forward att M x (Some m) = Ok (pool, alpha) /\
    nth b alpha [] = repeat None T /\
    nth b pool [] = repeat None mem.
Proof.
  intros Hinit HM Hx Hm HT Hb Hzero.
  destruct (MatchingAttention_init_inv th name mem cand adim "general2" att Hinit)
    as [Hty [_ [_ [Hgen2 _]]]].
  { right; right; left; reflexivity. }
  assert (HlM : length M = T) by (apply has_shape3_true in HM; tauto).
  assert (Hlx : length x = B) by (apply has_shape2_true in Hx; tauto).
  assert (Hlm : length m = B) by (apply has_shape2_true in Hm; tauto).
  unfold MatchingAttention_forward. rewrite Hty. simpl String.eqb.
  rewrite (Hgen2 eq_refl). cbn [getattr bind effective_mask].
  rewrite (mapM_map _ (Linear_out (nn_Linear th (name ++ ".transform")%string cand mem true))).
  2:{ intros r Hr. apply Linear_forward_ok. simpl.
      apply has_shape2_true in Hx. destruct Hx as [_ Hf].
      rewrite Forall_forall in Hf. auto. }
  cbn [bind].
  rewrite (bmm_scores_ok T B mem M); [|exact HM| |exact HT].
  2:{ apply has_shape2_true. split; [rewrite length_map; exact Hlx|].
      apply Forall_forall. intros r Hr. apply in_map_iff in Hr.
      destruct Hr as [r0 [<- _]]. apply Linear_out_length. }
  cbn [bind].
  set (s := imap _ (map _ x)).
  assert (Hls : length s = B) by (unfold s; rewrite imap_length, length_map; exact Hlx).
  assert (Hsr : Forall (fun r => length r = T) s) by (apply scores_rows; exact HlM).
  rewrite Hls, HlM, (broadcast_mask_id B T m Hm), check_true by exact Hm.
  cbn [bind].
  eexists _, _. split; [reflexivity|].
  assert (Hrow : nth b (map2 general2_row s m) [] = repeat None T).
  { rewrite (map2_nth general2_row s m b [] [] []) by lia.
    rewrite Hzero. apply general2_row_zero.
    rewrite Forall_forall in Hsr. apply Hsr. apply nth_In. lia. }
  split; [exact Hrow|].
  unfold fattn_pool.
  rewrite (imap_nth _ _ b [] []) by (rewrite map2_length; lia).
  rewrite Hrow.
  rewrite (has_shape3_size2 T B mem M HM) by lia.
  transitivity (map (fun _ : nat => @None R) (seq 0 mem)).
  - apply map_ext_in. intros d _. apply fdot_None; [exact HT|].
    rewrite column_length, batch_row_length. exact HlM.
  - clear. generalize 0%nat. induction mem as [|mem IH]; intros k; simpl;
      [reflexivity|].
    f_equal. apply IH.
Qed.

Lemma general2_zero_mask_row_undefined_witness :
  exists att,
    MatchingAttention_init th0 "matchatt" 1 1 None "general2" = Ok att /\
    exists pool alpha,
      MatchingAttention_forward att [[[1]; [5]]; [[2]; [6]]] [[3]; [4]]
        (Some [[1; 1]; [0; 0]])
      = Ok (pool, alpha) /\
      nth 1 alpha [] = repeat None 2 /\
      nth 1 pool [] = repeat None 1.
Proof.
  eexists. split; [reflexivity|].
  apply (general2_zero_mask_row_undefined th0 "matchatt"%string 1 1 None _
           [[[1]; [5]]; [[2]; [6]]] [[3]; [4]] [[1; 1]; [0; 0]] 2 2 1 eq_refl);
    try reflexivity.
  - apply le_S. apply le_n.
  - apply le_n.
Defined.

(** ** Construction-time checks of MatchingAttention *)

Lemma MatchingAttention_init_concat_None (th : params) (name : string) (mem cand : nat) :
  MatchingAttention_init th name mem cand None "concat" = Raise AssertionError.
Proof. reflexivity. Qed.

Lemma MatchingAttention_init_dot_mismatch (th : params) (name : string)
    (mem cand : nat) (adim : option nat) :
  mem <> cand ->
  MatchingAttention_init th name mem cand adim "dot" = Raise AssertionError.
Proof.
  intros H. unfold MatchingAttention_init. simpl.
  destruct (Nat.eqb_spec mem cand) as [E|E]; [contradiction|].
  destruct adim; reflexivity.
Qed.

Lemma unknown_att_type_eqb (ty : string) :
  ~ known_att_type ty ->
  (ty =? "dot")%string = false /\ (ty =? "general")%string = false /\
  (ty =? "general2")%string = false /\ (ty =? "concat")%string = false.
Proof.
  intros H. unfold known_att_type in H.
  repeat split; apply String.eqb_neq; intros E; apply H; tauto.
Qed.

(** A variant name without a branch passes [__init__], which then sets
    neither [transform] nor [vector_prod]. *)
Lemma MatchingAttention_init_unknown (th : params) (name : string)
    (mem cand : nat) (adim : option nat) (ty : string) :
  ~ known_att_type ty ->
  MatchingAttention_init th name mem cand adim ty
  = Ok {| mem_dim := mem; cand_dim := cand; att_type := ty;
          transform := None; vector_prod := None |}.
Proof.
  intros H. destruct (unknown_att_type_eqb ty H) as [H1 [H2 [H3 H4]]].
  unfold MatchingAttention_init. rewrite H1, H2, H3, H4. reflexivity.
Qed.

(** ... and its [forward] raises on every input. *)
Lemma MatchingAttention_forward_unknown (mem cand : nat) (ty : string)
    (M : list (list vec)) (x : list vec) (mask : option (list vec)) :
  ~ known_att_type ty ->
  is_ok (MatchingAttention_forward
           {| mem_dim := mem; cand_dim := cand; att_type := ty;
              transform := None; vector_prod := None |} M x mask) = false.
Proof.
  intros H. destruct (unknown_att_type_eqb ty H) as [H1 [H2 [H3 H4]]].
  unfold MatchingAttention_forward. cbn [att_type transform vector_prod].
  rewrite H1, H2, H3.
  destruct (check (length x =? size1 M)%nat) as [[]|e]; reflexivity.
Qed.

(** C4.  [concat] without a hidden width and [dot] with different widths
    fail in [__init__]; a variant name that [forward] has no branch for
    (here ['simple'], the default context attention of [DialogueRNN]) is
    accepted by [__init__] and fails only in the first [forward], with an
    [AttributeError] on the missing [transform]. *)
Theorem MatchingAttention_invalid_variant_fails_late :
  (forall th name mem cand,
     MatchingAttention_init th name mem cand None "concat" = Raise AssertionError) /\
  (forall th name adim,
     MatchingAttention_init th name 3 2 adim "dot" = Raise AssertionError) /\
  (exists att,
     MatchingAttention_init th0 "attention" 2 2 (Some 1%nat) "simple" = Ok att /\
     MatchingAttention_forward att [[[1; 1]]] [[1; 1]] None = Raise AttributeError).
Proof.
  split; [intros; reflexivity|].
  split; [intros th name [a|]; reflexivity|].
  eexists. split; reflexivity.
Qed.

(** ** Masked loss *)

Lemma map2_ext_nth {A B C : Type} (f : A -> B -> C) (a a' : list A) (b : list B)
    (da : A) (db : B) :
  length a = length a' ->
  (forall i, (i < length a)%nat -> (i < length b)%nat ->
             f (nth i a da) (nth i b db) = f (nth i a' da) (nth i b db)) ->
  map2 f a b = map2 f a' b.
Proof.
  unfold map2.
  revert a' b; induction a as [|x a IH]; intros [|x' a'] [|y b] Hl H; simpl in *;
    try discriminate; try reflexivity.
  f_equal.
  - apply (H 0%nat); lia.
  - apply IH; [lia|]. intros i Hi Hb. apply (H (S i)); lia.
Qed.

Lemma map_mult_0 (r r' : vec) :
  length r = length r' ->
  map (fun x => x * 0) r = map (fun x => x * 0) r'.
Proof.
  revert r'; induction r as [|x r IH]; intros [|x' r'] H; simpl in *;
    try discriminate; [reflexivity|].
  f_equal; [ring|]. apply IH. lia.
Qed.

Lemma masked_pred_agree (pred pred' : list vec) (mask_ : vec) :
  length pred = length pred' ->
  (forall i, length (nth i pred []) = length (nth i pred' [])) ->
  Forall (fun m => m = 0 \/ m = 1) mask_ ->
  (forall i, nth i mask_ 0 = 1 -> nth i pred [] = nth i pred' []) ->
  map2 (fun row m => map (fun x => x * m) row) pred mask_
  = map2 (fun row m => map (fun x => x * m) row) pred' mask_.
Proof.
  intros Hl Hw Hm Hv. apply (map2_ext_nth _ pred pred' mask_ [] 0 Hl).
  intros i Hi Hb.
  rewrite Forall_forall in Hm.
  destruct (Hm (nth i mask_ 0) (nth_In _ _ Hb)) as [E|E].
  - rewrite E. apply map_mult_0. apply Hw.
  - rewrite (Hv i E). reflexivity.
Qed.

Lemma list_as_map_seq {A : Type} (l : list A) (d : A) :
  l = map (fun i => nth i l d) (seq 0 (length l)).
Proof.
  apply (nth_ext _ _ d d).
  - rewrite length_map, length_seq. reflexivity.
  - intros n Hn.
    rewrite (nth_indep (map (fun i => nth i l d) (seq 0 (length l))) d
               ((fun i => nth i l d) 0%nat))
      by (rewrite length_map, length_seq; exact Hn).
    rewrite (map_nth (fun i => nth i l d)), seq_nth by exact Hn. reflexivity.
Qed.

Lemma Rsum_filter_mask (h m : nat -> R) (l : list nat) :
  (forall i, In i l -> m i = 0 \/ m i = 1) ->
  Rsum (map (fun i => h i * m i) l)
  = Rsum (map h (filter (fun i => if Req_dec_T (m i) 1 then true else false) l)).
Proof.
  induction l as [|i l IH]; intros H; simpl; [reflexivity|].
  rewrite IH by (intros j Hj; apply H; right; exact Hj).
  destruct (H i (or_introl eq_refl)) as [E|E]; rewrite E.
  - destruct (Req_dec_T 0 1) as [E1|_]; [lra|]. ring.
  - destruct (Req_dec_T 1 1) as [_|E1]; [|congruence]. simpl. ring.
Qed.

Lemma Rsum_map_seq_ext (f g : nat -> R) (n : nat) :
  (forall i, (i < n)%nat -> f i = g i) ->
  Rsum (map f (seq 0 n)) = Rsum (map g (seq 0 n)).
Proof.
  intros H. f_equal. apply map_ext_in. intros i Hi. apply in_seq in Hi.
  apply H. lia.
Qed.

(** With as many mask entries as rows nothing is broadcast. *)
Lemma mul_rows_eq (pred : list vec) (mask_ : vec) :
  length pred = length mask_ ->
  mul_rows pred mask_ = Ok (map2 (fun row m => map (fun x => x * m) row) pred mask_).
Proof.
  intros H. unfold mul_rows. rewrite (proj2 (Nat.eqb_eq _ _) H). reflexivity.
Qed.

Lemma mul_weights_eq (wt mask_ : vec) :
  length wt = length mask_ -> mul_weights wt mask_ = Ok (vmul wt mask_).
Proof.
  intros H. unfold mul_weights. rewrite (proj2 (Nat.eqb_eq _ _) H). reflexivity.
Qed.

(** The loss of the source is the loss of the specification. *)
Lemma MaskedNLLLoss_forward_spec (w : option vec) (pred : list vec)
    (target : list Z) (mask : list vec) (N C : nat) :
  (1 <= N)%nat ->
  has_shape2 N C pred = true ->
  length target = N ->
  length (concat mask) = N ->
  Forall (fun t => (0 <= t < Z.of_nat C)%Z) target ->
  match w with Some w => length w = C | None => True end ->
  Forall (fun m => m = 0 \/ m = 1) (concat mask) ->
  MaskedNLLLoss_forward w pred target mask = Ok (masked_nll_spec w pred target mask).
Proof.
  intros HN Hp Ht Hm Hrange Hw H01.
  assert (Hlp : length pred = N) by (apply has_shape2_true in Hp; tauto).
  unfold MaskedNLLLoss_forward, masked_nll_spec.
  set (mask_ := concat mask) in *.
  rewrite mul_rows_eq by lia. cbn [bind].
  set (masked := map2 _ pred mask_).
  assert (Hlmk : length masked = N) by (unfold masked; rewrite map2_length; lia).
  assert (Hrow : forall i, (i < N)%nat ->
            nth i masked [] = map (fun x => x * nth i mask_ 0) (nth i pred [])).
  { intros i Hi. unfold masked.
    rewrite (map2_nth _ pred mask_ i [] 0 []) by lia. reflexivity. }
  assert (Hti : forall i, (i < N)%nat -> (0 <= nth i target 0 < Z.of_nat C)%Z).
  { intros i Hi. rewrite Forall_forall in Hrange. apply Hrange.
    apply nth_In. lia. }
  assert (Hpi : forall i, (i < N)%nat -> length (nth i pred []) = C).
  { intros i Hi. eapply has_shape2_nth; eauto. }
  (* numerator *)
  set (g := fun p : vec * Z =>
              - (class_weight w (snd p) * nth (Z.to_nat (snd p)) (fst p) 0)).
  assert (Hnum : nll_loss_sum w masked target = Ok (Rsum (map g (combine masked target)))).
  { unfold nll_loss_sum.
    rewrite (proj2 (Nat.eqb_eq (length masked) (length target))) by lia. cbn [bind].
    rewrite check_true.
    2:{ destruct w as [w|]; [|reflexivity]. apply Nat.eqb_eq. rewrite Hw.
        unfold size1. destruct masked as [|r0 ms] eqn:E; [simpl in Hlmk; lia|].
        simpl. pose proof (Hrow 0%nat ltac:(lia)) as H0. simpl in H0.
        rewrite H0, length_map. symmetry. apply Hpi. lia. }
    cbn [bind].
    rewrite (mapM_map _ g); [reflexivity|].
    intros [row t] Hin. unfold nll_term, g. cbn [fst snd].
    pose proof (in_combine_l _ _ _ _ Hin) as Hr.
    pose proof (in_combine_r _ _ _ _ Hin) as Htin.
    rewrite Forall_forall in Hrange. specialize (Hrange t Htin).
    assert (Hlr : length row = C).
    { apply (In_nth _ _ []) in Hr. destruct Hr as [i [Hi <-]].
      rewrite Hrow by lia. rewrite length_map. apply Hpi. lia. }
    destruct (Z.eqb_spec t (-100)) as [E|_]; [lia|].
    rewrite Hlr.
    destruct (Z.leb_spec 0 t); [|lia].
    destruct (Z.ltb_spec t (Z.of_nat C)); [|lia].
    reflexivity. }
  rewrite Hnum. cbn [bind].
  assert (Hsum : Rsum (map g (combine masked target))
                 = Rsum (map (fun i => - (class_weight w (nth i target 0%Z)
                          * nth (Z.to_nat (nth i target 0%Z)) (nth i pred []) 0))
                             (valid_positions mask_))).
  { rewrite (list_as_map_seq (combine masked target) ([], 0%Z)) at 1.
    rewrite map_map, length_combine, Hlmk, Ht, Nat.min_id.
    unfold valid_positions. rewrite Hm.
    rewrite <- (Rsum_filter_mask
                  (fun i => - (class_weight w (nth i target 0%Z)
                          * nth (Z.to_nat (nth i target 0%Z)) (nth i pred []) 0))
                  (fun i => nth i mask_ 0)).
    2:{ intros i Hi. apply in_seq in Hi. rewrite Forall_forall in H01.
        apply H01. apply nth_In. lia. }
    apply Rsum_map_seq_ext. intros i Hi. unfold g.
    rewrite combine_nth_lt by lia. cbn [fst snd].
    rewrite Hrow by exact Hi.
    assert (Hk : (Z.to_nat (nth i target 0%Z) < length (nth i pred []))%nat).
    { rewrite Hpi by exact Hi. specialize (Hti i Hi). lia. }
    rewrite (nth_indep _ 0 ((fun x => x * nth i mask_ 0) 0))
      by (rewrite length_map; exact Hk).
    rewrite (map_nth (fun x => x * nth i mask_ 0)). ring. }
  destruct w as [w|].
  - rewrite (mapM_map _ (fun t => nth (Z.to_nat t) w 0)).
    2:{ intros t Htin. unfold weight_at, py_index.
        rewrite Forall_forall in Hrange. specialize (Hrange t Htin).
        rewrite Hw.
        destruct (Z.leb_spec 0 t); [|lia].
        destruct (Z.ltb_spec t (Z.of_nat C)); [|lia]. reflexivity. }
    cbn [bind]. rewrite mul_weights_eq by (rewrite length_map; lia).
    cbn [bind]. rewrite Hsum. do 2 f_equal.
    unfold vmul, map2.
    rewrite (list_as_map_seq (combine (map (fun t => nth (Z.to_nat t) w 0) target) mask_)
               (0, 0)) at 1.
    rewrite map_map, length_combine, length_map, Ht, Hm, Nat.min_id.
    unfold valid_positions. rewrite Hm.
    rewrite <- (Rsum_filter_mask
                  (fun i => class_weight (Some w) (nth i target 0%Z))
                  (fun i => nth i mask_ 0)).
    2:{ intros i Hi. apply in_seq in Hi. rewrite Forall_forall in H01.
        apply H01. apply nth_In. lia. }
    apply Rsum_map_seq_ext. intros i Hi.
    rewrite combine_nth_lt by (rewrite ?length_map; lia). cbn [fst snd class_weight].
    rewrite (nth_indep _ 0 ((fun t => nth (Z.to_nat t) w 0) 0%Z))
      by (rewrite length_map; lia).
    rewrite (map_nth (fun t => nth (Z.to_nat t) w 0)). reflexivity.
  - rewrite Hsum. do 2 f_equal.
    rewrite (list_as_map_seq mask_ 0) at 1.
    unfold valid_positions. rewrite Hm.
    rewrite <- (Rsum_filter_mask (fun i => class_weight None (nth i target 0%Z))
                  (fun i => nth i mask_ 0)).
    2:{ intros i Hi. apply in_seq in Hi. rewrite Forall_forall in H01.
        apply H01. apply nth_In. lia. }
    apply Rsum_map_seq_ext. intros i Hi. cbn [class_weight]. ring.
Qed.

(** C9.  Two prediction tensors of one shape, with one mask entry for each of
    their rows, that agree wherever the mask is 1 have the same masked loss,
    with or without class weights; and for in-range targets the loss is the
    one computed from the valid positions alone, in its numerator and in its
    denominator. *)
Theorem masked_loss_ignores_padding (weight : option vec) (pred pred' : list vec)
    (target : list Z) (mask : list vec) :
  length pred = length pred' ->
  length (concat mask) = length pred ->
  (forall i, length (nth i pred []) = length (nth i pred' [])) ->
  Forall (fun m => m = 0 \/ m = 1) (concat mask) ->
  (forall i, nth i (concat mask) 0 = 1 -> nth i pred [] = nth i pred' []) ->
  MaskedNLLLoss_forward weight pred target mask
  = MaskedNLLLoss_forward weight pred' target mask
  /\
  (forall N C,
     (1 <= N)%nat ->
     has_shape2 N C pred = true ->
     length target = N ->
     length (concat mask) = N ->
     Forall (fun t => (0 <= t < Z.of_nat C)%Z) target ->
     match weight with Some w => length w = C | None => True end ->
     MaskedNLLLoss_forward weight pred target mask
     = Ok (masked_nll_spec weight pred target mask)).
Proof.
  intros Hl Hlm Hw H01 Hv. split.
  - unfold MaskedNLLLoss_forward.
    rewrite !mul_rows_eq by lia.
    rewrite (masked_pred_agree pred pred' (concat mask) Hl Hw H01 Hv).
    reflexivity.
  - intros N C HN Hp Ht Hm Hr Hwt.
    apply (MaskedNLLLoss_forward_spec weight pred target mask N C); assumption.
Qed.

Lemma masked_loss_ignores_padding_witness :
  MaskedNLLLoss_forward (Some [1; 2]) [[-1; -2]; [-3; -4]] [0%Z; 1%Z] [[1; 0]]
  = MaskedNLLLoss_forward (Some [1; 2]) [[-1; -2]; [7; 8]] [0%Z; 1%Z] [[1; 0]]
  /\
  MaskedNLLLoss_forward (Some [1; 2]) [[-1; -2]; [-3; -4]] [0%Z; 1%Z] [[1; 0]]
  = Ok (masked_nll_spec (Some [1; 2]) [[-1; -2]; [-3; -4]] [0%Z; 1%Z] [[1; 0]]).
Proof.
  destruct (masked_loss_ignores_padding (Some [1; 2]) [[-1; -2]; [-3; -4]]
              [[-1; -2]; [7; 8]] [0%Z; 1%Z] [[1; 0]]) as [H1 H2].
  - reflexivity.
  - reflexivity.
  - intros [|[|i]]; reflexivity.
  - simpl. constructor; [right; reflexivity|].
    constructor; [left; reflexivity|constructor].
  - intros [|[|i]] H; simpl in H.
    + reflexivity.
    + exfalso. lra.
    + exfalso. destruct i; lra.
  - split; [exact H1|].
    apply (H2 2%nat 2%nat).
    + apply le_S, le_n.
    + reflexivity.
    + reflexivity.
    + reflexivity.
    + constructor; [lia|]. constructor; [lia|constructor].
    + reflexivity.
Defined.

(** ** Length-respecting reversal *)

Lemma fold_max_ge (l : list nat) (x : nat) :
  In x l -> (x <= fold_right Nat.max 0%nat l)%nat.
Proof.
  induction l as [|y l IH]; simpl; [tauto|].
  intros [->|H]; [lia|]. specialize (IH H). lia.
Qed.

Lemma fold_max_le (l : list nat) (n : nat) :
  (forall x, In x l -> (x <= n)%nat) -> (fold_right Nat.max 0%nat l <= n)%nat.
Proof.
  induction l as [|y l IH]; intros H; simpl; [lia|].
  pose proof (H y (or_introl eq_refl)).
  specialize (IH (fun x Hx => H x (or_intror Hx))). lia.
Qed.

Lemma nth_Forall_default {A : Type} (P : A -> Prop) (l : list A) (d : A) (i : nat) :
  Forall P l -> P d -> P (nth i l d).
Proof.
  intros Hl Hd. destruct (Nat.lt_ge_cases i (length l)) as [H|H].
  - rewrite Forall_forall in Hl. apply Hl. apply nth_In. exact H.
  - rewrite nth_overflow by exact H. exact Hd.
Qed.

Lemma nth_firstn_lt {A : Type} (l : list A) (n i : nat) (d : A) :
  (i < n)%nat -> nth i (firstn n l) d = nth i l d.
Proof.
  revert n i; induction l as [|x l IH]; intros [|n] [|i] H; simpl; try lia;
    try reflexivity.
  apply IH. lia.
Qed.

Lemma In_firstn {A : Type} (l : list A) (n : nat) (x : A) :
  In x (firstn n l) -> In x l.
Proof.
  revert n; induction l as [|y l IH]; intros [|n] H; simpl in *; try tauto.
  destruct H as [H|H]; [left; exact H|right; eapply IH; exact H].
Qed.

Lemma pad_sequence_ok (d : nat) (xfs : list (list vec)) :
  xfs <> [] ->
  exists P,
    pad_sequence d xfs = Ok P /\
    length P = fold_right Nat.max 0%nat (map (@length vec) xfs) /\
    (forall t, (t < length P)%nat ->
               nth t P [] = map (fun xf => nth t xf (zeros d)) xfs).
Proof.
  intros H. destruct xfs as [|xf xfs]; [congruence|].
  unfold pad_sequence. eexists. split; [reflexivity|].
  split; [rewrite length_map, length_seq; reflexivity|].
  intros t Ht. rewrite length_map, length_seq in Ht.
  rewrite (nth_indep _ [] ((fun t => map (fun xf0 => nth t xf0 (zeros d)) (xf :: xfs)) 0%nat))
    by (rewrite length_map, length_seq; exact Ht).
  rewrite (map_nth (fun t => map (fun xf0 => nth t xf0 (zeros d)) (xf :: xfs))).
  rewrite seq_nth by exact Ht. reflexivity.
Qed.

Lemma reverse_seq_nth (X : list (list vec)) (mask : list vec) (T B D : nat) :
  has_shape3 T B D X = true ->
  (1 <= T)%nat -> (1 <= B)%nat ->
  length mask = B ->
  (forall b, (b < B)%nat -> (0 <= valid_len mask b <= Z.of_nat T)%Z) ->
  exists X1 L,
    _reverse_seq X mask = Ok X1 /\
    has_shape3 L B D X1 = true /\
    (L <= T)%nat /\
    (forall b, (b < B)%nat -> (valid_len mask b <= Z.of_nat L)%Z) /\
    (forall b t, (b < B)%nat -> (t < Z.to_nat (valid_len mask b))%nat ->
       nth b (nth t X1 []) []
       = nth b (nth (Z.to_nat (valid_len mask b) - 1 - t) X []) []).
Proof.
  intros HX HT HB Hm Hc.
  assert (HlX : length X = T) by (apply has_shape3_true in HX; tauto).
  unfold _reverse_seq.
  rewrite (has_shape3_size1 T B D X HX HT).
  rewrite (has_shape3_size2 T B D X HX HT HB).
  set (xfs := map _ (combine (map (batch_row X) (seq 0 B)) _)).
  assert (Hlx : length xfs = B).
  { unfold xfs. rewrite length_map, length_combine, !length_map, length_seq. lia. }
  assert (Hxf : forall b, (b < B)%nat ->
            nth b xfs [] = rev (firstn (Z.to_nat (valid_len mask b)) (batch_row X b))).
  { intros b Hb. unfold xfs.
    rewrite (nth_indep _ [] ((fun p : list vec * Z => rev (slice_to (snd p) (fst p)))
                               ([], 0%Z)))
      by (rewrite length_map, length_combine, !length_map, length_seq; lia).
    rewrite (map_nth (fun p : list vec * Z => rev (slice_to (snd p) (fst p)))).
    rewrite combine_nth_lt by (rewrite !length_map, ?length_seq; lia).
    cbn [fst snd].
    rewrite (nth_indep (map (batch_row X) (seq 0 B)) [] (batch_row X 0%nat))
      by (rewrite length_map, length_seq; lia).
    rewrite (map_nth (batch_row X)), seq_nth by lia.
    rewrite (nth_indep (map (fun r => trunc (Rsum r)) mask) 0%Z
               ((fun r => trunc (Rsum r)) []))
      by (rewrite length_map; lia).
    rewrite (map_nth (fun r => trunc (Rsum r))).
    fold (valid_len mask b). unfold slice_to.
    destruct (Z.leb_spec 0 (valid_len mask b)) as [_|Hneg]; [reflexivity|].
    specialize (Hc b Hb). lia. }
  assert (Hlen : forall b, (b < B)%nat ->
            length (nth b xfs []) = Z.to_nat (valid_len mask b)).
  { intros b Hb. rewrite Hxf by exact Hb.
    rewrite length_rev, length_firstn, batch_row_length, HlX.
    specialize (Hc b Hb). lia. }
  destruct (pad_sequence_ok D xfs) as [P [HP [HlP HnP]]].
  { intros E. rewrite E in Hlx. simpl in Hlx. lia. }
  exists P, (length P). split; [exact HP|].
  assert (Hge : forall b, (b < B)%nat -> (Z.to_nat (valid_len mask b) <= length P)%nat).
  { intros b Hb. rewrite HlP, <- Hlen by exact Hb.
    apply fold_max_ge. apply in_map. apply nth_In. lia. }
  assert (Hwidth : forall b, (b < B)%nat ->
            Forall (fun v : vec => length v = D) (nth b xfs [])).
  { intros b Hb. rewrite Hxf by exact Hb.
    apply Forall_forall. intros v Hv. apply in_rev in Hv.
    apply In_firstn in Hv.
    pose proof (batch_row_width T B D X b HX Hb) as Hw.
    rewrite Forall_forall in Hw. auto. }
  split; [|split; [|split]].
  - apply has_shape3_true. split; [reflexivity|].
    apply Forall_forall. intros r Hr.
    apply (In_nth _ _ []) in Hr. destruct Hr as [t [Ht <-]].
    rewrite HnP by exact Ht.
    apply has_shape2_true. split; [rewrite length_map; exact Hlx|].
    apply Forall_forall. intros v Hv. apply in_map_iff in Hv.
    destruct Hv as [xf [<- Hin]].
    apply (In_nth _ _ []) in Hin. destruct Hin as [b [Hb <-]].
    apply nth_Forall_default; [apply Hwidth; lia|apply repeat_length].
  - rewrite HlP. apply fold_max_le. intros n Hn. apply in_map_iff in Hn.
    destruct Hn as [xf [<- Hxfin]].
    apply (In_nth _ _ []) in Hxfin. destruct Hxfin as [b [Hb <-]].
    rewrite Hlen by lia. specialize (Hc b ltac:(lia)). lia.
  - intros b Hb. specialize (Hge b Hb). specialize (Hc b Hb). lia.
  - intros b t Hb Ht.
    rewrite HnP by (specialize (Hge b Hb); lia).
    rewrite (nth_indep _ [] ((fun xf => nth t xf (zeros D)) []))
      by (rewrite length_map; lia).
    rewrite (map_nth (fun xf => nth t xf (zeros D))).
    rewrite Hxf by exact Hb.
    assert (Hlf : length (firstn (Z.to_nat (valid_len mask b)) (batch_row X b))
                  = Z.to_nat (valid_len mask b)).
    { rewrite length_firstn, batch_row_length, HlX. specialize (Hc b Hb). lia. }
    rewrite rev_nth by (rewrite Hlf; exact Ht).
    rewrite Hlf, nth_firstn_lt by lia.
    unfold batch_row.
    rewrite (nth_indep (map (fun Mt : list vec => nth b Mt []) X) (zeros D)
               ((fun Mt : list vec => nth b Mt []) []))
      by (rewrite length_map, HlX; specialize (Hc b Hb); lia).
    rewrite (map_nth (fun Mt : list vec => nth b Mt [])).
    f_equal. f_equal. lia.
Qed.

(** C8.  On a padded batch whose rows have valid lengths between 0 and the
    sequence length, the reversal returns, and at every valid position of
    every row reversing the result again with the same mask returns and
    gives back the original entry. *)
Theorem reverse_seq_involutive (X : list (list vec)) (mask : list vec) (T B D : nat) :
  has_shape3 T B D X = true ->
  (1 <= T)%nat -> (1 <= B)%nat ->
  length mask = B ->
  (forall b, (b < B)%nat -> (0 <= valid_len mask b <= Z.of_nat T)%Z) ->
  exists X1,
    _reverse_seq X mask = Ok X1 /\
    forall b t, (b < B)%nat -> (Z.of_nat t < valid_len mask b)%Z ->
      exists X2,
        _reverse_seq X1 mask = Ok X2 /\
        nth b (nth t X2 []) [] = nth b (nth t X []) [].
Proof.
  intros HX HT HB Hm Hc.
  destruct (reverse_seq_nth X mask T B D HX HT HB Hm Hc)
    as [X1 [L [H1 [HX1 [_ [HcL Hn1]]]]]].
  exists X1. split; [exact H1|].
  intros b t Hb Ht.
  assert (HL : (1 <= L)%nat) by (specialize (HcL b Hb); lia).
  destruct (reverse_seq_nth X1 mask L B D HX1 HL HB Hm)
    as [X2 [L2 [H2 [_ [_ [_ Hn2]]]]]].
  { intros b' Hb'. specialize (Hc b' Hb'). specialize (HcL b' Hb'). lia. }
  exists X2. split; [exact H2|].
  rewrite Hn2 by lia. rewrite Hn1 by lia.
  f_equal. f_equal. lia.
Qed.

Lemma trunc_IZR (z : Z) : (0 <= z)%Z -> trunc (IZR z) = z.
Proof.
  intros Hz. unfold trunc.
  destruct (Rle_dec 0 (IZR z)) as [_|Hn].
  - symmetry. apply Int_part_spec. lra.
  - exfalso. apply Hn. apply (IZR_le 0 z). exact Hz.
Qed.

Lemma reverse_seq_involutive_witness :
  exists X1,
    _reverse_seq [[[1]; [2]]; [[3]; [4]]] [[1; 1]; [1; 0]] = Ok X1 /\
    forall b t, (b < 2)%nat -> (Z.of_nat t < valid_len [[1; 1]; [1; 0]]%R b)%Z ->
      exists X2,
        _reverse_seq X1 [[1; 1]; [1; 0]] = Ok X2 /\
        nth b (nth t X2 []) [] = nth b (nth t [[[1]; [2]]; [[3]; [4]]] []) [].
Proof.
  apply (reverse_seq_involutive [[[1]; [2]]; [[3]; [4]]] [[1; 1]; [1; 0]] 2 2 1).
  - reflexivity.
  - lia.
  - lia.
  - reflexivity.
  - intros b Hb. unfold valid_len.
    destruct b as [|[|b]]; [| |lia]; cbn [nth].
    + replace (Rsum [1; 1]) with (IZR 2) by (simpl; lra).
      rewrite trunc_IZR; lia.
    + replace (Rsum [1; 0]) with (IZR 1) by (simpl; lra).
      rewrite trunc_IZR; lia.
Defined.

(** ** Steps of the dialogue cell *)

Lemma argmax_from_bound (v : vec) (bi i : nat) (best : R) :
  (bi < i)%nat -> (argmax_from bi best i v < i + length v)%nat.
Proof.
  revert bi i best; induction v as [|x v IH]; intros bi i best H; simpl; [lia|].
  destruct (Rlt_dec best x).
  - specialize (IH i (S i) x ltac:(lia)). lia.
  - specialize (IH bi (S i) best ltac:(lia)). lia.
Qed.

Lemma argmax_idx_lt (v : vec) : v <> [] -> (argmax_idx v < length v)%nat.
Proof.
  destruct v as [|x v]; [congruence|]. intros _. simpl.
  pose proof (argmax_from_bound v 0 1 x ltac:(lia)). lia.
Qed.

Lemma mapM_argmax (qmask : list vec) (B party : nat) :
  has_shape2 B party qmask = true -> (1 <= party)%nat ->
  mapM argmax qmask = Ok (map argmax_idx qmask).
Proof.
  intros H Hp. apply mapM_map. intros r Hr.
  apply has_shape2_true in H. destruct H as [_ Hf].
  rewrite Forall_forall in Hf. specialize (Hf r Hr).
  destruct r; [simpl in Hf; lia|reflexivity].
Qed.

Lemma argmax_idx_rows (qmask : list vec) (B party : nat) :
  has_shape2 B party qmask = true -> (1 <= party)%nat ->
  Forall (fun k => (k < party)%nat) (map argmax_idx qmask).
Proof.
  intros H Hp. apply Forall_forall. intros k Hk. apply in_map_iff in Hk.
  destruct Hk as [r [<- Hr]].
  apply has_shape2_true in H. destruct H as [_ Hf].
  rewrite Forall_forall in Hf. specialize (Hf r Hr).
  rewrite <- Hf. apply argmax_idx_lt. intros ->. simpl in Hf. lia.
Qed.

Lemma select_parties_ok {A : Type} (X : list (list A)) (idx : list nat)
    (B party : nat) (d : A) :
  (1 <= B)%nat ->
  length X = B -> Forall (fun r => length r = party) X ->
  length idx = B -> Forall (fun k => (k < party)%nat) idx ->
  _select_parties X idx = Ok (map2 (fun k r => nth k r d) idx X).
Proof.
  intros HB HX HXr Hi Hir. unfold _select_parties.
  rewrite (mapM_map _ (fun p => nth (fst p) (snd p) d)).
  - cbn [bind]. fold (map2 (fun k r => nth k r d) idx X).
    destruct (map2 (fun k r => nth k r d) idx X) eqn:E; [|reflexivity].
    apply (f_equal (@length A)) in E. rewrite map2_length in E. simpl in E. lia.
  - intros [k r] Hin. cbn [fst snd].
    rewrite Forall_forall in HXr, Hir.
    pose proof (Hir k (in_combine_l _ _ _ _ Hin)) as Hk.
    pose proof (HXr r (in_combine_r _ _ _ _ Hin)) as Hr.
    destruct (nth_error r k) as [a|] eqn:E.
    + rewrite (nth_error_nth _ _ d E). reflexivity.
    + apply nth_error_None in E. lia.
Qed.

Lemma map2_Forall {A B C : Type} (f : A -> B -> C) (P : A -> Prop) (Q : B -> Prop)
    (S : C -> Prop) (a : list A) (b : list B) :
  Forall P a -> Forall Q b -> (forall x y, P x -> Q y -> S (f x y)) ->
  Forall S (map2 f a b).
Proof.
  intros Ha Hb H. apply Forall_forall. intros c Hc. unfold map2 in Hc.
  apply in_map_iff in Hc. destruct Hc as [[x y] [<- Hin]]. simpl.
  rewrite Forall_forall in Ha, Hb.
  apply H; [apply Ha; eapply in_combine_l; eauto|apply Hb; eapply in_combine_r; eauto].
Qed.

Lemma select_shape (X : list (list vec)) (idx : list nat) (B party D : nat) :
  has_shape3 B party D X = true -> length idx = B ->
  Forall (fun k => (k < party)%nat) idx ->
  has_shape2 B D (map2 (fun k r => nth k r []) idx X) = true.
Proof.
  intros HX Hi Hk. apply has_shape3_true in HX. destruct HX as [Hl Hf].
  apply has_shape2_true. split; [rewrite map2_length; lia|].
  apply (map2_Forall _ (fun k => (k < party)%nat)
           (fun r => has_shape2 party D r = true)); auto.
  intros k r Hlt Hr. eapply has_shape2_nth; eauto.
Qed.

Lemma has_shape3_rows {A : Type} (B P D : nat) (X : list (list (list A))) :
  has_shape3 B P D X = true ->
  length X = B /\ Forall (fun r => length r = P) X.
Proof.
  intros H. apply has_shape3_true in H. destruct H as [Hl Hf]. split; [exact Hl|].
  eapply Forall_impl; [|exact Hf]. simpl. intros r Hr.
  apply has_shape2_true in Hr. tauto.
Qed.

Lemma cat_cols_ok (a b : list vec) (B d1 d2 : nat) :
  has_shape2 B d1 a = true -> has_shape2 B d2 b = true ->
  cat_cols a b = Ok (map2 (@app R) a b) /\
  has_shape2 B (d1 + d2) (map2 (@app R) a b) = true.
Proof.
  intros Ha Hb. apply has_shape2_true in Ha. apply has_shape2_true in Hb.
  destruct Ha as [Hla Hfa], Hb as [Hlb Hfb]. split.
  - unfold cat_cols. rewrite check_true by (apply Nat.eqb_eq; lia). reflexivity.
  - apply has_shape2_true. split; [rewrite map2_length; lia|].
    apply (map2_Forall _ _ _ _ a b Hfa Hfb).
    intros x y Hx Hy. rewrite length_app. lia.
Qed.

Lemma dropout1_length (m : nat -> R) (x : vec) : length (dropout1 m x) = length x.
Proof. apply imap_length. Qed.

Lemma dropout2_shape (m : nat -> nat -> R) (x : list vec) (B D : nat) :
  has_shape2 B D x = true -> has_shape2 B D (dropout2 m x) = true.
Proof.
  intros H. apply has_shape2_true in H. destruct H as [Hl Hf].
  apply has_shape2_true. split; [unfold dropout2; rewrite imap_length; exact Hl|].
  apply Forall_forall. intros r Hr. apply in_imap in Hr.
  destruct Hr as [b [x0 [-> [_ Hx0]]]]. rewrite dropout1_length.
  rewrite Forall_forall in Hf. auto.
Qed.

Lemma dropout3_shape (m : nat -> nat -> nat -> R) (x : list (list vec)) (B P D : nat) :
  has_shape3 B P D x = true -> has_shape3 B P D (dropout3 m x) = true.
Proof.
  intros H. apply has_shape3_true in H. destruct H as [Hl Hf].
  apply has_shape3_true. split; [unfold dropout3; rewrite imap_length; exact Hl|].
  apply Forall_forall. intros r Hr. apply in_imap in Hr.
  destruct Hr as [b [x0 [-> [_ Hx0]]]]. apply dropout2_shape.
  rewrite Forall_forall in Hf. auto.
Qed.

Lemma GRUCell_batch_shape (c : GRUCell) (x h : list vec) (n : nat) :
  length x = n -> length h = n ->
  has_shape2 n (hidden_size c) (map2 (GRUCell_out c) x h) = true.
Proof.
  intros Hx Hh. apply map2_shape2; auto. intros. apply GRUCell_out_length.
Qed.

Lemma gru3_ok (c : GRUCell) (x h : list (list vec)) (B P : nat) :
  has_shape3 B P (input_size c) x = true ->
  has_shape3 B P (hidden_size c) h = true ->
  gru3 c x h = Ok (map2 (map2 (GRUCell_out c)) x h) /\
  has_shape3 B P (hidden_size c) (map2 (map2 (GRUCell_out c)) x h) = true.
Proof.
  intros Hx Hh. apply has_shape3_true in Hx. apply has_shape3_true in Hh.
  destruct Hx as [Hlx Hfx], Hh as [Hlh Hfh]. split.
  - unfold gru3. rewrite check_true by (apply Nat.eqb_eq; lia). cbn [bind].
    unfold map2 at 1. apply mapM_map. intros [a b] Hin. cbn [fst snd].
    rewrite Forall_forall in Hfx, Hfh.
    apply (GRUCell_forward_ok c a b P).
    + apply Hfx. eapply in_combine_l; eauto.
    + apply Hfh. eapply in_combine_r; eauto.
  - apply has_shape3_true. split; [rewrite map2_length; lia|].
    apply (map2_Forall _ _ _ _ x h Hfx Hfh).
    intros a b Ha Hb. apply has_shape2_true in Ha. apply has_shape2_true in Hb.
    apply GRUCell_batch_shape; tauto.
Qed.

Lemma zeros2_shape (n d : nat) : has_shape2 n d (zeros2 n d) = true.
Proof.
  apply has_shape2_true. split; [apply repeat_length|].
  apply Forall_forall. intros r Hr. apply repeat_spec in Hr. subst r.
  apply repeat_length.
Qed.

Lemma zeros3_shape (n p d : nat) : has_shape3 n p d (zeros3 n p d) = true.
Proof.
  apply has_shape3_true. split; [apply repeat_length|].
  apply Forall_forall. intros r Hr. apply repeat_spec in Hr. subst r.
  apply zeros2_shape.
Qed.

Lemma blend_length (m : R) (o n : vec) :
  length o = length n -> length (blend m o n) = length o.
Proof. intros H. unfold blend. rewrite map2_length. lia. Qed.

(** A mask entry 0 keeps the old row, whatever the candidate is. *)
Lemma blend_0 (o n : vec) : length o = length n -> blend 0 o n = o.
Proof.
  unfold blend, map2.
  revert n; induction o as [|x o IH]; intros [|y n] H; simpl in *; try discriminate;
    [reflexivity|].
  f_equal; [ring|]. apply IH. lia.
Qed.

Lemma merge_ok (ql qs : list (list vec)) (qmask : list vec) (B P D : nat) :
  (1 <= B)%nat -> (1 <= P)%nat ->
  has_shape3 B P D ql = true -> has_shape3 B P D qs = true ->
  has_shape2 B P qmask = true ->
  merge ql qs qmask = Ok (merge_rows ql qs qmask).
Proof.
  intros HB HP Hl Hs Hm. unfold merge.
  assert (E1 : length ql = B) by (apply has_shape3_true in Hl; tauto).
  rewrite E1, (has_shape3_size1 B P D ql Hl HB), (has_shape3_size2 B P D ql Hl HB HP).
  rewrite Hl, Hs, Hm. reflexivity.
Qed.

Lemma merge_rows_nth (ql qs : list (list vec)) (qmask : list vec) (B P D b p : nat) :
  has_shape3 B P D ql = true -> has_shape3 B P D qs = true ->
  has_shape2 B P qmask = true ->
  (b < B)%nat -> (p < P)%nat ->
  nth p (nth b (merge_rows ql qs qmask) []) []
  = blend (nth p (nth b qmask []) 0) (nth p (nth b ql []) []) (nth p (nth b qs []) []).
Proof.
  intros Hl Hs Hm Hb Hp.
  destruct (has_shape3_rows B P D ql Hl) as [E1 F1].
  destruct (has_shape3_rows B P D qs Hs) as [E2 F2].
  assert (E3 : length qmask = B) by (apply has_shape2_true in Hm; tauto).
  unfold merge_rows.
  rewrite (map2_nth _ (combine ql qs) qmask b ([], []) [] [])
    by (rewrite ?length_combine; lia).
  rewrite combine_nth_lt by lia. cbn [fst snd].
  assert (L1 : length (nth b ql []) = P)
    by (rewrite Forall_forall in F1; apply F1, nth_In; lia).
  assert (L2 : length (nth b qs []) = P)
    by (rewrite Forall_forall in F2; apply F2, nth_In; lia).
  assert (L3 : length (nth b qmask []) = P) by (eapply has_shape2_nth; eauto).
  rewrite (map2_nth _ (combine (nth b ql []) (nth b qs [])) (nth b qmask []) p
             ([], []) 0 []) by (rewrite ?length_combine; lia).
  rewrite combine_nth_lt by lia. reflexivity.
Qed.

Lemma merge_rows_shape (ql qs : list (list vec)) (qmask : list vec) (B P D : nat) :
  has_shape3 B P D ql = true -> has_shape3 B P D qs = true ->
  has_shape2 B P qmask = true ->
  has_shape3 B P D (merge_rows ql qs qmask) = true.
Proof.
  intros Hl Hs Hm.
  destruct (has_shape3_rows B P D ql Hl) as [E1 F1].
  destruct (has_shape3_rows B P D qs Hs) as [E2 F2].
  assert (E3 : length qmask = B) by (apply has_shape2_true in Hm; tauto).
  apply has_shape3_true.
  assert (Hlen : length (merge_rows ql qs qmask) = B).
  { unfold merge_rows. rewrite map2_length, length_combine. lia. }
  split; [exact Hlen|].
  apply Forall_forall. intros r Hr.
  apply (In_nth _ _ []) in Hr. destruct Hr as [b [Hb <-]]. rewrite Hlen in Hb.
  assert (L1 : length (nth b ql []) = P)
    by (rewrite Forall_forall in F1; apply F1, nth_In; lia).
  assert (L2 : length (nth b qs []) = P)
    by (rewrite Forall_forall in F2; apply F2, nth_In; lia).
  assert (L3 : length (nth b qmask []) = P) by (eapply has_shape2_nth; eauto).
  assert (Hrl : length (nth b (merge_rows ql qs qmask) []) = P).
  { unfold merge_rows.
    rewrite (map2_nth _ (combine ql qs) qmask b ([], []) [] [])
      by (rewrite ?length_combine; lia).
    rewrite combine_nth_lt by lia. cbn [fst snd].
    rewrite map2_length, length_combine. lia. }
  apply has_shape2_true. split; [exact Hrl|].
  apply Forall_forall. intros v Hv.
  apply (In_nth _ _ []) in Hv. destruct Hv as [p [Hp <-]]. rewrite Hrl in Hp.
  rewrite (merge_rows_nth ql qs qmask B P D b p Hl Hs Hm Hb Hp).
  pose proof (has_shape3_nth B P D ql b Hl Hb) as S1.
  pose proof (has_shape3_nth B P D qs b Hs Hb) as S2.
  pose proof (has_shape2_nth P D _ p S1 Hp) as W1.
  pose proof (has_shape2_nth P D _ p S2 Hp) as W2.
  rewrite blend_length; lia.
Qed.

Lemma mapM_exists {A B : Type} (f : A -> exc B) (P : B -> Prop) (l : list A) :
  (forall x, In x l -> exists y, f x = Ok y /\ P y) ->
  exists ys, mapM f l = Ok ys /\ length ys = length l /\ Forall P ys.
Proof.
  induction l as [|a l IH]; intros H; simpl.
  - exists []. repeat split. constructor.
  - destruct (H a (or_introl eq_refl)) as [y [Hy Py]].
    destruct IH as [ys [Hys [Hl HP]]]; [intros x Hx; apply H; right; exact Hx|].
    exists (y :: ys). rewrite Hy, Hys. simpl. repeat split; [lia|].
    constructor; assumption.
Qed.

Lemma attention_pool_ok (th : params) (name : string) (mem cand : nat)
    (adim : option nat) (ty : string) (att : MatchingAttention)
    (M : list (list vec)) (x : list vec) (T B : nat) :
  MatchingAttention_init th name mem cand adim ty = Ok att ->
  known_att_type ty ->
  has_shape3 T B mem M = true ->
  has_shape2 B cand x = true ->
  (1 <= T)%nat -> (1 <= B)%nat ->
  exists alpha : list vec,
    MatchingAttention_forward att M x None
    = Ok (fattn_pool (map defined alpha) M, map defined alpha) /\
    mapM finite (fattn_pool (map defined alpha) M) = Ok (attn_pool alpha M) /\
    has_shape2 B mem (attn_pool alpha M) = true /\
    length alpha = B /\ Forall (row_ok T) alpha.
Proof.
  intros Hinit Hk HM Hx HT HB.
  destruct (MatchingAttention_forward_ok th name mem cand adim ty att M x None T B
              Hinit Hk HM Hx HT) as [alpha [Hf [Hl [Hr _]]]].
  { intros _. destruct (effective_mask_shape T B mem M HM HT) as [H1 H2].
    split; [exact H1|]. split; [exact H2|].
    intros b Hb. apply (effective_mask_peak T B mem att M x b HM HT Hb). }
  exists alpha. split; [exact Hf|].
  split; [rewrite fattn_pool_defined; apply mapM_finite_defined|].
  split; [|split; assumption].
  rewrite <- (has_shape3_size2 T B mem M HM HT HB).
  apply attn_pool_shape. exact Hl.
Qed.

Lemma py_index_nonneg (n : nat) (p : nat) :
  (p < n)%nat -> py_index n (Z.of_nat p) = Ok p.
Proof.
  intros H. unfold py_index.
  destruct (Z.leb_spec 0 (Z.of_nat p)); [|lia].
  destruct (Z.ltb_spec (Z.of_nat p) (Z.of_nat n)); [|lia].
  cbn [andb]. rewrite Nat2Z.id. reflexivity.
Qed.

(** [1 - p] is a valid index of the party axis for every [p] once there are
    at least two parties: index 1, index 0, or a negative index that wraps. *)
Lemma py_index_other (n : nat) (p : nat) :
  (2 <= n)%nat -> (p < n)%nat ->
  exists k, py_index n (1 - Z.of_nat p) = Ok k /\ (k < n)%nat.
Proof.
  intros Hn Hp. unfold py_index.
  remember (1 - Z.of_nat p)%Z as i eqn:Ei.
  destruct (Z.leb_spec 0 i); cbn [andb].
  - destruct (Z.ltb_spec i (Z.of_nat n)); [|lia].
    eexists. split; [reflexivity|]. lia.
  - destruct (Z.ltb_spec i 0); [|lia].
    destruct (Z.leb_spec (- Z.of_nat n) i); [|lia].
    cbn [andb]. eexists. split; [reflexivity|]. lia.
Qed.

Lemma party_slice_shape (q_hist : list (list (list vec))) (B party D_p k T : nat) :
  length q_hist = T ->
  Forall (fun q => has_shape3 B party D_p q = true) q_hist ->
  (k < party)%nat ->
  has_shape3 T B D_p (map (map (fun ps : list vec => nth k ps [])) q_hist) = true.
Proof.
  intros HT Hq Hk. apply has_shape3_true. split; [rewrite length_map; exact HT|].
  apply Forall_forall. intros r Hr. apply in_map_iff in Hr.
  destruct Hr as [q [<- Hin]]. rewrite Forall_forall in Hq. specialize (Hq q Hin).
  apply has_shape3_true in Hq. destruct Hq as [Hl Hf].
  apply has_shape2_true. split; [rewrite length_map; exact Hl|].
  apply Forall_forall. intros v Hv. apply in_map_iff in Hv.
  destruct Hv as [ps [<- Hps]]. rewrite Forall_forall in Hf.
  eapply has_shape2_nth; eauto.
Qed.

Lemma party_pool_ok (th : params) (name : string) (D_p D_m : nat)
    (adim : option nat) (ty : string) (att : MatchingAttention)
    (q_hist : list (list (list vec))) (U : list vec) (B party : nat) (i : Z) (k : nat) :
  MatchingAttention_init th name D_p D_m adim ty = Ok att ->
  known_att_type ty ->
  q_hist <> [] ->
  Forall (fun q => has_shape3 B party D_p q = true) q_hist ->
  has_shape2 B D_m U = true ->
  (1 <= B)%nat ->
  py_index party i = Ok k -> (k < party)%nat ->
  exists Q_, party_pool (Some att) D_p q_hist U i = Ok Q_ /\
             has_shape2 B D_p Q_ = true.
Proof.
  intros Hinit Hk Hne Hq HU HB Hi Hlt.
  unfold party_pool. cbn [getattr bind].
  assert (Hs2 : size2 q_hist = party).
  { destruct q_hist as [|q0 qh]; [congruence|]. unfold size2. simpl.
    inversion Hq as [|? ? Hq0 _]; subst.
    apply (has_shape3_size1 B party D_p q0 Hq0 HB). }
  rewrite Hs2, Hi. cbn [bind].
  destruct (attention_pool_ok th name D_p D_m adim ty att
              (map (map (fun ps : list vec => nth k ps [])) q_hist) U
              (length q_hist) B Hinit Hk)
    as [alpha [Hf [Hfin [Hshape _]]]].
  - apply (party_slice_shape q_hist B party D_p k); auto.
  - exact HU.
  - destruct q_hist; [congruence|simpl; lia].
  - exact HB.
  - rewrite Hf. cbn [bind fst]. rewrite Hfin. cbn [bind].
    assert (HlU : length U = B) by (apply has_shape2_true in HU; tauto).
    rewrite HlU, Hshape. cbn [check bind].
    eexists. split; [reflexivity|exact Hshape].
Qed.

Lemma gather_shape (B D : nat) (Qs : list (list vec)) :
  Forall (fun Q_ => has_shape2 B D Q_ = true) Qs ->
  has_shape3 B (length Qs) D (gather B Qs) = true.
Proof.
  intros H. apply has_shape3_true. unfold gather.
  split; [rewrite length_map, length_seq; reflexivity|].
  apply Forall_forall. intros r Hr. apply in_map_iff in Hr.
  destruct Hr as [b [<- Hb]]. apply in_seq in Hb.
  apply has_shape2_true. split; [apply length_map|].
  apply Forall_forall. intros v Hv. apply in_map_iff in Hv.
  destruct Hv as [Q_ [<- HQ]]. rewrite Forall_forall in H.
  eapply has_shape2_nth; [apply H; exact HQ|lia].
Qed.

Lemma DialogueRNNCell_init_inv (th : params) (name : string)
    (D_m D_g D_p D_e party : nat) (ca pa : option string) (D_a : nat)
    (cell : DialogueRNNCell) :
  DialogueRNNCell_init th name D_m D_g D_p D_e party ca pa D_a = Ok cell ->
  cell_D_m cell = D_m /\ cell_D_g cell = D_g /\ cell_D_p cell = D_p /\
  cell_D_e cell = D_e /\ cell_party cell = party /\
  cell_party_attention cell = pa /\
  g_cell cell = nn_GRUCell th (name ++ ".g_cell")%string (D_m + D_p + D_e) D_g /\
  p_cell cell = nn_GRUCell th (name ++ ".p_cell")%string (D_m + D_g + D_e) D_p /\
  e_cell cell = match pa with
                | None => nn_GRUCell th (name ++ ".e_cell")%string D_p D_e
                | Some _ => nn_GRUCell th (name ++ ".e_cell")%string (D_p + D_p + D_g) D_e
                end /\
  match ca with
  | Some s => exists a,
      MatchingAttention_init th (name ++ ".attention")%string D_g D_m (Some D_a) s = Ok a /\
      attention cell = Some a
  | None => attention cell = None
  end /\
  match pa with
  | Some s => exists a1 a2,
      MatchingAttention_init th (name ++ ".attention_p1")%string D_p D_m (Some D_a) s = Ok a1 /\
      MatchingAttention_init th (name ++ ".attention_p2")%string D_p D_m (Some D_a) s = Ok a2 /\
      attention_p1 cell = Some a1 /\ attention_p2 cell = Some a2
  | None => attention_p1 cell = None /\ attention_p2 cell = None
  end.
Proof.
  intros H. unfold DialogueRNNCell_init in H.
  destruct ca as [s|].
  - destruct (MatchingAttention_init th (name ++ ".attention") D_g D_m (Some D_a) s)
      as [a|e] eqn:Ea; cbn [bind] in H; [|discriminate].
    destruct pa as [sp|].
    + destruct (MatchingAttention_init th (name ++ ".attention_p1") D_p D_m (Some D_a) sp)
        as [a1|e] eqn:E1; cbn [bind] in H; [|discriminate].
      destruct (MatchingAttention_init th (name ++ ".attention_p2") D_p D_m (Some D_a) sp)
        as [a2|e] eqn:E2; cbn [bind] in H; [|discriminate].
      inversion H; subst; simpl. repeat split; eauto;
        try (do 2 eexists; repeat split; reflexivity).
    + cbn [bind] in H. inversion H; subst; simpl. repeat split; eauto;
        try (do 2 eexists; repeat split; reflexivity).
  - cbn [bind] in H. destruct pa as [sp|].
    + destruct (MatchingAttention_init th (name ++ ".attention_p1") D_p D_m (Some D_a) sp)
        as [a1|e] eqn:E1; cbn [bind] in H; [|discriminate].
      destruct (MatchingAttention_init th (name ++ ".attention_p2") D_p D_m (Some D_a) sp)
        as [a2|e] eqn:E2; cbn [bind] in H; [|discriminate].
      inversion H; subst; simpl. repeat split; eauto;
        try (do 2 eexists; repeat split; reflexivity).
    + cbn [bind] in H. inversion H; subst; simpl. repeat split; eauto;
        try (do 2 eexists; repeat split; reflexivity).
Qed.

Lemma has_shape3_app (T B D : nat) (M : list (list vec)) (g : list vec) :
  has_shape3 T B D M = true -> has_shape2 B D g = true ->
  has_shape3 (S T) B D (M ++ [g]) = true.
Proof.
  intros HM Hg. apply has_shape3_true in HM. destruct HM as [Hl Hf].
  apply has_shape3_true. split; [rewrite length_app; simpl; lia|].
  apply Forall_app. split; [exact Hf|]. constructor; [exact Hg|constructor].
Qed.

Lemma last_shape (T B D : nat) (M : list (list vec)) :
  has_shape3 T B D M = true -> M <> [] -> has_shape2 B D (last M []) = true.
Proof.
  intros HM Hne. apply has_shape3_true in HM. destruct HM as [_ Hf].
  rewrite Forall_forall in Hf. apply Hf.
  destruct (exists_last Hne) as [M' [g ->]]. rewrite last_last.
  apply in_or_app. right. left. reflexivity.
Qed.

Lemma known_att_type_truthy (s : string) : known_att_type s -> truthy (Some s) = true.
Proof.
  intros [-> | [-> | [-> | ->]]]; reflexivity.
Qed.

Lemma expand_shape (x : list vec) (B P D : nat) :
  has_shape2 B D x = true ->
  has_shape3 B P D (map (fun r => repeat r P) x) = true.
Proof.
  intros H. apply has_shape2_true in H. destruct H as [Hl Hf].
  apply has_shape3_true. split; [rewrite length_map; exact Hl|].
  apply Forall_forall. intros r Hr. apply in_map_iff in Hr.
  destruct Hr as [v [<- Hv]]. apply has_shape2_true.
  split; [apply repeat_length|].
  apply Forall_forall. intros w Hw. apply repeat_spec in Hw. subst w.
  rewrite Forall_forall in Hf. auto.
Qed.

Lemma U_Q_shape (Q Qp : list (list vec)) (g_ : list vec) (B P D_p D_g : nat) :
  has_shape3 B P D_p Q = true -> has_shape3 B P D_p Qp = true ->
  has_shape2 B D_g g_ = true ->
  has_shape3 B P (D_p + D_p + D_g)
    (map2 (fun QQ g => map2 (fun q qp => q ++ qp ++ g) (fst QQ) (snd QQ))
          (combine Q Qp) g_) = true.
Proof.
  intros HQ HQp Hg.
  apply has_shape3_true in HQ. apply has_shape3_true in HQp.
  apply has_shape2_true in Hg.
  destruct HQ as [L1 F1], HQp as [L2 F2], Hg as [L3 F3].
  apply has_shape3_true. split; [rewrite map2_length, length_combine; lia|].
  apply Forall_forall. intros r Hr. unfold map2 at 1 in Hr.
  apply in_map_iff in Hr. destruct Hr as [[[q qp] g] [<- Hin]]. cbn [fst snd].
  pose proof (in_combine_l _ _ _ _ Hin) as Hqq.
  pose proof (in_combine_r _ _ _ _ Hin) as Hgin.
  pose proof (in_combine_l _ _ _ _ Hqq) as Hq.
  pose proof (in_combine_r _ _ _ _ Hqq) as Hqp.
  rewrite Forall_forall in F1, F2, F3.
  specialize (F1 q Hq). specialize (F2 qp Hqp). specialize (F3 g Hgin).
  apply has_shape2_true in F1. apply has_shape2_true in F2.
  destruct F1 as [La Fa], F2 as [Lb Fb].
  apply has_shape2_true. split; [rewrite map2_length; lia|].
  apply (map2_Forall _ _ _ _ q qp Fa Fb).
  intros x y Hx Hy. rewrite !length_app. lia.
Qed.

Section CellStep.

Variables (th : params) (name : string).
Variables (D_m D_g D_p D_e party : nat) (ca pa : option string) (D_a : nat).
Variable cell : DialogueRNNCell.
Hypothesis Hinit :
  DialogueRNNCell_init th name D_m D_g D_p D_e party ca pa D_a = Ok cell.
Hypothesis Hcfg : valid_config D_m D_g D_p party ca pa.

Variables (B Tg : nat).
Hypothesis HB : (1 <= B)%nat.

Variables (nz : cell_noise) (U qmask : list vec) (g_hist : list (list vec)).
Variables (q0 : list (list vec)) (q_hist : list (list (list vec))) (e0 : estate).
Hypothesis HU : has_shape2 B D_m U = true.
Hypothesis Hqmask : has_shape2 B party qmask = true.
Hypothesis Hg_hist : has_shape3 Tg B D_g g_hist = true.
Hypothesis Hq0 : q0 = [] \/ has_shape3 B party D_p q0 = true.
Hypothesis Hq_hist : Forall (fun q => has_shape3 B party D_p q = true) q_hist.
Hypothesis He0 : e_state_ok pa B party D_e e0.

Lemma cfg_party : (1 <= party)%nat.
Proof.
  destruct Hcfg as [_ H]. destruct pa as [s|]; [|exact H].
  destruct H as [_ [_ H]]. lia.
Qed.

Lemma init_q0_shape : has_shape3 B party D_p (init_q0 cell qmask q0) = true.
Proof.
  destruct (DialogueRNNCell_init_inv _ _ _ _ _ _ _ _ _ _ _ Hinit)
    as [_ [_ [HDp [_ [Hparty _]]]]].
  assert (Hl : length qmask = B) by (apply has_shape2_true in Hqmask; tauto).
  unfold init_q0. rewrite HDp, Hparty, Hl.
  destruct Hq0 as [-> | H].
  - simpl. apply zeros3_shape.
  - assert (length q0 = B) by (apply has_shape3_true in H; tauto).
    destruct (Nat.eqb_spec (length q0) 0); [lia|exact H].
Qed.

Lemma init_e0_shape :
  match pa with
  | None => exists e, init_e0 cell qmask e0 = E2 e /\ has_shape2 B D_e e = true
  | Some _ => exists e, init_e0 cell qmask e0 = E3 e /\ has_shape3 B party D_e e = true
  end.
Proof.
  destruct (DialogueRNNCell_init_inv _ _ _ _ _ _ _ _ _ _ _ Hinit)
    as [_ [_ [_ [HDe [Hparty [Hpa _]]]]]].
  assert (Hl : length qmask = B) by (apply has_shape2_true in Hqmask; tauto).
  unfold init_e0. rewrite HDe, Hparty, Hpa, Hl.
  destruct pa as [s|].
  - destruct Hcfg as [_ [Hk _]]. rewrite (known_att_type_truthy s Hk).
    destruct He0 as [-> | [-> | [e [-> He]]]]; simpl.
    + eexists; split; [reflexivity|apply zeros3_shape].
    + eexists; split; [reflexivity|apply zeros3_shape].
    + assert (length e = B) by (apply has_shape3_true in He; tauto).
      destruct (Nat.eqb_spec (length e) 0); [lia|].
      eexists; split; [reflexivity|exact He].
  - simpl truthy. cbv iota.
    destruct He0 as [-> | [-> | [e [-> He]]]]; simpl.
    + eexists; split; [reflexivity|apply zeros2_shape].
    + eexists; split; [reflexivity|apply zeros2_shape].
    + assert (length e = B) by (apply has_shape2_true in He; tauto).
      destruct (Nat.eqb_spec (length e) 0); [lia|].
      eexists; split; [reflexivity|exact He].
Qed.

(** One call of the cell on well-shaped arguments: it returns, and its
    results have the stated shapes, frame and attention weights. *)
Lemma cell_forward_post :
  match DialogueRNNCell_forward cell nz U qmask g_hist q0 q_hist e0 with
  | Ok (g_, q_, e_, e_out, alpha) =>
      has_shape2 B D_g g_ = true /\
      has_shape3 B party D_p q_ = true /\
      (forall b p, (b < B)%nat -> (p < party)%nat ->
         nth p (nth b qmask []) 0 = 0 ->
         nth p (nth b q_ []) [] = nth p (nth b (init_q0 cell qmask q0) []) []) /\
      (exists a att pool,
         alpha = Some (map defined a) /\
         attention cell = Some att /\
         MatchingAttention_forward att (g_hist ++ [g_]) U None
         = Ok (pool, map defined a) /\
         length a = B /\ Forall (row_ok (S Tg)) a) /\
      match pa with
      | None =>
          exists e2, e_ = E2 e2 /\ e_out = E2 e2 /\ has_shape2 B D_e e2 = true
      | Some _ =>
          exists e3 e03 sel,
            e_ = E3 e3 /\ init_e0 cell qmask e0 = E3 e03 /\
            has_shape3 B party D_e e3 = true /\
            (forall b p, (b < B)%nat -> (p < party)%nat ->
               nth p (nth b qmask []) 0 = 0 ->
               nth p (nth b e3 []) [] = nth p (nth b e03 []) []) /\
            _select_parties e3 (map argmax_idx qmask) = Ok sel /\
            e_out = E2 sel /\ has_shape2 B D_e sel = true
      end
  | Raise _ => False
  end.
Proof.
  pose proof cfg_party as Hparty1.
  pose proof init_q0_shape as Hq0'.
  pose proof init_e0_shape as He0'.
  destruct (DialogueRNNCell_init_inv _ _ _ _ _ _ _ _ _ _ _ Hinit)
    as [HDm [HDg [HDp [HDe [Hparty [Hpa [Hgc [Hpc [Hec [Hatt Hpatt]]]]]]]]]].
  assert (HlU : length U = B) by (apply has_shape2_true in HU; tauto).
  assert (Hlq : length qmask = B) by (apply has_shape2_true in Hqmask; tauto).
  assert (Hs1q : size1 qmask = party) by (apply (has_shape2_size1 B party qmask Hqmask HB)).
  unfold DialogueRNNCell_forward. cbv zeta.
  set (q0' := init_q0 cell qmask q0) in *.
  set (e0' := init_e0 cell qmask e0) in *.
  rewrite HDg, HDp, Hparty, Hpa, Hgc, Hpc, Hec, HlU, Hs1q.
  (* qm_idx *)
  rewrite (mapM_argmax qmask B party Hqmask Hparty1). cbn [bind].
  set (idx := map argmax_idx qmask).
  assert (Hidx : Forall (fun k => (k < party)%nat) idx)
    by (apply (argmax_idx_rows qmask B party Hqmask Hparty1)).
  assert (Hlidx : length idx = B) by (unfold idx; rewrite length_map; exact Hlq).
  (* q0_sel *)
  destruct (has_shape3_rows B party D_p q0' Hq0') as [Hlq0 Hrq0].
  rewrite (select_parties_ok q0' idx B party [] HB Hlq0 Hrq0 Hlidx Hidx). cbn [bind].
  set (q0_sel := map2 (fun k r => nth k r []) idx q0').
  assert (Hq0_sel : has_shape2 B D_p q0_sel = true)
    by (apply (select_shape q0' idx B party D_p Hq0' Hlidx Hidx)).

  (* e0_sel *)
  assert (Hsel : exists e0_sel,
             (if truthy pa
              then match e0' with
                   | E3 e => _select_parties e idx
                   | E2 e => _ <- _select_parties e idx ;; Raise RuntimeError
                   end
              else match e0' with
                   | E2 e => Ok e
                   | E3 _ => Raise RuntimeError
                   end) = Ok e0_sel /\
             has_shape2 B D_e e0_sel = true).
  { destruct pa as [s|].
    - destruct Hcfg as [_ [Hk _]]. rewrite (known_att_type_truthy s Hk).
      destruct He0' as [e [-> He]].
      destruct (has_shape3_rows B party D_e e He) as [Hle Hre].
      rewrite (select_parties_ok e idx B party [] HB Hle Hre Hlidx Hidx).
      eexists. split; [reflexivity|].
      apply (select_shape e idx B party D_e He Hlidx Hidx).
    - destruct He0' as [e [-> He]]. simpl. eexists. split; [reflexivity|exact He]. }
  destruct Hsel as [e0_sel [Hsel He0_sel]]. rewrite Hsel. cbn [bind].
  (* g_ *)
  destruct (cat_cols_ok U q0_sel B D_m D_p HU Hq0_sel) as [Hc1 Hs1].
  rewrite Hc1. cbn [bind].
  destruct (cat_cols_ok _ e0_sel B (D_m + D_p) D_e Hs1 He0_sel) as [Hc2 Hs2].
  rewrite Hc2. cbn [bind].
  set (inp := map2 (@app R) (map2 (@app R) U q0_sel) e0_sel) in *.
  set (h0 := match g_hist with [] => zeros2 B D_g | _ :: _ => last g_hist [] end).
  assert (Hh0 : has_shape2 B D_g h0 = true).
  { unfold h0. destruct g_hist as [|g0 gh] eqn:Eg; [apply zeros2_shape|].
    apply (last_shape Tg B D_g); [exact Hg_hist|discriminate]. }
  rewrite (GRUCell_forward_ok
             (nn_GRUCell th (name ++ ".g_cell")%string (D_m + D_p + D_e) D_g)
             inp h0 B Hs2 Hh0).
  cbn [bind].
  set (g_ := dropout2 (drop_g nz) _).
  assert (Hg_ : has_shape2 B D_g g_ = true).
  { unfold g_. apply dropout2_shape.
    apply (GRUCell_batch_shape (nn_GRUCell th (name ++ ".g_cell")%string
                                  (D_m + D_p + D_e) D_g)).
    - apply has_shape2_true in Hs2. tauto.
    - apply has_shape2_true in Hh0. tauto. }
  (* gc_, alpha *)
  pose proof (has_shape3_app Tg B D_g g_hist g_ Hg_hist Hg_) as HM.
  destruct Hcfg as [[sc [Hca [Hksc _]]] Hpcfg]. rewrite Hca in Hatt.
  destruct Hatt as [att [Hatt_init Hatt]].
  destruct (attention_pool_ok th (name ++ ".attention")%string D_g D_m (Some D_a) sc att
              (g_hist ++ [g_]) U (S Tg) B Hatt_init Hksc HM HU ltac:(lia) HB)
    as [alpha [Hfw [Hfin [Hpool [Hla Hrows]]]]].
  destruct (g_hist ++ [g_]) as [|gx gl] eqn:Egh.
  { exfalso. destruct g_hist; discriminate. }
  rewrite Hatt. cbn [getattr bind]. rewrite Hfw. cbn [bind fst snd].
  rewrite Hfin. cbn [bind fst snd].
  set (gc_ := attn_pool alpha (gx :: gl)) in *.

  (* qs_, q_ *)
  destruct (cat_cols_ok U gc_ B D_m D_g HU Hpool) as [Hc3 Hs3].
  rewrite Hc3. cbn [bind].
  destruct (cat_cols_ok _ e0_sel B (D_m + D_g) D_e Hs3 He0_sel) as [Hc4 Hs4].
  rewrite Hc4. cbn [bind].
  set (ugc := map2 (@app R) (map2 (@app R) U gc_) e0_sel) in *.
  pose proof (expand_shape ugc B party (D_m + D_g + D_e) Hs4) as HUgc.
  destruct (gru3_ok (nn_GRUCell th (name ++ ".p_cell")%string (D_m + D_g + D_e) D_p)
              (map (fun r => repeat r party) ugc) q0' B party HUgc Hq0')
    as [Hgru Hqs].
  rewrite Hgru. cbn [bind].
  apply (dropout3_shape (drop_q nz)) in Hqs.
  set (qs_ := dropout3 (drop_q nz) _) in *.
  rewrite (merge_ok q0' qs_ qmask B party D_p HB Hparty1 Hq0' Hqs Hqmask). cbn [bind].
  set (q_ := merge_rows q0' qs_ qmask).
  pose proof (merge_rows_shape q0' qs_ qmask B party D_p Hq0' Hqs Hqmask) as Hq_.
  fold q_ in Hq_.
  assert (Hframe_q : forall b p, (b < B)%nat -> (p < party)%nat ->
            nth p (nth b qmask []) 0 = 0 ->
            nth p (nth b q_ []) [] = nth p (nth b q0' []) []).
  { intros b p Hb Hp Hz. unfold q_.
    rewrite (merge_rows_nth q0' qs_ qmask B party D_p b p Hq0' Hqs Hqmask Hb Hp).
    rewrite Hz. apply blend_0.
    rewrite (has_shape2_nth party D_p _ p (has_shape3_nth B party D_p q0' b Hq0' Hb) Hp).
    rewrite (has_shape2_nth party D_p _ p (has_shape3_nth B party D_p qs_ b Hqs Hb) Hp).
    reflexivity. }
  assert (Hatt_post : exists a att0 pool,
            Some (map defined alpha) = Some (map defined a) /\
            Some att = Some att0 /\
            MatchingAttention_forward att0 (g_hist ++ [g_]) U None
            = Ok (pool, map defined a) /\
            length a = B /\ Forall (row_ok (S Tg)) a).
  { exists alpha, att. eexists. rewrite Egh.
    split; [reflexivity|]. split; [reflexivity|]. split; [exact Hfw|].
    split; assumption. }
  destruct (has_shape3_rows B party D_p q_ Hq_) as [Hlq_ Hrq_].
  destruct pa as [sp|].
  - (* party-attention mode *)
    destruct Hpcfg as [Hksp [_ Hparty2]].
    destruct Hpatt as [a1 [a2 [Ha1 [Ha2 [Hp1 Hp2]]]]].
    destruct He0' as [el_ [He0eq Hel]].
    rewrite Hp1, Hp2, He0eq.
    assert (Hqh : Forall (fun q => has_shape3 B party D_p q = true) (q_hist ++ [q_])).
    { apply Forall_app. split; [exact Hq_hist|]. constructor; [exact Hq_|constructor]. }
    assert (Hqne : q_hist ++ [q_] <> []) by (destruct q_hist; discriminate).
    remember (q_hist ++ [q_]) as qh eqn:Eqh.
    destruct qh as [|qx ql]; [congruence|].
    match goal with
    | |- context [mapM ?f (seq 0 party)] =>
        destruct (mapM_exists f
                    (fun QQ => has_shape2 B D_p (fst QQ) = true /\
                               has_shape2 B D_p (snd QQ) = true)
                    (seq 0 party)) as [Qs [HQs [HlQs HPQs]]]
    end.
    { intros p Hp. apply in_seq in Hp.
      destruct (py_index_other party p Hparty2 ltac:(lia)) as [k [Hk Hklt]].
      destruct (party_pool_ok th (name ++ ".attention_p1")%string D_p D_m (Some D_a) sp a1
                  (qx :: ql) U B party (1 - Z.of_nat p) k Ha1 Hksp Hqne Hqh HU HB Hk Hklt)
        as [Q1 [HQ1 HsQ1]].
      destruct (party_pool_ok th (name ++ ".attention_p2")%string D_p D_m (Some D_a) sp a2
                  (qx :: ql) U B party (Z.of_nat p) p Ha2 Hksp Hqne Hqh HU HB
                  (py_index_nonneg party p ltac:(lia)) ltac:(lia))
        as [Q2 [HQ2 HsQ2]].
      rewrite HQ1. cbn [bind]. rewrite HQ2. cbn [bind].
      eexists. split; [reflexivity|]. split; assumption. }
    rewrite HQs. cbn [bind fst snd]. rewrite length_seq in HlQs.
    rewrite Nat.eqb_refl. cbn [check bind].
    assert (HQ : has_shape3 B party D_p (gather B (map fst Qs)) = true).
    { rewrite <- HlQs, <- (length_map fst Qs). apply gather_shape.
      apply Forall_forall. intros Q_ HQ_. apply in_map_iff in HQ_.
      destruct HQ_ as [QQ [<- HQQ]]. rewrite Forall_forall in HPQs.
      apply (HPQs QQ HQQ). }
    assert (HQp : has_shape3 B party D_p (gather B (map snd Qs)) = true).
    { rewrite <- HlQs, <- (length_map snd Qs). apply gather_shape.
      apply Forall_forall. intros Q_ HQ_. apply in_map_iff in HQ_.
      destruct HQ_ as [QQ [<- HQQ]]. rewrite Forall_forall in HPQs.
      apply (HPQs QQ HQQ). }
    pose proof (U_Q_shape _ _ g_ B party D_p D_g HQ HQp Hg_) as HUQ.
    destruct (gru3_ok (nn_GRUCell th (name ++ ".e_cell")%string (D_p + D_p + D_g) D_e)
                _ el_ B party HUQ Hel) as [Hgru_e Hes].
    rewrite Hgru_e. cbn [bind].
    apply (dropout3_shape (drop_es nz)) in Hes.
    set (es_ := dropout3 (drop_es nz) _) in *.
    rewrite (merge_ok el_ es_ qmask B party D_e HB Hparty1 Hel Hes Hqmask). cbn [bind].
    set (e3 := merge_rows el_ es_ qmask).
    pose proof (merge_rows_shape el_ es_ qmask B party D_e Hel Hes Hqmask) as He3.
    fold e3 in He3.
    rewrite (known_att_type_truthy sp Hksp).
    destruct (has_shape3_rows B party D_e e3 He3) as [Hle3 Hre3].
    rewrite (select_parties_ok e3 idx B party [] HB Hle3 Hre3 Hlidx Hidx). cbn [bind].
    repeat split; try assumption.
    exists e3, el_. eexists.
    split; [reflexivity|]. split; [reflexivity|]. split; [exact He3|].
    split.
    { intros b p Hb Hp Hz. unfold e3.
      rewrite (merge_rows_nth el_ es_ qmask B party D_e b p Hel Hes Hqmask Hb Hp).
      rewrite Hz. apply blend_0.
      rewrite (has_shape2_nth party D_e _ p (has_shape3_nth B party D_e el_ b Hel Hb) Hp).
      rewrite (has_shape2_nth party D_e _ p (has_shape3_nth B party D_e es_ b Hes Hb) Hp).
      reflexivity. }
    split; [apply (select_parties_ok e3 idx B party [] HB Hle3 Hre3 Hlidx Hidx)|].
    split; [reflexivity|].
    apply (select_shape e3 idx B party D_e He3 Hlidx Hidx).
  - (* global emotion state *)
    rewrite (select_parties_ok q_ idx B party [] HB Hlq_ Hrq_ Hlidx Hidx). cbn [bind].
    set (sel := map2 (fun k r => nth k r []) idx q_).
    assert (Hsel_s : has_shape2 B D_p sel = true)
      by (apply (select_shape q_ idx B party D_p Hq_ Hlidx Hidx)).
    rewrite (GRUCell_forward_ok (nn_GRUCell th (name ++ ".e_cell")%string D_p D_e)
               sel e0_sel B Hsel_s He0_sel).
    cbn [bind truthy].
    repeat split; try assumption.
    eexists. split; [reflexivity|]. split; [reflexivity|].
    apply dropout2_shape.
    apply (GRUCell_batch_shape (nn_GRUCell th (name ++ ".e_cell")%string D_p D_e)).
    + apply has_shape2_true in Hsel_s. tauto.
    + apply has_shape2_true in He0_sel. tauto.
Qed.

End CellStep.

(** ** Frame of one step *)

Lemma one_hot_length (party k : nat) : (k < party)%nat -> length (one_hot party k) = party.
Proof.
  intros H. unfold one_hot, zeros. rewrite length_app, repeat_length. simpl.
  rewrite repeat_length. lia.
Qed.

Lemma one_hot_other (party k p : nat) : p <> k -> nth p (one_hot party k) 0 = 0.
Proof.
  intros H. unfold one_hot, zeros.
  destruct (Nat.lt_ge_cases p k) as [Hlt|Hge].
  - rewrite app_nth1 by (rewrite repeat_length; exact Hlt). apply nth_repeat.
  - rewrite app_nth2 by (rewrite repeat_length; exact Hge).
    rewrite repeat_length.
    destruct (p - k)%nat as [|j] eqn:E; [lia|]. simpl. apply nth_repeat.
Qed.

Lemma one_hot_rows_shape (party B : nat) (qmask : list vec) :
  length qmask = B -> one_hot_rows party qmask -> has_shape2 B party qmask = true.
Proof.
  intros Hl H. apply has_shape2_true. split; [exact Hl|].
  eapply Forall_impl; [|exact H]. simpl. intros r [k [Hk ->]].
  apply one_hot_length. exact Hk.
Qed.

Lemma init_q0_nonempty (cell : DialogueRNNCell) (qmask : list vec) (q0 : list (list vec)) :
  q0 <> [] -> init_q0 cell qmask q0 = q0.
Proof.
  intros H. unfold init_q0. destruct q0; [congruence|reflexivity].
Qed.

Lemma init_e0_nonempty (cell : DialogueRNNCell) (qmask : list vec) (e0 : estate) :
  e_size0 e0 <> 0%nat -> init_e0 cell qmask e0 = e0.
Proof.
  intros H. unfold init_e0.
  destruct (Nat.eqb_spec (e_size0 e0) 0); [contradiction|].
  destruct (truthy (cell_party_attention cell)); reflexivity.
Qed.

(** C2.  One step of the cell on a one-hot speaker mask returns, and the
    party-state row of every speaker other than the active one is the row
    the step started from (the carried-in state, or zeros on the first
    step); in party-attention mode the same holds of the emotion state. *)
Theorem cell_step_frame (th : params) (name : string)
    (D_m D_g D_p D_e party : nat) (ca pa : option string) (D_a : nat)
    (cell : DialogueRNNCell) (B Tg : nat) (nz : cell_noise)
    (U qmask : list vec) (g_hist : list (list vec)) (q0 : list (list vec))
    (q_hist : list (list (list vec))) (e0 : estate) :
  DialogueRNNCell_init th name D_m D_g D_p D_e party ca pa D_a = Ok cell ->
  valid_config D_m D_g D_p party ca pa ->
  (1 <= B)%nat ->
  has_shape2 B D_m U = true ->
  length qmask = B ->
  one_hot_rows party qmask ->
  has_shape3 Tg B D_g g_hist = true ->
  q0 = [] \/ has_shape3 B party D_p q0 = true ->
  Forall (fun q => has_shape3 B party D_p q = true) q_hist ->
  e_state_ok pa B party D_e e0 ->
  exists g_ q_ e_ e_out alpha,
    DialogueRNNCell_forward cell nz U qmask g_hist q0 q_hist e0
    = Ok (g_, q_, e_, e_out, alpha) /\
    (forall b k p, (b < B)%nat -> nth b qmask [] = one_hot party k ->
       (p < party)%nat -> p <> k ->
       nth p (nth b q_ []) [] = nth p (nth b (init_q0 cell qmask q0) []) []) /\
    (q0 <> [] -> init_q0 cell qmask q0 = q0) /\
    (pa <> None ->
     exists e3 e03,
       e_ = E3 e3 /\ init_e0 cell qmask e0 = E3 e03 /\
       (e_size0 e0 <> 0%nat -> e0 = E3 e03) /\
       forall b k p, (b < B)%nat -> nth b qmask [] = one_hot party k ->
         (p < party)%nat -> p <> k ->
         nth p (nth b e3 []) [] = nth p (nth b e03 []) []).
Proof.
  intros Hinit Hcfg HB HU Hlq Hoh Hgh Hq0 Hqh He0.
  pose proof (one_hot_rows_shape party B qmask Hlq Hoh) as Hqm.
  pose proof (cell_forward_post th name D_m D_g D_p D_e party ca pa D_a cell
                Hinit Hcfg B Tg HB nz U qmask g_hist q0 q_hist e0
                HU Hqm Hgh Hq0 Hqh He0) as H.
  destruct (DialogueRNNCell_forward cell nz U qmask g_hist q0 q_hist e0)
    as [[[[[g_ q_] e_] e_out] alpha]|err]; [|contradiction].
  destruct H as [_ [_ [Hfq [_ Hmode]]]].
  exists g_, q_, e_, e_out, alpha. split; [reflexivity|].
  split.
  { intros b k p Hb Hrow Hp Hne. apply Hfq; try assumption.
    rewrite Hrow. apply one_hot_other. exact Hne. }
  split; [apply init_q0_nonempty|].
  intros Hpa. destruct pa as [sp|]; [|congruence].
  destruct Hmode as [e3 [e03 [sel [He_ [He0' [_ [Hfe _]]]]]]].
  exists e3, e03. split; [exact He_|]. split; [exact He0'|].
  split.
  { intros Hne. rewrite <- He0'. symmetry. apply init_e0_nonempty. exact Hne. }
  intros b k p Hb Hrow Hp Hne. apply Hfe; try assumption.
  rewrite Hrow. apply one_hot_other. exact Hne.
Qed.

Lemma cell_step_frame_witness :
  exists cell,
    DialogueRNNCell_init th0 "cell" 1 1 1 1 2 (Some "general"%string)
      (Some "general"%string) 1 = Ok cell /\
    exists g_ q_ e_ e_out alpha,
      DialogueRNNCell_forward cell eval_noise [[1]] [[0; 1]] [[[4]]]
        [[[5]; [7]]] [[[[5]; [7]]]] (E3 [[[2]; [3]]])
      = Ok (g_, q_, e_, e_out, alpha) /\
      (forall b k p, (b < 1)%nat -> nth b [[0; 1]] [] = one_hot 2 k ->
         (p < 2)%nat -> p <> k ->
         nth p (nth b q_ []) []
         = nth p (nth b (init_q0 cell [[0; 1]] [[[5]; [7]]]) []) []) /\
      ([[[5]; [7]]] <> [] -> init_q0 cell [[0; 1]] [[[5]; [7]]] = [[[5]; [7]]]) /\
      (Some "general"%string <> None ->
       exists e3 e03,
         e_ = E3 e3 /\ init_e0 cell [[0; 1]] (E3 [[[2]; [3]]]) = E3 e03 /\
         (e_size0 (E3 [[[2]; [3]]]) <> 0%nat -> E3 [[[2]; [3]]] = E3 e03) /\
         forall b k p, (b < 1)%nat -> nth b [[0; 1]] [] = one_hot 2 k ->
           (p < 2)%nat -> p <> k ->
           nth p (nth b e3 []) [] = nth p (nth b e03 []) []).
Proof.
  eexists. split; [reflexivity|].
  apply (cell_step_frame th0 "cell"%string 1 1 1 1 2 (Some "general"%string)
           (Some "general"%string) 1 _ 1 1 eval_noise [[1]] [[0; 1]] [[[4]]]
           [[[5]; [7]]] [[[[5]; [7]]]] (E3 [[[2]; [3]]]) eq_refl).
  - split.
    + exists "general"%string. split; [reflexivity|].
      split; [right; left; reflexivity|discriminate].
    + split; [right; left; reflexivity|]. split; [discriminate|lia].
  - lia.
  - reflexivity.
  - reflexivity.
  - constructor; [|constructor]. exists 1%nat. split; [lia|reflexivity].
  - reflexivity.
  - right. reflexivity.
  - constructor; [reflexivity|constructor].
  - right. right. eexists. split; reflexivity.
Defined.

(** C3.  On every step, the first one with its empty history included, the
    cell returns attention weights: those of its context attention over the
    history with the new context appended.  On the first step they are a
    single weight 1 per batch row: the branch that would return no weights
    tests the history after the append and cannot be taken. *)
Theorem cell_returns_weights_every_step (th : params) (name : string)
    (D_m D_g D_p D_e party : nat) (ca pa : option string) (D_a : nat)
    (cell : DialogueRNNCell) (B Tg : nat) (nz : cell_noise)
    (U qmask : list vec) (g_hist : list (list vec)) (q0 : list (list vec))
    (q_hist : list (list (list vec))) (e0 : estate) :
  DialogueRNNCell_init th name D_m D_g D_p D_e party ca pa D_a = Ok cell ->
  valid_config D_m D_g D_p party ca pa ->
  (1 <= B)%nat ->
  has_shape2 B D_m U = true ->
  has_shape2 B party qmask = true ->
  has_shape3 Tg B D_g g_hist = true ->
  q0 = [] \/ has_shape3 B party D_p q0 = true ->
  Forall (fun q => has_shape3 B party D_p q = true) q_hist ->
  e_state_ok pa B party D_e e0 ->
  exists g_ q_ e_ e_out a att pool,
    DialogueRNNCell_forward cell nz U qmask g_hist q0 q_hist e0
    = Ok (g_, q_, e_, e_out, Some (map defined a)) /\
    attention cell = Some att /\
    MatchingAttention_forward att (g_hist ++ [g_]) U None = Ok (pool, map defined a) /\
    length a = B /\
    Forall (row_ok (S Tg)) a /\
    (g_hist = [] -> Forall (fun w => w = [1]) a).
Proof.
  intros Hinit Hcfg HB HU Hqm Hgh Hq0 Hqh He0.
  pose proof (cell_forward_post th name D_m D_g D_p D_e party ca pa D_a cell
                Hinit Hcfg B Tg HB nz U qmask g_hist q0 q_hist e0
                HU Hqm Hgh Hq0 Hqh He0) as H.
  destruct (DialogueRNNCell_forward cell nz U qmask g_hist q0 q_hist e0)
    as [[[[[g_ q_] e_] e_out] alpha]|err]; [|contradiction].
  destruct H as [_ [_ [_ [[a [att [pool [-> [Hatt [Hfw [Hla Hrows]]]]]]] _]]]].
  exists g_, q_, e_, e_out, a, att, pool.
  repeat split; try assumption.
  intros ->. apply has_shape3_true in Hgh. destruct Hgh as [HTg _].
  simpl in HTg. subst Tg.
  eapply Forall_impl; [|exact Hrows]. simpl.
  intros w [Hl [_ Hs]].
  destruct w as [|x [|y w]]; simpl in Hl; try discriminate.
  simpl in Hs. f_equal. lra.
Qed.

Lemma cell_returns_weights_every_step_witness :
  exists cell,
    DialogueRNNCell_init th0 "cell" 1 1 1 1 1 (Some "general"%string) None 1 = Ok cell /\
    exists g_ q_ e_ e_out a att pool,
      DialogueRNNCell_forward cell eval_noise [[1]] [[1]] [] [] [] (E2 [])
      = Ok (g_, q_, e_, e_out, Some (map defined a)) /\
      attention cell = Some att /\
      MatchingAttention_forward att ([] ++ [g_]) [[1]] None = Ok (pool, map defined a) /\
      length a = 1%nat /\
      Forall (row_ok 1) a /\
      (@nil (list vec) = [] -> Forall (fun w => w = [1]) a).
Proof.
  eexists. split; [reflexivity|].
  apply (cell_returns_weights_every_step th0 "cell"%string 1 1 1 1 1
           (Some "general"%string) None 1 _ 1 0 eval_noise [[1]] [[1]] [] [] []
           (E2 []) eq_refl).
  - split.
    + exists "general"%string. split; [reflexivity|].
      split; [right; left; reflexivity|discriminate].
    + lia.
  - lia.
  - reflexivity.
  - reflexivity.
  - reflexivity.
  - left. reflexivity.
  - constructor.
  - left. reflexivity.
Defined.

(** ** The sequence runner *)

Lemma DialogueRNN_init_inv (th : params) (name : string)
    (D_m D_g D_p D_e party : nat) (ca pa : option string) (D_a : nat)
    (rnn : DialogueRNN) :
  DialogueRNN_init th name D_m D_g D_p D_e party ca pa D_a = Ok rnn ->
  DialogueRNNCell_init th (name ++ ".dialogue_cell")%string
    D_m D_g D_p D_e party ca pa D_a = Ok (dialogue_cell rnn) /\
  rnn_party_attention rnn = pa /\
  rnn_D_g rnn = D_g /\ rnn_D_e rnn = D_e.
Proof.
  intros H. unfold DialogueRNN_init in H.
  destruct (DialogueRNNCell_init th (name ++ ".dialogue_cell") D_m D_g D_p D_e party
              ca pa D_a) as [cell|e]; cbn [bind] in H; [|discriminate].
  inversion H; subst. simpl. repeat split; reflexivity.
Qed.

Section Runner.

Variables (th : params) (name : string).
Variables (D_m D_g D_p D_e party : nat) (ca pa : option string) (D_a : nat).
Variable rnn : DialogueRNN.
Hypothesis Hinit : DialogueRNN_init th name D_m D_g D_p D_e party ca pa D_a = Ok rnn.
Hypothesis Hcfg : valid_config D_m D_g D_p party ca pa.
Variable B : nat.
Hypothesis HB : (1 <= B)%nat.
Variable noise : nat -> cell_noise.

(** What the loop collects: per step, a (batch x D_e) emotion output under
    both names and one weight 1 per batch row. *)
Lemma DialogueRNN_loop_ok (steps : list (list vec * list vec)) :
  forall (t : nat) (q_ : list (list vec)) (e_ : estate),
    Forall (fun s => has_shape2 B D_m (fst s) = true /\
                     has_shape2 B party (snd s) = true) steps ->
    q_ = [] \/ has_shape3 B party D_p q_ = true ->
    e_state_ok pa B party D_e e_ ->
    exists e alpha,
      DialogueRNN_loop rnn noise t steps q_ e_ = Ok (e, e, alpha) /\
      length e = length steps /\
      Forall (fun x => exists m, x = E2 m /\ has_shape2 B D_e m = true) e /\
      length alpha = length steps /\
      Forall (fun a => exists w, a = map defined w /\ length w = B /\
                                 Forall (fun r => r = [1]) w) alpha.
Proof.
  destruct (DialogueRNN_init_inv _ _ _ _ _ _ _ _ _ _ _ Hinit) as [Hcell [Hpa _]].
  induction steps as [|[u_ qm] steps IH]; intros t q_ e_ Hsteps Hq He.
  - exists [], []. simpl. repeat split; constructor.
  - apply Forall_cons_iff in Hsteps. destruct Hsteps as [[Hu Hqm] Hrest].
    cbn [fst snd] in Hu, Hqm.
    pose proof (cell_forward_post th (name ++ ".dialogue_cell")%string
                  D_m D_g D_p D_e party ca pa D_a (dialogue_cell rnn)
                  Hcell Hcfg B 0 HB (noise t) u_ qm [] q_ [] e_
                  Hu Hqm eq_refl Hq (Forall_nil _) He) as Hpost.
    cbn [DialogueRNN_loop].
    destruct (DialogueRNNCell_forward (dialogue_cell rnn) (noise t) u_ qm [] q_ [] e_)
      as [[[[[g_ q_'] e_'] e_out] alpha_]|err]; [|contradiction].
    destruct Hpost as [_ [Hq_' [_ [[a [att [pool [-> [_ [_ [Hla Hrows]]]]]]] Hmode]]]].
    cbn [bind]. rewrite Hpa.
    assert (Hone : Forall (fun r : vec => r = [1]) a).
    { eapply Forall_impl; [|exact Hrows]. simpl. intros w [Hl [_ Hs]].
      destruct w as [|x [|y w]]; simpl in Hl; try discriminate.
      simpl in Hs. f_equal. lra. }
    assert (Hnext : exists m, e_out = E2 m /\ has_shape2 B D_e m = true /\
              match pa with
              | Some _ =>
                  qm_idx <- mapM argmax qm ;;
                  match e_' with
                  | E3 e3 => e_party <- _select_parties e3 qm_idx ;; Ok (E2 e_party)
                  | E2 e2 => _ <- _select_parties e2 qm_idx ;; Raise RuntimeError
                  end
              | None => Ok e_'
              end = Ok e_out /\
              e_state_ok pa B party D_e e_').
    { destruct pa as [sp|].
      - destruct Hmode as [e3 [e03 [sel [-> [_ [He3 [_ [Hsel [-> Hs]]]]]]]]].
        exists sel. split; [reflexivity|]. split; [exact Hs|]. split.
        + rewrite (mapM_argmax qm B party Hqm).
          * cbn [bind]. rewrite Hsel. reflexivity.
          * destruct Hcfg as [_ [_ [_ H2]]]. lia.
        + right. right. exists e3. split; [reflexivity|exact He3].
      - destruct Hmode as [e2 [-> [-> Hs]]].
        exists e2. split; [reflexivity|]. split; [exact Hs|]. split; [reflexivity|].
        right. right. exists e2. split; [reflexivity|exact Hs]. }
    destruct Hnext as [m [-> [Hm [Het He']]]].
    rewrite Het. cbn [bind].
    destruct (IH (S t) q_' e_' Hrest (or_intror Hq_') He')
      as [e [alpha [Hloop [Hle [Hfe [Hlal Hfal]]]]]].
    rewrite Hloop. cbn [bind].
    exists (E2 m :: e), (map defined a :: alpha).
    split; [reflexivity|]. simpl.
    split; [lia|]. split; [constructor; [eexists; split; [reflexivity|exact Hm]|exact Hfe]|].
    split; [lia|]. constructor; [|exact Hfal].
    exists a. repeat split; assumption.
Qed.

End Runner.

Lemma stack_ok (B D : nat) (l : list estate) :
  (1 <= B)%nat -> l <> [] ->
  Forall (fun x => exists m, x = E2 m /\ has_shape2 B D m = true) l ->
  stack l = Ok l.
Proof.
  intros HB Hne Hl. destruct l as [|x l']; [congruence|].
  unfold stack. rewrite check_true; [reflexivity|].
  assert (Hshape : forall y, In y (x :: l') -> estate_shape y = (2, B, D, 0)%nat).
  { intros y Hy. rewrite Forall_forall in Hl. destruct (Hl y Hy) as [m [-> Hm]].
    simpl. rewrite (has_shape2_size1 B D m Hm HB).
    apply has_shape2_true in Hm. destruct Hm as [-> _]. reflexivity. }
  apply forallb_forall. intros y Hy.
  rewrite (Hshape x (or_introl eq_refl)), (Hshape y Hy).
  unfold shape_eqb. rewrite !Nat.eqb_refl. reflexivity.
Qed.

Lemma steps_shape (T B D P : nat) (U qmask : list (list vec)) :
  has_shape3 T B D U = true -> has_shape3 T B P qmask = true ->
  length (combine U qmask) = T /\
  Forall (fun s => has_shape2 B D (fst s) = true /\ has_shape2 B P (snd s) = true)
         (combine U qmask).
Proof.
  intros HU Hq. apply has_shape3_true in HU. apply has_shape3_true in Hq.
  destruct HU as [HlU HfU], Hq as [Hlq Hfq]. split.
  - rewrite length_combine. lia.
  - apply Forall_forall. intros [u q] Hin. cbn [fst snd].
    rewrite Forall_forall in HfU, Hfq. split.
    + apply HfU. eapply in_combine_l; eauto.
    + apply Hfq. eapply in_combine_r; eauto.
Qed.

(** The runner on a well-shaped sequence: it returns, its two stacked
    tensors are one and the same list of (batch x D_e) emotion outputs, and
    every collected weight vector is the single weight 1. *)
Lemma DialogueRNN_forward_ok (th : params) (name : string)
    (D_m D_g D_p D_e party : nat) (ca pa : option string) (D_a : nat)
    (rnn : DialogueRNN) (B T : nat) (noise : nat -> cell_noise)
    (U qmask : list (list vec)) :
  DialogueRNN_init th name D_m D_g D_p D_e party ca pa D_a = Ok rnn ->
  valid_config D_m D_g D_p party ca pa ->
  (1 <= B)%nat -> (1 <= T)%nat ->
  has_shape3 T B D_m U = true ->
  has_shape3 T B party qmask = true ->
  exists e alpha,
    DialogueRNN_forward rnn noise U qmask = Ok (e, e, alpha) /\
    length e = T /\
    Forall (fun x => exists m, x = E2 m /\ has_shape2 B D_e m = true) e /\
    length alpha = T /\
    Forall (fun a => exists w, a = map defined w /\ length w = B /\
                               Forall (fun r => r = [1]) w) alpha.
Proof.
  intros Hinit Hcfg HB HT HU Hq.
  destruct (steps_shape T B D_m party U qmask HU Hq) as [Hls Hsteps].
  destruct (DialogueRNN_loop_ok th name D_m D_g D_p D_e party ca pa D_a rnn
              Hinit Hcfg B HB noise (combine U qmask) 0 [] (E2 [])
              Hsteps (or_introl eq_refl) (or_introl eq_refl))
    as [e [alpha [Hloop [Hle [Hfe [Hla Hfa]]]]]].
  exists e, alpha. unfold DialogueRNN_forward. rewrite Hloop. cbn [bind].
  assert (Hne : e <> []) by (intros ->; simpl in Hle; lia).
  rewrite (stack_ok B D_e e HB Hne Hfe). cbn [bind].
  repeat split; try assumption; lia.
Qed.

(** C10.  In both emotion modes the two stacked tensors the runner returns
    are elementwise equal: what it returns as context is the detached
    active-speaker emotion output it also returns as emotion, of width D_e. *)
Theorem runner_context_is_emotion (th : params) (name : string)
    (D_m D_g D_p D_e party : nat) (ca pa : option string) (D_a : nat)
    (rnn : DialogueRNN) (B T : nat) (noise : nat -> cell_noise)
    (U qmask : list (list vec)) :
  DialogueRNN_init th name D_m D_g D_p D_e party ca pa D_a = Ok rnn ->
  valid_config D_m D_g D_p party ca pa ->
  (1 <= B)%nat -> (1 <= T)%nat ->
  has_shape3 T B D_m U = true ->
  has_shape3 T B party qmask = true ->
  exists e c alpha,
    DialogueRNN_forward rnn noise U qmask = Ok (e, c, alpha) /\
    c = e /\
    length e = T /\
    Forall (fun x => exists m, x = E2 m /\ has_shape2 B D_e m = true) e.
Proof.
  intros Hinit Hcfg HB HT HU Hq.
  destruct (DialogueRNN_forward_ok th name D_m D_g D_p D_e party ca pa D_a rnn B T
              noise U qmask Hinit Hcfg HB HT HU Hq)
    as [e [alpha [Hf [Hl [Hfe _]]]]].
  exists e, e, alpha. repeat split; assumption.
Qed.

Lemma runner_context_is_emotion_witness :
  (exists rnn,
     DialogueRNN_init th0 "rnn" 1 2 1 1 2 (Some "general"%string)
       (Some "general"%string) 1 = Ok rnn /\
     exists e c alpha,
       DialogueRNN_forward rnn (fun _ => eval_noise)
         [[[1]]; [[2]]] [[[1; 0]]; [[0; 1]]] = Ok (e, c, alpha) /\
       c = e /\ length e = 2%nat /\
       Forall (fun x => exists m, x = E2 m /\ has_shape2 1 1 m = true) e)
  /\
  (exists rnn,
     DialogueRNN_init th0 "rnn" 1 2 1 1 2 (Some "general"%string) None 1 = Ok rnn /\
     exists e c alpha,
       DialogueRNN_forward rnn (fun _ => eval_noise)
         [[[1]]; [[2]]] [[[1; 0]]; [[0; 1]]] = Ok (e, c, alpha) /\
       c = e /\ length e = 2%nat /\
       Forall (fun x => exists m, x = E2 m /\ has_shape2 1 1 m = true) e).
Proof.
  split.
  - eexists. split; [reflexivity|].
    apply (runner_context_is_emotion th0 "rnn"%string 1 2 1 1 2
             (Some "general"%string) (Some "general"%string) 1 _ 1 2
             (fun _ => eval_noise) [[[1]]; [[2]]] [[[1; 0]]; [[0; 1]]] eq_refl).
    + split.
      * exists "general"%string. split; [reflexivity|].
        split; [right; left; reflexivity|discriminate].
      * split; [right; left; reflexivity|]. split; [discriminate|lia].
    + lia.
    + lia.
    + reflexivity.
    + reflexivity.
  - eexists. split; [reflexivity|].
    apply (runner_context_is_emotion th0 "rnn"%string 1 2 1 1 2
             (Some "general"%string) None 1 _ 1 2
             (fun _ => eval_noise) [[[1]]; [[2]]] [[[1; 0]]; [[0; 1]]] eq_refl).
    + split.
      * exists "general"%string. split; [reflexivity|].
        split; [right; left; reflexivity|discriminate].
      * lia.
    + lia.
    + lia.
    + reflexivity.
    + reflexivity.
Defined.

(** C1, as the specification states it, fails: at widths D_g = 2 and
    D_e = 1 the rows of the second tensor of the runner have one entry, not
    two, so it is not a stack of context vectors. *)
Lemma runner_second_output_not_context :
  exists rnn,
    DialogueRNN_init th0 "rnn" 1 2 1 1 2 (Some "general"%string) None 1 = Ok rnn /\
    rnn_D_g rnn = 2%nat /\
    exists e c alpha,
      DialogueRNN_forward rnn (fun _ => eval_noise)
        [[[1]]; [[2]]] [[[1; 0]]; [[0; 1]]] = Ok (e, c, alpha) /\
      ~ Forall (fun x => exists m, x = E2 m /\ has_shape2 1 (rnn_D_g rnn) m = true) c.
Proof.
  eexists. split; [reflexivity|]. split; [reflexivity|].
  destruct (DialogueRNN_forward_ok th0 "rnn"%string 1 2 1 1 2
              (Some "general"%string) None 1 _ 1 2
              (fun _ => eval_noise) [[[1]]; [[2]]] [[[1; 0]]; [[0; 1]]] eq_refl)
    as [e [alpha [Hf [Hl [Hfe _]]]]]; try reflexivity; try lia.
  { split.
    - exists "general"%string. split; [reflexivity|].
      split; [right; left; reflexivity|discriminate].
    - lia. }
  exists e, e, alpha. split; [exact Hf|].
  intros Hc. destruct e as [|x e]; [simpl in Hl; lia|].
  inversion Hfe as [|? ? [m [Hx Hm]] _]; subst.
  inversion Hc as [|? ? [m' [Hx' Hm']] _]; subst.
  injection Hx' as <-.
  apply has_shape2_true in Hm. apply has_shape2_true in Hm'.
  destruct Hm as [Hlm Hfm], Hm' as [_ Hfm'].
  destruct m as [|r m]; [simpl in Hlm; lia|].
  inversion Hfm; subst. inversion Hfm'; subst. simpl in *. lia.
Qed.

(** ** The bidirectional model *)

Lemma Model_init_inv (th : params) (D_h D_g D_p D_e D_y party n_classes : nat)
    (ca pa : option string) (D_a : nat) (m : Model) :
  Model_init th D_h D_g D_p D_e D_y party n_classes ca pa D_a = Ok m ->
  DialogueRNN_init th "dialog_rnn_f" D_h D_g D_p D_e party ca pa D_a
  = Ok (dialog_rnn_f m) /\
  DialogueRNN_init th "dialog_rnn_b" D_h D_g D_p D_e party ca pa D_a
  = Ok (dialog_rnn_b m) /\
  model_party_attention m = pa /\
  linear1 m = nn_Linear th "linear1" (2 * D_e) D_y true /\
  linear2 m = nn_Linear th "linear2" D_y (D_y / 2) true /\
  smax_fc m = nn_Linear th "smax_fc" (D_y / 2) n_classes true /\
  MatchingAttention_init th "matchatt" D_e D_e None "general2" = Ok (matchatt m).
Proof.
  intros H. unfold Model_init in H.
  destruct (DialogueRNN_init th "dialog_rnn_f" D_h D_g D_p D_e party ca pa D_a)
    as [f|e]; cbn [bind] in H; [|discriminate].
  destruct (DialogueRNN_init th "dialog_rnn_b" D_h D_g D_p D_e party ca pa D_a)
    as [b|e]; cbn [bind] in H; [|discriminate].
  simpl in H. inversion H; subst. simpl. repeat split; reflexivity.
Qed.

Lemma rank3_ok (B D T : nat) (l : list estate) :
  length l = T ->
  Forall (fun x => exists m, x = E2 m /\ has_shape2 B D m = true) l ->
  exists r, rank3 l = Ok r /\ has_shape3 T B D r = true.
Proof.
  intros Hl Hf. unfold rank3.
  destruct (mapM_exists
              (fun e => match e with E2 x => Ok x | E3 _ => Raise RuntimeError end)
              (fun r => has_shape2 B D r = true) l) as [r [Hr [Hlr Hfr]]].
  - intros x Hx. rewrite Forall_forall in Hf. destruct (Hf x Hx) as [m [-> Hm]].
    exists m. split; [reflexivity|exact Hm].
  - exists r. split; [exact Hr|]. apply has_shape3_true. split; [lia|exact Hfr].
Qed.

Lemma linear3_ok (L : Linear) (x : list (list vec)) (T B : nat) :
  has_shape3 T B (in_features L) x = true ->
  mapM (mapM (Linear_forward L)) x = Ok (map (map (Linear_out L)) x) /\
  has_shape3 T B (out_features L) (map (map (Linear_out L)) x) = true.
Proof.
  intros H. apply has_shape3_true in H. destruct H as [Hl Hf]. split.
  - apply mapM_mapM_map. intros r v Hr Hv. apply Linear_forward_ok.
    rewrite Forall_forall in Hf. specialize (Hf r Hr).
    apply has_shape2_true in Hf. destruct Hf as [_ Hf].
    rewrite Forall_forall in Hf. auto.
  - apply has_shape3_true. split; [rewrite length_map; exact Hl|].
    apply Forall_forall. intros r Hr. apply in_map_iff in Hr.
    destruct Hr as [r0 [<- Hr0]]. rewrite Forall_forall in Hf.
    specialize (Hf r0 Hr0). apply has_shape2_true in Hf. destruct Hf as [Hl0 _].
    apply has_shape2_true. split; [rewrite length_map; exact Hl0|].
    apply Forall_forall. intros v Hv. apply in_map_iff in Hv.
    destruct Hv as [v0 [<- _]]. apply Linear_out_length.
Qed.

Lemma map3_shape (f : vec -> vec) (x : list (list vec)) (T B D : nat) :
  (forall v, length (f v) = length v) ->
  has_shape3 T B D x = true -> has_shape3 T B D (map (map f) x) = true.
Proof.
  intros Hf H. apply has_shape3_true in H. destruct H as [Hl Hx].
  apply has_shape3_true. split; [rewrite length_map; exact Hl|].
  apply Forall_forall. intros r Hr. apply in_map_iff in Hr.
  destruct Hr as [r0 [<- Hr0]]. rewrite Forall_forall in Hx.
  specialize (Hx r0 Hr0). apply has_shape2_true in Hx. destruct Hx as [Hl0 Hf0].
  apply has_shape2_true. split; [rewrite length_map; exact Hl0|].
  apply Forall_forall. intros v Hv. apply in_map_iff in Hv.
  destruct Hv as [v0 [<- Hv0]]. rewrite Hf. rewrite Forall_forall in Hf0. auto.
Qed.

Lemma cat_last_ok (a b : list (list vec)) (T B d1 d2 : nat) :
  (1 <= T)%nat ->
  has_shape3 T B d1 a = true -> has_shape3 T B d2 b = true ->
  cat_last a b = Ok (map2 (map2 (@app R)) a b) /\
  has_shape3 T B (d1 + d2) (map2 (map2 (@app R)) a b) = true.
Proof.
  intros HT Ha Hb.
  pose proof (has_shape3_size1 T B d1 a Ha HT) as S1.
  pose proof (has_shape3_size1 T B d2 b Hb HT) as S2.
  apply has_shape3_true in Ha. apply has_shape3_true in Hb.
  destruct Ha as [La Fa], Hb as [Lb Fb]. split.
  - unfold cat_last. rewrite S1, S2, La, Lb, !Nat.eqb_refl. reflexivity.
  - apply has_shape3_true. split; [rewrite map2_length; lia|].
    apply (map2_Forall _ _ _ _ a b Fa Fb).
    intros x y Hx Hy.
    apply has_shape2_true in Hx. apply has_shape2_true in Hy.
    destruct Hx as [Lx Fx], Hy as [Ly Fy].
    apply has_shape2_true. split; [rewrite map2_length; lia|].
    apply (map2_Forall _ _ _ _ x y Fx Fy).
    intros u v Hu Hv. rewrite length_app. lia.
Qed.

Lemma reverse_seq_full (X : list (list vec)) (um : list vec) (T B D : nat) :
  has_shape3 T B D X = true ->
  (1 <= T)%nat -> (1 <= B)%nat ->
  valid_umask T B um ->
  exists X1, _reverse_seq X um = Ok X1 /\ has_shape3 T B D X1 = true.
Proof.
  intros HX HT HB [Hl [Hc [b [Hb Hfull]]]].
  destruct (reverse_seq_nth X um T B D HX HT HB Hl Hc)
    as [X1 [L [H1 [HX1 [HLT [HcL _]]]]]].
  exists X1. split; [exact H1|].
  specialize (HcL b Hb). assert (L = T) by lia. subst L. exact HX1.
Qed.

Lemma option_string_eqb_simple (D_m D_g D_p party : nat) (ca pa : option string) :
  valid_config D_m D_g D_p party ca pa -> option_string_eqb pa "simple" = false.
Proof.
  intros [_ H]. destruct pa as [s|]; [|reflexivity].
  destruct H as [[-> | [-> | [-> | ->]]] _]; reflexivity.
Qed.

(** The model on a well-shaped padded batch: it returns log-probabilities of
    shape (T, B, n_classes), and its second output is the feature-wise
    concatenation of the second outputs of the forward runner and of the
    backward runner on the reversed sequence. *)
Lemma Model_forward_ok (th : params) (D_h D_g D_p D_e D_y party n_classes : nat)
    (ca pa : option string) (D_a : nat) (m : Model) (nz : model_noise)
    (U qmask : list (list vec)) (um : list vec) (att2 : bool) (T B : nat) :
  Model_init th D_h D_g D_p D_e D_y party n_classes ca pa D_a = Ok m ->
  valid_config D_h D_g D_p party ca pa ->
  (1 <= T)%nat -> (1 <= B)%nat ->
  has_shape3 T B D_h U = true ->
  has_shape3 T B party qmask = true ->
  valid_umask T B um ->
  exists log_prob c ef af eb ab rev_U rev_q cf cb,
    Model_forward m nz U qmask (Some um) att2 = Ok (log_prob, c) /\
    has_shape3 T B n_classes log_prob = true /\
    DialogueRNN_forward (dialog_rnn_f m) (noise_f nz) U qmask = Ok (ef, ef, af) /\
    rank3 ef = Ok cf /\
    _reverse_seq U um = Ok rev_U /\
    _reverse_seq qmask um = Ok rev_q /\
    DialogueRNN_forward (dialog_rnn_b m) (noise_b nz) rev_U rev_q = Ok (eb, eb, ab) /\
    rank3 eb = Ok cb /\
    has_shape3 T B D_e cf = true /\
    has_shape3 T B D_e cb = true /\
    c = map2 (map2 (@app R)) cf cb /\
    has_shape3 T B (2 * D_e) c = true.
Proof.
  intros Hinit Hcfg HT HB HU Hq Hum.
  destruct (Model_init_inv th D_h D_g D_p D_e D_y party n_classes ca pa D_a m Hinit)
    as [Hf [Hb [Hpa [Hl1 [Hl2 [Hl3 _]]]]]].
  destruct (DialogueRNN_forward_ok th "dialog_rnn_f"%string D_h D_g D_p D_e party ca pa
              D_a (dialog_rnn_f m) B T (noise_f nz) U qmask Hf Hcfg HB HT HU Hq)
    as [ef [af [Hrf [Hlef [Hfef _]]]]].
  destruct (rank3_ok B D_e T ef Hlef Hfef) as [cf [Hcf Hscf]].
  destruct (reverse_seq_full U um T B D_h HU HT HB Hum) as [rev_U [HrU HsrU]].
  destruct (reverse_seq_full qmask um T B party Hq HT HB Hum) as [rev_q [Hrq Hsrq]].
  destruct (DialogueRNN_forward_ok th "dialog_rnn_b"%string D_h D_g D_p D_e party ca pa
              D_a (dialog_rnn_b m) B T (noise_b nz) rev_U rev_q Hb Hcfg HB HT HsrU Hsrq)
    as [eb [ab [Hrb [Hleb [Hfeb _]]]]].
  destruct (rank3_ok B D_e T eb Hleb Hfeb) as [cb [Hcb Hscb]].
  destruct (reverse_seq_full cb um T B D_e Hscb HT HB Hum) as [eb' [Hreb Hseb']].
  pose proof (dropout3_shape (drop_rec_f nz) cf T B D_e Hscf) as Hdf.
  pose proof (dropout3_shape (drop_rec_b nz) eb' T B D_e Hseb') as Hdb.
  destruct (cat_last_ok _ _ T B D_e D_e HT Hdf Hdb) as [Hcat Hscat].
  destruct (cat_last_ok cf cb T B D_e D_e HT Hscf Hscb) as [Hcatc Hscatc].
  replace (D_e + D_e)%nat with (2 * D_e)%nat in Hscat, Hscatc by lia.
  set (emotions := map2 (map2 (@app R)) (dropout3 (drop_rec_f nz) cf)
                        (dropout3 (drop_rec_b nz) eb')) in *.
  assert (Hhid : Model_hidden m emotions um att2
                 = Ok (map (map (map relu)) (map (map (Linear_out (linear1 m))) emotions))).
  { unfold Model_hidden.
    rewrite Hpa, (option_string_eqb_simple D_h D_g D_p party ca pa Hcfg), andb_false_r.
    destruct (linear3_ok (linear1 m) emotions T B) as [E _].
    { rewrite Hl1. exact Hscat. }
    rewrite E. reflexivity. }
  assert (Hsh1 : has_shape3 T B D_y
                   (map (map (map relu)) (map (map (Linear_out (linear1 m))) emotions))
                 = true).
  { apply map3_shape; [intros; apply length_map|].
    destruct (linear3_ok (linear1 m) emotions T B) as [_ E].
    { rewrite Hl1. exact Hscat. }
    rewrite Hl1 in E |- *. exact E. }
  set (hidden1 := map (map (map relu)) (map (map (Linear_out (linear1 m))) emotions)) in *.
  destruct (linear3_ok (linear2 m) hidden1 T B) as [E2 S2].
  { rewrite Hl2. exact Hsh1. }
  apply (map3_shape (map relu)) in S2; [|intros; apply length_map].
  apply (dropout3_shape (drop_hidden nz)) in S2.
  set (hidden2 := dropout3 (drop_hidden nz) _) in *.
  destruct (linear3_ok (smax_fc m) hidden2 T B) as [E3 S3].
  { rewrite Hl3. rewrite Hl2 in S2. exact S2. }
  apply (map3_shape log_softmax) in S3; [|intros; apply length_map].
  rewrite Hl3 in S3. cbn [out_features nn_Linear] in S3.
  exists (map (map log_softmax) (map (map (Linear_out (smax_fc m))) hidden2)).
  exists (map2 (map2 (@app R)) cf cb), ef, af, eb, ab, rev_U, rev_q, cf, cb.
  split.
  { unfold Model_forward. rewrite Hrf. cbn [bind]. rewrite Hcf. cbn [bind].
    rewrite HrU. cbn [bind]. rewrite Hrq. cbn [bind]. rewrite Hrb. cbn [bind].
    rewrite Hcb. cbn [bind]. rewrite Hreb. cbn [bind]. rewrite Hcat. cbn [bind].
    rewrite Hcatc. cbn [bind]. fold emotions. rewrite Hhid. cbn [bind].
    fold hidden1. rewrite E2. cbn [bind]. fold hidden2. rewrite E3. cbn [bind].
    reflexivity. }
  split; [rewrite Hl3; exact S3|].
  repeat split; assumption.
Qed.

(** C1 (as amended).  The second tensor of the runner is the stack of the
    per-timestep active-speaker emotion outputs, the same values as its
    first tensor: one (batch x D_e) slice per timestep.  Accordingly the
    second output of the model is the feature-wise concatenation of these
    outputs of the forward and of the backward runner, of width 2 * D_e. *)
Theorem second_output_is_emotion (th : params) (name : string)
    (D_m D_g D_p D_e party : nat) (ca pa : option string) (D_a : nat)
    (B T : nat) (U qmask : list (list vec)) :
  valid_config D_m D_g D_p party ca pa ->
  (1 <= B)%nat -> (1 <= T)%nat ->
  has_shape3 T B D_m U = true ->
  has_shape3 T B party qmask = true ->
  (forall rnn noise,
     DialogueRNN_init th name D_m D_g D_p D_e party ca pa D_a = Ok rnn ->
     exists e c alpha,
       DialogueRNN_forward rnn noise U qmask = Ok (e, c, alpha) /\
       c = e /\ length c = T /\
       Forall (fun x => exists m, x = E2 m /\ has_shape2 B D_e m = true) c)
  /\
  (forall D_y n_classes m nz um att2,
     Model_init th D_m D_g D_p D_e D_y party n_classes ca pa D_a = Ok m ->
     valid_umask T B um ->
     exists log_prob c ef af eb ab rev_U rev_q cf cb,
       Model_forward m nz U qmask (Some um) att2 = Ok (log_prob, c) /\
       DialogueRNN_forward (dialog_rnn_f m) (noise_f nz) U qmask = Ok (ef, ef, af) /\
       rank3 ef = Ok cf /\
       _reverse_seq U um = Ok rev_U /\
       _reverse_seq qmask um = Ok rev_q /\
       DialogueRNN_forward (dialog_rnn_b m) (noise_b nz) rev_U rev_q = Ok (eb, eb, ab) /\
       rank3 eb = Ok cb /\
       c = map2 (map2 (@app R)) cf cb /\
       has_shape3 T B (2 * D_e) c = true).
Proof.
  intros Hcfg HB HT HU Hq. split.
  - intros rnn noise Hinit.
    destruct (DialogueRNN_forward_ok th name D_m D_g D_p D_e party ca pa D_a rnn B T
                noise U qmask Hinit Hcfg HB HT HU Hq)
      as [e [alpha [Hf [Hl [Hfe _]]]]].
    exists e, e, alpha. repeat split; assumption.
  - intros D_y n_classes m nz um att2 Hinit Hum.
    destruct (Model_forward_ok th D_m D_g D_p D_e D_y party n_classes ca pa D_a m nz
                U qmask um att2 T B Hinit Hcfg HT HB HU Hq Hum)
      as [lp [c [ef [af [eb [ab [rU [rq [cf [cb H]]]]]]]]]].
    destruct H as [H1 [_ [H3 [H4 [H5 [H6 [H7 [H8 [_ [_ [H11 H12]]]]]]]]]]].
    exists lp, c, ef, af, eb, ab, rU, rq, cf, cb.
    repeat split; assumption.
Qed.

Lemma valid_umask_example : valid_umask 2 1 [[1; 1]].
Proof.
  assert (E : valid_len [[1; 1]] 0 = 2%Z).
  { unfold valid_len. cbn [nth].
    replace (Rsum [1; 1]) with (IZR 2) by (simpl; lra).
    apply trunc_IZR. lia. }
  split; [reflexivity|]. split.
  - intros b Hb. assert (b = 0%nat) by lia. subst b. rewrite E. lia.
  - exists 0%nat. split; [lia|exact E].
Defined.

Lemma second_output_is_emotion_witness :
  (exists rnn,
     DialogueRNN_init th0 "rnn" 1 2 1 1 2 (Some "general"%string) None 1 = Ok rnn /\
     exists e c alpha,
       DialogueRNN_forward rnn (fun _ => eval_noise)
         [[[1]]; [[2]]] [[[1; 0]]; [[0; 1]]] = Ok (e, c, alpha) /\
       c = e /\ length c = 2%nat /\
       Forall (fun x => exists m, x = E2 m /\ has_shape2 1 1 m = true) c)
  /\
  (exists m,
     Model_init th0 1 2 1 1 2 2 3 (Some "general"%string) None 1 = Ok m /\
     exists log_prob c,
       Model_forward m
         eval_model_noise
         [[[1]]; [[2]]] [[[1; 0]]; [[0; 1]]] (Some [[1; 1]]) false
       = Ok (log_prob, c) /\
       has_shape3 2 1 (2 * 1) c = true).
Proof.
  destruct (second_output_is_emotion th0 "rnn"%string 1 2 1 1 2
              (Some "general"%string) None 1 1 2
              [[[1]]; [[2]]] [[[1; 0]]; [[0; 1]]]) as [H1 H2].
  - split.
    + exists "general"%string. split; [reflexivity|].
      split; [right; left; reflexivity|discriminate].
    + lia.
  - lia.
  - lia.
  - reflexivity.
  - reflexivity.
  - split.
    + eexists. split; [reflexivity|]. apply H1. reflexivity.
    + eexists. split; [reflexivity|].
      destruct (H2 2%nat 3%nat _ eval_model_noise
                  [[1; 1]] false eq_refl valid_umask_example)
        as [lp [c [ef [af [eb [ab [rU [rq [cf [cb H]]]]]]]]]].
      exists lp, c. split; [apply H|apply H].
Defined.

(** ** The optional self-attention pass *)

Lemma bind_ext {A B : Type} (m : exc A) (k1 k2 : A -> exc B) :
  (forall a, k1 a = k2 a) -> bind m k1 = bind m k2.
Proof. intros H. destruct m; simpl; [apply H|reflexivity]. Qed.

Lemma Model_hidden_raw (m : Model) (emotions : list (list vec)) (umask : list vec)
    (att2 : bool) :
  att2 && option_string_eqb (model_party_attention m) "simple" = false ->
  Model_hidden m emotions umask att2 = first_layer m emotions.
Proof. intros H. unfold Model_hidden. rewrite H. reflexivity. Qed.

Lemma Model_forward_att2_ignored (m : Model) (nz : model_noise)
    (U qmask : list (list vec)) (umask : option (list vec)) :
  option_string_eqb (model_party_attention m) "simple" = false ->
  Model_forward m nz U qmask umask true = Model_forward m nz U qmask umask false.
Proof.
  intros H. unfold Model_forward.
  repeat (first [ apply bind_ext; intro
                | match goal with
                  | |- match ?x with _ => _ end = _ => destruct x
                  end ]).
  rewrite !Model_hidden_raw by (rewrite H; apply andb_false_r).
  reflexivity.
Qed.

Lemma option_string_eqb_true (a : option string) (s : string) :
  option_string_eqb a s = true <-> a = Some s.
Proof.
  destruct a as [x|]; simpl.
  - rewrite String.eqb_eq. split; [intros ->; reflexivity|intros H; congruence].
  - split; discriminate.
Qed.

(** With [att2] set and a party attention other than ['simple'], the model
    returns, and what it feeds to its head is the first layer of the raw
    concatenated vectors; the attention pass over these vectors is not run
    (here it could not even be: [matchatt] has width D_e, the vectors
    2 * D_e). *)
Lemma att2_set_feeds_raw_vectors :
  exists m,
    Model_init th0 1 1 1 1 2 2 2 (Some "general"%string) (Some "general"%string) 1
    = Ok m /\
    Model_hidden m [[[1; 2]]] [[1]] true = first_layer m [[[1; 2]]] /\
    is_ok (first_layer m [[[1; 2]]]) = true /\
    is_ok (self_attended m [[[1; 2]]] [[1]] 0) = false /\
    exists log_prob c,
      Model_forward m eval_model_noise [[[1]]; [[2]]] [[[1; 0]]; [[0; 1]]]
        (Some [[1; 1]]) true = Ok (log_prob, c) /\
      Model_forward m eval_model_noise [[[1]]; [[2]]] [[[1; 0]]; [[0; 1]]]
        (Some [[1; 1]]) false = Ok (log_prob, c).
Proof.
  eexists. split; [reflexivity|].
  split; [reflexivity|]. split; [reflexivity|]. split; [reflexivity|].
  destruct (Model_forward_ok th0 1 1 1 1 2 2 2 (Some "general"%string)
              (Some "general"%string) 1 _ eval_model_noise
              [[[1]]; [[2]]] [[[1; 0]]; [[0; 1]]] [[1; 1]] true 2 1 eq_refl)
    as [lp [c [ef [af [eb [ab [rU [rq [cf [cb [H _]]]]]]]]]]];
    try reflexivity; try lia.
  { split.
    - exists "general"%string. split; [reflexivity|].
      split; [right; left; reflexivity|discriminate].
    - split; [right; left; reflexivity|]. split; [discriminate|lia]. }
  { apply valid_umask_example. }
  exists lp, c. split; [exact H|].
  rewrite <- H. symmetry. apply Model_forward_att2_ignored. reflexivity.
Qed.

(** ** Configurations that cannot run *)

Lemma is_ok_false {A : Type} (m : exc A) : is_ok m = false -> exists e, m = Raise e.
Proof. destruct m; simpl; [discriminate|]. eauto. Qed.

Lemma is_ok_bind {A B : Type} (m : exc A) (k : A -> exc B) :
  is_ok m = false -> is_ok (bind m k) = false.
Proof. intros H. destruct (is_ok_false m H) as [e ->]. reflexivity. Qed.

Ltac bind_step :=
  match goal with
  | |- is_ok (bind ?X _) = false =>
      let E := fresh "E" in
      destruct X eqn:E; cbn [bind]; [|reflexivity]
  end.

(** A cell whose context attention is missing or names a variant without a
    branch raises on every input: the default ['simple'] of [DialogueRNN]
    is such a name. *)
Lemma cell_forward_raises_context (th : params) (name : string)
    (D_m D_g D_p D_e party : nat) (ca pa : option string) (D_a : nat)
    (cell : DialogueRNNCell) (nz : cell_noise) (U qmask : list vec)
    (g_hist : list (list vec)) (q0 : list (list vec))
    (q_hist : list (list (list vec))) (e0 : estate) :
  DialogueRNNCell_init th name D_m D_g D_p D_e party ca pa D_a = Ok cell ->
  (forall s, ca = Some s -> ~ known_att_type s) ->
  is_ok (DialogueRNNCell_forward cell nz U qmask g_hist q0 q_hist e0) = false.
Proof.
  intros Hinit Hca.
  destruct (DialogueRNNCell_init_inv _ _ _ _ _ _ _ _ _ _ _ Hinit)
    as [_ [_ [_ [_ [_ [_ [_ [_ [_ [Hatt _]]]]]]]]]].
  unfold DialogueRNNCell_forward. cbv zeta.
  do 6 bind_step.
  apply is_ok_bind.
  destruct (g_hist ++ [_]) eqn:Egh; [destruct g_hist; discriminate|].
  destruct ca as [s|].
  - destruct Hatt as [att [Ha ->]]. cbn [getattr bind].
    rewrite (MatchingAttention_init_unknown th _ D_g D_m (Some D_a) s (Hca s eq_refl))
      in Ha.
    injection Ha as <-.
    apply is_ok_bind. apply MatchingAttention_forward_unknown. apply Hca. reflexivity.
  - rewrite Hatt. reflexivity.
Qed.

(** The same for a party attention that names a variant without a branch:
    ['simple'], the default of [Model], is such a name. *)
Lemma cell_forward_raises_party (th : params) (name : string)
    (D_m D_g D_p D_e party : nat) (ca : option string) (s : string) (D_a : nat)
    (cell : DialogueRNNCell) (nz : cell_noise) (U qmask : list vec)
    (g_hist : list (list vec)) (q0 : list (list vec))
    (q_hist : list (list (list vec))) (e0 : estate) :
  DialogueRNNCell_init th name D_m D_g D_p D_e party ca (Some s) D_a = Ok cell ->
  ~ known_att_type s ->
  is_ok (DialogueRNNCell_forward cell nz U qmask g_hist q0 q_hist e0) = false.
Proof.
  intros Hinit Hs.
  destruct (DialogueRNNCell_init_inv _ _ _ _ _ _ _ _ _ _ _ Hinit)
    as [_ [_ [_ [_ [Hparty [Hpa [_ [_ [_ [_ Hpatt]]]]]]]]]].
  destruct Hpatt as [a1 [a2 [Ha1 [_ [Hp1 _]]]]].
  rewrite (MatchingAttention_init_unknown th _ D_p D_m (Some D_a) s Hs) in Ha1.
  injection Ha1 as <-.
  unfold DialogueRNNCell_forward. cbv zeta.
  rewrite Hpa, Hp1, Hparty.
  do 11 bind_step.
  apply is_ok_bind.
  destruct (q_hist ++ [_]) eqn:Eqh; [destruct q_hist; discriminate|].
  destruct party as [|n].
  - cbn [seq mapM bind fst snd map].
    destruct (Nat.eqb_spec 0 (size1 qmask)) as [Hz|Hz]; [|reflexivity].
    exfalso.
    destruct qmask as [|r qm].
    + simpl in E. injection E as <-. unfold _select_parties in E0.
      simpl in E0. discriminate.
    + unfold size1 in Hz. simpl in Hz. destruct r; [|discriminate].
      simpl in E. discriminate.
  - cbn [seq mapM]. do 4 apply is_ok_bind.
    unfold party_pool. cbn [getattr bind].
    match goal with
    | |- is_ok (bind ?X _) = false => destruct X; cbn [bind]; [|reflexivity]
    end.
    apply is_ok_bind. apply MatchingAttention_forward_unknown. exact Hs.
Qed.

Lemma DialogueRNN_forward_raises (th : params) (name : string)
    (D_m D_g D_p D_e party : nat) (ca pa : option string) (D_a : nat)
    (rnn : DialogueRNN) (noise : nat -> cell_noise) (U qmask : list (list vec)) :
  DialogueRNN_init th name D_m D_g D_p D_e party ca pa D_a = Ok rnn ->
  (forall s, ca = Some s -> ~ known_att_type s) \/
  (exists s, pa = Some s /\ ~ known_att_type s) ->
  is_ok (DialogueRNN_forward rnn noise U qmask) = false.
Proof.
  intros Hinit Hbad.
  destruct (DialogueRNN_init_inv _ _ _ _ _ _ _ _ _ _ _ Hinit) as [Hcell _].
  unfold DialogueRNN_forward.
  destruct (combine U qmask) as [|[u_ qm] steps].
  - reflexivity.
  - apply is_ok_bind. cbn [DialogueRNN_loop]. apply is_ok_bind.
    destruct Hbad as [Hca | [s [-> Hs]]].
    + eapply cell_forward_raises_context; eauto.
    + eapply cell_forward_raises_party; eauto.
Qed.

(** A model built with party attention ['simple'], the default of [Model]
    and the only value under which [att2] selects the attention pass, raises
    on every input: the pass is never completed. *)
Lemma Model_forward_simple_raises (th : params)
    (D_h D_g D_p D_e D_y party n_classes : nat) (ca : option string) (D_a : nat)
    (m : Model) (nz : model_noise) (U qmask : list (list vec))
    (umask : option (list vec)) (att2 : bool) :
  Model_init th D_h D_g D_p D_e D_y party n_classes ca (Some "simple"%string) D_a = Ok m ->
  is_ok (Model_forward m nz U qmask umask att2) = false.
Proof.
  intros Hinit.
  destruct (Model_init_inv _ _ _ _ _ _ _ _ _ _ _ _ Hinit) as [Hf _].
  unfold Model_forward. apply is_ok_bind.
  apply (DialogueRNN_forward_raises _ _ _ _ _ _ _ _ _ _ _ _ _ _ Hf).
  right. exists "simple"%string. split; [reflexivity|].
  intros [H | [H | [H | H]]]; discriminate.
Qed.

(** C5.  The extra attention pass never takes effect.  For a model built by
    [__init__]: with party attention ['simple'], the one value under which
    line 327 selects the pass when [att2] is set, [forward] raises on every
    input, in the first step of the dialogue cell and so before the pass is
    reached; with any other party attention, the classification head is fed
    the raw concatenated vectors whatever [att2] is, and [att2] has no
    effect on the result.  So a call with [att2] set that returns, returns
    what the call with [att2] unset returns. *)
Theorem att2_pass_is_guarded (th : params)
    (D_h D_g D_p D_e D_y party n_classes : nat) (ca pa : option string) (D_a : nat)
    (m : Model) :
  Model_init th D_h D_g D_p D_e D_y party n_classes ca pa D_a = Ok m ->
  (pa = Some "simple"%string ->
   forall nz U qmask um att2,
     is_ok (Model_forward m nz U qmask um att2) = false)
  /\
  (pa <> Some "simple"%string ->
   (forall emotions umask att2,
      Model_hidden m emotions umask att2 = first_layer m emotions) /\
   (forall nz U qmask um,
      Model_forward m nz U qmask um true = Model_forward m nz U qmask um false))
  /\
  (forall nz U qmask um r,
     Model_forward m nz U qmask um true = Ok r ->
     Model_forward m nz U qmask um false = Ok r).
Proof.
  intros Hinit.
  destruct (Model_init_inv _ _ _ _ _ _ _ _ _ _ _ _ Hinit) as [_ [_ [Hpa _]]].
  assert (Hsimple : pa = Some "simple"%string ->
            forall nz U qmask um att2,
              is_ok (Model_forward m nz U qmask um att2) = false).
  { intros -> nz U qmask um att2.
    apply (Model_forward_simple_raises th D_h D_g D_p D_e D_y party n_classes ca D_a
             m nz U qmask um att2 Hinit). }
  assert (Hother : pa <> Some "simple"%string ->
            option_string_eqb (model_party_attention m) "simple" = false).
  { intros Hne. destruct (option_string_eqb (model_party_attention m) "simple") eqn:E;
      [|reflexivity].
    apply option_string_eqb_true in E. rewrite Hpa in E. contradiction. }
  split; [exact Hsimple|]. split.
  - intros Hne. split.
    + intros emotions umask att2. apply Model_hidden_raw.
      rewrite (Hother Hne). apply andb_false_r.
    + intros nz U qmask um. apply Model_forward_att2_ignored. exact (Hother Hne).
  - intros nz U qmask um r Hr.
    destruct (option_string_eqb (model_party_attention m) "simple") eqn:E.
    + apply option_string_eqb_true in E. rewrite Hpa in E.
      pose proof (Hsimple E nz U qmask um true) as Hno.
      rewrite Hr in Hno. discriminate Hno.
    + rewrite <- (Model_forward_att2_ignored m nz U qmask um E). exact Hr.
Qed.

Lemma att2_pass_is_guarded_witness :
  (exists m,
     Model_init th0 1 1 1 1 2 2 2 (Some "general"%string) (Some "simple"%string) 1
     = Ok m /\
     forall nz U qmask um att2,
       is_ok (Model_forward m nz U qmask um att2) = false)
  /\
  (exists m,
     Model_init th0 1 1 1 1 2 2 2 (Some "general"%string) (Some "general"%string) 1
     = Ok m /\
     (forall emotions umask att2,
        Model_hidden m emotions umask att2 = first_layer m emotions) /\
     (forall nz U qmask um,
        Model_forward m nz U qmask um true = Model_forward m nz U qmask um false)).
Proof.
  split.
  - eexists. split; [reflexivity|].
    refine (proj1 (att2_pass_is_guarded th0 1 1 1 1 2 2 2 (Some "general"%string)
                     (Some "simple"%string) 1 _ eq_refl) eq_refl).
  - eexists. split; [reflexivity|].
    refine (proj1 (proj2 (att2_pass_is_guarded th0 1 1 1 1 2 2 2
                            (Some "general"%string) (Some "general"%string) 1 _
                            eq_refl)) _).
    discriminate.
Defined.

(* ================================================================== *)
(** * Further properties of the code *)

(** ** Party selector *)

Lemma argmax_from_le (v : vec) (bi i : nat) (best : R) :
  Forall (fun x => x <= best) v -> argmax_from bi best i v = bi.
Proof.
  revert bi i; induction v as [|x v IH]; intros bi i H; simpl; [reflexivity|].
  inversion H as [|? ? Hx Hv]; subst.
  destruct (Rlt_dec best x) as [Hlt|_]; [lra|]. apply IH. exact Hv.
Qed.

Lemma argmax_from_zeros_one (j : nat) (zs : vec) (bi i : nat) :
  Forall (fun x => x <= 1) zs ->
  argmax_from bi 0 i (zeros j ++ 1 :: zs) = (i + j)%nat.
Proof.
  intros Hz. revert bi i; induction j as [|j IH]; intros bi i; simpl.
  - destruct (Rlt_dec 0 1) as [_|H]; [|lra].
    rewrite argmax_from_le by exact Hz. lia.
  - destruct (Rlt_dec 0 0) as [H|_]; [lra|].
    unfold zeros in IH. rewrite IH. lia.
Qed.

Lemma zeros_le_1 (n : nat) : Forall (fun x => x <= 1) (zeros n).
Proof.
  apply Forall_forall. intros x Hx. apply repeat_spec in Hx. subst x. lra.
Qed.

Lemma argmax_one_hot (party k : nat) :
  (k < party)%nat -> argmax (one_hot party k) = Ok k.
Proof.
  intros Hk. unfold one_hot. destruct k as [|j].
  - simpl. unfold argmax_idx. f_equal.
    apply argmax_from_le.
    apply Forall_forall. intros x Hx. apply repeat_spec in Hx. subst x. lra.
  - simpl. f_equal.
    change (repeat 0 j) with (zeros j).
    rewrite argmax_from_zeros_one by apply zeros_le_1. lia.
Qed.

(** X1.  On one-hot speaker masks, [argmax] followed by [_select_parties]
    returns, for every batch item, the row of its active speaker. *)
Theorem select_parties_active_row {A : Type} (X : list (list A)) (qmask : list vec)
    (B party : nat) (d : A) :
  (1 <= B)%nat ->
  length X = B ->
  Forall (fun r => length r = party) X ->
  length qmask = B ->
  one_hot_rows party qmask ->
  exists idx sel,
    mapM argmax qmask = Ok idx /\
    _select_parties X idx = Ok sel /\
    length sel = B /\
    forall b k, (b < B)%nat -> nth b qmask [] = one_hot party k -> (k < party)%nat ->
      nth b idx 0%nat = k /\ nth b sel d = nth k (nth b X []) d.
Proof.
  intros HB HlX HrX Hlq Hoh.
  unfold one_hot_rows in Hoh. rewrite Forall_forall in Hoh.
  set (f := fun r : vec => match argmax r with Ok k => k | Raise _ => 0%nat end).
  assert (Hidx : mapM argmax qmask = Ok (map f qmask)).
  { apply mapM_map. intros r Hr.
    destruct (Hoh r Hr) as [k [Hk ->]]. unfold f.
    rewrite (argmax_one_hot party k Hk). reflexivity. }
  assert (Hlt : Forall (fun k => (k < party)%nat) (map f qmask)).
  { apply Forall_forall. intros k Hk. apply in_map_iff in Hk.
    destruct Hk as [r [<- Hr]].
    destruct (Hoh r Hr) as [k' [Hk' ->]]. unfold f.
    rewrite (argmax_one_hot party k' Hk'). exact Hk'. }
  assert (Hli : length (map f qmask) = B) by (rewrite length_map; exact Hlq).
  exists (map f qmask), (map2 (fun k r => nth k r d) (map f qmask) X).
  split; [exact Hidx|].
  split; [apply (select_parties_ok X (map f qmask) B party d HB HlX HrX Hli Hlt)|].
  split; [rewrite map2_length; lia|].
  intros b k Hb Hrow Hk.
  assert (Hnb : nth b (map f qmask) 0%nat = k).
  { rewrite (nth_indep _ 0%nat (f [])) by lia.
    rewrite (map_nth f). rewrite Hrow. unfold f.
    rewrite (argmax_one_hot party k Hk). reflexivity. }
  split; [exact Hnb|].
  rewrite (map2_nth _ (map f qmask) X b 0%nat [] d) by lia.
  rewrite Hnb. reflexivity.
Qed.

Lemma select_parties_active_row_witness :
  exists idx sel,
    mapM argmax [[0; 1]; [1; 0]] = Ok idx /\
    _select_parties [[[5]; [7]]; [[6]; [8]]] idx = Ok sel /\
    length sel = 2%nat /\
    forall b k, (b < 2)%nat -> nth b [[0; 1]; [1; 0]] [] = one_hot 2 k -> (k < 2)%nat ->
      nth b idx 0%nat = k /\
      nth b sel [] = nth k (nth b [[[5]; [7]]; [[6]; [8]]] []) [].
Proof.
  apply (select_parties_active_row [[[5]; [7]]; [[6]; [8]]] [[0; 1]; [1; 0]] 2 2 []).
  - lia.
  - reflexivity.
  - constructor; [reflexivity|]. constructor; [reflexivity|constructor].
  - reflexivity.
  - constructor; [exists 1%nat; split; [lia|reflexivity]|].
    constructor; [exists 0%nat; split; [lia|reflexivity]|constructor].
Defined.

Lemma select_parties_zip_map {A : Type} (d : A) (idx : list nat) :
  forall X : list (list A),
    (forall b, (b < Nat.min (length idx) (length X))%nat ->
               (nth b idx 0%nat < length (nth b X []))%nat) ->
    mapM (fun p => match nth_error (snd p) (fst p) with
                   | Some r => Ok r
                   | None => Raise IndexError
                   end) (combine idx X)
    = Ok (map2 (fun k r => nth k r d) idx X).
Proof.
  induction idx as [|k idx IH]; intros X H; [reflexivity|].
  destruct X as [|r X]; [reflexivity|].
  cbn [combine mapM fst snd].
  assert (Hk : (k < length r)%nat) by (apply (H 0%nat); simpl; lia).
  rewrite (nth_error_nth' r d Hk). cbn [bind].
  rewrite IH.
  - reflexivity.
  - intros b Hb. apply (H (S b)). simpl. lia.
Qed.

Lemma select_parties_first_bad {A : Type} (idx : list nat) :
  forall (X : list (list A)) (b : nat),
    (b < length idx)%nat -> (b < length X)%nat ->
    (length (nth b X []) <= nth b idx 0%nat)%nat ->
    mapM (fun p => match nth_error (snd p) (fst p) with
                   | Some r => Ok r
                   | None => Raise IndexError
                   end) (combine idx X)
    = Raise IndexError.
Proof.
  induction idx as [|k idx IH]; intros X b Hb HX Hbad; [simpl in Hb; lia|].
  destruct X as [|r X]; [simpl in HX; lia|].
  cbn [combine mapM fst snd].
  destruct (nth_error r k) as [y|] eqn:E; [|reflexivity].
  cbn [bind].
  destruct b as [|b].
  - simpl in Hbad. apply nth_error_None in Hbad. congruence.
  - rewrite (IH X b); [reflexivity | simpl in Hb; lia | simpl in HX; lia | exact Hbad].
Qed.

(** X2.  [_select_parties] pairs indices with rows by [zip]: it never
    compares the two lengths, and on in-range indices returns one entry per
    pair, so as many as the shorter of the two arguments has. *)
Theorem select_parties_truncates {A : Type} (X : list (list A)) (idx : list nat) (d : A) :
  (1 <= Nat.min (length idx) (length X))%nat ->
  (forall b, (b < Nat.min (length idx) (length X))%nat ->
             (nth b idx 0%nat < length (nth b X []))%nat) ->
  exists sel,
    _select_parties X idx = Ok sel /\
    length sel = Nat.min (length idx) (length X) /\
    forall b, (b < Nat.min (length idx) (length X))%nat ->
      nth b sel d = nth (nth b idx 0%nat) (nth b X []) d.
Proof.
  intros Hmin Hin.
  exists (map2 (fun k r => nth k r d) idx X).
  assert (Hlen : length (map2 (fun k r => nth k r d) idx X)
                 = Nat.min (length idx) (length X)).
  { unfold map2. rewrite length_map, length_combine. reflexivity. }
  split.
  - unfold _select_parties.
    rewrite (select_parties_zip_map d idx X Hin). cbn [bind].
    destruct (map2 (fun k r => nth k r d) idx X) eqn:E; [|reflexivity].
    simpl in Hlen. lia.
  - split; [exact Hlen|].
    intros b Hb.
    apply (map2_nth (fun k r => nth k r d) idx X b 0%nat [] d); lia.
Qed.

Lemma select_parties_truncates_witness :
  exists sel,
    _select_parties [[10; 11]; [20; 21]; [30; 31]] [1%nat; 0%nat] = Ok sel /\
    length sel = 2%nat /\
    forall b, (b < 2)%nat ->
      nth b sel 0 = nth (nth b [1%nat; 0%nat] 0%nat)
                        (nth b [[10; 11]; [20; 21]; [30; 31]] []) 0.
Proof.
  apply (select_parties_truncates [[10; 11]; [20; 21]; [30; 31]] [1%nat; 0%nat] 0).
  - simpl. lia.
  - intros b Hb. simpl in Hb.
    destruct b as [|[|b]]; simpl; lia.
Defined.

(** X3.  The two ways [_select_parties] fails: with nothing to concatenate
    (no index or no row) [torch.cat] raises; an index beyond its row raises
    [IndexError], whatever the other pairs hold. *)
Theorem select_parties_errors {A : Type} (X : list (list A)) (idx : list nat) :
  (idx = [] \/ X = [] -> _select_parties X idx = Raise RuntimeError) /\
  (forall b, (b < length idx)%nat -> (b < length X)%nat ->
             (length (nth b X []) <= nth b idx 0%nat)%nat ->
             _select_parties X idx = Raise IndexError).
Proof.
  split.
  - intros [-> | ->]; [reflexivity|].
    unfold _select_parties. destruct idx; reflexivity.
  - intros b Hb HX Hbad. unfold _select_parties.
    rewrite (select_parties_first_bad idx X b Hb HX Hbad). reflexivity.
Qed.

Lemma select_parties_errors_witness :
  _select_parties [[10; 11]] (@nil nat) = Raise RuntimeError /\
  _select_parties [[10; 11]; [20; 21]] [1%nat; 2%nat] = Raise IndexError.
Proof.
  split.
  - apply (proj1 (select_parties_errors [[10; 11]] [])). left. reflexivity.
  - apply (proj2 (select_parties_errors [[10; 11]; [20; 21]] [1%nat; 2%nat]) 1%nat);
      simpl; lia.
Defined.

(** ** Attention pooling *)

Lemma row_ok_one (w : vec) : row_ok 1 w -> w = [1].
Proof.
  intros [Hl [_ Hs]]. destruct w as [|a [|b w]]; simpl in Hl; try discriminate.
  simpl in Hs. f_equal. lra.
Qed.

Lemma attn_pool_nth (alpha : list vec) (M : list (list vec)) (b : nat) :
  (b < length alpha)%nat ->
  nth b (attn_pool alpha M) []
  = map (fun d => dot (nth b alpha []) (column (batch_row M b) d)) (seq 0 (size2 M)).
Proof.
  intros Hb. unfold attn_pool.
  apply (imap_nth (fun b a => map (fun d => dot a (column (batch_row M b) d))
                                  (seq 0 (size2 M))) alpha b [] []).
  exact Hb.
Qed.

Lemma attn_pool_entry (alpha : list vec) (M : list (list vec)) (b d : nat) :
  (b < length alpha)%nat -> (d < size2 M)%nat ->
  nth d (nth b (attn_pool alpha M) []) 0
  = dot (nth b alpha []) (column (batch_row M b) d).
Proof.
  intros Hb Hd. rewrite (attn_pool_nth alpha M b Hb).
  rewrite (nth_indep _ 0 (dot (nth b alpha []) (column (batch_row M b) 0)))
    by (rewrite length_map, length_seq; exact Hd).
  rewrite (map_nth (fun d => dot (nth b alpha []) (column (batch_row M b) d))).
  rewrite seq_nth by exact Hd. reflexivity.
Qed.

Lemma column_entry (M : list (list vec)) (b d t : nat) :
  nth t (column (batch_row M b) d) 0 = nth d (nth b (nth t M []) []) 0.
Proof.
  unfold column, batch_row. rewrite map_map.
  destruct (Nat.lt_ge_cases t (length M)) as [Hlt|Hge].
  - rewrite (nth_indep _ 0 (nth d (nth b (@nil vec) []) 0))
      by (rewrite length_map; exact Hlt).
    rewrite (map_nth (fun x => nth d (nth b x []) 0)). reflexivity.
  - rewrite nth_overflow by (rewrite length_map; exact Hge).
    rewrite (nth_overflow M) by exact Hge.
    destruct b, d; reflexivity.
Qed.

Lemma dot_bounds (lo hi : R) (a : vec) :
  forall c : vec,
    length a = length c ->
    Forall (fun x => 0 <= x) a ->
    (forall t, (t < length c)%nat -> lo <= nth t c 0 <= hi) ->
    lo * Rsum a <= dot a c <= hi * Rsum a.
Proof.
  unfold dot, vmul, map2.
  induction a as [|x a IH]; intros [|y c] Hl Ha Hc; simpl in *; try discriminate.
  - lra.
  - apply Forall_cons_iff in Ha. destruct Ha as [Hx Ha].
    assert (Hy : lo <= y <= hi) by (apply (Hc 0%nat); lia).
    assert (IHc : lo * Rsum a
                  <= Rsum (map (fun p => fst p * snd p) (combine a c))
                  <= hi * Rsum a).
    { apply IH; [lia|exact Ha|]. intros t Ht. apply (Hc (S t)). lia. }
    nra.
Qed.

Lemma attn_pool_single_entry (alpha M0 : list vec) (B D : nat) :
  has_shape2 B D M0 = true -> (1 <= B)%nat ->
  length alpha = B -> Forall (row_ok 1) alpha ->
  alpha = repeat [1] B /\ attn_pool alpha [M0] = M0.
Proof.
  intros HM0 HB Hla Hrows.
  assert (HM : has_shape3 1 B D [M0] = true).
  { apply has_shape3_true. split; [reflexivity|]. constructor; [exact HM0|constructor]. }
  assert (Halpha : alpha = repeat [1] B).
  { apply (nth_ext _ _ [] []); [rewrite repeat_length; exact Hla|].
    intros b Hb. rewrite nth_repeat_lt by lia.
    apply row_ok_one. rewrite Forall_forall in Hrows. apply Hrows.
    apply nth_In. exact Hb. }
  split; [exact Halpha|]. subst alpha.
  assert (HlM0 : length M0 = B) by (apply has_shape2_true in HM0; tauto).
  apply (nth_ext _ _ [] []).
  - unfold attn_pool. rewrite imap_length, repeat_length. lia.
  - intros b Hb. unfold attn_pool in Hb. rewrite imap_length, repeat_length in Hb.
    rewrite attn_pool_nth by (rewrite repeat_length; exact Hb).
    rewrite nth_repeat_lt by exact Hb.
    rewrite (has_shape3_size2 1 B D [M0] HM (le_n 1) HB).
    rewrite (list_as_map_seq (nth b M0 []) 0) at 1.
    rewrite (has_shape2_nth B D M0 b HM0 Hb).
    apply map_ext. intros d. unfold dot, vmul, map2, column, batch_row. simpl. ring.
Qed.

Lemma MatchingAttention_single_entry (th : params) (name : string) (mem cand : nat)
    (adim : option nat) (ty : string) (att : MatchingAttention)
    (M0 x : list vec) (B : nat) :
  MatchingAttention_init th name mem cand adim ty = Ok att ->
  known_att_type ty ->
  has_shape2 B mem M0 = true ->
  has_shape2 B cand x = true ->
  (1 <= B)%nat ->
  MatchingAttention_forward att [M0] x None
  = Ok (map defined M0, repeat [Some 1] B).
Proof.
  intros Hinit Hk HM0 Hx HB.
  assert (HM : has_shape3 1 B mem [M0] = true).
  { apply has_shape3_true. split; [reflexivity|]. constructor; [exact HM0|constructor]. }
  destruct (attention_pool_ok th name mem cand adim ty att [M0] x 1 B
              Hinit Hk HM Hx (le_n 1) HB) as [alpha [Hf [_ [_ [Hla Hrows]]]]].
  destruct (attn_pool_single_entry alpha M0 B mem HM0 HB Hla Hrows) as [Ha Hp].
  rewrite Hf, fattn_pool_defined, Hp, Ha.
  unfold defined at 2. rewrite map_repeat. reflexivity.
Qed.

(** X4.  Over a history of a single entry every attention module puts
    weight 1 on that entry, so the pooled vectors are the entry itself:
    [SimpleAttention], and every variant of [MatchingAttention] called
    without a mask. *)
Theorem attention_single_entry (M0 : list vec) (B D : nat) :
  has_shape2 B D M0 = true ->
  (1 <= B)%nat ->
  (forall th name,
     SimpleAttention_forward (SimpleAttention_init th name D) [M0]
     = Ok (M0, repeat [1] B))
  /\
  (forall th name cand adim ty att x,
     MatchingAttention_init th name D cand adim ty = Ok att ->
     known_att_type ty ->
     has_shape2 B cand x = true ->
     MatchingAttention_forward att [M0] x None
     = Ok (map defined M0, repeat [Some 1] B)).
Proof.
  intros HM0 HB. split.
  - intros th name.
    assert (HM : has_shape3 1 B D [M0] = true).
    { apply has_shape3_true. split; [reflexivity|].
      constructor; [exact HM0|constructor]. }
    destruct (SimpleAttention_forward_ok th name [M0] 1 B D HM (le_n 1))
      as [pool [alpha [Hf [Hla Hrows]]]].
    rewrite Hf.
    unfold SimpleAttention_forward in Hf.
    destruct (mapM _ [M0]) as [scale|e]; cbn [bind] in Hf; [|discriminate].
    injection Hf as Hp Ha. rewrite Ha in Hp.
    destruct (attn_pool_single_entry alpha M0 B D HM0 HB Hla Hrows) as [Hal Hpool].
    rewrite <- Hp, Hpool, Hal. reflexivity.
  - intros th name cand adim ty att x Hinit Hk Hx.
    apply (MatchingAttention_single_entry th name D cand adim ty att M0 x B
             Hinit Hk HM0 Hx HB).
Qed.

Lemma attention_single_entry_witness :
  SimpleAttention_forward (SimpleAttention_init th0 "sa" 2) [[[3; 4]; [5; 6]]]
  = Ok ([[3; 4]; [5; 6]], repeat [1] 2)
  /\
  exists att,
    MatchingAttention_init th0 "a" 2 1 None "general" = Ok att /\
    MatchingAttention_forward att [[[3; 4]; [5; 6]]] [[1]; [2]] None
    = Ok (map defined [[3; 4]; [5; 6]], repeat [Some 1] 2).
Proof.
  destruct (attention_single_entry [[3; 4]; [5; 6]] 2 2 eq_refl
              (le_S 1 1 (le_n 1))) as [H1 H2].
  split; [apply H1|].
  eexists. split; [reflexivity|].
  apply (H2 th0 "a"%string 1%nat None "general"%string _ [[1]; [2]] eq_refl).
  - right; left; reflexivity.
  - reflexivity.
Defined.

(** X5.  The pooled vector is a convex combination of the memory: each of
    its coordinates lies between any bounds that hold for that coordinate
    of every memory entry of the batch item.  For [SimpleAttention] and for
    every variant of [MatchingAttention]; for the masked-general variant
    when the largest masked score of each row stands at a position that the
    mask keeps, without which its weights can be undefined. *)
Theorem attention_pool_within_bounds (M : list (list vec)) (T B D : nat) :
  has_shape3 T B D M = true ->
  (1 <= T)%nat -> (1 <= B)%nat ->
  (forall th name,
     exists pool alpha,
       SimpleAttention_forward (SimpleAttention_init th name D) M = Ok (pool, alpha) /\
       forall b d lo hi, (b < B)%nat -> (d < D)%nat ->
         (forall t, (t < T)%nat -> lo <= nth d (nth b (nth t M []) []) 0 <= hi) ->
         lo <= nth d (nth b pool []) 0 <= hi)
  /\
  (forall th name cand adim ty att x mask,
     MatchingAttention_init th name D cand adim ty = Ok att ->
     known_att_type ty ->
     has_shape2 B cand x = true ->
     (ty = "general2"%string ->
      has_shape2 B T (effective_mask M mask) = true /\
      Forall valid_mask_row (effective_mask M mask) /\
      (forall b, (b < B)%nat ->
         peak_valid (nth b (general2_scores att M x) [])
                    (nth b (effective_mask M mask) []))) ->
     exists pool alpha,
       MatchingAttention_forward att M x mask = Ok (map defined pool, alpha) /\
       forall b d lo hi, (b < B)%nat -> (d < D)%nat ->
         (forall t, (t < T)%nat -> lo <= nth d (nth b (nth t M []) []) 0 <= hi) ->
         lo <= nth d (nth b pool []) 0 <= hi).
Proof.
  intros HM HT HB.
  assert (HlM : length M = T) by (apply has_shape3_true in HM; tauto).
  assert (Hs2 : size2 M = D) by (apply (has_shape3_size2 T B D M HM HT HB)).
  assert (Hbound : forall alpha : list vec,
             length alpha = B -> Forall (row_ok T) alpha ->
             forall b d lo hi, (b < B)%nat -> (d < D)%nat ->
               (forall t, (t < T)%nat -> lo <= nth d (nth b (nth t M []) []) 0 <= hi) ->
               lo <= nth d (nth b (attn_pool alpha M) []) 0 <= hi).
  { intros alpha Hla Hrows b d lo hi Hb Hd Hin.
    rewrite attn_pool_entry by lia.
    rewrite Forall_forall in Hrows.
    destruct (Hrows (nth b alpha []) ltac:(apply nth_In; lia)) as [Hl [Hnn Hsum]].
    pose proof (dot_bounds lo hi (nth b alpha []) (column (batch_row M b) d)) as Hd'.
    rewrite column_length, batch_row_length in Hd'.
    specialize (Hd' ltac:(lia) Hnn).
    rewrite Hsum in Hd'. rewrite !Rmult_1_r in Hd'. apply Hd'.
    intros t Ht. rewrite column_entry. apply Hin. lia. }
  split.
  - intros th name.
    destruct (SimpleAttention_forward_ok th name M T B D HM HT)
      as [pool [alpha [Hf [Hla Hrows]]]].
    exists pool, alpha. split; [exact Hf|].
    unfold SimpleAttention_forward in Hf.
    destruct (mapM _ M) as [scale|e]; cbn [bind] in Hf; [|discriminate].
    injection Hf as Hp Ha. rewrite Ha in Hp. subst pool.
    apply Hbound; [exact Hla|exact Hrows].
  - intros th name cand adim ty att x mask Hinit Hk Hx Hmask.
    destruct (MatchingAttention_forward_ok th name D cand adim ty att M x mask T B
                Hinit Hk HM Hx HT Hmask) as [alpha [Hf [Hla [Hrows _]]]].
    exists (attn_pool alpha M), (map defined alpha).
    split; [rewrite Hf, fattn_pool_defined; reflexivity|].
    apply Hbound; [exact Hla|exact Hrows].
Qed.

Lemma attention_pool_within_bounds_witness :
  (exists pool alpha,
     SimpleAttention_forward (SimpleAttention_init th0 "sa" 1) [[[1]]; [[2]]]
     = Ok (pool, alpha) /\
     forall b d lo hi, (b < 1)%nat -> (d < 1)%nat ->
       (forall t, (t < 2)%nat ->
                  lo <= nth d (nth b (nth t [[[1]]; [[2]]] []) []) 0 <= hi) ->
       lo <= nth d (nth b pool []) 0 <= hi)
  /\
  (exists att,
     MatchingAttention_init th0 "att" 1 1 None "general2" = Ok att /\
     exists pool alpha,
       MatchingAttention_forward att [[[1]]; [[2]]] [[3]] (Some [[1; 0]])
       = Ok (map defined pool, alpha) /\
       forall b d lo hi, (b < 1)%nat -> (d < 1)%nat ->
         (forall t, (t < 2)%nat ->
                    lo <= nth d (nth b (nth t [[[1]]; [[2]]] []) []) 0 <= hi) ->
         lo <= nth d (nth b pool []) 0 <= hi).
Proof.
  destruct (attention_pool_within_bounds [[[1]]; [[2]]] 2 1 1 eq_refl
              (le_S 1 1 (le_n 1)) (le_n 1)) as [H1 H2].
  split.
  - apply H1.
  - eexists. split; [reflexivity|].
    apply (H2 th0 "att"%string 1%nat None "general2"%string _ [[3]] (Some [[1; 0]])
              eq_refl).
    + right; right; left; reflexivity.
    + reflexivity.
    + intros _. split; [reflexivity|].
      split.
      { constructor; [|constructor]. split.
        - constructor; [lra|]. constructor; [lra|constructor].
        - left. lra. }
      intros b Hb. destruct b as [|b]; [|lia].
      exists 0%nat. split; [simpl; lia|]. split; [simpl; lra|].
      unfold general2_scores, Rmax_list, imap.
      cbn [transform nn_Linear map seq length combine fst snd batch_row nth
           Linear_out out_features weight bias matrix vector th0 dot vmul map2
           Rsum fold_right hd effective_mask].
      unfold Rmax. repeat destruct (Rle_dec _ _); lra.
Defined.

(** ** The masked variant *)

Lemma general2_forward_formula (th : params) (name : string) (mem cand : nat)
    (adim : option nat) (att : MatchingAttention)
    (M : list (list vec)) (x : list vec) (mask : option (list vec)) (T B : nat) :
  MatchingAttention_init th name mem cand adim "general2" = Ok att ->
  has_shape3 T B mem M = true ->
  has_shape2 B cand x = true ->
  (1 <= T)%nat ->
  has_shape2 B T (effective_mask M mask) = true ->
  MatchingAttention_forward att M x mask
  = let s := imap (fun b xb => map (fun m => dot xb m) (batch_row M b))
                  (map (Linear_out (nn_Linear th (name ++ ".transform")%string
                                              cand mem true)) x) in
    let alpha := map2 general2_row s (effective_mask M mask) in
    Ok (fattn_pool alpha M, alpha).
Proof.
  intros Hinit HM Hx HT Hms.
  assert (Hk : known_att_type "general2") by (right; right; left; reflexivity).
  destruct (MatchingAttention_init_inv th name mem cand adim _ att Hinit Hk)
    as [Hty [_ [_ [Hgen2 _]]]].
  assert (HlM : length M = T) by (apply has_shape3_true in HM; tauto).
  assert (Hlx : length x = B) by (apply has_shape2_true in Hx; tauto).
  assert (Hxr : forall r, In r x -> length r = cand).
  { apply has_shape2_true in Hx. destruct Hx as [_ Hf].
    rewrite Forall_forall in Hf. exact Hf. }
  unfold MatchingAttention_forward. rewrite Hty. simpl String.eqb.
  rewrite (Hgen2 eq_refl). cbn [getattr]. cbn [bind].
  rewrite (mapM_map _ (Linear_out (nn_Linear th (name ++ ".transform")%string cand mem true)))
    by (intros r Hr; apply Linear_forward_ok; simpl; auto).
  cbn [bind].
  rewrite (bmm_scores_ok T B mem M); [|exact HM| |exact HT].
  2:{ apply has_shape2_true. split; [rewrite length_map; exact Hlx|].
      apply Forall_forall. intros r Hr. apply in_map_iff in Hr.
      destruct Hr as [r0 [<- _]]. apply Linear_out_length. }
  cbn [bind].
  rewrite imap_length, length_map, Hlx, HlM.
  rewrite (broadcast_mask_id B T _ Hms), check_true by exact Hms.
  reflexivity.
Qed.

Lemma general2_row_ones (sc : vec) (T : nat) :
  length sc = T -> (1 <= T)%nat ->
  general2_row sc (ones T) = defined (softmax sc).
Proof.
  intros Hl HT. unfold general2_row.
  rewrite (vmul_ones_r sc T Hl).
  rewrite (vmul_ones_r (softmax sc) T) by (rewrite softmax_length; exact Hl).
  rewrite softmax_sum by (intros E; subst sc; simpl in Hl; lia).
  unfold defined. apply map_ext. intros a. unfold fdiv.
  destruct (Req_dec_T 1 0) as [E|_]; [lra|]. f_equal. field.
Qed.

Lemma map2_repeat_r {A B C : Type} (f : A -> B -> C) (a : list A) (c : B) (n : nat) :
  length a = n -> map2 f a (repeat c n) = map (fun x => f x c) a.
Proof.
  revert n; induction a as [|x a IH]; intros [|n] Hl; simpl in Hl;
    try discriminate; [reflexivity|].
  unfold map2 in *. simpl. rewrite (IH n) by lia. reflexivity.
Qed.

Lemma batch_row_nth (M : list (list vec)) (b t : nat) :
  nth t (batch_row M b) [] = nth b (nth t M []) [].
Proof.
  unfold batch_row.
  destruct (Nat.lt_ge_cases t (length M)) as [Hlt|Hge].
  - rewrite (nth_indep _ [] (nth b (@nil vec) [])) by (rewrite length_map; exact Hlt).
    rewrite (map_nth (fun Mt : list vec => nth b Mt [])). reflexivity.
  - rewrite nth_overflow by (rewrite length_map; exact Hge).
    rewrite (nth_overflow M) by exact Hge. destruct b; reflexivity.
Qed.

Lemma general2_row_agree (sc sc' mk : vec) :
  vmul sc mk = vmul sc' mk -> general2_row sc mk = general2_row sc' mk.
Proof. intros H. unfold general2_row. rewrite H. reflexivity. Qed.

(** At a position that the mask removes, the weight of the masked variant
    is 0, or undefined when the divisor of the row is 0. *)
Lemma general2_row_masked_entry (sc mk : vec) (t : nat) :
  nth t mk 0 = 0 ->
  nth t (general2_row sc mk) None = Some 0 \/ nth t (general2_row sc mk) None = None.
Proof.
  intros E. unfold general2_row. cbv zeta.
  set (am := vmul (softmax (vmul sc mk)) mk).
  destruct (Nat.lt_ge_cases t (length am)) as [Hlt|Hge].
  - rewrite (nth_indep _ None (fdiv 0 (Rsum am))) by (rewrite length_map; exact Hlt).
    rewrite (map_nth (fun a => fdiv a (Rsum am))).
    unfold am at 1 3. rewrite vmul_nth, E. unfold fdiv.
    destruct (Req_dec_T (Rsum am) 0) as [Z|Z]; [right; reflexivity|].
    left. f_equal. unfold Rdiv. ring.
  - right. apply nth_overflow. rewrite length_map. exact Hge.
Qed.

(** Sums of products agree when the memories agree wherever the weight is
    neither 0 nor undefined. *)
Lemma fdot_agree (a : list fval) (m m' : vec) :
  length m = length m' ->
  (forall t, nth t a None = Some 0 \/ nth t a None = None
             \/ nth t m 0 = nth t m' 0) ->
  fdot a m = fdot a m'.
Proof.
  revert m m'; induction a as [|x a IH]; intros [|y m] [|y' m'] Hl H;
    simpl in Hl; try discriminate; try reflexivity.
  cbn [fdot].
  rewrite (IH m m') by (try lia; intros t; apply (H (S t))).
  destruct (H 0%nat) as [E|[E|E]]; simpl in E.
  - subst x. destruct (fdot a m'); [|reflexivity]. f_equal. ring.
  - subst x. reflexivity.
  - subst y'. reflexivity.
Qed.

(** X6.  Called without a mask, the masked variant is the plain softmax
    attention over the scores of the transformed query: the all-ones mask
    it substitutes changes neither scores nor weights. *)
Theorem general2_unmasked_is_softmax (th : params) (name : string) (mem cand : nat)
    (adim : option nat) (att : MatchingAttention)
    (M : list (list vec)) (x : list vec) (T B : nat) :
  MatchingAttention_init th name mem cand adim "general2" = Ok att ->
  has_shape3 T B mem M = true ->
  has_shape2 B cand x = true ->
  (1 <= T)%nat -> (1 <= B)%nat ->
  MatchingAttention_forward att M x None
  = let s := imap (fun b xb => map (fun m => dot xb m) (batch_row M b))
                  (map (Linear_out (nn_Linear th (name ++ ".transform")%string
                                              cand mem true)) x) in
    Ok (map defined (attn_pool (map softmax s) M), map defined (map softmax s)).
Proof.
  intros Hinit HM Hx HT HB.
  destruct (effective_mask_shape T B mem M HM HT) as [Hms _].
  rewrite (general2_forward_formula th name mem cand adim att M x None T B
             Hinit HM Hx HT Hms).
  cbv zeta.
  set (s := imap _ (map _ x)).
  assert (HlM : length M = T) by (apply has_shape3_true in HM; tauto).
  assert (Hlx : length x = B) by (apply has_shape2_true in Hx; tauto).
  assert (Hls : length s = B) by (unfold s; rewrite imap_length, length_map; exact Hlx).
  assert (Hsr : Forall (fun r => length r = T) s) by (apply scores_rows; exact HlM).
  assert (Ha : map2 general2_row s (effective_mask M None)
               = map defined (map softmax s)).
  { unfold effective_mask.
    rewrite (has_shape3_size1 T B mem M HM HT), HlM.
    rewrite (map2_repeat_r general2_row s (ones T) B Hls).
    rewrite map_map. apply map_ext_in. intros sc Hsc.
    rewrite Forall_forall in Hsr.
    apply general2_row_ones; [apply Hsr; exact Hsc|exact HT]. }
  rewrite Ha, fattn_pool_defined. reflexivity.
Qed.

Lemma general2_unmasked_is_softmax_witness :
  exists att,
    MatchingAttention_init th0 "a" 1 1 None "general2" = Ok att /\
    MatchingAttention_forward att [[[1]]; [[2]]] [[3]] None
    = let s := imap (fun b xb => map (fun m => dot xb m) (batch_row [[[1]]; [[2]]] b))
                    (map (Linear_out (nn_Linear th0 ("a" ++ ".transform")%string 1 1 true))
                         [[3]]) in
      Ok (map defined (attn_pool (map softmax s) [[[1]]; [[2]]]),
          map defined (map softmax s)).
Proof.
  eexists. split; [reflexivity|].
  apply (general2_unmasked_is_softmax th0 "a" 1 1 None _ [[[1]]; [[2]]] [[3]] 2 1).
  - reflexivity.
  - reflexivity.
  - reflexivity.
  - lia.
  - lia.
Defined.

(** X7.  Under a mask the masked variant reads the memory at the valid
    positions only: two memories that agree wherever the mask is not 0 give
    the same weights and the same pooled vectors. *)
Theorem general2_ignores_masked_memory (th : params) (name : string) (mem cand : nat)
    (adim : option nat) (att : MatchingAttention)
    (M M' : list (list vec)) (x mask : list vec) (T B : nat) :
  MatchingAttention_init th name mem cand adim "general2" = Ok att ->
  has_shape3 T B mem M = true ->
  has_shape3 T B mem M' = true ->
  has_shape2 B cand x = true ->
  (1 <= T)%nat -> (1 <= B)%nat ->
  has_shape2 B T mask = true ->
  Forall valid_mask_row mask ->
  (forall t b, (t < T)%nat -> (b < B)%nat ->
     nth t (nth b mask []) 0 <> 0 ->
     nth b (nth t M []) [] = nth b (nth t M' []) []) ->
  exists r,
    MatchingAttention_forward att M x (Some mask) = Ok r /\
    MatchingAttention_forward att M' x (Some mask) = Ok r.
Proof.
  intros Hinit HM HM' Hx HT HB Hms Hmv Hagree.
  rewrite (general2_forward_formula th name mem cand adim att M x (Some mask) T B
             Hinit HM Hx HT Hms).
  rewrite (general2_forward_formula th name mem cand adim att M' x (Some mask) T B
             Hinit HM' Hx HT Hms).
  cbv zeta. cbn [effective_mask].
  set (x_ := map _ x).
  set (s := imap _ x_). set (s' := imap _ x_).
  assert (HlM : length M = T) by (apply has_shape3_true in HM; tauto).
  assert (HlM' : length M' = T) by (apply has_shape3_true in HM'; tauto).
  assert (Hlx : length x_ = B).
  { unfold x_. rewrite length_map. apply has_shape2_true in Hx; tauto. }
  assert (Hls : length s = B) by (unfold s; rewrite imap_length; exact Hlx).
  assert (Hls' : length s' = B) by (unfold s'; rewrite imap_length; exact Hlx).
  assert (Hsr : Forall (fun r => length r = T) s) by (apply scores_rows; exact HlM).
  assert (Hsr' : Forall (fun r => length r = T) s') by (apply scores_rows; exact HlM').
  assert (Hlm : length mask = B) by (apply has_shape2_true in Hms; tauto).
  assert (Hrow : map2 general2_row s mask = map2 general2_row s' mask).
  { apply (map2_ext_nth general2_row s s' mask [] []); [lia|].
    intros b Hb _. rewrite Hls in Hb.
    apply general2_row_agree.
    unfold s, s'.
    rewrite (imap_nth _ x_ b [] []) by lia.
    rewrite (imap_nth _ x_ b [] []) by lia.
    unfold vmul.
    apply (nth_ext _ _ 0 0).
    { rewrite !map2_length, !length_map, !batch_row_length. lia. }
    intros t Ht. rewrite map2_length, length_map, batch_row_length, HlM in Ht.
    rewrite (map2_nth Rmult _ _ t 0 0 0)
      by (rewrite ?length_map, ?batch_row_length; lia).
    rewrite (map2_nth Rmult _ _ t 0 0 0)
      by (rewrite ?length_map, ?batch_row_length; lia).
    destruct (Req_dec_T (nth t (nth b mask []) 0) 0) as [E|E];
      [rewrite E; ring|].
    f_equal.
    rewrite (nth_indep _ 0 (dot (nth b x_ []) []))
      by (rewrite length_map, batch_row_length; lia).
    rewrite (map_nth (fun m => dot (nth b x_ []) m)).
    rewrite (nth_indep (map _ (batch_row M' b)) 0 (dot (nth b x_ []) []))
      by (rewrite length_map, batch_row_length; lia).
    rewrite (map_nth (fun m => dot (nth b x_ []) m)).
    rewrite !batch_row_nth.
    rewrite (Hagree t b ltac:(lia) Hb E). reflexivity. }
  rewrite <- Hrow.
  set (A := map2 general2_row s mask).
  assert (HlA : length A = B) by (unfold A; rewrite map2_length; lia).
  assert (Hpool : fattn_pool A M = fattn_pool A M').
  { unfold fattn_pool.
    rewrite (has_shape3_size2 T B mem M HM HT HB).
    rewrite (has_shape3_size2 T B mem M' HM' HT HB).
    apply (nth_ext _ _ [] []); [rewrite !imap_length; reflexivity|].
    intros b Hb. rewrite imap_length, HlA in Hb.
    rewrite (imap_nth _ A b [] []) by lia.
    rewrite (imap_nth _ A b [] []) by lia.
    apply map_ext. intros d.
    apply fdot_agree; [rewrite !column_length, !batch_row_length; lia|].
    intros t. rewrite !column_entry.
    destruct (Nat.lt_ge_cases t T) as [Hlt|Hge].
    - destruct (Req_dec_T (nth t (nth b mask []) 0) 0) as [E|E].
      + unfold A. rewrite (map2_nth general2_row s mask b [] [] []) by lia.
        destruct (general2_row_masked_entry (nth b s []) (nth b mask []) t E)
          as [H0|H0]; [left|right; left]; exact H0.
      + right; right. rewrite (Hagree t b Hlt Hb E). reflexivity.
    - right; right. rewrite (nth_overflow M) by lia.
      rewrite (nth_overflow M') by lia. reflexivity. }
  rewrite Hpool. eexists. split; reflexivity.
Qed.

Lemma general2_ignores_masked_memory_witness :
  exists att,
    MatchingAttention_init th0 "a" 1 1 None "general2" = Ok att /\
    exists r,
      MatchingAttention_forward att [[[1]]; [[2]]] [[3]] (Some [[1; 0]]) = Ok r /\
      MatchingAttention_forward att [[[1]]; [[7]]] [[3]] (Some [[1; 0]]) = Ok r.
Proof.
  eexists. split; [reflexivity|].
  apply (general2_ignores_masked_memory th0 "a" 1 1 None _
           [[[1]]; [[2]]] [[[1]]; [[7]]] [[3]] [[1; 0]] 2 1).
  - reflexivity.
  - reflexivity.
  - reflexivity.
  - reflexivity.
  - lia.
  - lia.
  - reflexivity.
  - constructor; [|constructor]. split.
    + constructor; [lra|]. constructor; [lra|constructor].
    + left. lra.
  - intros t b Ht Hb Hne.
    destruct b as [|b]; [|lia].
    destruct t as [|[|t]]; [reflexivity| |lia].
    simpl in Hne. lra.
Defined.

(** ** Merging candidate states *)

Lemma blend_1 (o n : vec) : length o = length n -> blend 1 o n = n.
Proof.
  unfold blend, map2. revert n; induction o as [|x o IH]; intros [|y n] Hl;
    simpl in *; try discriminate; [reflexivity|].
  rewrite IH by lia. f_equal. ring.
Qed.

Lemma one_hot_self (party k : nat) : (k < party)%nat -> nth k (one_hot party k) 0 = 1.
Proof.
  intros Hk. unfold one_hot, zeros.
  rewrite app_nth2 by (rewrite repeat_length; lia).
  rewrite repeat_length, Nat.sub_diag. reflexivity.
Qed.

(** X8.  On one-hot speaker masks the merge
    [ql_ * (1 - qmask_) + qs_ * qmask_] selects and never mixes: the row of
    the active speaker is the candidate row, every other row is the old
    one. *)
Theorem merge_one_hot_selects (ql qs : list (list vec)) (qmask : list vec)
    (B P D : nat) :
  (1 <= B)%nat -> (1 <= P)%nat ->
  has_shape3 B P D ql = true ->
  has_shape3 B P D qs = true ->
  length qmask = B ->
  one_hot_rows P qmask ->
  exists q_,
    merge ql qs qmask = Ok q_ /\
    has_shape3 B P D q_ = true /\
    forall b k p, (b < B)%nat -> (k < P)%nat -> (p < P)%nat ->
      nth b qmask [] = one_hot P k ->
      nth p (nth b q_ []) []
      = if (p =? k)%nat then nth p (nth b qs []) [] else nth p (nth b ql []) [].
Proof.
  intros HB HP Hql Hqs Hlq Hoh.
  assert (Hqm : has_shape2 B P qmask = true).
  { apply (one_hot_rows_shape P B qmask); assumption. }
  exists (merge_rows ql qs qmask).
  split; [apply (merge_ok ql qs qmask B P D); assumption|].
  split; [apply (merge_rows_shape ql qs qmask B P D); assumption|].
  intros b k p Hb Hk Hp Hrow.
  rewrite (merge_rows_nth ql qs qmask B P D b p Hql Hqs Hqm Hb Hp).
  assert (Hlen : length (nth p (nth b ql []) []) = length (nth p (nth b qs []) [])).
  { rewrite (has_shape2_nth P D _ p (has_shape3_nth B P D ql b Hql Hb) Hp).
    rewrite (has_shape2_nth P D _ p (has_shape3_nth B P D qs b Hqs Hb) Hp).
    reflexivity. }
  rewrite Hrow.
  destruct (Nat.eqb_spec p k) as [->|Hne].
  - rewrite one_hot_self by exact Hk. apply blend_1. exact Hlen.
  - rewrite one_hot_other by exact Hne. apply blend_0. exact Hlen.
Qed.

Lemma merge_one_hot_selects_witness :
  exists q_,
    merge [[[1]; [2]]] [[[8]; [9]]] [[0; 1]] = Ok q_ /\
    has_shape3 1 2 1 q_ = true /\
    forall b k p, (b < 1)%nat -> (k < 2)%nat -> (p < 2)%nat ->
      nth b [[0; 1]] [] = one_hot 2 k ->
      nth p (nth b q_ []) []
      = if (p =? k)%nat then nth p (nth b [[[8]; [9]]] []) []
        else nth p (nth b [[[1]; [2]]] []) [].
Proof.
  apply (merge_one_hot_selects [[[1]; [2]]] [[[8]; [9]]] [[0; 1]] 1 2 1).
  - lia.
  - lia.
  - reflexivity.
  - reflexivity.
  - reflexivity.
  - constructor; [|constructor]. exists 1%nat. split; [lia|reflexivity].
Defined.

(** ** The sequence runner at its edges *)

(** X9.  An empty dialogue is not handled: with no timestep to pair, the
    loop body never runs and [torch.stack] of the empty list raises. *)
Theorem runner_empty_sequence_raises (rnn : DialogueRNN) (noise : nat -> cell_noise)
    (U qmask : list (list vec)) :
  U = [] \/ qmask = [] ->
  DialogueRNN_forward rnn noise U qmask = Raise RuntimeError.
Proof.
  intros [-> | ->]; unfold DialogueRNN_forward.
  - reflexivity.
  - rewrite combine_nil. reflexivity.
Qed.

Lemma runner_empty_sequence_raises_witness :
  exists rnn,
    DialogueRNN_init th0 "r" 1 1 1 1 1 (Some "general"%string) None 1 = Ok rnn /\
    DialogueRNN_forward rnn (fun _ => eval_noise) [[[1]]] [] = Raise RuntimeError.
Proof.
  eexists. split; [reflexivity|].
  apply (runner_empty_sequence_raises _ (fun _ => eval_noise) [[[1]]] []).
  right. reflexivity.
Defined.

Lemma combine_firstn_min {A B : Type} (a : list A) (b : list B) :
  combine a b
  = combine (firstn (Nat.min (length a) (length b)) a)
            (firstn (Nat.min (length a) (length b)) b).
Proof.
  revert b; induction a as [|x a IH]; intros [|y b]; simpl; try reflexivity.
  f_equal. apply IH.
Qed.

(** X10.  The runner pairs utterances with speaker masks by [zip] and never
    compares the two sequence lengths: the timesteps that only the longer
    of the two has are ignored. *)
Theorem runner_truncates_to_shorter (rnn : DialogueRNN) (noise : nat -> cell_noise)
    (U qmask : list (list vec)) :
  DialogueRNN_forward rnn noise U qmask
  = DialogueRNN_forward rnn noise
      (firstn (Nat.min (length U) (length qmask)) U)
      (firstn (Nat.min (length U) (length qmask)) qmask).
Proof.
  unfold DialogueRNN_forward.
  rewrite <- (combine_firstn_min U qmask). reflexivity.
Qed.

Lemma simple_not_known : ~ known_att_type "simple".
Proof. intros [H | [H | [H | H]]]; discriminate. Qed.

(** X11.  The default attention name ['simple'] is accepted by every
    constructor and has no branch in the attention module: a runner built
    with the default [context_attention], and a model built with its default
    arguments, are constructed without error and raise on every input. *)
Theorem default_configuration_cannot_run (th : params) (name : string)
    (D_m D_g D_p D_e D_y party n_classes D_a : nat) :
  (exists rnn,
     DialogueRNN_init th name D_m D_g D_p D_e party (Some "simple"%string) None D_a
     = Ok rnn /\
     forall noise U qmask, is_ok (DialogueRNN_forward rnn noise U qmask) = false)
  /\
  (exists m,
     Model_init th D_m D_g D_p D_e D_y party n_classes
       (Some "simple"%string) (Some "simple"%string) D_a = Ok m /\
     forall nz U qmask umask att2,
       is_ok (Model_forward m nz U qmask umask att2) = false).
Proof.
  split.
  - assert (Hi : exists rnn,
               DialogueRNN_init th name D_m D_g D_p D_e party
                 (Some "simple"%string) None D_a = Ok rnn).
    { unfold DialogueRNN_init, DialogueRNNCell_init.
      rewrite (MatchingAttention_init_unknown _ _ _ _ _ _ simple_not_known).
      cbn [bind]. eexists. reflexivity. }
    destruct Hi as [rnn Hrnn]. exists rnn. split; [exact Hrnn|].
    intros noise U qmask.
    apply (DialogueRNN_forward_raises th name D_m D_g D_p D_e party
             (Some "simple"%string) None D_a rnn noise U qmask Hrnn).
    left. intros s Hs. injection Hs as <-. exact simple_not_known.
  - assert (Hi : exists m,
               Model_init th D_m D_g D_p D_e D_y party n_classes
                 (Some "simple"%string) (Some "simple"%string) D_a = Ok m).
    { unfold Model_init, DialogueRNN_init, DialogueRNNCell_init.
      rewrite !(MatchingAttention_init_unknown _ _ _ _ _ _ simple_not_known).
      cbn [bind]. eexists. reflexivity. }
    destruct Hi as [m Hm]. exists m. split; [exact Hm|].
    intros nz U qmask umask att2.
    apply (Model_forward_simple_raises th D_m D_g D_p D_e D_y party n_classes
             (Some "simple"%string) D_a m nz U qmask umask att2 Hm).
Qed.

(** ** The runner and the attention parameters *)

Lemma bind_ext_ok {A B : Type} (m : exc A) (k1 k2 : A -> exc B) :
  (forall a, m = Ok a -> k1 a = k2 a) -> bind m k1 = bind m k2.
Proof. intros H. destruct m; simpl; [apply H; reflexivity|reflexivity]. Qed.

Lemma mapM_post {A B : Type} (f : A -> exc B) (P : B -> Prop) (l : list A) (ys : list B) :
  (forall x y, In x l -> f x = Ok y -> P y) -> mapM f l = Ok ys -> Forall P ys.
Proof.
  revert ys; induction l as [|a l IH]; intros ys Hf H; simpl in H.
  - injection H as <-. constructor.
  - destruct (f a) as [b|] eqn:E; cbn [bind] in H; [|discriminate].
    destruct (mapM f l) as [bs|] eqn:E2; cbn [bind] in H; [|discriminate].
    injection H as <-. constructor; [apply (Hf a b); [left; reflexivity|exact E]|].
    apply IH; [intros x y Hx; apply Hf; right; exact Hx|reflexivity].
Qed.

Lemma mapM_ext_in {A B : Type} (f g : A -> exc B) (l : list A) :
  (forall x, In x l -> f x = g x) -> mapM f l = mapM g l.
Proof.
  induction l as [|a l IH]; intros H; simpl; [reflexivity|].
  rewrite (H a) by (left; reflexivity).
  rewrite IH by (intros x Hx; apply H; right; exact Hx). reflexivity.
Qed.

Lemma cat_cols_inv (a b c : list vec) : cat_cols a b = Ok c -> length c = length a.
Proof.
  unfold cat_cols. destruct (Nat.eqb_spec (length a) (length b)) as [E|E];
    cbn [check bind]; [|discriminate].
  intros H; injection H as <-. rewrite map2_length. lia.
Qed.

Lemma GRUCell_forward_inv (c : GRUCell) (x h y : list vec) :
  GRUCell_forward c x h = Ok y -> has_shape2 (length x) (hidden_size c) y = true.
Proof.
  unfold GRUCell_forward. destruct (Nat.eqb_spec (length x) (length h)) as [E|E];
    cbn [check bind]; [|discriminate].
  intros H. apply has_shape2_true. split.
  - rewrite (mapM_length _ _ _ H), length_combine. lia.
  - apply (mapM_post (fun p => GRUCell_step c (fst p) (snd p))
                     (fun r => length r = hidden_size c) (combine x h) y);
      [|exact H].
    intros p r _ Hr. unfold GRUCell_step in Hr.
    destruct (check (length (fst p) =? input_size c)%nat); cbn [bind] in Hr;
      [|discriminate].
    destruct (check (length (snd p) =? hidden_size c)%nat); cbn [bind] in Hr;
      [|discriminate].
    injection Hr as <-. apply GRUCell_out_length.
Qed.

Lemma merge_inv (ql qs : list (list vec)) (qmask : list vec) (q : list (list vec)) :
  merge ql qs qmask = Ok q ->
  has_shape3 (length ql) (size1 ql) (size2 ql) q = true.
Proof.
  unfold merge.
  destruct (has_shape3 _ _ _ ql && has_shape3 _ _ _ qs && has_shape2 _ _ qmask) eqn:E;
    cbn [check bind]; [|discriminate].
  intros H; injection H as <-.
  apply andb_true_iff in E. destruct E as [E E3].
  apply andb_true_iff in E. destruct E as [E1 E2].
  apply (merge_rows_shape ql qs qmask _ _ _ E1 E2 E3).
Qed.

Lemma py_index_lt (n : nat) (i : Z) (k : nat) : py_index n i = Ok k -> (k < n)%nat.
Proof.
  unfold py_index.
  destruct (Z.leb_spec 0 i) as [H0|H0]; cbn [andb].
  - destruct (Z.ltb_spec i (Z.of_nat n)) as [H1|H1]; cbn [andb].
    + intros Hk; injection Hk as <-. lia.
    + destruct (Z.ltb_spec i 0) as [H2|H2]; cbn [andb]; [lia|discriminate].
  - destruct (Z.ltb_spec i 0) as [H2|H2]; cbn [andb]; [|discriminate].
    destruct (Z.leb_spec (- Z.of_nat n) i) as [H3|H3]; [|discriminate].
    intros Hk; injection Hk as <-. lia.
Qed.

Lemma party_pool_single (th : params) (name : string) (D_p D_m : nat)
    (adim : option nat) (ty : string) (att : MatchingAttention)
    (q_ : list (list vec)) (U : list vec) (B party : nat) (i : Z) :
  MatchingAttention_init th name D_p D_m adim ty = Ok att ->
  known_att_type ty ->
  has_shape3 B party D_p q_ = true ->
  has_shape2 B D_m U = true ->
  (1 <= B)%nat ->
  party_pool (Some att) D_p [q_] U i
  = (k <- py_index party i ;; Ok (map (fun ps : list vec => nth k ps []) q_)).
Proof.
  intros Hinit Hk Hq HU HB.
  unfold party_pool. cbn [getattr bind].
  assert (Hs2 : size2 [q_] = party).
  { unfold size2. simpl. apply (has_shape3_size1 B party D_p q_ Hq HB). }
  rewrite Hs2.
  destruct (py_index party i) as [k|e] eqn:E; cbn [bind]; [|reflexivity].
  pose proof (py_index_lt party i k E) as Hlt.
  assert (Hsl : has_shape2 B D_p (map (fun ps : list vec => nth k ps []) q_) = true).
  { pose proof (party_slice_shape [q_] B party D_p k 1 eq_refl
                  ltac:(constructor; [exact Hq|constructor]) Hlt) as H3.
    apply has_shape3_true in H3. destruct H3 as [_ H3].
    apply Forall_cons_iff in H3. destruct H3 as [H3 _]. exact H3. }
  cbn [map].
  rewrite (MatchingAttention_single_entry th name D_p D_m adim ty att _ U B
             Hinit Hk Hsl HU HB).
  cbn [bind fst]. rewrite mapM_finite_defined. cbn [bind].
  assert (HlU : length U = B) by (apply has_shape2_true in HU; tauto).
  rewrite HlU, Hsl. reflexivity.
Qed.

Section AttentionFree.

Variables (th th' : params) (name name' : string).
Variables (D_m D_g D_p D_e party : nat).
Variables (ca ca' pa pa' : option string) (D_a D_a' : nat).
Variables (cell cell' : DialogueRNNCell).
Hypothesis Hinit :
  DialogueRNNCell_init th name D_m D_g D_p D_e party ca pa D_a = Ok cell.
Hypothesis Hinit' :
  DialogueRNNCell_init th' name' D_m D_g D_p D_e party ca' pa' D_a' = Ok cell'.
Hypothesis Hcfg : valid_config D_m D_g D_p party ca pa.
Hypothesis Hcfg' : valid_config D_m D_g D_p party ca' pa'.
Hypothesis Hmode : is_some pa = is_some pa'.
Hypothesis Hgc : g_cell cell = g_cell cell'.
Hypothesis Hpc : p_cell cell = p_cell cell'.
Hypothesis Hec : e_cell cell = e_cell cell'.

Variable B : nat.
Hypothesis HB : (1 <= B)%nat.
Variables (nz : cell_noise) (U qmask : list vec).
Variables (q0 : list (list vec)) (e0 : estate).
Hypothesis HU : has_shape2 B D_m U = true.
Hypothesis Hqmask : has_shape2 B party qmask = true.
Hypothesis Hq0 : q0 = [] \/ has_shape3 B party D_p q0 = true.

Lemma cell_forward_attention_free :
  DialogueRNNCell_forward cell nz U qmask [] q0 [] e0
  = DialogueRNNCell_forward cell' nz U qmask [] q0 [] e0.
Proof.
  assert (Hparty1 : (1 <= party)%nat).
  { destruct Hcfg as [_ H]. destruct pa as [s|]; [|exact H].
    destruct H as [_ [_ H]]. lia. }
  pose proof (init_q0_shape th name D_m D_g D_p D_e party ca pa D_a cell Hinit
                B HB qmask q0 Hqmask Hq0) as Hq0'.
  destruct (DialogueRNNCell_init_inv _ _ _ _ _ _ _ _ _ _ _ Hinit)
    as [HDm [HDg [HDp [HDe [Hparty [Hpa [Hg [_ [_ [Hatt Hpatt]]]]]]]]]].
  destruct (DialogueRNNCell_init_inv _ _ _ _ _ _ _ _ _ _ _ Hinit')
    as [HDm' [HDg' [HDp' [HDe' [Hparty' [Hpa' [_ [_ [_ [Hatt' Hpatt']]]]]]]]]].
  assert (HlU : length U = B) by (apply has_shape2_true in HU; tauto).
  assert (Hs1q : size1 qmask = party) by (apply (has_shape2_size1 B party qmask Hqmask HB)).
  assert (Hhid : hidden_size (g_cell cell) = D_g) by (rewrite Hg; reflexivity).
  assert (Htr : truthy pa = truthy pa' /\ truthy pa = is_some pa).
  { destruct Hcfg as [_ Hc], Hcfg' as [_ Hc'].
    destruct pa as [s|], pa' as [s'|]; try discriminate; [|split; reflexivity].
    destruct Hc as [Hk _], Hc' as [Hk' _].
    rewrite !known_att_type_truthy by assumption. split; reflexivity. }
  destruct Htr as [Htr Htr2].
  assert (Hiq : init_q0 cell' qmask q0 = init_q0 cell qmask q0).
  { unfold init_q0. rewrite HDp, HDp', Hparty, Hparty'. reflexivity. }
  assert (Hie : init_e0 cell' qmask e0 = init_e0 cell qmask e0).
  { unfold init_e0. rewrite HDe, HDe', Hparty, Hparty', Hpa, Hpa', Htr. reflexivity. }
  unfold DialogueRNNCell_forward. cbv zeta.
  rewrite Hiq, Hie, <- Hgc, <- Hpc, <- Hec.
  set (q0' := init_q0 cell qmask q0) in *.
  set (e0' := init_e0 cell qmask e0) in *.
  rewrite HDg, HDp, Hparty, Hpa, HDg', HDp', Hparty', Hpa', HlU, Hs1q, <- Htr.
  cbn [app].
  apply bind_ext_ok; intros qm_idx Hqm.
  apply bind_ext_ok; intros q0_sel Hq0s.
  apply bind_ext_ok; intros e0_sel He0s.
  apply bind_ext_ok; intros inp Hinp.
  apply bind_ext_ok; intros inp0 Hinp0.
  apply bind_ext_ok; intros g_ Hg_.
  assert (Hgs : has_shape2 B D_g (dropout2 (drop_g nz) g_) = true).
  { apply dropout2_shape.
    pose proof (GRUCell_forward_inv _ _ _ _ Hg_) as H.
    rewrite Hhid, (cat_cols_inv _ _ _ Hinp0), (cat_cols_inv _ _ _ Hinp), HlU in H.
    exact H. }
  destruct Hcfg as [[sc [Hca [Hksc _]]] Hpcfg].
  destruct Hcfg' as [[sc' [Hca' [Hksc' _]]] Hpcfg'].
  rewrite Hca in Hatt. destruct Hatt as [att [Hai Hatt]].
  rewrite Hca' in Hatt'. destruct Hatt' as [att' [Hai' Hatt']].
  rewrite Hatt, Hatt'. cbn [getattr bind].
  rewrite (MatchingAttention_single_entry _ _ _ _ _ _ att _ U B Hai Hksc Hgs HU HB).
  rewrite (MatchingAttention_single_entry _ _ _ _ _ _ att' _ U B Hai' Hksc' Hgs HU HB).
  apply bind_ext_ok; intros gc_alpha _.
  apply bind_ext_ok; intros ugc _.
  apply bind_ext_ok; intros ugc0 _.
  apply bind_ext_ok; intros qs_ _.
  apply bind_ext_ok; intros q_ Hq_.
  assert (Hqs : has_shape3 B party D_p q_ = true).
  { pose proof (merge_inv _ _ _ _ Hq_) as H.
    rewrite (has_shape3_size1 B party D_p q0' Hq0' HB) in H.
    rewrite (has_shape3_size2 B party D_p q0' Hq0' HB Hparty1) in H.
    apply has_shape3_true in Hq0'. destruct Hq0' as [Hl _]. rewrite Hl in H.
    exact H. }
  destruct pa as [s|], pa' as [s'|]; try discriminate Hmode; [|reflexivity].
  destruct Hpcfg as [Hks _], Hpcfg' as [Hks' _].
  destruct Hpatt as [a1 [a2 [Ha1 [Ha2 [Hp1 Hp2]]]]].
  destruct Hpatt' as [a1' [a2' [Ha1' [Ha2' [Hp1' Hp2']]]]].
  rewrite Hp1, Hp2, Hp1', Hp2'.
  assert (HX : forall i,
             party_pool (Some a1) D_p [q_] U i = party_pool (Some a1') D_p [q_] U i /\
             party_pool (Some a2) D_p [q_] U i = party_pool (Some a2') D_p [q_] U i).
  { intros i.
    rewrite (party_pool_single _ _ D_p D_m _ s a1 q_ U B party i Ha1 Hks Hqs HU HB).
    rewrite (party_pool_single _ _ D_p D_m _ s' a1' q_ U B party i Ha1' Hks' Hqs HU HB).
    rewrite (party_pool_single _ _ D_p D_m _ s a2 q_ U B party i Ha2 Hks Hqs HU HB).
    rewrite (party_pool_single _ _ D_p D_m _ s' a2' q_ U B party i Ha2' Hks' Hqs HU HB).
    split; reflexivity. }
  match goal with
  | |- context [mapM ?f (seq 0 party)] =>
      match f with
      | context [a1] =>
          match goal with
          | |- context [mapM ?g (seq 0 party)] =>
              match g with
              | context [a1'] =>
                  assert (HM : mapM f (seq 0 party) = mapM g (seq 0 party))
              end
          end
      end
  end.
  { apply mapM_ext_in. intros p _.
    destruct (HX (1 - Z.of_nat p)%Z) as [-> _].
    destruct (HX (Z.of_nat p)) as [_ ->]. reflexivity. }
  rewrite HM. reflexivity.
Qed.

End AttentionFree.

Section RunnerAttentionFree.

Variables (th th' : params) (name name' : string).
Variables (D_m D_g D_p D_e party : nat).
Variables (ca ca' pa pa' : option string) (D_a D_a' : nat).
Variables (rnn rnn' : DialogueRNN).
Hypothesis Hinit : DialogueRNN_init th name D_m D_g D_p D_e party ca pa D_a = Ok rnn.
Hypothesis Hinit' :
  DialogueRNN_init th' name' D_m D_g D_p D_e party ca' pa' D_a' = Ok rnn'.
Hypothesis Hcfg : valid_config D_m D_g D_p party ca pa.
Hypothesis Hcfg' : valid_config D_m D_g D_p party ca' pa'.
Hypothesis Hmode : is_some pa = is_some pa'.
Hypothesis Hgc : g_cell (dialogue_cell rnn) = g_cell (dialogue_cell rnn').
Hypothesis Hpc : p_cell (dialogue_cell rnn) = p_cell (dialogue_cell rnn').
Hypothesis Hec : e_cell (dialogue_cell rnn) = e_cell (dialogue_cell rnn').
Variable B : nat.
Hypothesis HB : (1 <= B)%nat.
Variable noise : nat -> cell_noise.

Lemma DialogueRNN_loop_attention_free (steps : list (list vec * list vec)) :
  forall (t : nat) (q_ : list (list vec)) (e_ : estate),
    Forall (fun s => has_shape2 B D_m (fst s) = true /\
                     has_shape2 B party (snd s) = true) steps ->
    q_ = [] \/ has_shape3 B party D_p q_ = true ->
    e_state_ok pa B party D_e e_ ->
    DialogueRNN_loop rnn noise t steps q_ e_
    = DialogueRNN_loop rnn' noise t steps q_ e_.
Proof.
  destruct (DialogueRNN_init_inv _ _ _ _ _ _ _ _ _ _ _ Hinit) as [Hcell [Hpa _]].
  destruct (DialogueRNN_init_inv _ _ _ _ _ _ _ _ _ _ _ Hinit') as [Hcell' [Hpa' _]].
  induction steps as [|[u_ qm] steps IH]; intros t q_ e_ Hsteps Hq He; [reflexivity|].
  apply Forall_cons_iff in Hsteps. destruct Hsteps as [[Hu Hqm] Hrest].
  cbn [fst snd] in Hu, Hqm.
  cbn [DialogueRNN_loop].
  rewrite <- (cell_forward_attention_free th th' _ _ D_m D_g D_p D_e party
                ca ca' pa pa' D_a D_a' (dialogue_cell rnn) (dialogue_cell rnn')
                Hcell Hcell' Hcfg Hcfg' Hmode Hgc Hpc Hec B HB
                (noise t) u_ qm q_ e_ Hu Hqm Hq).
  pose proof (cell_forward_post th (name ++ ".dialogue_cell")%string
                D_m D_g D_p D_e party ca pa D_a (dialogue_cell rnn)
                Hcell Hcfg B 0 HB (noise t) u_ qm [] q_ [] e_
                Hu Hqm eq_refl Hq (Forall_nil _) He) as Hpost.
  destruct (DialogueRNNCell_forward (dialogue_cell rnn) (noise t) u_ qm [] q_ [] e_)
    as [[[[[g_ q_'] e_'] e_out] alpha_]|err]; [|contradiction].
  destruct Hpost as [_ [Hq_' [_ [_ Hm]]]].
  cbn [bind]. rewrite Hpa, Hpa'.
  assert (He' : e_state_ok pa B party D_e e_').
  { destruct pa as [sp|].
    - destruct Hm as [e3 [e03 [sel [-> [_ [He3 _]]]]]].
      right. right. exists e3. split; [reflexivity|exact He3].
    - destruct Hm as [e2 [-> [_ Hs]]].
      right. right. exists e2. split; [reflexivity|exact Hs]. }
  rewrite (IH (S t) q_' e_' Hrest (or_intror Hq_') He').
  destruct pa as [s|], pa' as [s'|]; try discriminate Hmode; reflexivity.
Qed.

End RunnerAttentionFree.

(** X12.  No output of the runner depends on the attention modules: the
    histories it hands to the cell are empty at every step, so every
    attention call pools a single entry.  Two runners that share the three
    recurrent cells return the same result on every well-shaped sequence,
    whatever the parameters and the (supported) variants of their
    attention modules. *)
Theorem runner_ignores_attention_parameters (th th' : params) (name name' : string)
    (D_m D_g D_p D_e party : nat) (ca ca' pa pa' : option string) (D_a D_a' : nat)
    (rnn rnn' : DialogueRNN) (B T : nat) (noise : nat -> cell_noise)
    (U qmask : list (list vec)) :
  DialogueRNN_init th name D_m D_g D_p D_e party ca pa D_a = Ok rnn ->
  DialogueRNN_init th' name' D_m D_g D_p D_e party ca' pa' D_a' = Ok rnn' ->
  valid_config D_m D_g D_p party ca pa ->
  valid_config D_m D_g D_p party ca' pa' ->
  is_some pa = is_some pa' ->
  g_cell (dialogue_cell rnn) = g_cell (dialogue_cell rnn') ->
  p_cell (dialogue_cell rnn) = p_cell (dialogue_cell rnn') ->
  e_cell (dialogue_cell rnn) = e_cell (dialogue_cell rnn') ->
  (1 <= B)%nat -> (1 <= T)%nat ->
  has_shape3 T B D_m U = true ->
  has_shape3 T B party qmask = true ->
  exists r,
    DialogueRNN_forward rnn noise U qmask = Ok r /\
    DialogueRNN_forward rnn' noise U qmask = Ok r.
Proof.
  intros Hinit Hinit' Hcfg Hcfg' Hmode Hgc Hpc Hec HB HT HU Hq.
  destruct (DialogueRNN_forward_ok th name D_m D_g D_p D_e party ca pa D_a rnn B T
              noise U qmask Hinit Hcfg HB HT HU Hq) as [e [alpha [Hf _]]].
  exists (e, e, alpha). split; [exact Hf|].
  rewrite <- Hf. unfold DialogueRNN_forward.
  destruct (steps_shape T B D_m party U qmask HU Hq) as [_ Hsteps].
  rewrite (DialogueRNN_loop_attention_free th th' name name' D_m D_g D_p D_e party
             ca ca' pa pa' D_a D_a' rnn rnn' Hinit Hinit' Hcfg Hcfg' Hmode
             Hgc Hpc Hec B HB noise (combine U qmask) 0 [] (E2 [])
             Hsteps (or_introl eq_refl) (or_introl eq_refl)).
  reflexivity.
Qed.

Lemma runner_ignores_attention_parameters_witness :
  exists rnn rnn',
    DialogueRNN_init
      {| matrix := fun s =>
           if (s =? "r.dialogue_cell.attention.transform.weight")%string
           then [[5]] else [];
         vector := fun _ => [] |}
      "r" 1 1 1 1 1 (Some "general"%string) None 1 = Ok rnn /\
    DialogueRNN_init th0 "r" 1 1 1 1 1 (Some "dot"%string) None 1 = Ok rnn' /\
    exists r,
      DialogueRNN_forward rnn (fun _ => eval_noise) [[[1]]; [[2]]] [[[1]]; [[1]]] = Ok r /\
      DialogueRNN_forward rnn' (fun _ => eval_noise) [[[1]]; [[2]]] [[[1]]; [[1]]] = Ok r.
Proof.
  eexists. eexists. split; [reflexivity|]. split; [reflexivity|].
  apply (runner_ignores_attention_parameters _ th0 "r"%string "r"%string 1 1 1 1 1
           (Some "general"%string) (Some "dot"%string) None None 1 1 _ _ 1 2
           (fun _ => eval_noise) [[[1]]; [[2]]] [[[1]]; [[1]]] eq_refl eq_refl).
  - split.
    + exists "general"%string. split; [reflexivity|].
      split; [right; left; reflexivity|discriminate].
    + lia.
  - split.
    + exists "dot"%string. split; [reflexivity|].
      split; [left; reflexivity|reflexivity].
    + lia.
  - reflexivity.
  - reflexivity.
  - reflexivity.
  - reflexivity.
  - lia.
  - lia.
  - reflexivity.
  - reflexivity.
Defined.

(** ** The model's outputs and preconditions *)

Ltac inv_ok H :=
  repeat first
    [ match type of H with
      | bind ?m _ = Ok _ =>
          let E := fresh "E" in
          destruct m eqn:E; cbn [bind] in H; [|discriminate H]
      end
    | match type of H with
      | match ?p with _ => _ end = Ok _ => is_var p; destruct p
      end ].

Lemma exp_log_softmax (v : vec) :
  v <> [] -> map exp (log_softmax v) = map (fun s => exp s / Rsum (map exp v)) v.
Proof.
  intros Hv. unfold log_softmax. rewrite map_map.
  apply map_ext. intros s.
  pose proof (Rsum_exp_pos v Hv) as Hp.
  unfold Rminus. rewrite exp_plus, exp_Ropp, exp_ln by exact Hp. reflexivity.
Qed.

Lemma Rsum_entry_le (w : vec) :
  Forall (fun x => 0 <= x) w -> Forall (fun x => x <= Rsum w) w.
Proof.
  induction w as [|x w IH]; intros H; constructor.
  - apply Forall_cons_iff in H. destruct H as [Hx Hw].
    pose proof (Rsum_nonneg w Hw). simpl. lra.
  - apply Forall_cons_iff in H. destruct H as [Hx Hw].
    eapply Forall_impl; [|apply IH; exact Hw]. simpl. intros a Ha. lra.
Qed.

Lemma log_softmax_normalised (v : vec) :
  v <> [] ->
  Rsum (map exp (log_softmax v)) = 1 /\ Forall (fun x => x <= 0) (log_softmax v).
Proof.
  intros Hv.
  pose proof (Rsum_exp_pos v Hv) as Hp.
  assert (Hsum : Rsum (map exp (log_softmax v)) = 1).
  { rewrite exp_log_softmax by exact Hv.
    rewrite (Rsum_map_div exp (Rsum (map exp v)) v). field. lra. }
  split; [exact Hsum|].
  assert (Hnn : Forall (fun x => 0 <= x) (map exp (log_softmax v))).
  { apply Forall_forall. intros y Hy. apply in_map_iff in Hy.
    destruct Hy as [x [<- _]]. left. apply exp_pos. }
  pose proof (Rsum_entry_le _ Hnn) as Hle. rewrite Hsum in Hle.
  apply Forall_forall. intros x Hx. rewrite Forall_forall in Hle.
  specialize (Hle (exp x) (in_map exp _ x Hx)).
  destruct (Rle_dec x 0) as [H|H]; [exact H|].
  assert (Hlt : 0 < x) by lra.
  pose proof (exp_increasing 0 x Hlt) as Hinc. rewrite exp_0 in Hinc. lra.
Qed.

Lemma Model_forward_log_softmax (m : Model) (nz : model_noise)
    (U qmask : list (list vec)) (umask : option (list vec)) (att2 : bool)
    (log_prob c : list (list vec)) :
  Model_forward m nz U qmask umask att2 = Ok (log_prob, c) ->
  exists logits, log_prob = map (map log_softmax) logits.
Proof.
  intros H. unfold Model_forward in H. inv_ok H.
  injection H as <- _. eexists. reflexivity.
Qed.

(** X13.  Every row of the model's first output is a normalised
    log-distribution over the classes: its entries are at most 0 and their
    exponentials sum to 1. *)
Theorem model_log_prob_normalised (th : params)
    (D_h D_g D_p D_e D_y party n_classes : nat)
    (ca pa : option string) (D_a : nat) (m : Model) (nz : model_noise)
    (U qmask : list (list vec)) (um : list vec) (att2 : bool) (T B : nat) :
  Model_init th D_h D_g D_p D_e D_y party n_classes ca pa D_a = Ok m ->
  valid_config D_h D_g D_p party ca pa ->
  (1 <= T)%nat -> (1 <= B)%nat -> (1 <= n_classes)%nat ->
  has_shape3 T B D_h U = true ->
  has_shape3 T B party qmask = true ->
  valid_umask T B um ->
  exists log_prob c,
    Model_forward m nz U qmask (Some um) att2 = Ok (log_prob, c) /\
    has_shape3 T B n_classes log_prob = true /\
    forall t b, (t < T)%nat -> (b < B)%nat ->
      Rsum (map exp (nth b (nth t log_prob []) [])) = 1 /\
      Forall (fun x => x <= 0) (nth b (nth t log_prob []) []).
Proof.
  intros Hinit Hcfg HT HB Hn HU Hq Hum.
  destruct (Model_forward_ok th D_h D_g D_p D_e D_y party n_classes ca pa D_a m nz
              U qmask um att2 T B Hinit Hcfg HT HB HU Hq Hum)
    as [lp [c [ef [af [eb [ab [rU [rq [cf [cb [Hf [Hs _]]]]]]]]]]]].
  exists lp, c. split; [exact Hf|]. split; [exact Hs|].
  intros t b Ht Hb.
  destruct (Model_forward_log_softmax _ _ _ _ _ _ _ _ Hf) as [logits ->].
  pose proof (has_shape2_nth B n_classes _ b
                (has_shape3_nth T B n_classes _ t Hs Ht) Hb) as Hlen.
  assert (Hin : exists v, nth b (nth t (map (map log_softmax) logits) []) []
                          = log_softmax v).
  { assert (Hlt : (t < length (map (map log_softmax) logits))%nat).
    { apply has_shape3_true in Hs. destruct Hs as [-> _]. exact Ht. }
    pose proof (nth_In _ [] Hlt) as H1. apply in_map_iff in H1.
    destruct H1 as [row [Hrow _]]. rewrite <- Hrow. rewrite <- Hrow in Hlen.
    destruct (Nat.lt_ge_cases b (length (map log_softmax row))) as [Hb'|Hb'].
    - pose proof (nth_In _ [] Hb') as H2. apply in_map_iff in H2.
      destruct H2 as [v [Hv _]]. exists v. symmetry. exact Hv.
    - rewrite nth_overflow in Hlen by exact Hb'. simpl in Hlen. lia. }
  destruct Hin as [v Hv]. rewrite Hv in *.
  apply log_softmax_normalised. intros ->. simpl in Hlen. lia.
Qed.

Lemma model_log_prob_normalised_witness :
  exists m,
    Model_init th0 1 1 1 1 2 2 2 (Some "general"%string) None 1 = Ok m /\
    exists log_prob c,
      Model_forward m eval_model_noise [[[1]]; [[2]]] [[[1; 0]]; [[0; 1]]]
        (Some [[1; 1]]) false = Ok (log_prob, c) /\
      has_shape3 2 1 2 log_prob = true /\
      forall t b, (t < 2)%nat -> (b < 1)%nat ->
        Rsum (map exp (nth b (nth t log_prob []) [])) = 1 /\
        Forall (fun x => x <= 0) (nth b (nth t log_prob []) []).
Proof.
  eexists. split; [reflexivity|].
  apply (model_log_prob_normalised th0 1 1 1 1 2 2 2 (Some "general"%string) None 1 _
           eval_model_noise [[[1]]; [[2]]] [[[1; 0]]; [[0; 1]]] [[1; 1]] false 2 1
           eq_refl).
  - split.
    + exists "general"%string. split; [reflexivity|].
      split; [right; left; reflexivity|discriminate].
    + lia.
  - lia.
  - lia.
  - lia.
  - reflexivity.
  - reflexivity.
  - apply valid_umask_example.
Defined.

(** X14.  The default [umask=None] of [Model.forward] is not usable: the
    call never returns, whatever the other arguments are. *)
Theorem model_requires_umask (m : Model) (nz : model_noise)
    (U qmask : list (list vec)) (att2 : bool) :
  is_ok (Model_forward m nz U qmask None att2) = false.
Proof.
  unfold Model_forward.
  bind_step. destruct a as [[ef cf] al].
  bind_step. bind_step. reflexivity.
Qed.

Lemma DialogueRNN_loop_length (rnn : DialogueRNN) (noise : nat -> cell_noise)
    (steps : list (list vec * list vec)) :
  forall (t : nat) (q_ : list (list vec)) (e_ : estate) e c alpha,
    DialogueRNN_loop rnn noise t steps q_ e_ = Ok (e, c, alpha) ->
    length e = length steps /\ length c = length steps.
Proof.
  induction steps as [|[u_ qm] steps IH]; intros t q_ e_ e c alpha H.
  - simpl in H. injection H as <- <- _. split; reflexivity.
  - cbn [DialogueRNN_loop] in H. inv_ok H.
    injection H as <- <- _.
    match goal with
    | E : DialogueRNN_loop _ _ _ steps _ _ = Ok _ |- _ =>
        destruct (IH _ _ _ _ _ _ E) as [H1 H2]
    end.
    simpl. split; lia.
Qed.

Lemma stack_inv (l l' : list estate) : stack l = Ok l' -> l' = l.
Proof.
  unfold stack. destruct l as [|x l0]; [discriminate|].
  destruct (check _); cbn [bind]; [|discriminate].
  intros H; injection H as <-. reflexivity.
Qed.

Lemma DialogueRNN_forward_length (rnn : DialogueRNN) (noise : nat -> cell_noise)
    (U qmask : list (list vec)) e c alpha :
  DialogueRNN_forward rnn noise U qmask = Ok (e, c, alpha) ->
  length e = Nat.min (length U) (length qmask) /\
  length c = Nat.min (length U) (length qmask).
Proof.
  intros H. unfold DialogueRNN_forward in H. inv_ok H.
  injection H as <- <- _.
  match goal with
  | E : DialogueRNN_loop _ _ _ _ _ _ = Ok _ |- _ =>
      destruct (DialogueRNN_loop_length _ _ _ _ _ _ _ _ _ E) as [H1 H2]
  end.
  repeat match goal with
         | E : stack _ = Ok _ |- _ => apply stack_inv in E; subst
         end.
  rewrite length_combine in H1, H2. split; assumption.
Qed.

Lemma slice_to_length_le {A : Type} (c : Z) (x : list A) :
  (0 <= c)%Z -> (length (slice_to c x) <= Z.to_nat c)%nat.
Proof.
  intros Hc. unfold slice_to.
  destruct (Z.leb_spec 0 c) as [_|H]; [|lia].
  rewrite length_firstn. lia.
Qed.

Lemma reverse_seq_length_le (X : list (list vec)) (mask : list vec) (X1 : list (list vec))
    (L : nat) :
  _reverse_seq X mask = Ok X1 ->
  (forall b, (b < length mask)%nat -> (0 <= valid_len mask b <= Z.of_nat L)%Z) ->
  (length X1 <= L)%nat.
Proof.
  unfold _reverse_seq, pad_sequence. intros H Hlen.
  set (xfs := map _ (combine _ _)) in H.
  destruct xfs as [|xf xfs'] eqn:Exfs; [discriminate|].
  injection H as <-. rewrite length_map, length_seq.
  apply (fold_max_le (map (@length vec) (xf :: xfs'))).
  intros n Hn. apply in_map_iff in Hn.
  destruct Hn as [y [<- Hy]].
  rewrite <- Exfs in Hy. unfold xfs in Hy. apply in_map_iff in Hy.
  destruct Hy as [[col c] [<- Hin]]. cbn [fst snd].
  apply in_combine_r in Hin. apply in_map_iff in Hin.
  destruct Hin as [r [<- Hr]].
  destruct (In_nth _ _ [] Hr) as [b [Hb Hnth]].
  specialize (Hlen b Hb). unfold valid_len in Hlen. rewrite Hnth in Hlen.
  rewrite length_rev.
  pose proof (slice_to_length_le (trunc (Rsum r)) col ltac:(lia)). lia.
Qed.

(** X15.  The model needs a dialogue of full length in every batch: when
    every valid length of the mask is shorter than the sequence, the
    re-reversed backward outputs are shorter than the forward outputs and
    their concatenation fails, so the call never returns. *)
Theorem model_needs_full_length_row (m : Model) (nz : model_noise)
    (U qmask : list (list vec)) (um : list vec) (att2 : bool) :
  (forall b, (b < length um)%nat ->
     (0 <= valid_len um b < Z.of_nat (Nat.min (length U) (length qmask)))%Z) ->
  is_ok (Model_forward m nz U qmask (Some um) att2) = false.
Proof.
  intros Hshort. unfold Model_forward.
  destruct (DialogueRNN_forward (dialog_rnn_f m) (noise_f nz) U qmask)
    as [[[ef cf] al]|] eqn:Ef; cbn [bind]; [|reflexivity].
  destruct (rank3 ef) as [emotions_f|] eqn:Er; cbn [bind]; [|reflexivity].
  bind_step. bind_step. bind_step. bind_step.
  match goal with
  | |- is_ok (match ?p with _ => _ end) = false => destruct p as [[eb cb] alb]
  end.
  bind_step. bind_step.
  match goal with
  | |- is_ok (bind (_reverse_seq ?x um) _) = false =>
      destruct (_reverse_seq x um) as [emotions_b|] eqn:Eb; cbn [bind]; [|reflexivity]
  end.
  apply is_ok_bind.
  destruct (DialogueRNN_forward_length _ _ _ _ _ _ _ Ef) as [Hlf _].
  pose proof (mapM_length _ _ _ Er) as Hlr.
  assert (Hlb : (length emotions_b < Nat.min (length U) (length qmask))%nat).
  { match type of Eb with
    | _reverse_seq ?x um = Ok _ =>
        pose proof (reverse_seq_length_le x um emotions_b
                      (Nat.min (length U) (length qmask) - 1) Eb) as Hle
    end.
    destruct um as [|r0 um'].
    - unfold _reverse_seq in Eb. rewrite combine_nil in Eb. discriminate Eb.
    - pose proof (Hshort 0%nat ltac:(simpl; lia)) as H0.
      assert (Hle' : (length emotions_b
                      <= Nat.min (length U) (length qmask) - 1)%nat).
      { apply Hle. intros b Hb. specialize (Hshort b Hb). lia. }
      lia. }
  unfold cat_last, dropout3. rewrite !imap_length.
  replace (length emotions_f =? length emotions_b)%nat with false
    by (symmetry; apply Nat.eqb_neq; lia).
  reflexivity.
Qed.

Lemma model_needs_full_length_row_witness :
  exists m,
    Model_init th0 1 1 1 1 2 2 2 (Some "general"%string) None 1 = Ok m /\
    is_ok (Model_forward m eval_model_noise [[[1]]; [[2]]] [[[1; 0]]; [[0; 1]]]
             (Some [[1; 0]]) false) = false.
Proof.
  eexists. split; [reflexivity|].
  apply (model_needs_full_length_row _ eval_model_noise
           [[[1]]; [[2]]] [[[1; 0]]; [[0; 1]]] [[1; 0]] false).
  intros b Hb. simpl in Hb. assert (b = 0%nat) by lia. subst b.
  assert (E : valid_len [[1; 0]] 0 = 1%Z).
  { unfold valid_len. cbn [nth].
    replace (Rsum [1; 0]) with (IZR 1) by (simpl; lra).
    apply trunc_IZR. lia. }
  rewrite E. simpl. lia.
Defined.

(** ** Padding of the reversed sequence *)

Lemma fold_max_attained (l : list nat) :
  l <> [] -> In (fold_right Nat.max 0%nat l) l.
Proof.
  induction l as [|x l IH]; intros H; [congruence|].
  destruct l as [|y l'].
  - simpl. left. lia.
  - specialize (IH ltac:(discriminate)).
    change (fold_right Nat.max 0%nat (x :: y :: l'))
      with (Nat.max x (fold_right Nat.max 0%nat (y :: l'))).
    destruct (Nat.max_spec x (fold_right Nat.max 0%nat (y :: l'))) as [[_ E]|[_ E]];
      rewrite E; [right; exact IH|left; reflexivity].
Qed.

Lemma reverse_seq_rows (X : list (list vec)) (mask : list vec) (T B D : nat) :
  has_shape3 T B D X = true ->
  (1 <= T)%nat -> (1 <= B)%nat ->
  length mask = B ->
  (forall b, (b < B)%nat -> (0 <= valid_len mask b <= Z.of_nat T)%Z) ->
  exists X1,
    _reverse_seq X mask = Ok X1 /\
    (exists b, (b < B)%nat /\ length X1 = Z.to_nat (valid_len mask b)) /\
    (forall b, (b < B)%nat -> (Z.to_nat (valid_len mask b) <= length X1)%nat) /\
    (forall b t, (b < B)%nat -> (t < length X1)%nat ->
       nth b (nth t X1 []) []
       = nth t (rev (firstn (Z.to_nat (valid_len mask b)) (batch_row X b))) (zeros D)).
Proof.
  intros HX HT HB Hm Hc.
  assert (HlX : length X = T) by (apply has_shape3_true in HX; tauto).
  unfold _reverse_seq.
  rewrite (has_shape3_size1 T B D X HX HT).
  rewrite (has_shape3_size2 T B D X HX HT HB).
  set (xfs := map _ (combine (map (batch_row X) (seq 0 B)) _)).
  assert (Hlx : length xfs = B).
  { unfold xfs. rewrite length_map, length_combine, !length_map, length_seq. lia. }
  assert (Hxf : forall b, (b < B)%nat ->
            nth b xfs [] = rev (firstn (Z.to_nat (valid_len mask b)) (batch_row X b))).
  { intros b Hb. unfold xfs.
    rewrite (nth_indep _ [] ((fun p : list vec * Z => rev (slice_to (snd p) (fst p)))
                               ([], 0%Z)))
      by (rewrite length_map, length_combine, !length_map, length_seq; lia).
    rewrite (map_nth (fun p : list vec * Z => rev (slice_to (snd p) (fst p)))).
    rewrite combine_nth_lt by (rewrite !length_map, ?length_seq; lia).
    cbn [fst snd].
    rewrite (nth_indep (map (batch_row X) (seq 0 B)) [] (batch_row X 0%nat))
      by (rewrite length_map, length_seq; lia).
    rewrite (map_nth (batch_row X)), seq_nth by lia.
    rewrite (nth_indep (map (fun r => trunc (Rsum r)) mask) 0%Z
               ((fun r => trunc (Rsum r)) []))
      by (rewrite length_map; lia).
    rewrite (map_nth (fun r => trunc (Rsum r))).
    fold (valid_len mask b). unfold slice_to.
    destruct (Z.leb_spec 0 (valid_len mask b)) as [_|Hneg]; [reflexivity|].
    specialize (Hc b Hb). lia. }
  assert (Hlen : forall b, (b < B)%nat ->
            length (nth b xfs []) = Z.to_nat (valid_len mask b)).
  { intros b Hb. rewrite Hxf by exact Hb.
    rewrite length_rev, length_firstn, batch_row_length, HlX.
    specialize (Hc b Hb). lia. }
  assert (Hne : xfs <> []).
  { intros E. rewrite E in Hlx. simpl in Hlx. lia. }
  destruct (pad_sequence_ok D xfs Hne) as [P [HP [HlP HnP]]].
  exists P. split; [exact HP|]. split; [|split].
  - assert (Hin : In (length P) (map (@length vec) xfs)).
    { rewrite HlP. apply fold_max_attained.
      intros E. apply map_eq_nil in E. contradiction. }
    apply in_map_iff in Hin. destruct Hin as [xf [Hxfl Hxfin]].
    apply (In_nth _ _ []) in Hxfin. destruct Hxfin as [b [Hb Hnb]].
    exists b. split; [lia|]. rewrite <- Hxfl, <- Hnb. apply Hlen. lia.
  - intros b Hb. rewrite HlP, <- Hlen by exact Hb.
    apply fold_max_ge. apply in_map. apply nth_In. lia.
  - intros b t Hb Ht.
    rewrite HnP by exact Ht.
    rewrite (nth_indep _ [] ((fun xf => nth t xf (zeros D)) []))
      by (rewrite length_map; lia).
    rewrite (map_nth (fun xf => nth t xf (zeros D))).
    rewrite Hxf by exact Hb. reflexivity.
Qed.

(** X16.  The reversed batch is as long as the longest valid length, and
    beyond the valid length of a row it holds zero vectors: reversal moves
    the valid prefix and pads, it never carries padding entries over. *)
Theorem reverse_seq_pads_with_zeros (X : list (list vec)) (mask : list vec)
    (T B D : nat) :
  has_shape3 T B D X = true ->
  (1 <= T)%nat -> (1 <= B)%nat ->
  length mask = B ->
  (forall b, (b < B)%nat -> (0 <= valid_len mask b <= Z.of_nat T)%Z) ->
  exists X1,
    _reverse_seq X mask = Ok X1 /\
    (exists b, (b < B)%nat /\ Z.of_nat (length X1) = valid_len mask b) /\
    (forall b, (b < B)%nat -> (valid_len mask b <= Z.of_nat (length X1))%Z) /\
    (forall b t, (b < B)%nat -> (t < length X1)%nat ->
       (valid_len mask b <= Z.of_nat t)%Z ->
       nth b (nth t X1 []) [] = zeros D).
Proof.
  intros HX HT HB Hm Hc.
  assert (HlX : length X = T) by (apply has_shape3_true in HX; tauto).
  destruct (reverse_seq_rows X mask T B D HX HT HB Hm Hc)
    as [X1 [H1 [[b0 [Hb0 Hmax]] [Hge Hrow]]]].
  exists X1. split; [exact H1|]. split; [|split].
  - exists b0. split; [exact Hb0|]. specialize (Hc b0 Hb0). lia.
  - intros b Hb. specialize (Hge b Hb). specialize (Hc b Hb). lia.
  - intros b t Hb Ht Hpad.
    rewrite (Hrow b t Hb Ht).
    apply nth_overflow.
    rewrite length_rev, length_firstn, batch_row_length, HlX.
    specialize (Hc b Hb). lia.
Qed.

Lemma reverse_seq_pads_with_zeros_witness :
  exists X1,
    _reverse_seq [[[1]; [2]]; [[3]; [4]]] [[1; 1]; [1; 0]] = Ok X1 /\
    (exists b, (b < 2)%nat /\
               Z.of_nat (length X1) = valid_len [[1; 1]; [1; 0]] b) /\
    (forall b, (b < 2)%nat ->
               (valid_len [[1; 1]; [1; 0]]%R b <= Z.of_nat (length X1))%Z) /\
    (forall b t, (b < 2)%nat -> (t < length X1)%nat ->
       (valid_len [[1; 1]; [1; 0]]%R b <= Z.of_nat t)%Z ->
       nth b (nth t X1 []) [] = zeros 1).
Proof.
  apply (reverse_seq_pads_with_zeros [[[1]; [2]]; [[3]; [4]]] [[1; 1]; [1; 0]] 2 2 1).
  - reflexivity.
  - lia.
  - lia.
  - reflexivity.
  - intros b Hb.
    assert (E0 : valid_len [[1; 1]; [1; 0]] 0 = 2%Z).
    { unfold valid_len. cbn [nth].
      replace (Rsum [1; 1]) with (IZR 2) by (simpl; lra).
      apply trunc_IZR. lia. }
    assert (E1 : valid_len [[1; 1]; [1; 0]] 1 = 1%Z).
    { unfold valid_len. cbn [nth].
      replace (Rsum [1; 0]) with (IZR 1) by (simpl; lra).
      apply trunc_IZR. lia. }
    destruct b as [|[|b]]; [rewrite E0|rewrite E1|]; lia.
Defined.

(** ** The masked loss at its edges *)

Lemma valid_positions_zero (mask_ : vec) :
  Forall (fun m => m = 0) mask_ -> valid_positions mask_ = [].
Proof.
  intros H. unfold valid_positions.
  induction (seq 0 (length mask_)) as [|i l IH]; [reflexivity|].
  simpl.
  assert (E : nth i mask_ 0 = 0).
  { apply (nth_Forall_default (fun m => m = 0) mask_ 0 i H eq_refl). }
  rewrite E. destruct (Req_dec_T 0 1) as [E1|_]; [lra|]. exact IH.
Qed.

(** X17.  A batch whose mask is all zero has no defined loss: numerator
    and divisor are both 0, with and without class weights, and the
    division is not guarded. *)
Theorem masked_loss_all_padding_undefined (w : option vec) (pred : list vec)
    (target : list Z) (mask : list vec) (N C : nat) :
  (1 <= N)%nat ->
  has_shape2 N C pred = true ->
  length target = N ->
  length (concat mask) = N ->
  Forall (fun t => (0 <= t < Z.of_nat C)%Z) target ->
  match w with Some w => length w = C | None => True end ->
  Forall (fun m => m = 0) (concat mask) ->
  MaskedNLLLoss_forward w pred target mask = Ok None.
Proof.
  intros HN Hp Ht Hm Hrange Hw Hz.
  rewrite (MaskedNLLLoss_forward_spec w pred target mask N C HN Hp Ht Hm Hrange Hw).
  - unfold masked_nll_spec. rewrite (valid_positions_zero _ Hz). simpl.
    unfold fdiv. destruct (Req_dec_T 0 0) as [_|E]; [reflexivity|congruence].
  - eapply Forall_impl; [|exact Hz]. simpl. intros m ->. left. reflexivity.
Qed.

Lemma masked_loss_all_padding_undefined_witness :
  MaskedNLLLoss_forward (Some [1; 2]) [[-1; -2]; [-3; -4]] [0%Z; 1%Z] [[0; 0]] = Ok None.
Proof.
  apply (masked_loss_all_padding_undefined (Some [1; 2]) [[-1; -2]; [-3; -4]]
           [0%Z; 1%Z] [[0; 0]] 2 2).
  - lia.
  - reflexivity.
  - reflexivity.
  - reflexivity.
  - constructor; [lia|]. constructor; [lia|constructor].
  - reflexivity.
  - constructor; [reflexivity|]. constructor; [reflexivity|constructor].
Defined.

Lemma mapM_raise_at {A B : Type} (f : A -> exc B) (e : exn) (l : list A) (d : A) (i : nat) :
  (forall x e', f x = Raise e' -> e' = e) ->
  (i < length l)%nat -> f (nth i l d) = Raise e ->
  mapM f l = Raise e.
Proof.
  intros Hu. revert i; induction l as [|a l IH]; intros i Hi Hf; [simpl in Hi; lia|].
  simpl. destruct (f a) as [b|e'] eqn:E.
  - cbn [bind]. destruct i as [|i]; [simpl in Hf; congruence|].
    rewrite (IH i); [reflexivity|simpl in Hi; lia|exact Hf].
  - cbn [bind]. f_equal. apply (Hu a e' E).
Qed.

(** X18.  The mask does not protect the targets: a target that is neither a
    class index nor the ignore index makes the loss raise [IndexError] even
    at a position the mask sets to 0. *)
Theorem masked_loss_checks_padded_targets (w : option vec) (pred : list vec)
    (target : list Z) (mask : list vec) (N C i : nat) :
  has_shape2 N C pred = true ->
  length target = N ->
  length (concat mask) = N ->
  match w with Some w => length w = C | None => True end ->
  (i < N)%nat ->
  nth i target 0%Z <> (-100)%Z ->
  ~ (0 <= nth i target 0%Z < Z.of_nat C)%Z ->
  MaskedNLLLoss_forward w pred target mask = Raise IndexError.
Proof.
  intros Hp Ht Hm Hw Hi Hign Hout.
  assert (Hlp : length pred = N) by (apply has_shape2_true in Hp; tauto).
  unfold MaskedNLLLoss_forward.
  set (mask_ := concat mask) in *.
  rewrite mul_rows_eq by lia. cbn [bind].
  set (masked := map2 _ pred mask_).
  assert (Hlmk : length masked = N) by (unfold masked; rewrite map2_length; lia).
  assert (Hrow : forall j, (j < N)%nat ->
            nth j masked [] = map (fun x => x * nth j mask_ 0) (nth j pred [])).
  { intros j Hj. unfold masked.
    rewrite (map2_nth _ pred mask_ j [] 0 []) by lia. reflexivity. }
  assert (Hnum : nll_loss_sum w masked target = Raise IndexError).
  { unfold nll_loss_sum.
    rewrite (proj2 (Nat.eqb_eq (length masked) (length target))) by lia. cbn [bind].
    rewrite check_true.
    2:{ destruct w as [w|]; [|reflexivity]. apply Nat.eqb_eq. rewrite Hw.
        unfold size1. destruct masked as [|r0 ms] eqn:E; [simpl in Hlmk; lia|].
        simpl. pose proof (Hrow 0%nat ltac:(lia)) as H0. simpl in H0.
        rewrite H0, length_map. symmetry.
        apply (has_shape2_nth N C pred 0 Hp). lia. }
    cbn [bind].
    rewrite (mapM_raise_at (fun p => nll_term w (fst p) (snd p)) IndexError
               (combine masked target) ([], 0%Z) i); [reflexivity| | |].
    - intros [row t] e'. unfold nll_term. cbn [fst snd].
      destruct (t =? -100)%Z; [discriminate|].
      destruct ((0 <=? t)%Z && (t <? Z.of_nat (length row))%Z); [discriminate|].
      intros H; injection H as <-. reflexivity.
    - rewrite length_combine. lia.
    - rewrite combine_nth_lt by lia. cbn [fst snd]. unfold nll_term.
      destruct (Z.eqb_spec (nth i target 0%Z) (-100)) as [E|_]; [contradiction|].
      rewrite Hrow by exact Hi. rewrite length_map.
      rewrite (has_shape2_nth N C pred i Hp Hi).
      destruct (Z.leb_spec 0 (nth i target 0%Z)) as [H0|H0]; cbn [andb]; [|reflexivity].
      destruct (Z.ltb_spec (nth i target 0%Z) (Z.of_nat C)) as [H1|H1]; [|reflexivity].
      exfalso. apply Hout. lia. }
  rewrite Hnum. reflexivity.
Qed.

Lemma masked_loss_checks_padded_targets_witness :
  MaskedNLLLoss_forward None [[-1; -2]; [-3; -4]] [0%Z; 5%Z] [[1; 0]]
  = Raise IndexError.
Proof.
  apply (masked_loss_checks_padded_targets None [[-1; -2]; [-3; -4]]
           [0%Z; 5%Z] [[1; 0]] 2 2 1).
  - reflexivity.
  - reflexivity.
  - reflexivity.
  - exact I.
  - lia.
  - simpl. lia.
  - simpl. lia.
Defined.

(** ** Partial multi-view networks *)

Lemma to_uint_nonnil (n : nat) : Nat.to_uint n <> Decimal.Nil.
Proof.
  rewrite <- (DecimalNat.Unsigned.of_to n) at 1.
  rewrite DecimalNat.Unsigned.to_of. apply DecimalFacts.unorm_nonnil.
Qed.

Lemma str_inj (n m : nat) : str n = str m -> n = m.
Proof.
  unfold str. intros H.
  apply (f_equal NilZero.uint_of_string) in H.
  rewrite !NilZero.usu in H by apply to_uint_nonnil.
  injection H as H. apply DecimalNat.Unsigned.to_uint_inj. exact H.
Qed.

Lemma add_module_fresh (net : Sequential) (name : string) (l : layer) :
  ~ In name (map fst net) -> add_module net name l = net ++ [(name, l)].
Proof.
  induction net as [|[n l'] net IH]; intros H; [reflexivity|].
  simpl. destruct (String.eqb_spec n name) as [E|_].
  - exfalso. apply H. left. exact E.
  - rewrite IH; [reflexivity|]. intros Hin. apply H. right. exact Hin.
Qed.

Lemma view_loop_appends (th : params) (name : string) (dims : list nat) :
  forall (num prev : nat) (net1 : Sequential),
    (forall k, (num <= k)%nat ->
       ~ In ("lin" ++ str k)%string (map fst net1) /\
       ~ In ("drop" ++ str k)%string (map fst net1)) ->
    view_loop th name num prev dims net1
    = net1 ++ view_layers th name num prev dims.
Proof.
  induction dims as [|d dims IH]; intros num prev net1 Hfresh.
  - simpl. rewrite app_nil_r. reflexivity.
  - cbn [view_loop view_layers]. cbv zeta.
    destruct (Hfresh num (le_n num)) as [Hl Hd].
    rewrite (add_module_fresh net1 _ _ Hl).
    rewrite add_module_fresh.
    2:{ rewrite map_app, in_app_iff. intros [H|[H|[]]]; [exact (Hd H)|].
        simpl in H. discriminate H. }
    rewrite IH.
    + rewrite <- !app_assoc. reflexivity.
    + intros k Hk. rewrite !map_app, !in_app_iff. simpl.
      destruct (Hfresh k ltac:(lia)) as [Hl' Hd'].
      split.
      * intros [[H|[H|[]]]|[H|[]]]; [exact (Hl' H)| |discriminate H].
        injection H as H. apply str_inj in H. lia.
      * intros [[H|[H|[]]]|[H|[]]]; [exact (Hd' H)|discriminate H|].
        injection H as H. apply str_inj in H. lia.
Qed.

Lemma last_cons_default {A : Type} (l : list A) (a d : A) :
  last (a :: l) d = last l a.
Proof.
  revert a d; induction l as [|b l IH]; intros a d; [reflexivity|].
  change (last (a :: b :: l) d) with (last (b :: l) d).
  rewrite (IH b d), (IH b a). reflexivity.
Qed.

Lemma Linear_batch_ok (L : Linear) (x : list vec) (B : nat) :
  has_shape2 B (in_features L) x = true ->
  mapM (Linear_forward L) x = Ok (map (Linear_out L) x) /\
  has_shape2 B (out_features L) (map (Linear_out L) x) = true.
Proof.
  intros Hx. apply has_shape2_true in Hx. destruct Hx as [Hl Hr]. split.
  - apply mapM_map. intros r Hin. apply Linear_forward_ok.
    rewrite Forall_forall in Hr. apply Hr. exact Hin.
  - apply has_shape2_true. split; [rewrite length_map; exact Hl|].
    apply Forall_forall. intros y Hy. apply in_map_iff in Hy.
    destruct Hy as [r [<- _]]. apply Linear_out_length.
Qed.

Lemma view_layers_forward (th : params) (name : string) (dims : list nat) :
  forall (num prev : nat) (noise : nat -> nat -> nat -> R) (k : nat)
         (x : list vec) (B : nat),
    has_shape2 B prev x = true ->
    exists y,
      Sequential_forward (view_layers th name num prev dims) noise k x = Ok y /\
      has_shape2 B (last dims prev) y = true.
Proof.
  induction dims as [|d dims IH]; intros num prev noise k x B Hx.
  - exists x. split; [reflexivity|exact Hx].
  - cbn [view_layers Sequential_forward].
    destruct (Linear_batch_ok (nn_Linear th (name ++ ".lin" ++ str num)%string prev d true)
                x B Hx) as [Hlin Hs].
    rewrite Hlin. cbn [bind].
    cbn [out_features nn_Linear] in Hs.
    apply (dropout2_shape (noise (S k))) in Hs.
    destruct (IH (S num) d noise (S (S k)) _ B Hs) as [y [Hy Hys]].
    exists y. split; [exact Hy|].
    rewrite last_cons_default. exact Hys.
Qed.

Lemma map_relu_shape (x : list vec) (B D : nat) :
  has_shape2 B D x = true -> has_shape2 B D (map (map relu) x) = true.
Proof.
  intros H. apply has_shape2_true in H. destruct H as [Hl Hr].
  apply has_shape2_true. split; [rewrite length_map; exact Hl|].
  apply Forall_forall. intros y Hy. apply in_map_iff in Hy.
  destruct Hy as [r [<- Hin]]. rewrite length_map.
  rewrite Forall_forall in Hr. apply Hr. exact Hin.
Qed.

Lemma make_view_modules (th : params) (name : string) (layer_size : list (list nat))
    (lsd_dim : nat) (v : Z) (i d0 : nat) (dims : list nat) :
  py_index (length layer_size) v = Ok i ->
  nth i layer_size [] = d0 :: dims ->
  _make_view th name layer_size lsd_dim v
  = Ok ((("lin" ++ str 0)%string,
         LLinear (nn_Linear th (name ++ ".lin" ++ str 0)%string lsd_dim d0 true))
        :: (("act" ++ str 0)%string, LReLU)
        :: view_layers th name 1 d0 dims).
Proof.
  intros Hi Hd. unfold _make_view. rewrite Hi. cbn [bind]. rewrite Hd. cbv zeta.
  f_equal.
  change (add_module [] ("lin" ++ str 0)%string
            (LLinear (nn_Linear th (name ++ ".lin" ++ str 0)%string lsd_dim d0 true)))
    with [(("lin" ++ str 0)%string,
           LLinear (nn_Linear th (name ++ ".lin" ++ str 0)%string lsd_dim d0 true))].
  rewrite add_module_fresh by (simpl; intros [H|[]]; discriminate H).
  rewrite view_loop_appends; [reflexivity|].
  intros k Hk. simpl. split.
  - intros [H|[H|[]]]; [|discriminate H].
    change "lin0"%string with ("lin" ++ str 0)%string in H.
    injection H as H. apply (str_inj 0 k) in H. lia.
  - intros [H|[H|[]]]; discriminate H.
Qed.

(** X19.  [_make_view] never overwrites a module: the names it passes to
    [add_module] are pairwise different, so the network holds, in order,
    [lin0], [act0] and one linear layer followed by one dropout per further
    width, twice as many modules as the view has widths. *)
Theorem make_view_never_overwrites (th : params) (name : string)
    (layer_size : list (list nat)) (lsd_dim : nat) (v : Z) (i d0 : nat)
    (dims : list nat) :
  py_index (length layer_size) v = Ok i ->
  nth i layer_size [] = d0 :: dims ->
  exists net,
    _make_view th name layer_size lsd_dim v = Ok net /\
    net = (("lin" ++ str 0)%string,
           LLinear (nn_Linear th (name ++ ".lin" ++ str 0)%string lsd_dim d0 true))
          :: (("act" ++ str 0)%string, LReLU)
          :: view_layers th name 1 d0 dims /\
    length net = (2 * length (d0 :: dims))%nat /\
    NoDup (map fst net).
Proof.
  intros Hi Hd.
  rewrite (make_view_modules th name layer_size lsd_dim v i d0 dims Hi Hd).
  eexists. split; [reflexivity|]. split; [reflexivity|].
  assert (Hlen : forall ds num prev,
             length (view_layers th name num prev ds) = (2 * length ds)%nat).
  { induction ds as [|d ds IH]; intros num prev; [reflexivity|].
    cbn [view_layers length]. rewrite IH. lia. }
  assert (Hnames : forall ds num prev nm,
             In nm (map fst (view_layers th name num prev ds)) ->
             exists k, (num <= k)%nat /\
                       (nm = ("lin" ++ str k)%string \/ nm = ("drop" ++ str k)%string)).
  { induction ds as [|d ds IH]; intros num prev nm H; [destruct H|].
    cbn [view_layers map fst] in H.
    destruct H as [H|[H|H]].
    - exists num. split; [lia|left; symmetry; exact H].
    - exists num. split; [lia|right; symmetry; exact H].
    - destruct (IH _ _ _ H) as [k [Hk Hn]]. exists k. split; [lia|exact Hn]. }
  assert (Hnd : forall ds num prev,
             NoDup (map fst (view_layers th name num prev ds))).
  { induction ds as [|d ds IH]; intros num prev; [constructor|].
    cbn [view_layers map fst].
    constructor; [|constructor; [|apply IH]].
    - intros [H|H]; [discriminate H|].
      destruct (Hnames _ _ _ _ H) as [k [Hk [E|E]]]; [|discriminate E].
      injection E as E. apply str_inj in E. lia.
    - intros H.
      destruct (Hnames _ _ _ _ H) as [k [Hk [E|E]]]; [discriminate E|].
      injection E as E. apply str_inj in E. lia. }
  split.
  - cbn [length]. rewrite Hlen. lia.
  - cbn [map fst].
    constructor; [|constructor; [|apply Hnd]].
    + intros [H|H]; [discriminate H|].
      destruct (Hnames _ _ _ _ H) as [k [Hk [E|E]]]; [|discriminate E].
      change "lin0"%string with ("lin" ++ str 0)%string in E.
      injection E as E. apply (str_inj 0 k) in E. lia.
    + intros H.
      destruct (Hnames _ _ _ _ H) as [k [Hk [E|E]]]; discriminate E.
Qed.

Lemma make_view_never_overwrites_witness :
  exists net,
    _make_view th0 "net" [[4; 3]; [5; 2; 7]]%nat 8 (-1) = Ok net /\
    net = (("lin" ++ str 0)%string,
           LLinear (nn_Linear th0 ("net" ++ ".lin" ++ str 0)%string 8 5 true))
          :: (("act" ++ str 0)%string, LReLU)
          :: view_layers th0 "net" 1 5 [2%nat; 7%nat] /\
    length net = (2 * length [5%nat; 2%nat; 7%nat])%nat /\
    NoDup (map fst net).
Proof.
  apply (make_view_never_overwrites th0 "net" [[4; 3]; [5; 2; 7]]%nat 8 (-1) 1 5
           [2%nat; 7%nat]).
  - reflexivity.
  - reflexivity.
Defined.

Lemma Linear_batch_raises (L : Linear) (x : list vec) (B D : nat) :
  (1 <= B)%nat -> has_shape2 B D x = true -> D <> in_features L ->
  mapM (Linear_forward L) x = Raise RuntimeError.
Proof.
  intros HB Hx HD.
  apply (mapM_raise_at (Linear_forward L) RuntimeError x [] 0).
  - intros r e'. unfold Linear_forward.
    destruct (length r =? in_features L)%nat; cbn [check bind]; [discriminate|].
    intros H; injection H as <-. reflexivity.
  - apply has_shape2_true in Hx. lia.
  - unfold Linear_forward.
    rewrite (has_shape2_nth B D x 0 Hx) by lia.
    destruct (Nat.eqb_spec D (in_features L)) as [E|_]; [contradiction|reflexivity].
Qed.

(** X20.  The widths of a view network chain: built for view [v], it maps
    every batch of latent vectors of width [lsd_dim] to a batch of vectors
    of the last width of the view, for every dropout mask; a batch of
    another width is refused by the first layer. *)
Theorem CPMNets_forward_widths (th : params) (view_num trainLen testLen : nat)
    (layer_size : list (list nat)) (v : Z) (lsd_dim : nat) (lamb : R)
    (i d0 : nat) (dims : list nat) :
  py_index (length layer_size) v = Ok i ->
  nth i layer_size [] = d0 :: dims ->
  exists c,
    CPMNets_init th view_num trainLen testLen layer_size v lsd_dim lamb = Ok c /\
    (forall noise h B,
       has_shape2 B lsd_dim h = true ->
       exists y, CPMNets_forward c noise h = Ok y /\
                 has_shape2 B (last dims d0) y = true) /\
    (forall noise h B D,
       (1 <= B)%nat -> has_shape2 B D h = true -> D <> lsd_dim ->
       CPMNets_forward c noise h = Raise RuntimeError).
Proof.
  intros Hi Hd. unfold CPMNets_init.
  rewrite (make_view_modules th "net" layer_size lsd_dim v i d0 dims Hi Hd).
  cbn [bind]. eexists. split; [reflexivity|].
  unfold CPMNets_forward. cbn [cpm_net]. split.
  - intros noise h B Hh. cbn [Sequential_forward].
    destruct (Linear_batch_ok (nn_Linear th ("net" ++ ".lin" ++ str 0)%string
                                         lsd_dim d0 true) h B Hh) as [Hlin Hs].
    rewrite Hlin. cbn [bind].
    cbn [out_features nn_Linear] in Hs.
    apply map_relu_shape in Hs.
    apply (view_layers_forward th "net" dims 1 d0 noise 2 _ B Hs).
  - intros noise h B D HB Hh HD. cbn [Sequential_forward].
    rewrite (Linear_batch_raises
               (nn_Linear th ("net" ++ ".lin" ++ str 0)%string lsd_dim d0 true)
               h B D HB Hh HD).
    reflexivity.
Qed.

Lemma CPMNets_forward_widths_witness :
  exists c,
    CPMNets_init th0 2 10 5 [[4; 3]; [5; 2; 7]]%nat (-1) 2 1 = Ok c /\
    (forall noise h B,
       has_shape2 B 2 h = true ->
       exists y, CPMNets_forward c noise h = Ok y /\
                 has_shape2 B (last [2%nat; 7%nat] 5%nat) y = true) /\
    (forall noise h B D,
       (1 <= B)%nat -> has_shape2 B D h = true -> D <> 2%nat ->
       CPMNets_forward c noise h = Raise RuntimeError).
Proof.
  apply (CPMNets_forward_widths th0 2 10 5 [[4; 3]; [5; 2; 7]]%nat (-1) 2 1 1 5
           [2%nat; 7%nat]).
  - reflexivity.
  - reflexivity.
Defined.

(** X21.  The two ways the construction of a view network fails, both with
    [IndexError]: [v] is not an index of [layer_size] (counting negative
    indices from the end), or the view it selects lists no width. *)
Theorem CPMNets_init_errors (th : params) (view_num trainLen testLen : nat)
    (layer_size : list (list nat)) (v : Z) (lsd_dim : nat) (lamb : R) :
  ((v < - Z.of_nat (length layer_size) \/ Z.of_nat (length layer_size) <= v)%Z ->
   CPMNets_init th view_num trainLen testLen layer_size v lsd_dim lamb
   = Raise IndexError) /\
  (forall i, py_index (length layer_size) v = Ok i -> nth i layer_size [] = [] ->
   CPMNets_init th view_num trainLen testLen layer_size v lsd_dim lamb
   = Raise IndexError).
Proof.
  split.
  - intros Hv. unfold CPMNets_init, _make_view, py_index.
    destruct (Z.leb_spec 0 v) as [H0|H0]; cbn [andb].
    + destruct (Z.ltb_spec v (Z.of_nat (length layer_size))) as [H1|H1]; [lia|].
      cbn [andb].
      destruct (Z.ltb_spec v 0) as [H2|H2]; [lia|]. reflexivity.
    + destruct (Z.ltb_spec v 0) as [H2|H2]; [|lia].
      destruct (Z.leb_spec (- Z.of_nat (length layer_size)) v) as [H3|H3]; [lia|].
      reflexivity.
  - intros i Hi Hd. unfold CPMNets_init, _make_view.
    rewrite Hi. cbn [bind]. rewrite Hd. reflexivity.
Qed.

Lemma CPMNets_init_errors_witness :
  CPMNets_init th0 2 10 5 [[4; 3]; []]%nat 2 8 1 = Raise IndexError /\
  CPMNets_init th0 2 10 5 [[4; 3]; []]%nat 1 8 1 = Raise IndexError.
Proof.
  split.
  - apply (proj1 (CPMNets_init_errors th0 2 10 5 [[4; 3]; []]%nat 2 8 1)).
    right. simpl. lia.
  - apply (proj2 (CPMNets_init_errors th0 2 10 5 [[4; 3]; []]%nat 1 8 1) 1%nat);
      reflexivity.
Defined.

(** X22.  The discriminator reads only the second width of its argument:
    with fewer than two widths its construction raises [IndexError];
    otherwise it maps every batch of that width to one score per row. *)
Theorem CpmDiscriminator_scores (th : params) (layer_size : list nat) :
  ((length layer_size < 2)%nat ->
   CpmDiscriminator_init th layer_size = Raise IndexError) /\
  (forall d, nth_error layer_size 1 = Some d ->
   exists c,
     CpmDiscriminator_init th layer_size = Ok c /\
     forall x B,
       has_shape2 B d x = true ->
       exists y, CpmDiscriminator_forward c x = Ok y /\ has_shape2 B 1 y = true).
Proof.
  split.
  - intros Hl. unfold CpmDiscriminator_init.
    destruct (nth_error layer_size 1) as [d|] eqn:E; [|reflexivity].
    assert (H : nth_error layer_size 1 <> None) by (rewrite E; discriminate).
    apply nth_error_Some in H. lia.
  - intros d Hd. unfold CpmDiscriminator_init. rewrite Hd.
    eexists. split; [reflexivity|].
    intros x B Hx. unfold CpmDiscriminator_forward. cbn [disc_model Sequential_forward].
    destruct (Linear_batch_ok (nn_Linear th "model.0" d (d / 2) true) x B Hx)
      as [H0 Hs0].
    rewrite H0. cbn [bind].
    cbn [out_features nn_Linear] in Hs0.
    assert (Hs1 : has_shape2 B (d / 2)
                    (map (map (leaky_relu (2 / 10)))
                       (map (Linear_out (nn_Linear th "model.0" d (d / 2) true)) x))
                  = true).
    { apply has_shape2_true in Hs0. destruct Hs0 as [Hl Hr].
      apply has_shape2_true. split; [rewrite length_map; exact Hl|].
      apply Forall_forall. intros y Hy. apply in_map_iff in Hy.
      destruct Hy as [r [<- Hin]]. rewrite length_map.
      rewrite Forall_forall in Hr. apply Hr. exact Hin. }
    destruct (Linear_batch_ok (nn_Linear th "model.2" (d / 2) 1 true) _ B Hs1)
      as [H2 Hs2].
    rewrite H2. cbn [bind]. eexists. split; [reflexivity|exact Hs2].
Qed.

Lemma CpmDiscriminator_scores_witness :
  CpmDiscriminator_init th0 [4%nat] = Raise IndexError /\
  exists c,
    CpmDiscriminator_init th0 [4%nat; 6%nat] = Ok c /\
    forall x B,
      has_shape2 B 6 x = true ->
      exists y, CpmDiscriminator_forward c x = Ok y /\ has_shape2 B 1 y = true.
Proof.
  split.
  - apply (proj1 (CpmDiscriminator_scores th0 [4%nat])). simpl. lia.
  - apply (proj2 (CpmDiscriminator_scores th0 [4%nat; 6%nat]) 6%nat). reflexivity.
Defined.

(** ** Widths and indices that do not fit *)

(** X23.  The extra attention module of the model is built for width D_e,
    and the vectors it is given have width 2*D_e: its query transform
    refuses them, so the extra attention pass raises on every sequence of
    concatenated emotion vectors, whatever the mask. *)
Theorem self_attention_width_mismatch (th : params)
    (D_h D_g D_p D_e D_y party n_classes : nat) (ca pa : option string) (D_a : nat)
    (m : Model) (emotions : list (list vec)) (umask : list vec) (T B : nat) :
  Model_init th D_h D_g D_p D_e D_y party n_classes ca pa D_a = Ok m ->
  (1 <= D_e)%nat -> (1 <= T)%nat -> (1 <= B)%nat ->
  has_shape3 T B (2 * D_e) emotions = true ->
  (forall t, (t < T)%nat ->
     MatchingAttention_forward (matchatt m) emotions (nth t emotions []) (Some umask)
     = Raise RuntimeError) /\
  (model_party_attention m = Some "simple"%string ->
   Model_hidden m emotions umask true = Raise RuntimeError).
Proof.
  intros Hinit HD HT HB Hs.
  destruct (Model_init_inv _ _ _ _ _ _ _ _ _ _ _ _ Hinit)
    as [_ [_ [_ [_ [_ [_ Hma]]]]]].
  assert (Hk : known_att_type "general2") by (right; right; left; reflexivity).
  destruct (MatchingAttention_init_inv th _ D_e D_e None _ (matchatt m) Hma Hk)
    as [Hty [_ [_ [Hgen2 _]]]].
  assert (Hrow : forall x, has_shape2 B (2 * D_e) x = true ->
            MatchingAttention_forward (matchatt m) emotions x (Some umask)
            = Raise RuntimeError).
  { intros x Hx. unfold MatchingAttention_forward. rewrite Hty. simpl String.eqb.
    rewrite (Hgen2 eq_refl). cbn [getattr bind].
    rewrite (Linear_batch_raises
               (nn_Linear th ("matchatt" ++ ".transform")%string D_e D_e true)
               x B (2 * D_e) HB Hx ltac:(simpl; lia)).
    reflexivity. }
  split.
  - intros t Ht. apply Hrow. apply (has_shape3_nth T B (2 * D_e) emotions t Hs Ht).
  - intros Hpa. unfold Model_hidden. rewrite Hpa. simpl.
    destruct emotions as [|e0 es].
    + apply has_shape3_true in Hs. simpl in Hs. lia.
    + cbn [mapM].
      rewrite (Hrow e0 (has_shape3_nth T B (2 * D_e) (e0 :: es) 0 Hs ltac:(lia))).
      reflexivity.
Qed.

Lemma self_attention_width_mismatch_witness :
  exists m,
    Model_init th0 1 1 1 1 2 2 2 (Some "general"%string) (Some "simple"%string) 1
    = Ok m /\
    (forall t, (t < 1)%nat ->
       MatchingAttention_forward (matchatt m) [[[1; 2]]] (nth t [[[1; 2]]] [])
         (Some [[1]])
       = Raise RuntimeError) /\
    (model_party_attention m = Some "simple"%string ->
     Model_hidden m [[[1; 2]]] [[1]] true = Raise RuntimeError).
Proof.
  eexists. split; [reflexivity|].
  apply (self_attention_width_mismatch th0 1 1 1 1 2 2 2 (Some "general"%string)
           (Some "simple"%string) 1 _ [[[1; 2]]] [[1]] 1 1 eq_refl).
  - lia.
  - lia.
  - lia.
  - reflexivity.
Defined.

(** X24.  Party attention indexes the party axis with [1 - p]: with a single
    party that index is 1, out of range, so a cell built with party
    attention for one party raises on its first call. *)
Theorem party_attention_needs_two_parties (th : params) (name : string)
    (D_m D_g D_p D_e : nat) (ca : option string) (s : string) (D_a : nat)
    (cell : DialogueRNNCell) (B : nat) (nz : cell_noise) (U qmask : list vec)
    (g_hist : list (list vec)) (q0 : list (list vec)) (e0 : estate) :
  DialogueRNNCell_init th name D_m D_g D_p D_e 1 ca (Some s) D_a = Ok cell ->
  (1 <= B)%nat ->
  has_shape2 B 1 qmask = true ->
  q0 = [] \/ has_shape3 B 1 D_p q0 = true ->
  is_ok (DialogueRNNCell_forward cell nz U qmask g_hist q0 [] e0) = false.
Proof.
  intros Hinit HB Hqmask Hq0.
  pose proof (init_q0_shape th name D_m D_g D_p D_e 1 ca (Some s) D_a cell Hinit
                B HB qmask q0 Hqmask Hq0) as Hq0'.
  destruct (DialogueRNNCell_init_inv _ _ _ _ _ _ _ _ _ _ _ Hinit)
    as [_ [_ [_ [_ [Hparty [Hpa [_ [_ [_ [_ Hpatt]]]]]]]]]].
  destruct Hpatt as [a1 [a2 [_ [_ [Hp1 _]]]]].
  unfold DialogueRNNCell_forward. cbv zeta.
  rewrite Hpa, Hp1, Hparty.
  do 11 bind_step.
  apply is_ok_bind. cbn [app seq mapM].
  do 4 apply is_ok_bind.
  unfold party_pool. cbn [getattr bind].
  apply is_ok_bind.
  match goal with
  | Hm : merge _ _ _ = Ok ?q |- _ =>
      pose proof (merge_inv _ _ _ _ Hm) as Hq_
  end.
  rewrite (has_shape3_size1 B 1 D_p _ Hq0' HB) in Hq_.
  assert (Hl : length (init_q0 cell qmask q0) = B)
    by (apply has_shape3_true in Hq0'; tauto).
  rewrite Hl in Hq_.
  unfold size2. cbn [hd].
  rewrite (has_shape3_size1 B 1 _ _ Hq_ HB).
  reflexivity.
Qed.

Lemma party_attention_needs_two_parties_witness :
  exists cell,
    DialogueRNNCell_init th0 "c" 1 1 1 1 1 (Some "general"%string)
      (Some "general"%string) 1 = Ok cell /\
    is_ok (DialogueRNNCell_forward cell eval_noise [[1]] [[1]] [] [] [] (E2 [])) = false.
Proof.
  eexists. split; [reflexivity|].
  apply (party_attention_needs_two_parties th0 "c" 1 1 1 1 (Some "general"%string)
           "general" 1 _ 1 eval_noise [[1]] [[1]] [] [] (E2 []) eq_refl).
  - lia.
  - reflexivity.
  - left. reflexivity.
Defined.

(** X25.  For party [p] the first party attention reads the history slice
    of index [1 - p]: the other party when there are two, and for [p >= 2]
    a negative index that wraps around, party [party + 1 - p]; with three
    parties, party 2 reads its own slice. *)
Theorem party_attention_reads_wrapped_index (th : params) (name : string)
    (D_p D_m : nat) (adim : option nat) (ty : string) (att : MatchingAttention)
    (q_ : list (list vec)) (U : list vec) (B party p : nat) :
  MatchingAttention_init th name D_p D_m adim ty = Ok att ->
  known_att_type ty ->
  has_shape3 B party D_p q_ = true ->
  has_shape2 B D_m U = true ->
  (1 <= B)%nat -> (2 <= party)%nat -> (p < party)%nat ->
  party_pool (Some att) D_p [q_] U (1 - Z.of_nat p)
  = Ok (map (fun ps : list vec =>
               nth (if (p <=? 1)%nat then 1 - p else party + 1 - p)%nat ps []) q_).
Proof.
  intros Hinit Hk Hq HU HB Hparty Hp.
  rewrite (party_pool_single th name D_p D_m adim ty att q_ U B party _
             Hinit Hk Hq HU HB).
  assert (Hi : py_index party (1 - Z.of_nat p)
               = Ok (if (p <=? 1)%nat then 1 - p else party + 1 - p)%nat).
  { unfold py_index. remember (1 - Z.of_nat p)%Z as i eqn:Ei.
    destruct (Nat.leb_spec p 1) as [Hp1|Hp1].
    - destruct (Z.leb_spec 0 i) as [H0|H0]; [|lia].
      destruct (Z.ltb_spec i (Z.of_nat party)) as [H1|H1]; [|lia].
      cbn [andb]. f_equal. lia.
    - destruct (Z.leb_spec 0 i) as [H0|H0]; [lia|]. cbn [andb].
      destruct (Z.ltb_spec i 0) as [H2|H2]; [|lia].
      destruct (Z.leb_spec (- Z.of_nat party) i) as [H3|H3]; [|lia].
      cbn [andb]. f_equal. lia. }
  rewrite Hi. reflexivity.
Qed.

Lemma party_attention_reads_wrapped_index_witness :
  exists att,
    MatchingAttention_init th0 "a" 1 1 None "general" = Ok att /\
    party_pool (Some att) 1 [[[[1]; [2]; [3]]]] [[1]] (1 - Z.of_nat 2)
    = Ok (map (fun ps : list vec =>
                 nth (if (2 <=? 1)%nat then 1 - 2 else 3 + 1 - 2)%nat ps [])
              [[[1]; [2]; [3]]]).
Proof.
  eexists. split; [reflexivity|].
  apply (party_attention_reads_wrapped_index th0 "a" 1 1 None "general" _
           [[[1]; [2]; [3]]] [[1]] 1 3 2).
  - reflexivity.
  - right; left; reflexivity.
  - reflexivity.
  - reflexivity.
  - lia.
  - lia.
  - lia.
Defined.

(** ** Reversal within the valid prefix *)

(** X26.  Within the valid length of a row the reversed batch holds the
    entries of that row in opposite order: position [t] holds the entry of
    position [len - 1 - t], where [len] is the valid length of the row. *)
Theorem reverse_seq_reverses_valid_prefix (X : list (list vec)) (mask : list vec)
    (T B D : nat) :
  has_shape3 T B D X = true ->
  (1 <= T)%nat -> (1 <= B)%nat ->
  length mask = B ->
  (forall b, (b < B)%nat -> (0 <= valid_len mask b <= Z.of_nat T)%Z) ->
  exists X1,
    _reverse_seq X mask = Ok X1 /\
    forall b t, (b < B)%nat -> (Z.of_nat t < valid_len mask b)%Z ->
      nth b (nth t X1 []) []
      = nth b (nth (Z.to_nat (valid_len mask b) - 1 - t) X []) [].
Proof.
  intros HX HT HB Hm Hc.
  destruct (reverse_seq_nth X mask T B D HX HT HB Hm Hc)
    as [X1 [L [H1 [_ [_ [_ Hn]]]]]].
  exists X1. split; [exact H1|].
  intros b t Hb Ht. apply Hn; [exact Hb|lia].
Qed.

Lemma reverse_seq_reverses_valid_prefix_witness :
  exists X1,
    _reverse_seq [[[1]; [2]]; [[3]; [4]]] [[1; 1]; [1; 0]] = Ok X1 /\
    forall b t, (b < 2)%nat -> (Z.of_nat t < valid_len [[1; 1]; [1; 0]]%R b)%Z ->
      nth b (nth t X1 []) []
      = nth b (nth (Z.to_nat (valid_len [[1; 1]; [1; 0]]%R b) - 1 - t)
                   [[[1]; [2]]; [[3]; [4]]] []) [].
Proof.
  apply (reverse_seq_reverses_valid_prefix [[[1]; [2]]; [[3]; [4]]] [[1; 1]; [1; 0]] 2 2 1).
  - reflexivity.
  - lia.
  - lia.
  - reflexivity.
  - intros b Hb.
    assert (E0 : valid_len [[1; 1]; [1; 0]] 0 = 2%Z).
    { unfold valid_len. cbn [nth].
      replace (Rsum [1; 1]) with (IZR 2) by (simpl; lra).
      apply trunc_IZR. lia. }
    assert (E1 : valid_len [[1; 1]; [1; 0]] 1 = 1%Z).
    { unfold valid_len. cbn [nth].
      replace (Rsum [1; 0]) with (IZR 1) by (simpl; lra).
      apply trunc_IZR. lia. }
    destruct b as [|[|b]]; [rewrite E0|rewrite E1|]; lia.
Defined.

(** ** Empty carried-in states *)

(** X27.  An empty carried-in state is the zero state: a call of the cell
    with the empty party state and the empty emotion state gives the result
    of the call with the zero tensors of the shapes of the mode. *)
Theorem cell_empty_state_is_zero_state (th : params) (name : string)
    (D_m D_g D_p D_e party : nat) (ca pa : option string) (D_a : nat)
    (cell : DialogueRNNCell) (B : nat) (nz : cell_noise) (U qmask : list vec)
    (g_hist : list (list vec)) (q_hist : list (list (list vec))) :
  DialogueRNNCell_init th name D_m D_g D_p D_e party ca pa D_a = Ok cell ->
  (1 <= B)%nat ->
  length qmask = B ->
  DialogueRNNCell_forward cell nz U qmask g_hist [] q_hist (E2 [])
  = DialogueRNNCell_forward cell nz U qmask g_hist (zeros3 B party D_p) q_hist
      (if truthy pa then E3 (zeros3 B party D_e) else E2 (zeros2 B D_e)).
Proof.
  intros Hinit HB Hl.
  destruct (DialogueRNNCell_init_inv _ _ _ _ _ _ _ _ _ _ _ Hinit)
    as [_ [_ [HDp [HDe [Hparty [Hpa _]]]]]].
  assert (Hq : init_q0 cell qmask (zeros3 B party D_p) = init_q0 cell qmask []).
  { unfold init_q0. rewrite HDp, Hparty, Hl. cbn [length Nat.eqb].
    unfold zeros3 at 1. rewrite repeat_length.
    destruct (Nat.eqb_spec B 0); [lia|reflexivity]. }
  assert (He : init_e0 cell qmask
                 (if truthy pa then E3 (zeros3 B party D_e) else E2 (zeros2 B D_e))
               = init_e0 cell qmask (E2 [])).
  { unfold init_e0. rewrite HDe, Hparty, Hpa, Hl.
    destruct (truthy pa); cbn [e_size0 length Nat.eqb].
    - unfold zeros3 at 1. rewrite repeat_length.
      destruct (Nat.eqb_spec B 0); [lia|reflexivity].
    - unfold zeros2 at 1. rewrite repeat_length.
      destruct (Nat.eqb_spec B 0); [lia|reflexivity]. }
  unfold DialogueRNNCell_forward. cbv zeta. rewrite Hq, He. reflexivity.
Qed.

Lemma cell_empty_state_is_zero_state_witness :
  exists cell,
    DialogueRNNCell_init th0 "c" 1 1 1 1 2 (Some "general"%string) None 1 = Ok cell /\
    DialogueRNNCell_forward cell eval_noise [[1]] [[0; 1]] [] [] [] (E2 [])
    = DialogueRNNCell_forward cell eval_noise [[1]] [[0; 1]] [] (zeros3 1 2 1) []
        (if truthy None then E3 (zeros3 1 2 1) else E2 (zeros2 1 1)).
Proof.
  eexists. split; [reflexivity|].
  apply (cell_empty_state_is_zero_state th0 "c" 1 1 1 1 2 (Some "general"%string)
           None 1 _ 1 eval_noise [[1]] [[0; 1]] [] [] eq_refl).
  - lia.
  - reflexivity.
Defined.

(** ** Bounded emotion states *)

Lemma sigmoid_bounds (x : R) : 0 < sigmoid x < 1.
Proof.
  unfold sigmoid. pose proof (exp_pos (- x)) as He.
  assert (Hp : 0 < 1 + exp (- x)) by lra.
  split.
  - apply Rdiv_lt_0_compat; lra.
  - apply (Rmult_lt_reg_r (1 + exp (- x))); [exact Hp|].
    unfold Rdiv. rewrite Rmult_assoc, Rinv_l by lra. lra.
Qed.

Lemma tanh_bounds (x : R) : -1 < tanh x < 1.
Proof.
  unfold tanh, sinh, cosh.
  pose proof (exp_pos x) as Ha. pose proof (exp_pos (- x)) as Hb.
  set (a := exp x) in *. set (b := exp (- x)) in *.
  assert (Hc : 0 < (a + b) / 2) by lra.
  split.
  - apply (Rmult_lt_reg_r ((a + b) / 2)); [exact Hc|].
    unfold Rdiv at 2. rewrite Rmult_assoc, Rinv_l by lra. lra.
  - apply (Rmult_lt_reg_r ((a + b) / 2)); [exact Hc|].
    unfold Rdiv at 1. rewrite Rmult_assoc, Rinv_l by lra. lra.
Qed.

Lemma gru_unit_bounded (c : GRUCell) (x h : vec) (j : nat) :
  -1 <= nth j h 0 <= 1 -> -1 <= gru_unit c x h j <= 1.
Proof.
  intros Hh. unfold gru_unit. cbv zeta.
  set (z := sigmoid _). set (n := tanh _).
  pose proof (sigmoid_bounds (gru_gate_i c (hidden_size c + j) x
                              + gru_gate_h c (hidden_size c + j) h)) as Hz.
  fold z in Hz.
  assert (Hn : -1 < n < 1) by apply tanh_bounds.
  split; nra.
Qed.

Lemma nth_bounded (h : vec) (j : nat) : bounded h -> -1 <= nth j h 0 <= 1.
Proof.
  intros H. apply (nth_Forall_default (fun x => -1 <= x <= 1) h 0 j H). lra.
Qed.

Lemma GRUCell_out_bounded (c : GRUCell) (x h : vec) :
  bounded h -> bounded (GRUCell_out c x h).
Proof.
  intros H. unfold bounded, GRUCell_out. apply Forall_forall.
  intros y Hy. apply in_map_iff in Hy. destruct Hy as [j [<- _]].
  apply gru_unit_bounded. apply nth_bounded. exact H.
Qed.

Lemma GRUCell_forward_bounded (c : GRUCell) (x h y : list vec) :
  Forall bounded h -> GRUCell_forward c x h = Ok y -> Forall bounded y.
Proof.
  intros Hh H. unfold GRUCell_forward in H.
  destruct (check (length x =? length h)%nat); cbn [bind] in H; [|discriminate].
  apply (mapM_post (fun p => GRUCell_step c (fst p) (snd p)) bounded
                   (combine x h) y); [|exact H].
  intros p r Hin Hr. unfold GRUCell_step in Hr.
  destruct (check (length (fst p) =? input_size c)%nat); cbn [bind] in Hr;
    [|discriminate].
  destruct (check (length (snd p) =? hidden_size c)%nat); cbn [bind] in Hr;
    [|discriminate].
  injection Hr as <-. apply GRUCell_out_bounded.
  rewrite Forall_forall in Hh. apply Hh.
  destruct p as [pa0 pb0]. apply in_combine_r in Hin. exact Hin.
Qed.

Lemma gru3_bounded (c : GRUCell) (x h y : list (list vec)) :
  Forall (Forall bounded) h -> gru3 c x h = Ok y -> Forall (Forall bounded) y.
Proof.
  intros Hh H. unfold gru3 in H.
  destruct (check (length x =? length h)%nat); cbn [bind] in H; [|discriminate].
  apply (mapM_post (fun p => GRUCell_forward c (fst p) (snd p)) (Forall bounded)
                   (combine x h) y); [|exact H].
  intros p r Hin Hr. apply (GRUCell_forward_bounded c (fst p) (snd p) r); [|exact Hr].
  rewrite Forall_forall in Hh. apply Hh.
  destruct p as [pa0 pb0]. apply in_combine_r in Hin. exact Hin.
Qed.

Lemma dropout1_bounded (m : nat -> R) (v : vec) :
  (forall d, 0 <= m d <= 1) -> bounded v -> bounded (dropout1 m v).
Proof.
  intros Hm Hv. unfold bounded, dropout1. apply Forall_forall. intros y Hy.
  apply in_imap in Hy. destruct Hy as [d [x [-> [_ Hx]]]].
  unfold bounded in Hv. rewrite Forall_forall in Hv. specialize (Hv x Hx).
  specialize (Hm d). split; nra.
Qed.

Lemma dropout2_bounded (m : nat -> nat -> R) (x : list vec) :
  unit_mask2 m -> Forall bounded x -> Forall bounded (dropout2 m x).
Proof.
  intros Hm Hx. unfold dropout2. apply Forall_forall. intros y Hy.
  apply in_imap in Hy. destruct Hy as [b [r [-> [_ Hr]]]].
  apply dropout1_bounded; [intros d; apply Hm|].
  rewrite Forall_forall in Hx. apply Hx. exact Hr.
Qed.

Lemma dropout3_bounded (m : nat -> nat -> nat -> R) (x : list (list vec)) :
  unit_mask3 m -> Forall (Forall bounded) x -> Forall (Forall bounded) (dropout3 m x).
Proof.
  intros Hm Hx. unfold dropout3. apply Forall_forall. intros y Hy.
  apply in_imap in Hy. destruct Hy as [b [r [-> [_ Hr]]]].
  apply dropout2_bounded; [intros p d; apply Hm|].
  rewrite Forall_forall in Hx. apply Hx. exact Hr.
Qed.

Lemma blend_bounded (m : R) (o n : vec) :
  0 <= m <= 1 -> bounded o -> bounded n -> bounded (blend m o n).
Proof.
  intros Hm Ho Hn. unfold blend.
  apply (map2_Forall _ (fun x => -1 <= x <= 1) (fun x => -1 <= x <= 1)
                     (fun x => -1 <= x <= 1) o n Ho Hn).
  intros x y Hx Hy. split; nra.
Qed.

Lemma Forall_combine {A B : Type} (P : A -> Prop) (Q : B -> Prop)
    (a : list A) (b : list B) :
  Forall P a -> Forall Q b ->
  Forall (fun p => P (fst p) /\ Q (snd p)) (combine a b).
Proof.
  intros Ha Hb. apply Forall_forall. intros [x y] Hin. cbn [fst snd].
  rewrite Forall_forall in Ha, Hb. split.
  - apply Ha. eapply in_combine_l; eauto.
  - apply Hb. eapply in_combine_r; eauto.
Qed.

Lemma merge_bounded (ql qs : list (list vec)) (qmask : list vec) (q : list (list vec)) :
  Forall (Forall bounded) ql -> Forall (Forall bounded) qs ->
  Forall (Forall (fun m => 0 <= m <= 1)) qmask ->
  merge ql qs qmask = Ok q -> Forall (Forall bounded) q.
Proof.
  intros Hl Hs Hm H. unfold merge in H.
  destruct (check _); cbn [bind] in H; [|discriminate].
  injection H as <-. unfold merge_rows.
  apply (map2_Forall _ (fun lb => Forall bounded (fst lb) /\ Forall bounded (snd lb))
                     (Forall (fun m => 0 <= m <= 1)) (Forall bounded)
                     (combine ql qs) qmask (Forall_combine _ _ ql qs Hl Hs) Hm).
  intros [l s] mb [Hl' Hs'] Hmb. cbn [fst snd] in *.
  apply (map2_Forall _ (fun on => bounded (fst on) /\ bounded (snd on))
                     (fun m => 0 <= m <= 1) bounded
                     (combine l s) mb (Forall_combine _ _ l s Hl' Hs') Hmb).
  intros [o n] m [Ho Hn] Hm'. cbn [fst snd] in *.
  apply blend_bounded; assumption.
Qed.

Lemma select_parties_bounded (e : list (list vec)) (idx : list nat) (sel : list vec) :
  Forall (Forall bounded) e -> _select_parties e idx = Ok sel -> Forall bounded sel.
Proof.
  intros He H. unfold _select_parties in H.
  destruct (mapM _ (combine idx e)) as [l|] eqn:E; cbn [bind] in H; [|discriminate].
  assert (Hb : Forall bounded l).
  { refine (mapM_post _ bounded (combine idx e) l _ E).
    intros [k r] y Hin Hy. cbn [fst snd] in Hy.
    destruct (nth_error r k) as [v|] eqn:Ev; [|discriminate].
    injection Hy as <-. apply nth_error_In in Ev.
    apply in_combine_r in Hin. rewrite Forall_forall in He.
    specialize (He r Hin). unfold bounded in He at 1.
    rewrite Forall_forall in He. apply He. exact Ev. }
  destruct l; [discriminate|]. injection H as <-. exact Hb.
Qed.

Ltac inv1 H x E :=
  match type of H with
  | bind ?m _ = Ok _ =>
      destruct m as [x|] eqn:E; cbn [bind] in H; [|discriminate H]
  end.

Lemma zeros_bounded (d : nat) : bounded (zeros d).
Proof.
  unfold bounded, zeros. apply Forall_forall. intros x Hx.
  apply repeat_spec in Hx. subst x. lra.
Qed.

Lemma init_e0_bounded (cell : DialogueRNNCell) (qmask : list vec) (e0 : estate) :
  estate_bounded e0 -> estate_bounded (init_e0 cell qmask e0).
Proof.
  intros H. unfold init_e0.
  destruct (truthy (cell_party_attention cell)); destruct (e_size0 e0 =? 0)%nat;
    try exact H; simpl.
  - unfold zeros3, zeros2. apply Forall_forall. intros x Hx.
    apply repeat_spec in Hx. subst x. apply Forall_forall. intros y Hy.
    apply repeat_spec in Hy. subst y. apply zeros_bounded.
  - unfold zeros2. apply Forall_forall. intros y Hy.
    apply repeat_spec in Hy. subst y. apply zeros_bounded.
Qed.

Lemma cell_forward_bounded (cell : DialogueRNNCell) (nz : cell_noise)
    (U qmask : list vec) (g_hist : list (list vec)) (q0 : list (list vec))
    (q_hist : list (list (list vec))) (e0 : estate)
    g_ q_ e_ e_out alpha :
  DialogueRNNCell_forward cell nz U qmask g_hist q0 q_hist e0
  = Ok (g_, q_, e_, e_out, alpha) ->
  estate_bounded e0 ->
  unit_mask2 (drop_e nz) -> unit_mask3 (drop_es nz) ->
  Forall (Forall (fun m => 0 <= m <= 1)) qmask ->
  estate_bounded e_ /\ estate_bounded e_out.
Proof.
  intros H Hb0 Hde Hdes Hqm.
  apply (init_e0_bounded cell qmask) in Hb0.
  unfold DialogueRNNCell_forward in H. cbv zeta in H.
  set (e0' := init_e0 cell qmask e0) in *. clearbody e0'.
  set (pa := cell_party_attention cell) in *. clearbody pa.
  inv1 H qm_idx Eidx. inv1 H q0_sel Eq0s. inv1 H e0_sel Ee0.
  inv1 H inp Einp. inv1 H inp0 Einp0. inv1 H g Eg. inv1 H gca Egc.
  inv1 H ugc Eugc. inv1 H ugc0 Eugc0. inv1 H qs Eqs. inv1 H q Emq.
  inv1 H e Ee. inv1 H eo Eout.
  injection H as _ _ <- <- _.
  destruct pa as [s|].
  - (* party-attention mode *)
    inv1 Ee QQp EQ. inv1 Ee u Echk.
    destruct e0' as [m|el_]; [discriminate Ee|].
    inv1 Ee es Ees. inv1 Ee e3 Em. injection Ee as <-.
    assert (He3 : Forall (Forall bounded) e3).
    { apply (merge_bounded el_ (dropout3 (drop_es nz) es) qmask e3); auto.
      apply dropout3_bounded; [exact Hdes|].
      apply (gru3_bounded _ _ _ _ Hb0 Ees). }
    split; [exact He3|].
    destruct (truthy (Some s)).
    + inv1 Eout sel Esel. injection Eout as <-.
      apply (select_parties_bounded e3 qm_idx sel He3 Esel).
    + injection Eout as <-. exact He3.
  - (* global emotion state *)
    cbn [truthy] in Ee0, Eout.
    destruct e0' as [m|el_]; [|discriminate Ee0].
    injection Ee0 as <-. injection Eout as <-.
    inv1 Ee sel Esel. inv1 Ee y Ey. injection Ee as <-.
    assert (Hy : Forall bounded (dropout2 (drop_e nz) y)).
    { apply dropout2_bounded; [exact Hde|].
      apply (GRUCell_forward_bounded _ _ _ _ Hb0 Ey). }
    split; exact Hy.
Qed.

Lemma DialogueRNN_loop_bounded (rnn : DialogueRNN) (noise : nat -> cell_noise)
    (steps : list (list vec * list vec)) :
  (forall t, unit_mask2 (drop_e (noise t)) /\ unit_mask3 (drop_es (noise t))) ->
  Forall (fun s => Forall (Forall (fun m => 0 <= m <= 1)) (snd s)) steps ->
  forall (t : nat) (q_ : list (list vec)) (e_ : estate) e c alpha,
    estate_bounded e_ ->
    DialogueRNN_loop rnn noise t steps q_ e_ = Ok (e, c, alpha) ->
    Forall estate_bounded e /\ Forall estate_bounded c.
Proof.
  intros Hnz. induction steps as [|[u_ qm] steps IH]; intros Hsteps t q_ e_ e c alpha Hb H.
  - simpl in H. injection H as <- <- _. split; constructor.
  - apply Forall_cons_iff in Hsteps. destruct Hsteps as [Hqm Hrest].
    cbn [snd] in Hqm.
    cbn [DialogueRNN_loop] in H.
    inv1 H r Ecell. destruct r as [[[[g_ q_'] e_'] c_] alpha_].
    destruct (Hnz t) as [Hde Hdes].
    destruct (cell_forward_bounded _ _ _ _ _ _ _ _ _ _ _ _ _ Ecell Hb Hde Hdes Hqm)
      as [He' Hc].
    inv1 H e_t Eet. inv1 H rest Erest. destruct rest as [[es cs] als].
    injection H as <- <- _.
    destruct (IH Hrest (S t) q_' e_' es cs als He' Erest) as [Hes Hcs].
    split; [|constructor; assumption].
    constructor; [|exact Hes].
    destruct (rnn_party_attention rnn) as [s|].
    + inv1 Eet idx Eidx.
      destruct e_' as [e2|e3].
      * inv1 Eet x Ex. discriminate Eet.
      * inv1 Eet sel Esel. injection Eet as <-.
        apply (select_parties_bounded e3 idx sel He' Esel).
    + injection Eet as <-. exact He'.
Qed.

(** X28.  With dropout masks that only keep or drop (evaluation mode) and
    speaker masks with entries between 0 and 1, the emotion state stays
    between -1 and 1 through every step: every entry of every emotion
    output of the runner lies in [-1, 1]. *)
Theorem runner_outputs_bounded (th : params) (name : string)
    (D_m D_g D_p D_e party : nat) (ca pa : option string) (D_a : nat)
    (rnn : DialogueRNN) (B T : nat) (noise : nat -> cell_noise)
    (U qmask : list (list vec)) :
  DialogueRNN_init th name D_m D_g D_p D_e party ca pa D_a = Ok rnn ->
  valid_config D_m D_g D_p party ca pa ->
  (1 <= B)%nat -> (1 <= T)%nat ->
  has_shape3 T B D_m U = true ->
  has_shape3 T B party qmask = true ->
  (forall t, unit_mask2 (drop_e (noise t)) /\ unit_mask3 (drop_es (noise t))) ->
  Forall (Forall (Forall (fun m => 0 <= m <= 1))) qmask ->
  exists e alpha,
    DialogueRNN_forward rnn noise U qmask = Ok (e, e, alpha) /\
    length e = T /\
    Forall estate_bounded e.
Proof.
  intros Hinit Hcfg HB HT HU Hq Hnz Hqm.
  destruct (DialogueRNN_forward_ok th name D_m D_g D_p D_e party ca pa D_a rnn B T
              noise U qmask Hinit Hcfg HB HT HU Hq) as [e [alpha [Hf [Hle _]]]].
  exists e, alpha. split; [exact Hf|]. split; [exact Hle|].
  unfold DialogueRNN_forward in Hf.
  inv1 Hf r Eloop. destruct r as [[es cs] als].
  inv1 Hf st_e Es1. inv1 Hf st_c Es2. injection Hf as <- _ _.
  apply stack_inv in Es1. subst st_e.
  refine (proj1 (DialogueRNN_loop_bounded rnn noise (combine U qmask) Hnz _
                   0%nat [] (E2 []) es cs als _ Eloop)).
  - apply Forall_forall. intros [u q] Hin. cbn [snd].
    apply in_combine_r in Hin. rewrite Forall_forall in Hqm. apply Hqm. exact Hin.
  - constructor.
Qed.

Lemma runner_outputs_bounded_witness :
  exists rnn,
    DialogueRNN_init th0 "rnn" 1 2 1 1 2 (Some "general"%string)
      (Some "general"%string) 1 = Ok rnn /\
    exists e alpha,
      DialogueRNN_forward rnn (fun _ => eval_noise)
        [[[1]]; [[2]]] [[[1; 0]]; [[0; 1]]] = Ok (e, e, alpha) /\
      length e = 2%nat /\
      Forall estate_bounded e.
Proof.
  eexists. split; [reflexivity|].
  apply (runner_outputs_bounded th0 "rnn"%string 1 2 1 1 2
           (Some "general"%string) (Some "general"%string) 1 _ 1 2
           (fun _ => eval_noise) [[[1]]; [[2]]] [[[1; 0]]; [[0; 1]]] eq_refl).
  - split.
    + exists "general"%string. split; [reflexivity|].
      split; [right; left; reflexivity|discriminate].
    + split; [right; left; reflexivity|]. split; [discriminate|lia].
  - lia.
  - lia.
  - reflexivity.
  - reflexivity.
  - intros t. split; [intros b d|intros b p d]; simpl; lra.
  - repeat constructor; lra.
Defined.

(** ** The masked loss on a full mask and on ignored targets *)

Lemma Rsum_ones (n : nat) : Rsum (ones n) = INR n.
Proof.
  unfold ones. induction n as [|n IH]; [reflexivity|].
  cbn [repeat Rsum fold_right]. unfold Rsum in IH. rewrite IH, S_INR. ring.
Qed.

Lemma Rsum_const (c : R) {A : Type} (l : list A) :
  Rsum (map (fun _ => c) l) = c * INR (length l).
Proof.
  induction l as [|x l IH]; [simpl; ring|].
  cbn [map Rsum fold_right length]. unfold Rsum in IH. rewrite IH, S_INR. ring.
Qed.

Lemma valid_positions_ones (n : nat) : valid_positions (ones n) = seq 0 n.
Proof.
  unfold valid_positions, ones. rewrite repeat_length.
  apply forallb_filter_id. apply forallb_forall. intros i Hi.
  apply in_seq in Hi. rewrite nth_repeat_lt by lia.
  destruct (Req_dec_T 1 1) as [_|E]; [reflexivity|congruence].
Qed.

(** X29.  On a mask of ones and without class weights the masked loss is
    the mean negative log-likelihood: the sum of the negated predictions at
    the targets, divided by the number of positions. *)
Theorem masked_loss_full_mask_is_mean (pred : list vec) (target : list Z)
    (mask : list vec) (N C : nat) :
  (1 <= N)%nat ->
  has_shape2 N C pred = true ->
  length target = N ->
  concat mask = ones N ->
  Forall (fun t => (0 <= t < Z.of_nat C)%Z) target ->
  MaskedNLLLoss_forward None pred target mask
  = Ok (Some (Rsum (map (fun i => - nth (Z.to_nat (nth i target 0%Z)) (nth i pred []) 0)
                        (seq 0 N))
              / INR N)).
Proof.
  intros HN Hp Ht Hm Hrange.
  rewrite (MaskedNLLLoss_forward_spec None pred target mask N C HN Hp Ht).
  - unfold masked_nll_spec. rewrite Hm, valid_positions_ones.
    cbn [class_weight]. rewrite (Rsum_const 1), length_seq, Rmult_1_l.
    unfold fdiv. destruct (Req_dec_T (INR N) 0) as [E|_].
    + exfalso. apply (not_0_INR N); [lia|exact E].
    + do 4 f_equal. apply map_ext. intros i. ring.
  - rewrite Hm. unfold ones. apply repeat_length.
  - exact Hrange.
  - exact I.
  - rewrite Hm. unfold ones. apply Forall_forall. intros m Hin.
    apply repeat_spec in Hin. right. exact Hin.
Qed.

Lemma masked_loss_full_mask_is_mean_witness :
  MaskedNLLLoss_forward None [[-1; -2]; [-3; -4]] [0%Z; 1%Z] [[1; 1]]
  = Ok (Some (Rsum (map (fun i => - nth (Z.to_nat (nth i [0%Z; 1%Z] 0%Z))
                                        (nth i [[-1; -2]; [-3; -4]] []) 0)
                        (seq 0 2))
              / INR 2)).
Proof.
  apply (masked_loss_full_mask_is_mean [[-1; -2]; [-3; -4]] [0%Z; 1%Z] [[1; 1]] 2 2).
  - lia.
  - reflexivity.
  - reflexivity.
  - reflexivity.
  - constructor; [lia|]. constructor; [lia|constructor].
Defined.

(** X30.  The ignore index of the inner loss meets the mask only half way.
    Without class weights an ignored target adds nothing to the sum and is
    still counted by the divisor, so a batch of ignored targets under a
    mask of ones has loss 0; with class weights for fewer than 100 classes
    the lookup of the weight of an ignored target raises [IndexError]. *)
Theorem masked_loss_ignore_index (pred : list vec) (target : list Z)
    (mask : list vec) (N C : nat) :
  (1 <= N)%nat ->
  has_shape2 N C pred = true ->
  length target = N ->
  concat mask = ones N ->
  (target = repeat (-100)%Z N ->
   MaskedNLLLoss_forward None pred target mask = Ok (Some 0)) /\
  (forall w i, length w = C -> (C < 100)%nat -> (i < N)%nat ->
     nth i target 0%Z = (-100)%Z ->
     Forall (fun t => t = (-100)%Z \/ (0 <= t < Z.of_nat C)%Z) target ->
     MaskedNLLLoss_forward (Some w) pred target mask = Raise IndexError).
Proof.
  intros HN Hp Ht Hm.
  assert (Hlp : length pred = N) by (apply has_shape2_true in Hp; tauto).
  assert (Hlm : length (concat mask) = N).
  { rewrite Hm. unfold ones. apply repeat_length. }
  split.
  - intros Htar. unfold MaskedNLLLoss_forward.
    rewrite mul_rows_eq by lia. cbn [bind].
    set (masked := map2 _ pred (concat mask)).
    assert (Hlmk : length masked = N) by (unfold masked; rewrite map2_length; lia).
    unfold nll_loss_sum.
    rewrite (proj2 (Nat.eqb_eq (length masked) (length target))) by lia.
    cbn [check bind].
    rewrite (mapM_map _ (fun _ => 0)).
    2:{ intros [row t] Hin. cbn [fst snd]. apply in_combine_r in Hin.
        rewrite Htar in Hin. apply repeat_spec in Hin. subst t. reflexivity. }
    cbn [bind]. rewrite (Rsum_const 0), Rmult_0_l, Hm, Rsum_ones.
    unfold fdiv. destruct (Req_dec_T (INR N) 0) as [E|_].
    + exfalso. apply (not_0_INR N); [lia|exact E].
    + f_equal. f_equal. unfold Rdiv. ring.
  - intros w i Hw HC Hi Hign Hall. unfold MaskedNLLLoss_forward.
    rewrite mul_rows_eq by lia. cbn [bind].
    set (masked := map2 _ pred (concat mask)).
    assert (Hlmk : length masked = N) by (unfold masked; rewrite map2_length; lia).
    assert (Hrow : forall j, (j < N)%nat -> length (nth j masked []) = C).
    { intros j Hj. unfold masked.
      rewrite (map2_nth _ pred (concat mask) j [] 0 []) by lia.
      rewrite length_map. apply (has_shape2_nth N C pred j Hp Hj). }
    assert (Hnum : exists num, nll_loss_sum (Some w) masked target = Ok num).
    { unfold nll_loss_sum.
      rewrite (proj2 (Nat.eqb_eq (length masked) (length target))) by lia.
      cbn [bind].
      rewrite check_true.
      2:{ apply Nat.eqb_eq. rewrite Hw. unfold size1.
          destruct masked as [|r0 ms] eqn:E; [simpl in Hlmk; lia|].
          simpl. symmetry. apply (Hrow 0%nat). lia. }
      cbn [bind].
      rewrite (mapM_map _ (fun p : vec * Z =>
                             if (snd p =? -100)%Z then 0
                             else - (nth (Z.to_nat (snd p)) w 0
                                     * nth (Z.to_nat (snd p)) (fst p) 0))).
      - cbn [bind]. eexists. reflexivity.
      - intros [row t] Hin. cbn [fst snd]. unfold nll_term.
        destruct (Z.eqb_spec t (-100)) as [E|E]; [reflexivity|].
        pose proof (in_combine_l _ _ _ _ Hin) as Hr.
        pose proof (in_combine_r _ _ _ _ Hin) as Htin.
        rewrite Forall_forall in Hall.
        destruct (Hall t Htin) as [E'|Hrange]; [contradiction|].
        apply (In_nth _ _ []) in Hr. destruct Hr as [j [Hj <-]].
        rewrite Hrow by lia.
        destruct (Z.leb_spec 0 t); [|lia].
        destruct (Z.ltb_spec t (Z.of_nat C)); [|lia].
        reflexivity. }
    destruct Hnum as [num Hnum]. rewrite Hnum. cbn [bind].
    rewrite (mapM_raise_at (weight_at w) IndexError target 0%Z i);
      [reflexivity| |lia|].
    + intros t e'. unfold weight_at.
      destruct (py_index (length w) t) as [k|e''] eqn:Ek; cbn [bind]; [discriminate|].
      intros H; injection H as <-. unfold py_index in Ek.
      destruct ((0 <=? t)%Z && (t <? Z.of_nat (length w))%Z); [discriminate|].
      destruct ((t <? 0)%Z && (- Z.of_nat (length w) <=? t)%Z); [discriminate|].
      injection Ek as <-. reflexivity.
    + rewrite Hign. unfold weight_at, py_index. rewrite Hw.
      destruct (Z.leb_spec 0 (-100)) as [H0|H0]; [lia|]. cbn [andb].
      destruct (Z.ltb_spec (-100) 0) as [H1|H1]; [|lia].
      destruct (Z.leb_spec (- Z.of_nat C) (-100)) as [H2|H2]; [lia|].
      reflexivity.
Qed.

Lemma masked_loss_ignore_index_witness :
  MaskedNLLLoss_forward None [[-1; -2]; [-3; -4]] [(-100)%Z; (-100)%Z] [[1; 1]]
  = Ok (Some 0) /\
  MaskedNLLLoss_forward (Some [1; 2]) [[-1; -2]; [-3; -4]] [0%Z; (-100)%Z] [[1; 1]]
  = Raise IndexError.
Proof.
  split.
  - apply (proj1 (masked_loss_ignore_index [[-1; -2]; [-3; -4]]
                    [(-100)%Z; (-100)%Z] [[1; 1]] 2 2
                    ltac:(lia) eq_refl eq_refl eq_refl)).
    reflexivity.
  - apply (proj2 (masked_loss_ignore_index [[-1; -2]; [-3; -4]]
                    [0%Z; (-100)%Z] [[1; 1]] 2 2
                    ltac:(lia) eq_refl eq_refl eq_refl) [1; 2] 1%nat).
    + reflexivity.
    + lia.
    + lia.
    + reflexivity.
    + constructor; [right; lia|]. constructor; [left; reflexivity|constructor].
Defined.
